(** * update-aws-ip-ranges: a shallow embedding of [update_aws_ip_ranges.py]

    The Lambda reconciles the published AWS IP ranges with WAF IP sets and
    VPC managed prefix lists.  This development embeds

    - the part of CPython's [ipaddress] module the program calls
      (parsing of IPv4/IPv6 networks in strict mode, comparison, [supernet],
      [collapse_addresses], the [with_prefixlen] and [exploded] renderings),
    - the data classes [IPv4List], [IPv6List], [ServiceIPRange],
    - [get_ranges_for_service],
    - the WAF IP set and prefix list functions, run against an arbitrary
      deterministic backend that answers every boto3 call, with the calls,
      sleeps and logged errors recorded in a trace,
    - [lambda_handler].

    Python [int] is [Z]; [str] is [string] (the program only handles ASCII
    resource names and CIDR text); a [dict] indexed by name is a [gmap]; the
    dict of current entries, whose iteration order the program observes, is
    an association list in insertion order. *)

From Equations Require Import Equations.
From stdpp Require Import gmap strings list.
From Stdlib Require Import ZArith Lia Ascii Sorting.Sorted.
From Stdlib Require String.

Local Open Scope string_scope.
Local Open Scope Z_scope.

(** ** Exceptions and results *)

Inductive exn : Type :=
  | AddressValueError
  | NetmaskValueError
  | ValueError
  | TypeError
  | KeyError
  | IndexError
  | ClientError
  | Exception (msg : string).

(** A Python call either returns, raises, or (for the two unbounded
    pagination loops) is still running when the step budget is used up. *)
Inductive result (A : Type) : Type :=
  | Ok (a : A)
  | Raise (e : exn)
  | OutOfFuel.
Arguments Ok {A} a.
Arguments Raise {A} e.
Arguments OutOfFuel {A}.

Definition rbind {A B} (r : result A) (k : A -> result B) : result B :=
  match r with
  | Ok a => k a
  | Raise e => Raise e
  | OutOfFuel => OutOfFuel
  end.

Fixpoint rmapM {A B} (f : A -> result B) (l : list A) : result (list B) :=
  match l with
  | [] => Ok []
  | x :: l' => rbind (f x) (fun y => rbind (rmapM f l') (fun ys => Ok (y :: ys)))
  end.

(** ** Strings *)

Module Str.

(** [str.split(sep)] for a one-character separator. *)
Fixpoint split (sep : ascii) (s : string) : list string :=
  match s with
  | EmptyString => [EmptyString]
  | String c s' =>
      if Ascii.eqb c sep then EmptyString :: split sep s'
      else match split sep s' with
           | [] => [String c EmptyString]
           | w :: ws => String c w :: ws
           end
  end.

(** [sep.join(parts)] *)
Fixpoint join (sep : string) (parts : list string) : string :=
  match parts with
  | [] => EmptyString
  | [p] => p
  | p :: ps => p ++ sep ++ join sep ps
  end.

Fixpoint forallb (p : ascii -> bool) (s : string) : bool :=
  match s with
  | EmptyString => true
  | String c s' => p c && forallb p s'
  end.

Fixpoint contains (c : ascii) (s : string) : bool :=
  match s with
  | EmptyString => false
  | String c' s' => Ascii.eqb c c' || contains c s'
  end.

Definition len (s : string) : Z := Z.of_nat (String.length s).

Definition is_digit (c : ascii) : bool :=
  let n := Z.of_N (N_of_ascii c) in (48 <=? n) && (n <=? 57).

Definition digit_val (c : ascii) : Z := Z.of_N (N_of_ascii c) - 48.

Definition is_hex (c : ascii) : bool :=
  let n := Z.of_N (N_of_ascii c) in
  ((48 <=? n) && (n <=? 57)) || ((65 <=? n) && (n <=? 70)) || ((97 <=? n) && (n <=? 102)).

Definition hex_val (c : ascii) : Z :=
  let n := Z.of_N (N_of_ascii c) in
  if n <=? 57 then n - 48 else if n <=? 70 then n - 55 else n - 87.

(** [int(s, 10)] and [int(s, 16)] on a string of digits. *)
Fixpoint int_digits (base : Z) (val : ascii -> Z) (acc : Z) (s : string) : Z :=
  match s with
  | EmptyString => acc
  | String c s' => int_digits base val (acc * base + val c) s'
  end.
Definition int10 (s : string) : Z := int_digits 10 digit_val 0 s.
Definition int16 (s : string) : Z := int_digits 16 hex_val 0 s.

Definition digit_char (d : Z) : ascii :=
  ascii_of_N (Z.to_N (if d <? 10 then 48 + d else 87 + d)).

(** ['%d' % n] and ['%x' % n] for [0 <= n]: most significant digit first,
    ["0"] for zero. *)
Fixpoint digits_of (base : Z) (fuel : nat) (n : Z) (acc : string) : string :=
  match fuel with
  | O => acc
  | S fuel' =>
      let acc' := String (digit_char (n mod base)) acc in
      if n / base =? 0 then acc' else digits_of base fuel' (n / base) acc'
  end.
Definition of_int (base : Z) (n : Z) : string :=
  digits_of base (S (Z.to_nat (Z.log2 n))) n EmptyString.
Definition dec (n : Z) : string := of_int 10 n.
Definition hex (n : Z) : string := of_int 16 n.

(** [str(n)] of an int. *)
Definition of_Z (n : Z) : string :=
  if n <? 0 then String "-" (dec (- n)) else dec n.

(** ['%04x' % n] *)
Definition hex4 (n : Z) : string :=
  String (digit_char (n / 4096 mod 16))
    (String (digit_char (n / 256 mod 16))
       (String (digit_char (n / 16 mod 16))
          (String (digit_char (n mod 16)) EmptyString))).

(** [str.lower()] and [str.upper()] on ASCII text. *)
Definition lower_char (c : ascii) : ascii :=
  let n := N_of_ascii c in
  if ((65 <=? n) && (n <=? 90))%N then ascii_of_N (n + 32) else c.
Definition upper_char (c : ascii) : ascii :=
  let n := N_of_ascii c in
  if ((97 <=? n) && (n <=? 122))%N then ascii_of_N (n - 32) else c.
Fixpoint map (f : ascii -> ascii) (s : string) : string :=
  match s with
  | EmptyString => EmptyString
  | String c s' => String (f c) (map f s')
  end.
Definition lower := map lower_char.
Definition upper := map upper_char.

(** [s.replace(a, b)] for one-character [a] and [b]. *)
Definition replace_char (a b : ascii) : string -> string :=
  map (fun c => if Ascii.eqb c a then b else c).

End Str.

(** ** Networks of the [ipaddress] module *)

Inductive version : Type := V4 | V6.

Global Instance version_eq_dec : EqDecision version.
Proof. solve_decision. Defined.

(** [max_prefixlen]: 32 for IPv4, 128 for IPv6. *)
Definition max_prefixlen (v : version) : Z :=
  match v with V4 => 32 | V6 => 128 end.

(** [_ALL_ONES = 2**max_prefixlen - 1] *)
Definition ALL_ONES (v : version) : Z := Z.ones (max_prefixlen v).

(** An [IPv4Network] / [IPv6Network] object: its version, the integer of
    its [network_address] and its [_prefixlen] (the netmask is computed from
    the prefix length, as [_make_netmask] does). *)
Record Network : Type := mkNetwork {
  net_version : version;
  network_address : Z;
  prefixlen : Z
}.

Global Instance Network_eq_dec : EqDecision Network.
Proof. solve_decision. Defined.

(** [_ip_int_from_prefix]: [_ALL_ONES ^ (_ALL_ONES >> prefixlen)] *)
Definition ip_int_from_prefix (v : version) (p : Z) : Z :=
  Z.lxor (ALL_ONES v) (Z.shiftr (ALL_ONES v) p).

Definition netmask (n : Network) : Z :=
  ip_int_from_prefix (net_version n) (prefixlen n).

(** [hostmask = netmask ^ _ALL_ONES] *)
Definition hostmask (n : Network) : Z :=
  Z.lxor (netmask n) (ALL_ONES (net_version n)).

(** [broadcast_address = network_address | hostmask] *)
Definition broadcast_address (n : Network) : Z :=
  Z.lor (network_address n) (hostmask n).

(** [_BaseNetwork.__lt__]: by network address, then by netmask. *)
Definition net_ltb (a b : Network) : bool :=
  if negb (network_address a =? network_address b)
  then network_address a <? network_address b
  else if negb (netmask a =? netmask b)
  then netmask a <? netmask b
  else false.

(** [supernet()] with the default [prefixlen_diff=1]. *)
Definition supernet (n : Network) : Network :=
  if prefixlen n =? 0 then n
  else mkNetwork (net_version n)
         (Z.land (network_address n) (Z.shiftl (netmask n) 1))
         (prefixlen n - 1).

(** The addresses of a network: from the network address to the broadcast
    address. *)
Definition contains (n : Network) (a : Z) : Prop :=
  network_address n <= a <= broadcast_address n.

(** A network as the strict constructors build it. *)
Record wf_net (n : Network) : Prop := {
  wf_prefix : 0 <= prefixlen n <= max_prefixlen (net_version n);
  wf_range : 0 <= network_address n < 2 ^ max_prefixlen (net_version n);
  wf_aligned : Z.land (network_address n) (netmask n) = network_address n
}.

(** ** Text form of IPv4 networks ([IPv4Network(addr)], strict) *)

Module IPv4.

(** [_parse_octet]; every failure is a [ValueError], which the caller
    turns into [AddressValueError]. *)
Definition parse_octet (s : string) : option Z :=
  match s with
  | EmptyString => None
  | String c0 _ =>
      if negb (Str.forallb Str.is_digit s) then None
      else if 3 <? Str.len s then None
      else if negb (String.eqb s "0") && Ascii.eqb c0 "0" then None
      else let n := Str.int10 s in
           if 255 <? n then None else Some n
  end.

Fixpoint parse_octets (l : list string) : option (list Z) :=
  match l with
  | [] => Some []
  | s :: l' =>
      match parse_octet s with
      | None => None
      | Some o => match parse_octets l' with
                  | None => None
                  | Some os => Some (o :: os)
                  end
      end
  end.

(** [int.from_bytes(octets, 'big')] *)
Definition from_bytes (l : list Z) : Z :=
  fold_left (fun acc o => acc * 256 + o) l 0.

(** [_ip_int_from_string] *)
Definition ip_int_from_string (s : string) : result Z :=
  if String.eqb s "" then Raise AddressValueError
  else
    let octets := Str.split "." s in
    if negb (Z.of_nat (length octets) =? 4) then Raise AddressValueError
    else match parse_octets octets with
         | None => Raise AddressValueError
         | Some os => Ok (from_bytes os)
         end.

(** [IPv4Address(addr_str)] for a string argument: the integer [_ip]. *)
Definition IPv4Address (s : string) : result Z :=
  if Str.contains "/" s then Raise AddressValueError
  else ip_int_from_string s.

(** [_prefix_from_prefix_string] (shared with IPv6 through [v]). *)
Definition prefix_from_prefix_string (v : version) (s : string) : result Z :=
  if negb (negb (String.eqb s "") && Str.forallb Str.is_digit s)
  then Raise NetmaskValueError
  else let p := Str.int10 s in
       if negb ((0 <=? p) && (p <=? max_prefixlen v)) then Raise NetmaskValueError
       else Ok p.

(** [int.bit_length()] of a non-negative integer. *)
Definition bit_length (x : Z) : Z := if x =? 0 then 0 else Z.log2 x + 1.

(** [_count_righthand_zero_bits] *)
Definition count_righthand_zero_bits (number bits : Z) : Z :=
  if number =? 0 then bits
  else Z.min bits (bit_length (Z.land (Z.lnot number) (number - 1))).

(** [_prefix_from_ip_int]; [None] is its [ValueError]. *)
Definition prefix_from_ip_int (v : version) (ip_int : Z) : option Z :=
  let trailing_zeroes := count_righthand_zero_bits ip_int (max_prefixlen v) in
  let p := max_prefixlen v - trailing_zeroes in
  let leading_ones := Z.shiftr ip_int trailing_zeroes in
  let all_ones := Z.shiftl 1 p - 1 in
  if negb (leading_ones =? all_ones) then None else Some p.

(** [_prefix_from_ip_string]: a dotted netmask, else a dotted hostmask. *)
Definition prefix_from_ip_string (s : string) : result Z :=
  match ip_int_from_string s with
  | Ok ip_int =>
      match prefix_from_ip_int V4 ip_int with
      | Some p => Ok p
      | None =>
          match prefix_from_ip_int V4 (Z.lxor ip_int (ALL_ONES V4)) with
          | Some p => Ok p
          | None => Raise NetmaskValueError
          end
      end
  | _ => Raise NetmaskValueError
  end.

(** [_make_netmask] on the text after the slash. *)
Definition make_netmask (s : string) : result Z :=
  match prefix_from_prefix_string V4 s with
  | Raise NetmaskValueError => prefix_from_ip_string s
  | r => r
  end.

(** [IPv4Network(address)] with the default [strict=True]. *)
Definition IPv4Network (address : string) : result Network :=
  match Str.split "/" address with
  | [addr] =>
      rbind (IPv4Address addr) (fun ip =>
      let n := mkNetwork V4 ip 32 in
      if negb (Z.land ip (netmask n) =? ip) then Raise ValueError else Ok n)
  | [addr; mask] =>
      rbind (IPv4Address addr) (fun ip =>
      rbind (make_netmask mask) (fun p =>
      let n := mkNetwork V4 ip p in
      if negb (Z.land ip (netmask n) =? ip) then Raise ValueError else Ok n))
  | _ => Raise AddressValueError
  end.

(** [str(IPv4Address)]: dotted decimal. *)
Definition string_from_ip_int (ip : Z) : string :=
  Str.join "." (map (fun sh => Str.dec (Z.land (Z.shiftr ip sh) 255)) [24; 16; 8; 0]).

(** [IPv4Network.with_prefixlen] *)
Definition with_prefixlen (n : Network) : string :=
  string_from_ip_int (network_address n) ++ "/" ++ Str.dec (prefixlen n).

End IPv4.

(** ** Text form of IPv6 networks ([IPv6Network(addr)], strict)

    Zone identifiers ([fe80::1%eth0]) are not part of the model: a text with
    a [%] is rejected here.  CPython keeps the zone in the address: it
    accepts [fe80::%eth0/64], tells networks of different zones apart,
    prints the zone in [with_prefixlen] and raises [AddressValueError] in
    [exploded].  The feed, the IP sets and the prefix lists hold CIDR
    blocks, which have no zone. *)

Module IPv6.

(** [_parse_hextet]; every failure is a [ValueError]. *)
Definition parse_hextet (s : string) : option Z :=
  if negb (Str.forallb Str.is_hex s) then None
  else if 4 <? Str.len s then None
  else if String.eqb s "" then None
  else Some (Str.int16 s).

(** The two loops of [_ip_int_from_string] that shift hextets in. *)
Fixpoint shift_in (ip_int : Z) (parts : list string) : option Z :=
  match parts with
  | [] => Some ip_int
  | s :: parts' =>
      match parse_hextet s with
      | None => None
      | Some h => shift_in (Z.lor (Z.shiftl ip_int 16) h) parts'
      end
  end.

(** The search for ['::']: the indices [1 .. len(parts) - 2] holding an
    empty part. *)
Fixpoint find_skip (i : nat) (inner : list string) (skip : option nat)
  : option (option nat) :=
  match inner with
  | [] => Some skip
  | s :: inner' =>
      if String.eqb s ""
      then match skip with
           | Some _ => None
           | None => find_skip (S i) inner' (Some i)
           end
      else find_skip (S i) inner' skip
  end.

Definition is_empty (s : string) : bool := String.eqb s "".

(** [_ip_int_from_string] *)
Definition ip_int_from_string (s : string) : result Z :=
  if String.eqb s "" then Raise AddressValueError
  else
    let parts0 := Str.split ":" s in
    if (length parts0 <? 3)%nat then Raise AddressValueError
    else
      let last0 := List.last parts0 "" in
      let with_v4 : result (list string) :=
        if Str.contains "." last0
        then match IPv4.IPv4Address last0 with
             | Ok ipv4_int =>
                 Ok (removelast parts0 ++
                     [Str.hex (Z.land (Z.shiftr ipv4_int 16) 65535);
                      Str.hex (Z.land ipv4_int 65535)])%list
             | _ => Raise AddressValueError
             end
        else Ok parts0 in
      rbind with_v4 (fun parts =>
      let n := length parts in
      if (9 <? n)%nat then Raise AddressValueError
      else
        match find_skip 1 (removelast (tail parts)) None with
        | None => Raise AddressValueError
        | Some (Some skip_index) =>
            let hi0 := skip_index in
            let lo0 := (n - skip_index - 1)%nat in
            let first_empty := is_empty (List.hd "" parts) in
            let last_empty := is_empty (List.last parts "") in
            let parts_hi := if first_empty then (hi0 - 1)%nat else hi0 in
            let parts_lo := if last_empty then (lo0 - 1)%nat else lo0 in
            if first_empty && negb (parts_hi =? 0)%nat then Raise AddressValueError
            else if last_empty && negb (parts_lo =? 0)%nat then Raise AddressValueError
            else if (8 <? parts_hi + parts_lo + 1)%nat then Raise AddressValueError
            else
              let parts_skipped := (8 - (parts_hi + parts_lo))%nat in
              match shift_in 0 (take parts_hi parts) with
              | None => Raise AddressValueError
              | Some hi =>
                  match shift_in (Z.shiftl hi (16 * Z.of_nat parts_skipped))
                          (drop (n - parts_lo) parts) with
                  | None => Raise AddressValueError
                  | Some ip => Ok ip
                  end
              end
        | Some None =>
            if negb (n =? 8)%nat then Raise AddressValueError
            else if is_empty (List.hd "" parts) then Raise AddressValueError
            else if is_empty (List.last parts "") then Raise AddressValueError
            else match shift_in 0 parts with
                 | None => Raise AddressValueError
                 | Some ip => Ok ip
                 end
        end).

(** [IPv6Address(addr_str)] for a string argument. *)
Definition IPv6Address (s : string) : result Z :=
  if Str.contains "/" s then Raise AddressValueError
  else ip_int_from_string s.

(** [IPv6Network(address)] with the default [strict=True]. *)
Definition IPv6Network (address : string) : result Network :=
  match Str.split "/" address with
  | [addr] =>
      rbind (IPv6Address addr) (fun ip =>
      let n := mkNetwork V6 ip 128 in
      if negb (Z.land ip (netmask n) =? ip) then Raise ValueError else Ok n)
  | [addr; mask] =>
      rbind (IPv6Address addr) (fun ip =>
      rbind (IPv4.prefix_from_prefix_string V6 mask) (fun p =>
      let n := mkNetwork V6 ip p in
      if negb (Z.land ip (netmask n) =? ip) then Raise ValueError else Ok n))
  | _ => Raise AddressValueError
  end.

(** The eight 16-bit groups of an address, most significant first. *)
Definition hextets (ip : Z) : list Z :=
  map (fun sh => Z.land (Z.shiftr ip sh) 65535) [112; 96; 80; 64; 48; 32; 16; 0].

(** [exploded] of an [IPv6Network]: every group as four hex digits. *)
Definition exploded (n : Network) : string :=
  Str.join ":" (map Str.hex4 (hextets (network_address n)))
    ++ "/" ++ Str.dec (prefixlen n).

(** The scan of [_compress_hextets]: the first longest run of ["0"]
    groups, as (start, length). *)
Fixpoint best_run (hs : list string) (index : nat)
    (best_start best_len : nat) (start : option nat) (len : nat) : nat * nat :=
  match hs with
  | [] => (best_start, best_len)
  | h :: hs' =>
      if String.eqb h "0"
      then let len' := S len in
           let start' := match start with Some s => s | None => index end in
           if (best_len <? len')%nat
           then best_run hs' (S index) start' len' (Some start') len'
           else best_run hs' (S index) best_start best_len (Some start') len'
      else best_run hs' (S index) best_start best_len None 0%nat
  end.

(** [_compress_hextets] *)
Definition compress_hextets (hs : list string) : list string :=
  let '(best_start, best_len) := best_run hs 0%nat 0%nat 0%nat None 0%nat in
  if (1 <? best_len)%nat
  then
    let best_end := (best_start + best_len)%nat in
    let hs1 := if (best_end =? length hs)%nat then (hs ++ [""])%list else hs in
    let hs2 := (take best_start hs1 ++ [""] ++ drop best_end hs1)%list in
    if (best_start =? 0)%nat then "" :: hs2 else hs2
  else hs.

(** [str(IPv6Address)]: the compressed form. *)
Definition string_from_ip_int (ip : Z) : string :=
  Str.join ":" (compress_hextets (map Str.hex (hextets ip))).

(** [IPv6Network.with_prefixlen] *)
Definition with_prefixlen (n : Network) : string :=
  string_from_ip_int (network_address n) ++ "/" ++ Str.dec (prefixlen n).

End IPv6.

(** [ipaddress.ip_network(address)]: IPv4 first, then IPv6; a host-bits
    [ValueError] of the IPv4 attempt is not caught. *)
Definition ip_network (address : string) : result Network :=
  match IPv4.IPv4Network address with
  | Raise AddressValueError | Raise NetmaskValueError =>
      match IPv6.IPv6Network address with
      | Raise AddressValueError | Raise NetmaskValueError => Raise ValueError
      | r => r
      end
  | r => r
  end.

(** [net.with_prefixlen] on either class. *)
Definition with_prefixlen (n : Network) : string :=
  match net_version n with
  | V4 => IPv4.with_prefixlen n
  | V6 => IPv6.with_prefixlen n
  end.

(** ** Sorting

    [sorted] is stable; an insertion sort that puts an element before the
    first one that is not smaller than it gives the same list for any
    comparison. *)

Section Sorted.
Context {A : Type} (ltb : A -> A -> bool).

Fixpoint insert_sorted (x : A) (l : list A) : list A :=
  match l with
  | [] => [x]
  | y :: l' => if ltb y x then y :: insert_sorted x l' else x :: y :: l'
  end.

Definition sorted (l : list A) : list A := foldr insert_sorted [] l.
End Sorted.

(** [sorted(l, key=f)] once every key is computed. *)
Definition sorted_by_key {A K} (ltb : K -> K -> bool) (l : list (K * A)) : list A :=
  map snd (sorted (fun a b => ltb (fst a) (fst b)) l).

(** ** [collapse_addresses] *)

(** A [dict] in insertion order, for dicts whose order the code observes. *)
Module Dict.
Section Dict.
Context {K V : Type} `{EqDecision K}.

Fixpoint get (d : list (K * V)) (k : K) : option V :=
  match d with
  | [] => None
  | (k', v) :: d' => if decide (k' = k) then Some v else get d' k
  end.

(** [d[k] = v]: overwrite in place, or append a new key. *)
Fixpoint set (d : list (K * V)) (k : K) (v : V) : list (K * V) :=
  match d with
  | [] => [(k, v)]
  | (k', v') :: d' =>
      if decide (k' = k) then (k', v) :: d' else (k', v') :: set d' k v
  end.

(** [del d[k]] for a key that is present. *)
Fixpoint del (d : list (K * V)) (k : K) : list (K * V) :=
  match d with
  | [] => []
  | (k', v') :: d' => if decide (k' = k) then d' else (k', v') :: del d' k
  end.

Definition keys (d : list (K * V)) : list K := map fst d.
Definition values (d : list (K * V)) : list V := map snd d.
Definition mem (d : list (K * V)) (k : K) : bool :=
  match get d k with Some _ => true | None => false end.
End Dict.
End Dict.

(** One iteration of the first loop of [_collapse_addresses_internal], on
    the popped [net]. *)
Definition merge_step (net : Network) (to_merge : list Network)
    (subnets : list (Network * Network)) : list Network * list (Network * Network) :=
  match Dict.get subnets (supernet net) with
  | None => (to_merge, Dict.set subnets (supernet net) net)
  | Some existing =>
      if decide (existing = net) then (to_merge, subnets)
      else (supernet net :: to_merge, Dict.del subnets (supernet net))
  end.

Definition merge_measure (st : list Network * list (Network * Network)) : nat :=
  (2 * length (fst st) + length (snd st))%nat.

(** The first loop of [_collapse_addresses_internal].  [to_merge] is kept
    as a stack: its head is the last element of the Python list, so
    [pop()] takes the head and [append] conses. *)
Equations? merge_loop (st : list Network * list (Network * Network))
  : list (Network * Network)
  by wf (merge_measure st) lt :=
  merge_loop ([], subnets) := subnets;
  merge_loop (net :: to_merge, subnets) := merge_loop (merge_step net to_merge subnets).
Proof.
  unfold merge_step, merge_measure.
  destruct (Dict.get subnets (supernet net)) as [existing|] eqn:Hg.
  - destruct (decide (existing = net)); simpl; [lia|].
    assert (length subnets = S (length (Dict.del subnets (supernet net)))); [|lia].
    clear merge_loop. revert Hg. induction subnets as [|[k' v'] d IH]; simpl; [discriminate|].
    destruct (decide (k' = supernet net)); [reflexivity|].
    intros Hg. simpl. f_equal. exact (IH Hg).
  - simpl.
    assert (length (Dict.set subnets (supernet net) net) = S (length subnets)); [|lia].
    clear merge_loop. revert Hg. induction subnets as [|[k' v'] d IH]; simpl; [reflexivity|].
    destruct (decide (k' = supernet net)); [discriminate|].
    intros Hg. simpl. f_equal. exact (IH Hg).
Qed.

(** The second loop: skip the networks subsumed by the last one kept. *)
Fixpoint skip_subsumed (last : option Network) (nets : list Network) : list Network :=
  match nets with
  | [] => []
  | net :: nets' =>
      match last with
      | Some l =>
          if broadcast_address net <=? broadcast_address l
          then skip_subsumed last nets'
          else net :: skip_subsumed (Some net) nets'
      | None => net :: skip_subsumed (Some net) nets'
      end
  end.

(** [_collapse_addresses_internal(addresses)] *)
Definition collapse_addresses_internal (addresses : list Network) : list Network :=
  let subnets := merge_loop (rev addresses, []) in
  skip_subsumed None (sorted net_ltb (Dict.values subnets)).

(** [sorted(set(ips))] on address integers. *)
Fixpoint insert_uniq (x : Z) (l : list Z) : list Z :=
  match l with
  | [] => [x]
  | y :: l' => if y <? x then y :: insert_uniq x l'
               else if y =? x then l else x :: l
  end.
Definition sorted_set (l : list Z) : list Z := foldr insert_uniq [] l.

(** [_find_address_range]: the runs of consecutive addresses. *)
Fixpoint find_address_range_from (first last : Z) (ips : list Z) : list (Z * Z) :=
  match ips with
  | [] => [(first, last)]
  | ip :: ips' =>
      if negb (ip =? last + 1)
      then (first, last) :: find_address_range_from ip ip ips'
      else find_address_range_from first ip ips'
  end.
Definition find_address_range (ips : list Z) : list (Z * Z) :=
  match ips with
  | [] => []
  | ip :: ips' => find_address_range_from ip ip ips'
  end.

(** [summarize_address_range(first, last)] for [first <= last]. *)
Equations? summarize_address_range (v : version) (first_int last_int : Z) : list Network
  by wf (Z.to_nat (last_int - first_int + 1)) lt :=
  summarize_address_range v first_int last_int with decide (first_int <= last_int) := {
    | right _ => []
    | left _ =>
        let nbits := Z.min (IPv4.count_righthand_zero_bits first_int (max_prefixlen v))
                           (IPv4.bit_length (last_int - first_int + 1) - 1) in
        let net := mkNetwork v first_int (max_prefixlen v - nbits) in
        let first_int' := first_int + Z.shiftl 1 nbits in
        if decide (first_int' - 1 = ALL_ONES v) then [net]
        else net :: summarize_address_range v first_int' last_int }.
Proof.
  assert (Hbl : forall x, 0 <= IPv4.bit_length x).
  { intros x. unfold IPv4.bit_length. destruct (x =? 0); [lia|].
    pose proof (Z.log2_nonneg x). lia. }
  assert (0 <= nbits).
  { subst nbits. apply Z.min_glb.
    - unfold IPv4.count_righthand_zero_bits.
      destruct (first_int =? 0); [destruct v; simpl; lia|].
      apply Z.min_glb; [destruct v; simpl; lia|apply Hbl].
    - unfold IPv4.bit_length.
      destruct (Z.eqb_spec (last_int - first_int + 1) 0); [lia|].
      pose proof (Z.log2_nonneg (last_int - first_int + 1)). lia. }
  subst first_int'. rewrite Z.shiftl_1_l.
  pose proof (Z.pow_pos_nonneg 2 nbits ltac:(lia) ltac:(lia)). lia.
Qed.

(** The first loop of [collapse_addresses]: networks of a single address
    go to [ips], the others to [nets]; both accumulators are kept newest
    first.  Each is checked against the version of the last one of its
    list. *)
Fixpoint split_addresses (addresses ips nets : list Network)
  : result (list Network * list Network) :=
  match addresses with
  | [] => Ok (rev ips, rev nets)
  | ip :: addresses' =>
      if prefixlen ip =? max_prefixlen (net_version ip)
      then match ips with
           | last :: _ =>
               if decide (net_version last = net_version ip)
               then split_addresses addresses' (ip :: ips) nets
               else Raise TypeError
           | [] => split_addresses addresses' (ip :: ips) nets
           end
      else match nets with
           | last :: _ =>
               if decide (net_version last = net_version ip)
               then split_addresses addresses' ips (ip :: nets)
               else Raise TypeError
           | [] => split_addresses addresses' ips (ip :: nets)
           end
  end.

(** [collapse_addresses(addresses)] on network objects. *)
Definition collapse_addresses (addresses : list Network) : result (list Network) :=
  rbind (split_addresses addresses [] []) (fun '(ips, nets) =>
  let v := match ips with ip :: _ => net_version ip | [] => V4 end in
  let addrs :=
    concat (map (fun '(first, last) => summarize_address_range v first last)
              (find_address_range (sorted_set (map network_address ips)))) in
  Ok (collapse_addresses_internal (addrs ++ nets)%list)).

(** ** Data classes *)

(** [IPv4List] and [IPv6List] have the same two fields and differ in their
    methods; [_summarized_ip_list] is the cache [summarized()] fills. *)
Record IPList : Type := mkIPList {
  ip_list : list string;
  _summarized_ip_list : list string
}.

(** [field(default_factory=list)] for both fields. *)
Definition IPList_new : IPList := mkIPList [] [].

(** [IPv4List.summarized]: the returned list and the object afterwards. *)
Definition IPv4List_summarized (self : IPList) : result (list string * IPList) :=
  match _summarized_ip_list self with
  | [] =>
      if (length (ip_list self) =? 1)%nat then Ok (ip_list self, self)
      else
        rbind (rmapM IPv4.IPv4Network (ip_list self)) (fun nets =>
        rbind (collapse_addresses nets) (fun collapsed =>
        let summarized_sorted := sorted net_ltb collapsed in
        let out := map IPv4.with_prefixlen summarized_sorted in
        Ok (out, mkIPList (ip_list self) out)))
  | cached => Ok (cached, self)
  end.

(** [IPv6List.summarized] *)
Definition IPv6List_summarized (self : IPList) : result (list string * IPList) :=
  match _summarized_ip_list self with
  | [] =>
      rbind (rmapM IPv6.IPv6Network (ip_list self)) (fun nets =>
      rbind (collapse_addresses nets) (fun collapsed =>
      let summarized_sorted := sorted net_ltb collapsed in
      let out := map IPv6.exploded summarized_sorted in
      Ok (out, mkIPList (ip_list self) out)))
  | cached => Ok (cached, self)
  end.

(** [IPv4List.sort]: [sorted(self.ip_list, key=ipaddress.IPv4Network)] *)
Definition IPv4List_sort (self : IPList) : result IPList :=
  if (1 <? length (ip_list self))%nat
  then rbind (rmapM (fun addr => rbind (IPv4.IPv4Network addr) (fun k => Ok (k, addr)))
                (ip_list self)) (fun keyed =>
       Ok (mkIPList (sorted_by_key net_ltb keyed) (_summarized_ip_list self)))
  else Ok self.

(** [IPv6List.sort]: sorted as networks, stored in exploded form. *)
Definition IPv6List_sort (self : IPList) : result IPList :=
  if (1 <? length (ip_list self))%nat
  then rbind (rmapM IPv6.IPv6Network (ip_list self)) (fun nets =>
       Ok (mkIPList (map IPv6.exploded (sorted net_ltb nets)) (_summarized_ip_list self)))
  else Ok self.

Record ServiceIPRange : Type := mkServiceIPRange {
  ipv4 : IPList;
  ipv6 : IPList
}.

Definition ServiceIPRange_new : ServiceIPRange := mkServiceIPRange IPList_new IPList_new.

(** ** Configuration and feed *)

(** The objects under ['PrefixList'] and ['WafIPSet'] of an entry of
    [services.json]; every key may be missing from the JSON object. *)
Record PrefixListConfig : Type := {
  pl_Enable : option bool;
  pl_Summarize : option bool;
  pl_ChunkSize : option Z
}.

Record WafIPSetConfig : Type := {
  waf_Enable : option bool;
  waf_Summarize : option bool;
  waf_Scopes : option (list string)
}.

(** One entry of [services.json]; a key that may be missing from the JSON
    object is an [option]. *)
Record ConfigService : Type := {
  Name : string;
  Regions : option (list string);
  PrefixList : option PrefixListConfig;
  WafIPSet : option WafIPSetConfig
}.

Record ConfigServices : Type := { Services : list ConfigService }.

(** A record of [ip-ranges.json]; [ip_prefix] also stands for the
    [ipv6_prefix] field of the IPv6 records. *)
Record Prefix : Type := {
  service : string;
  region : string;
  ip_prefix : string
}.

Record IpRanges : Type := {
  prefixes : list Prefix;
  ipv6_prefixes : list Prefix
}.

(** ** [get_ranges_for_service] *)

Definition service_ranges_t : Type := list (string * ServiceIPRange).

(** The first loop: the lookup keys and an empty range per service. *)
Definition register_service (acc : gmap string bool * service_ranges_t)
    (config_service : ConfigService) : result (gmap string bool * service_ranges_t) :=
  let service_name := Name config_service in
  match Regions config_service with
  | None => Raise KeyError
  | Some regions =>
      if (0 <? length regions)%nat
      then Ok (foldl (fun '(service_control, service_ranges) region =>
                        let key := service_name ++ "-" ++ region in
                        (<[key := true]> service_control,
                         Dict.set service_ranges service_name ServiceIPRange_new))
                 acc regions)
      else
        let key := service_name in
        Ok (<[key := true]> (fst acc),
            Dict.set (snd acc) service_name ServiceIPRange_new)
  end.

Fixpoint rfoldl {A B} (f : A -> B -> result A) (a : A) (l : list B) : result A :=
  match l with
  | [] => Ok a
  | x :: l' => rbind (f a x) (fun a' => rfoldl f a' l')
  end.

(** [service_ranges[service_name].ipv4.ip_list.append(p)] (or [.ipv6]). *)
Definition append_prefix (fam : version) (service_ranges : service_ranges_t)
    (service_name p : string) : result service_ranges_t :=
  match Dict.get service_ranges service_name with
  | None => Raise KeyError
  | Some r =>
      let r' :=
        match fam with
        | V4 => mkServiceIPRange
                  (mkIPList (ip_list (ipv4 r) ++ [p])%list (_summarized_ip_list (ipv4 r)))
                  (ipv6 r)
        | V6 => mkServiceIPRange (ipv4 r)
                  (mkIPList (ip_list (ipv6 r) ++ [p])%list (_summarized_ip_list (ipv6 r)))
        end in
      Ok (Dict.set service_ranges service_name r')
  end.

(** The body of the two loops over the feed records. *)
Definition match_prefix (fam : version) (service_control : gmap string bool)
    (service_ranges : service_ranges_t) (prefix : Prefix) : result service_ranges_t :=
  let service_name := service prefix in
  let service_region := region prefix in
  let key := service_name ++ "-" ++ service_region in
  if decide (is_Some (service_control !! key))
  then append_prefix fam service_ranges service_name (ip_prefix prefix)
  else
    let key := service_name in
    if decide (is_Some (service_control !! key))
    then append_prefix fam service_ranges service_name (ip_prefix prefix)
    else Ok service_ranges.

(** The last loop: sort both lists of every service, in dict order. *)
Definition sort_ranges (service_ranges : service_ranges_t) : result service_ranges_t :=
  rmapM (fun '(service_name, r) =>
           rbind (IPv4List_sort (ipv4 r)) (fun l4 =>
           rbind (IPv6List_sort (ipv6 r)) (fun l6 =>
           Ok (service_name, mkServiceIPRange l4 l6))))
        service_ranges.

Definition get_ranges_for_service (ranges : IpRanges) (config_services : ConfigServices)
  : result service_ranges_t :=
  rbind (rfoldl register_service (∅, []) (Services config_services))
    (fun '(service_control, service_ranges) =>
  rbind (rfoldl (match_prefix V4 service_control) service_ranges (prefixes ranges))
    (fun service_ranges =>
  rbind (rfoldl (match_prefix V6 service_control) service_ranges (ipv6_prefixes ranges))
    (fun service_ranges =>
  sort_ranges service_ranges))).

(** ** The backend: boto3 calls, replies and the trace of a run *)

(** The double quote of the messages. *)
Definition dquote : string := String (ascii_of_nat 34) EmptyString.

(** [d[key]] for a key that may be missing from the JSON object. *)
Definition getitem {A} (value : option A) : result A :=
  match value with
  | Some a => Ok a
  | None => Raise KeyError
  end.

Definition DESCRIPTION : string := "Managed by update IP ranges Lambda".
Definition RESOURCE_NAME_PREFIX : string := "aws-ip-ranges".
Definition MANAGED_BY : string := "update-aws-ip-ranges".

(** A tag value: a text, or [datetime.now(timezone.utc).isoformat()]. *)
Inductive TagValue : Type := TagStr (s : string) | TagNow.

(** An entry of a prefix list, as sent ([{'Cidr': .., 'Description': ..}],
    [{'Cidr': ..}]) and as returned by the backend. *)
Record Entry : Type := mkEntry {
  Cidr : string;
  Description : option string
}.

(** An element of [response['IPSets']]. *)
Record IPSetSummary : Type := {
  ipset_Name : string;
  ipset_Id : string;
  ipset_Description : string;
  ipset_LockToken : string;
  ipset_ARN : string
}.

(** A [PrefixList] description as [describe_managed_prefix_lists],
    [create_managed_prefix_list] and [modify_managed_prefix_list] return it;
    [StateMessage] is only present when the backend has one. *)
Record PrefixListInfo : Type := {
  PrefixListId : string;
  PrefixListName : string;
  MaxEntries : Z;
  Version : Z;
  State : string;
  StateMessage : option string
}.

(** The client methods the program calls, with their keyword arguments. *)
Inductive Call : Type :=
  | list_ip_sets (Scope : string) (NextMarker : option string)
  | get_ip_set (Name Scope Id : string)
  | create_ip_set (Name Scope Description IPAddressVersion : string)
      (Addresses : list string) (Tags : list (string * TagValue))
  | update_ip_set (Name Scope Id Description : string)
      (Addresses : list string) (LockToken : string)
  | tag_resource (ResourceARN : string) (Tags : list (string * TagValue))
  | describe_managed_prefix_lists (PrefixListIds : option (list string))
      (NextToken : option string)
  | create_managed_prefix_list (PrefixListName : string) (Entries : list Entry)
      (MaxEntries : Z) (Tags : list (string * TagValue)) (AddressFamily : string)
  | modify_managed_prefix_list (PrefixListId : string) (CurrentVersion : option Z)
      (PrefixListName : string) (MaxEntries : option Z)
      (AddEntries RemoveEntries : option (list Entry))
  | get_managed_prefix_list_entries (PrefixListId : string) (TargetVersion : Z)
      (NextToken : option string)
  | create_tags (Resources : list string) (Tags : list (string * TagValue)).

(** The response dicts, by the keys the program reads. *)
Inductive Response : Type :=
  | RIPSets (IPSets : list IPSetSummary) (NextMarker : option string)
  | RIPSet (Addresses : list string)
  | RPrefixLists (PrefixLists : list PrefixListInfo) (NextToken : option string)
  | RPrefixList (PrefixList : PrefixListInfo)
  | REntries (Entries : list Entry) (NextToken : option string)
  | RNone.

Inductive Reply : Type :=
  | Returns (r : Response)
  | Throws (e : exn).

Inductive Event : Type :=
  | EvCall (c : Call) (r : Reply)
  | EvSleep (seconds : Z)
  | EvLogException (e : exn).

(** The result dict of a [manage_*] function and of each resource kind of
    the handler. *)
Record Names : Type := mkNames {
  created : list string;
  updated : list string
}.

Record ResourceNames : Type := mkResourceNames {
  rn_PrefixList : Names;
  rn_WafIPSet : Names
}.

(** The backend answers a call given everything that happened before. *)
Definition Backend : Type := list Event -> Call -> Reply.

(** The store of a run: the trace, the [service_ranges] dict that every
    [manage_*] call shares (and whose [summarized()] caches it fills), and
    the local variables of [lambda_handler] that outlive its [try] blocks. *)
Record Store : Type := mkStore {
  trace : list Event;
  service_ranges : service_ranges_t;
  vpc_prefix_lists : gmap string PrefixListInfo;
  waf_ipsets_by_scope : gmap string (gmap string IPSetSummary);
  resource_names : ResourceNames
}.

Definition M (A : Type) : Type := Store -> result A * Store.

Definition ret {A} (a : A) : M A := fun st => (Ok a, st).
Definition raise {A} (e : exn) : M A := fun st => (Raise e, st).
Definition out_of_fuel {A} : M A := fun st => (OutOfFuel, st).
Definition bind {A B} (m : M A) (k : A -> M B) : M B :=
  fun st => match m st with
            | (Ok a, st') => k a st'
            | (Raise e, st') => (Raise e, st')
            | (OutOfFuel, st') => (OutOfFuel, st')
            end.
Definition lift {A} (r : result A) : M A := fun st => (r, st).

(** [try: body except Exception as error: handler(error)] *)
Definition try_except {A} (body : M A) (handler : exn -> M A) : M A :=
  fun st => match body st with
            | (Raise e, st') => handler e st'
            | r => r
            end.

Notation "x <- m ;; k" := (bind m (fun x => k))
  (at level 100, m at next level, right associativity).
Notation "m ;;; k" := (bind m (fun _ => k))
  (at level 100, right associativity).

Definition record (e : Event) : M unit :=
  fun st => (Ok tt, mkStore (trace st ++ [e])%list (service_ranges st)
                      (vpc_prefix_lists st) (waf_ipsets_by_scope st) (resource_names st)).

Definition get_store : M Store := fun st => (Ok st, st).

Definition set_service_ranges (sr : service_ranges_t) : M unit :=
  fun st => (Ok tt, mkStore (trace st) sr (vpc_prefix_lists st)
                      (waf_ipsets_by_scope st) (resource_names st)).
Definition set_vpc_prefix_lists (m : gmap string PrefixListInfo) : M unit :=
  fun st => (Ok tt, mkStore (trace st) (service_ranges st) m
                      (waf_ipsets_by_scope st) (resource_names st)).
Definition set_waf_ipsets_by_scope (m : gmap string (gmap string IPSetSummary)) : M unit :=
  fun st => (Ok tt, mkStore (trace st) (service_ranges st) (vpc_prefix_lists st)
                      m (resource_names st)).
Definition set_resource_names (rn : ResourceNames) : M unit :=
  fun st => (Ok tt, mkStore (trace st) (service_ranges st) (vpc_prefix_lists st)
                      (waf_ipsets_by_scope st) rn).

(** [time.sleep(seconds)] *)
Definition sleep (seconds : Z) : M unit := record (EvSleep seconds).

(** [logging.exception(error)] in an [except] block. *)
Definition log_exception (e : exn) : M unit := record (EvLogException e).

(** [range(start, stop, step)] for a positive step. *)
Definition py_range (start stop step : Z) : list Z :=
  map (fun k => start + step * Z.of_nat k)
      (seq 0 (Z.to_nat ((stop - start + step - 1) / step))).

(** [l[i:j]] for [0 <= i <= j]. *)
Definition slice {A} (l : list A) (i j : Z) : list A :=
  take (Z.to_nat (j - i)) (drop (Z.to_nat i) l).

(** [itertools.batched(l, n)] for [1 <= n]. *)
Fixpoint batched_aux {A} (fuel : nat) (n : nat) (l : list A) : list (list A) :=
  match fuel with
  | O => []
  | S fuel' =>
      match l with
      | [] => []
      | _ => take n l :: batched_aux fuel' n (drop n l)
      end
  end.
Definition batched {A} (l : list A) (n : Z) : result (list (list A)) :=
  if n <? 1 then Raise ValueError
  else Ok (batched_aux (length l) (Z.to_nat n) l).

(** [enumerate(l)] *)
Definition enumerate {A} (l : list A) : list (Z * A) :=
  zip (map Z.of_nat (seq 0 (length l))) l.

Fixpoint mfoldl {A B} (f : A -> B -> M A) (a : A) (l : list B) : M A :=
  match l with
  | [] => ret a
  | x :: l' => a' <- f a x ;; mfoldl f a' l'
  end.

(** [entries_to_remove] and [entries_to_add] of the two [update_*]
    functions, as networks: the current keys that are not in the desired
    list, and the desired networks that are not current keys. *)
Definition networks_to_remove (current_entries : list (Network * string))
    (network_list : list Network) : list Network :=
  List.filter (fun cidr => negb (bool_decide (cidr ∈ network_list)))
    (Dict.keys current_entries).

Definition networks_to_add (current_entries : list (Network * string))
    (network_list : list Network) : list Network :=
  List.filter (fun cidr => negb (Dict.mem current_entries cidr)) network_list.

Section Client.
(** [client]: the boto3 clients, as the backend that answers them. *)
Variable client : Backend.

(** A client call: the reply is recorded; an error reply is raised. *)
Definition call (c : Call) : M Response :=
  fun st =>
    let r := client (trace st) c in
    match record (EvCall c r) st with
    | (_, st') => match r with
                  | Returns resp => (Ok resp, st')
                  | Throws e => (Raise e, st')
                  end
    end.

(** *** WAF IP sets *)

(** [response['IPSets']] and [response.get('NextMarker')]; a response
    without the key is a [KeyError]. *)
Definition as_ip_sets (r : Response) : M (list IPSetSummary * option string) :=
  match r with RIPSets l m => ret (l, m) | _ => raise KeyError end.
Definition as_ip_set (r : Response) : M (list string) :=
  match r with RIPSet a => ret a | _ => raise KeyError end.
Definition as_prefix_lists (r : Response) : M (list PrefixListInfo * option string) :=
  match r with RPrefixLists l t => ret (l, t) | _ => raise KeyError end.
Definition as_prefix_list (r : Response) : M PrefixListInfo :=
  match r with RPrefixList pl => ret pl | _ => raise KeyError end.
Definition as_entries (r : Response) : M (list Entry * option string) :=
  match r with REntries l t => ret (l, t) | _ => raise KeyError end.

Definition create_waf_ipset (ipset_name ipset_scope ipset_version : string)
    (address_list : list string) : M unit :=
  call (create_ip_set ipset_name ipset_scope DESCRIPTION ipset_version address_list
          [("Name", TagStr ipset_name); ("ManagedBy", TagStr MANAGED_BY);
           ("CreatedAt", TagNow); ("UpdatedAt", TagStr "Not yet")]) ;;;
  ret tt.

Definition get_ip_set_entries (ipset_name ipset_scope ipset_id : string)
  : M (list (Network * string)) :=
  response <- call (get_ip_set ipset_name ipset_scope ipset_id) ;;
  addresses <- as_ip_set response ;;
  lift (rfoldl (fun entries entrie =>
                  rbind (ip_network entrie) (fun network =>
                  Ok (Dict.set entries network entrie)))
          [] addresses).

Definition update_waf_ipset (ipset_name ipset_scope : string)
    (waf_ipset : IPSetSummary) (address_list : list string) : M bool :=
  let ipset_id := ipset_Id waf_ipset in
  let ipset_lock_token := ipset_LockToken waf_ipset in
  let ipset_description := ipset_Description waf_ipset in
  let ipset_arn := ipset_ARN waf_ipset in
  network_list <- lift (rmapM ip_network address_list) ;;
  current_entries <- get_ip_set_entries ipset_name ipset_scope ipset_id ;;
  let entries_to_remove :=
    map with_prefixlen (networks_to_remove current_entries network_list) in
  let entries_to_add :=
    map with_prefixlen (networks_to_add current_entries network_list) in
  match entries_to_add, entries_to_remove with
  | [], [] => ret false
  | _, _ =>
      call (update_ip_set ipset_name ipset_scope ipset_id ipset_description
              address_list ipset_lock_token) ;;;
      call (tag_resource ipset_arn [("UpdatedAt", TagNow)]) ;;;
      ret true
  end.

(** The [while True] loop of [list_waf_ipset], from a response on. *)
Fixpoint list_waf_ipset_loop (fuel : nat) (ipset_scope : string)
    (ipsets : gmap string IPSetSummary) (response : Response)
  : M (gmap string IPSetSummary) :=
  match fuel with
  | O => out_of_fuel
  | S fuel' =>
      page <- as_ip_sets response ;;
      let ipsets' := foldl (fun m ipset => <[ipset_Name ipset := ipset]> m)
                       ipsets (fst page) in
      match snd page with
      | None => ret ipsets'
      | Some next_marker =>
          response' <- call (list_ip_sets ipset_scope (Some next_marker)) ;;
          list_waf_ipset_loop fuel' ipset_scope ipsets' response'
      end
  end.

Definition list_waf_ipset (fuel : nat) (ipset_scope : string)
  : M (gmap string IPSetSummary) :=
  response <- call (list_ip_sets ipset_scope None) ;;
  list_waf_ipset_loop fuel ipset_scope ∅ response.

Definition ip_version_str (v : version) : string :=
  match v with V4 => "ipv4" | V6 => "ipv6" end.

(** [service_ranges[service_name].asdict()[ip_version]] *)
Definition range_of (v : version) (r : ServiceIPRange) : IPList :=
  match v with V4 => ipv4 r | V6 => ipv6 r end.

Definition with_range (v : version) (r : ServiceIPRange) (l : IPList) : ServiceIPRange :=
  match v with
  | V4 => mkServiceIPRange l (ipv6 r)
  | V6 => mkServiceIPRange (ipv4 r) l
  end.

(** [service_ranges[service_name].asdict()[ip_version].summarized()],
    with the assignment to the cache of the shared object. *)
Definition summarized_of (service_name : string) (v : version) : M (list string) :=
  st <- get_store ;;
  match Dict.get (service_ranges st) service_name with
  | None => raise KeyError
  | Some r =>
      res <- lift (match v with
                   | V4 => IPv4List_summarized (range_of v r)
                   | V6 => IPv6List_summarized (range_of v r)
                   end) ;;
      set_service_ranges
        (Dict.set (service_ranges st) service_name (with_range v r (snd res))) ;;;
      ret (fst res)
  end.

(** The address list [manage_*] works on for one IP version: [None] when
    the service has no range for it. *)
Definition address_list_of (service_name : string) (v : version)
    (should_summarize : bool) : M (option (list string)) :=
  st <- get_store ;;
  match Dict.get (service_ranges st) service_name with
  | None => raise KeyError
  | Some r =>
      match ip_list (range_of v r) with
      | [] => ret None
      | address_list =>
          if should_summarize && (1 <? length address_list)%nat
          then l <- summarized_of service_name v ;; ret (Some l)
          else ret (Some address_list)
      end
  end.

(** [f"{RESOURCE_NAME_PREFIX}-{service_name.lower().replace('_', '-')}-{ip_version}"] *)
Definition resource_name (service_name : string) (v : version) : string :=
  RESOURCE_NAME_PREFIX ++ "-" ++ Str.replace_char "_" "-" (Str.lower service_name)
    ++ "-" ++ ip_version_str v.

(** The body of the loop [for ip_version in ['ipv4', 'ipv6']] of
    [manage_waf_ipset]. *)
Definition manage_waf_ipset_version (waf_ipsets : gmap string IPSetSummary)
    (service_name ipset_scope : string) (should_summarize : bool)
    (ipset_names : Names) (ip_version : version) : M Names :=
  al <- address_list_of service_name ip_version should_summarize ;;
  match al with
  | None => ret ipset_names
  | Some address_list =>
      let ipset_name := resource_name service_name ip_version in
      match waf_ipsets !! ipset_name with
      | Some waf_ipset =>
          is_updated <- update_waf_ipset ipset_name ipset_scope waf_ipset address_list ;;
          if is_updated : bool
          then ret (mkNames (created ipset_names) (updated ipset_names ++ [ipset_name])%list)
          else ret ipset_names
      | None =>
          create_waf_ipset ipset_name ipset_scope
            (Str.upper (ip_version_str ip_version)) address_list ;;;
          ret (mkNames (created ipset_names ++ [ipset_name])%list (updated ipset_names))
      end
  end.

Definition manage_waf_ipset (waf_ipsets : gmap string IPSetSummary)
    (service_name ipset_scope : string) (should_summarize : bool) : M Names :=
  mfoldl (manage_waf_ipset_version waf_ipsets service_name ipset_scope should_summarize)
    (mkNames [] []) [V4; V6].

(** *** VPC prefix lists *)

(** The [while True] loop of [list_prefix_lists], from a response on. *)
Fixpoint list_prefix_lists_loop (fuel : nat)
    (prefix_lists : gmap string PrefixListInfo) (response : Response)
  : M (gmap string PrefixListInfo) :=
  match fuel with
  | O => out_of_fuel
  | S fuel' =>
      page <- as_prefix_lists response ;;
      let prefix_lists' :=
        foldl (fun m prefix_list => <[PrefixListName prefix_list := prefix_list]> m)
          prefix_lists (fst page) in
      match snd page with
      | None => ret prefix_lists'
      | Some next_token =>
          response' <- call (describe_managed_prefix_lists None (Some next_token)) ;;
          list_prefix_lists_loop fuel' prefix_lists' response'
      end
  end.

Definition list_prefix_lists (fuel : nat) : M (gmap string PrefixListInfo) :=
  response <- call (describe_managed_prefix_lists None None) ;;
  list_prefix_lists_loop fuel ∅ response.

Definition get_prefix_list_by_id (prefix_list_id : string) : M PrefixListInfo :=
  response <- call (describe_managed_prefix_lists (Some [prefix_list_id]) None) ;;
  page <- as_prefix_lists response ;;
  match fst page with
  | prefix_list :: _ => ret prefix_list
  | [] => raise IndexError
  end.

(** The polling loop [for count in range(5): ... else: raise], which the
    source writes out three times: sleep [count + (count + 1)] seconds,
    read the prefix list, stop when its state is one of [complete]. *)
Fixpoint wait_prefix_list (counts : list Z) (prefix_list_id : string)
    (complete : list string) (msg : string) : M PrefixListInfo :=
  match counts with
  | [] => raise (Exception msg)
  | count :: counts' =>
      let seconds_to_wait := count + (count + 1) in
      sleep seconds_to_wait ;;;
      wait_prefix_list_ <- get_prefix_list_by_id prefix_list_id ;;
      if bool_decide (State wait_prefix_list_ ∈ complete)
      then ret wait_prefix_list_
      else wait_prefix_list counts' prefix_list_id complete msg
  end.

Definition created_tags (name : string) : list (string * TagValue) :=
  [("Name", TagStr name); ("ManagedBy", TagStr MANAGED_BY);
   ("CreatedAt", TagNow); ("UpdatedAt", TagStr "Not yet")].

(** The body of the loop [for index in range(100, len(prefix_list_entries), 100)]
    of [create_prefix_list]: wait while the list is in progress, then add the
    next hundred entries.  [response] is the response of the previous call,
    whose ['PrefixList'] is first read here. *)
Definition create_batch (prefix_list_entries : list Entry)
    (response : Response) (index : Z) : M Response :=
  prefix_list <- as_prefix_list response ;;
  prefix_list <-
    (if bool_decide (State prefix_list ∈ ["create-in-progress"; "modify-in-progress"])
     then wait_prefix_list (py_range 0 5 1) (PrefixListId prefix_list)
            ["create-complete"; "modify-complete"]
            "Error creating/updating VPC Prefix List. Can't wait anymore."
     else ret prefix_list) ;;
  call (modify_managed_prefix_list (PrefixListId prefix_list)
          (Some (Version prefix_list)) (PrefixListName prefix_list) None
          (Some (slice prefix_list_entries index (index + 100))) None).

Definition create_prefix_list (prefix_list_name prefix_list_ip_version : string)
    (address_list : list string) : M unit :=
  let prefix_list_entries :=
    map (fun addr => mkEntry addr (Some DESCRIPTION)) address_list in
  let max_entries := Z.min (Z.of_nat (length prefix_list_entries) + 10) 1000 in
  response <- call (create_managed_prefix_list prefix_list_name
                      (slice prefix_list_entries 0 100) max_entries
                      (created_tags prefix_list_name) prefix_list_ip_version) ;;
  mfoldl (create_batch prefix_list_entries) response
    (py_range 100 (Z.of_nat (length prefix_list_entries)) 100) ;;;
  ret tt.

(** The entries of one response page, added to the [entries] dict. *)
Definition add_entries (entries : list (Network * string)) (page : list Entry)
  : result (list (Network * string)) :=
  rfoldl (fun entries entrie =>
            rbind (ip_network (Cidr entrie)) (fun network =>
            match Description entrie with
            | Some d => Ok (Dict.set entries network d)
            | None => Ok (Dict.set entries network "")
            end))
    entries page.

(** The [while 'NextToken' in response] loop of [get_prefix_list_entries]. *)
Fixpoint get_prefix_list_entries_loop (fuel : nat) (prefix_list_id : string)
    (prefix_list_version : Z) (entries : list (Network * string))
    (next_token : option string) : M (list (Network * string)) :=
  match next_token with
  | None => ret entries
  | Some token =>
      match fuel with
      | O => out_of_fuel
      | S fuel' =>
          response <- call (get_managed_prefix_list_entries prefix_list_id
                              prefix_list_version (Some token)) ;;
          page <- as_entries response ;;
          entries' <- lift (add_entries entries (fst page)) ;;
          get_prefix_list_entries_loop fuel' prefix_list_id prefix_list_version
            entries' (snd page)
      end
  end.

Definition get_prefix_list_entries (fuel : nat) (prefix_list_name prefix_list_id : string)
    (prefix_list_version : Z) : M (list (Network * string)) :=
  response <- call (get_managed_prefix_list_entries prefix_list_id
                      prefix_list_version None) ;;
  page <- as_entries response ;;
  entries <- lift (add_entries [] (fst page)) ;;
  get_prefix_list_entries_loop fuel prefix_list_id prefix_list_version entries (snd page).

(** The capacity change of [update_prefix_list]: the call that only sets
    [MaxEntries], the check of the returned state and the wait for
    [modify-complete]; it returns the new version. *)
Definition resize_details (prefix_list_name prefix_list_id : string)
    (prefix_list_version prefix_list_max_entries : Z) (current_state_message : string)
  : string :=
  " Name: " ++ dquote ++ prefix_list_name ++ dquote
  ++ " ID: " ++ dquote ++ prefix_list_id ++ dquote
  ++ " current version: " ++ dquote ++ Str.of_Z prefix_list_version ++ dquote
  ++ " new max entries: " ++ dquote ++ Str.of_Z prefix_list_max_entries ++ dquote
  ++ " StateMessage: " ++ dquote ++ current_state_message ++ dquote.

Definition resize_invalid_state_msg (current_state details : string) : string :=
  "Error updating VPC Prefix List max entries. Invalid state. Expecting "
  ++ dquote ++ "modify-in-progress" ++ dquote ++ " or "
  ++ dquote ++ "modify-complete" ++ dquote ++ " or "
  ++ dquote ++ "modify-failed" ++ dquote ++ ". Got "
  ++ dquote ++ current_state ++ dquote ++ "." ++ details.

Definition resize_failed_msg (details : string) : string :=
  "Error updating VPC Prefix List max entries. State is "
  ++ dquote ++ "modify-failed" ++ dquote ++ "." ++ details.

Definition resize_prefix_list (prefix_list_name prefix_list_id : string)
    (new_max_entries : Z) : M Z :=
  response <- call (modify_managed_prefix_list prefix_list_id None prefix_list_name
                      (Some new_max_entries) None None) ;;
  prefix_list <- as_prefix_list response ;;
  let prefix_list_version := Version prefix_list in
  let current_state := State prefix_list in
  match StateMessage prefix_list with
  | None => raise KeyError
  | Some current_state_message =>
      let details :=
        resize_details prefix_list_name prefix_list_id prefix_list_version
          new_max_entries current_state_message in
      if negb (bool_decide (current_state ∈
                 ["modify-in-progress"; "modify-complete"; "modify-failed"]))
      then raise (Exception (resize_invalid_state_msg current_state details))
      else if String.eqb current_state "modify-failed"
      then raise (Exception (resize_failed_msg details))
      else if String.eqb current_state "modify-in-progress"
      then wait_prefix_list (py_range 0 5 1) prefix_list_id ["modify-complete"]
             "Error updating VPC Prefix List max entries. Can't wait anymore." ;;;
           ret prefix_list_version
      else ret prefix_list_version
  end.

(** The body of the loop
    [for index in range(100, max(len(entries_to_add), len(entries_to_remove)), 100)]
    of [update_prefix_list]; [response] is the response of the previous
    call, whose ['PrefixList'] is first read here. *)
Definition update_batch (entries_to_add entries_to_remove : list Entry)
    (response : Response) (index : Z) : M Response :=
  response_prefix_list <- as_prefix_list response ;;
  response_prefix_list <-
    (if bool_decide (State response_prefix_list ∈ ["modify-in-progress"])
     then wait_prefix_list (py_range 0 5 1) (PrefixListId response_prefix_list)
            ["modify-complete"]
            "Error updating VPC Prefix List. Can't wait anymore."
     else ret response_prefix_list) ;;
  call (modify_managed_prefix_list
          (PrefixListId response_prefix_list)
          (Some (Version response_prefix_list))
          (PrefixListName response_prefix_list) None
          (Some (slice entries_to_add index (index + 100)))
          (Some (slice entries_to_remove index (index + 100)))).

(** The block [if entries_to_add: if prefix_list_max_entries <
    len(address_list): ...] of [update_prefix_list]; it returns the version
    the content calls start from. *)
Definition ensure_capacity (prefix_list_name : string)
    (prefix_list : PrefixListInfo) (address_list : list string)
    (entries_to_add : list Entry) : M Z :=
  let prefix_list_id := PrefixListId prefix_list in
  let prefix_list_max_entries := MaxEntries prefix_list in
  let prefix_list_version := Version prefix_list in
  match entries_to_add with
  | [] => ret prefix_list_version
  | _ =>
      if prefix_list_max_entries <? Z.of_nat (length address_list)
      then resize_prefix_list prefix_list_name prefix_list_id
             (Z.of_nat (length address_list))
      else ret prefix_list_version
  end.

(** What [update_prefix_list] does once the delta is known to be non-empty:
    the capacity change when entries are added and [MaxEntries] is too
    small, then the batched content changes, then the [UpdatedAt] tag. *)
Definition apply_prefix_list_delta (prefix_list_name : string)
    (prefix_list : PrefixListInfo) (address_list : list string)
    (entries_to_add entries_to_remove : list Entry) : M bool :=
  let prefix_list_id := PrefixListId prefix_list in
  prefix_list_version <-
    ensure_capacity prefix_list_name prefix_list address_list entries_to_add ;;
  response <- call (modify_managed_prefix_list prefix_list_id
                      (Some prefix_list_version) prefix_list_name None
                      (Some (slice entries_to_add 0 100))
                      (Some (slice entries_to_remove 0 100))) ;;
  mfoldl (update_batch entries_to_add entries_to_remove) response
    (py_range 100 (Z.max (Z.of_nat (length entries_to_add))
                         (Z.of_nat (length entries_to_remove))) 100) ;;;
  call (create_tags [prefix_list_id] [("UpdatedAt", TagNow)]) ;;;
  ret true.

Definition update_prefix_list (fuel : nat) (prefix_list_name : string)
    (prefix_list : PrefixListInfo) (address_list : list string) : M bool :=
  let prefix_list_id := PrefixListId prefix_list in
  let prefix_list_version := Version prefix_list in
  network_list <- lift (rmapM ip_network address_list) ;;
  current_entries <- get_prefix_list_entries fuel prefix_list_name prefix_list_id
                       prefix_list_version ;;
  let entries_to_remove :=
    map (fun cidr => mkEntry (with_prefixlen cidr) None)
      (networks_to_remove current_entries network_list) in
  let entries_to_add :=
    map (fun cidr => mkEntry (with_prefixlen cidr) (Some DESCRIPTION))
      (networks_to_add current_entries network_list) in
  match entries_to_add, entries_to_remove with
  | [], [] => ret false
  | _, _ => apply_prefix_list_delta prefix_list_name prefix_list address_list
              entries_to_add entries_to_remove
  end.

(** The name of chunk [index]. *)
Definition chunk_name (base_prefix_list_name : string) (index : Z) : string :=
  if index =? 0 then base_prefix_list_name
  else base_prefix_list_name ++ "-continued-" ++ Str.dec index.

(** The body of the loop over [enumerate(itertools.batched(address_list,
    chunk_size))] of [manage_prefix_list]. *)
Definition manage_prefix_list_chunk (fuel : nat)
    (vpc_prefix_lists : gmap string PrefixListInfo) (ip_version : version)
    (base_prefix_list_name : string) (prefix_list_names : Names)
    (chunk : Z * list string) : M Names :=
  let '(index, address_list_chunk) := chunk in
  let prefix_list_name := chunk_name base_prefix_list_name index in
  match vpc_prefix_lists !! prefix_list_name with
  | Some prefix_list =>
      is_updated <- update_prefix_list fuel prefix_list_name prefix_list
                      address_list_chunk ;;
      if is_updated : bool
      then ret (mkNames (created prefix_list_names)
                  (updated prefix_list_names ++ [prefix_list_name])%list)
      else ret prefix_list_names
  | None =>
      create_prefix_list prefix_list_name
        (Str.upper (ip_version_str ip_version)) address_list_chunk ;;;
      ret (mkNames (created prefix_list_names ++ [prefix_list_name])%list
             (updated prefix_list_names))
  end.

(** The body of the loop [for ip_version in ['ipv4', 'ipv6']] of
    [manage_prefix_list]. *)
Definition manage_prefix_list_version (fuel : nat)
    (vpc_prefix_lists : gmap string PrefixListInfo) (service_name : string)
    (should_summarize : bool) (chunk_size : Z)
    (prefix_list_names : Names) (ip_version : version) : M Names :=
  al <- address_list_of service_name ip_version should_summarize ;;
  match al with
  | None => ret prefix_list_names
  | Some address_list =>
      let base_prefix_list_name := resource_name service_name ip_version in
      chunks <- lift (batched address_list chunk_size) ;;
      mfoldl (manage_prefix_list_chunk fuel vpc_prefix_lists ip_version
                base_prefix_list_name)
        prefix_list_names (enumerate chunks)
  end.

Definition manage_prefix_list (fuel : nat) (vpc_prefix_lists : gmap string PrefixListInfo)
    (service_name : string) (should_summarize : bool) (chunk_size : Z) : M Names :=
  mfoldl (manage_prefix_list_version fuel vpc_prefix_lists service_name
            should_summarize chunk_size)
    (mkNames [] []) [V4; V6].

(** *** [lambda_handler] *)

(** The [try] block of the first loop of the handler up to the call of
    [manage_prefix_list]: list the prefix lists when none is listed yet,
    read [Summarize] and the chunk size, manage the prefix lists of the
    service. *)
Definition managed_prefix_list_names (fuel : nat) (service_name : string)
    (pl_config : PrefixListConfig) : M Names :=
  st <- get_store ;;
  (if bool_decide (vpc_prefix_lists st = ∅)
   then l <- list_prefix_lists fuel ;; set_vpc_prefix_lists l
   else ret tt) ;;;
  st <- get_store ;;
  should_summarize <- lift (getitem (pl_Summarize pl_config)) ;;
  let chunk_size :=
    match pl_ChunkSize pl_config with Some c => c | None => 998 end in
  manage_prefix_list fuel (vpc_prefix_lists st) service_name should_summarize chunk_size.

(** [resource_names['PrefixList']['created'] += prefix_list_names['created']]
    and the same for ['updated']. *)
Definition report_prefix_list_names (prefix_list_names : Names) : M unit :=
  st <- get_store ;;
  let rn := resource_names st in
  set_resource_names
    (mkResourceNames
       (mkNames (created (rn_PrefixList rn) ++ created prefix_list_names)%list
                (updated (rn_PrefixList rn) ++ updated prefix_list_names)%list)
       (rn_WafIPSet rn)).

(** The [try] block of the first loop of the handler. *)
Definition prefix_list_attempt (fuel : nat) (service_name : string)
    (pl_config : PrefixListConfig) : M unit :=
  prefix_list_names <- managed_prefix_list_names fuel service_name pl_config ;;
  report_prefix_list_names prefix_list_names.

(** The body of the first loop of the handler, for one service.
    [config_service['PrefixList']['Enable']] is read outside the [try]. *)
Definition handle_prefix_list (fuel : nat) (config_service : ConfigService) : M unit :=
  let service_name := Name config_service in
  st <- get_store ;;
  if negb (Dict.mem (service_ranges st) service_name) then ret tt
  else
    match PrefixList config_service with
    | None => ret tt
    | Some pl_config =>
        enable <- lift (getitem (pl_Enable pl_config)) ;;
        if negb enable then ret tt
        else
          try_except (prefix_list_attempt fuel service_name pl_config)
            (fun error => log_exception error)
    end.

(** The [try] block of the second loop of the handler, for one scope, up
    to the call of [manage_waf_ipset]: list the IP sets of the scope when
    they are not listed yet, read [Summarize], manage the IP sets of the
    service. *)
Definition managed_waf_ipset_names (fuel : nat) (service_name : string)
    (waf_config : WafIPSetConfig) (ipset_scope : string) : M Names :=
  st <- get_store ;;
  waf_ipsets <-
    (match waf_ipsets_by_scope st !! ipset_scope with
     | Some waf_ipsets => ret waf_ipsets
     | None =>
         waf_ipsets <- list_waf_ipset fuel ipset_scope ;;
         st <- get_store ;;
         set_waf_ipsets_by_scope
           (<[ipset_scope := waf_ipsets]> (waf_ipsets_by_scope st)) ;;;
         ret waf_ipsets
     end) ;;
  should_summarize <- lift (getitem (waf_Summarize waf_config)) ;;
  manage_waf_ipset waf_ipsets service_name ipset_scope should_summarize.

(** [resource_names['WafIPSet']['created'] += ipset_names['created']] and
    the same for ['updated']. *)
Definition report_waf_ipset_names (ipset_names : Names) : M unit :=
  st <- get_store ;;
  let rn := resource_names st in
  set_resource_names
    (mkResourceNames (rn_PrefixList rn)
       (mkNames (created (rn_WafIPSet rn) ++ created ipset_names)%list
                (updated (rn_WafIPSet rn) ++ updated ipset_names)%list)).

(** The [try] block of the second loop of the handler, for one scope. *)
Definition waf_ipset_attempt (fuel : nat) (service_name : string)
    (waf_config : WafIPSetConfig) (ipset_scope : string) : M unit :=
  ipset_names <- managed_waf_ipset_names fuel service_name waf_config ipset_scope ;;
  report_waf_ipset_names ipset_names.

(** The body of the loop over the scopes of a service. *)
Definition handle_waf_ipset_scope (fuel : nat) (service_name : string)
    (waf_config : WafIPSetConfig) (ipset_scope : string) : M unit :=
  try_except (waf_ipset_attempt fuel service_name waf_config ipset_scope)
    (fun error => log_exception error).

(** The body of the second loop of the handler, for one service.
    [config_service['WafIPSet']['Enable']] and
    [config_service['WafIPSet']['Scopes']] are read outside the [try]. *)
Definition handle_waf_ipset (fuel : nat) (config_service : ConfigService) : M unit :=
  let service_name := Name config_service in
  st <- get_store ;;
  if negb (Dict.mem (service_ranges st) service_name) then ret tt
  else
    match WafIPSet config_service with
    | None => ret tt
    | Some waf_config =>
        enable <- lift (getitem (waf_Enable waf_config)) ;;
        if negb enable then ret tt
        else
          scopes <- lift (getitem (waf_Scopes waf_config)) ;;
          mfoldl (fun _ ipset_scope =>
                    handle_waf_ipset_scope fuel service_name waf_config ipset_scope)
            tt scopes
    end.

(** What the handler obtains before it touches a resource: the parsed
    [services.json], the parsed SNS message (its [url] and [md5]) and the
    parsed document [get_ip_groups_json] downloads, each of which may have
    raised instead. *)
Record Setup : Type := {
  setup_config : result ConfigServices;
  setup_message : result (string * string);
  setup_ip_ranges : result IpRanges
}.

Definition empty_names : ResourceNames :=
  mkResourceNames (mkNames [] []) (mkNames [] []).

(** The handler from the assignment of [service_ranges] on: the two loops
    over the configured services and the result. *)
Definition manage_resources (fuel : nat) (config_services : ConfigServices)
    (sr : service_ranges_t) : M ResourceNames :=
  set_service_ranges sr ;;;
  set_resource_names empty_names ;;;
  set_vpc_prefix_lists ∅ ;;;
  mfoldl (fun _ config_service => handle_prefix_list fuel config_service)
    tt (Services config_services) ;;;
  set_waf_ipsets_by_scope ∅ ;;;
  mfoldl (fun _ config_service => handle_waf_ipset fuel config_service)
    tt (Services config_services) ;;;
  st <- get_store ;;
  ret (resource_names st).

Definition lambda_handler (fuel : nat) (setup : Setup) : M ResourceNames :=
  try_except
    (config_services <- lift (setup_config setup) ;;
     message <- lift (setup_message setup) ;;
     ip_ranges <- lift (setup_ip_ranges setup) ;;
     sr <- lift (get_ranges_for_service ip_ranges config_services) ;;
     manage_resources fuel config_services sr)
    (fun error => log_exception error ;;; raise error).
End Client.

(** The store a fresh invocation starts from. *)
Definition initial_store : Store :=
  mkStore [] [] ∅ ∅ (mkResourceNames (mkNames [] []) (mkNames [] [])).


(** ** Vocabulary of the statements *)

(** The number of host bits and the number of addresses of a network. *)
Definition host_bits (n : Network) : Z := max_prefixlen (net_version n) - prefixlen n.
Definition size (n : Network) : Z := 2 ^ host_bits n.

(** The addresses covered by a list of networks. *)
Definition covered (l : list Network) (a : Z) : Prop :=
  exists n, In n l /\ contains n a.

(** A well-formed network of version [v]. *)
Definition good (v : version) (n : Network) : Prop := wf_net n /\ net_version n = v.

(** The invariant of the merge loop: every network is well-formed, every
    dict entry is filed under the supernet of its value, keys are unique. *)
Definition merge_inv (v : version) (st : list Network * list (Network * Network)) : Prop :=
  Forall (good v) (fst st)
  /\ Forall (fun kv => good v (snd kv) /\ fst kv = supernet (snd kv)) (snd st)
  /\ NoDup (Dict.keys (snd st)).

Definition merge_cov (st : list Network * list (Network * Network)) (a : Z) : Prop :=
  covered (fst st) a \/ covered (Dict.values (snd st)) a.

(** [leb_of ltb a b]: [b] is not smaller than [a]. *)
Definition leb_of {A} (ltb : A -> A -> bool) (a b : A) : Prop := ltb b a = false.

Definition net_le (a b : Network) : Prop :=
  network_address a < network_address b
  \/ (network_address a = network_address b /\ netmask a <= netmask b).

(** [x] ends before [y] starts. *)
Definition before (x y : Network) : Prop := broadcast_address x < network_address y.

(** Two networks whose union is again a network. *)
Definition mergeable (x y : Network) : Prop :=
  exists m, wf_net m /\ net_version m = net_version x
            /\ forall a, contains m a <-> contains x a \/ contains y a.

Definition disjoint (x y : Network) : Prop :=
  forall a, ~ (contains x a /\ contains y a).

(** What a summary [out] of the networks [input] is: well-formed networks
    of the same version, each ending before the next starts (so ascending
    and pairwise disjoint), covering exactly the addresses of the input, no
    two of which could be merged into one network. *)
Record collapsed (v : version) (input out : list Network) : Prop := {
  col_good : Forall (good v) out;
  col_sorted : StronglySorted before out;
  col_cover : forall a, covered out a <-> covered input a;
  col_unmergeable :
    forall x y, In x out -> In y out -> x <> y -> ~ mergeable x y
}.

Definition in_ranges (rs : list (Z * Z)) (a : Z) : Prop :=
  exists r, In r rs /\ fst r <= a <= snd r.

Definition is_host (n : Network) : Prop := prefixlen n = max_prefixlen (net_version n).

(** The class-specific parts of the two list classes. *)
Definition parse_net (v : version) : string -> result Network :=
  match v with V4 => IPv4.IPv4Network | V6 => IPv6.IPv6Network end.

Definition canonical (v : version) : Network -> string :=
  match v with V4 => IPv4.with_prefixlen | V6 => IPv6.exploded end.

Definition summarized (v : version) : IPList -> result (list string * IPList) :=
  match v with V4 => IPv4List_summarized | V6 => IPv6List_summarized end.

(** A name without a ["-"]: the concatenated lookup keys
    [f"{service_name}-{region}"] of such names cannot collide. *)
Definition hyphen_free (s : string) : Prop := Str.contains "-" s = false.

(** The text is accepted by the parser of the family. *)
Definition valid_cidr (v : version) (s : string) : Prop :=
  exists n, parse_net v s = Ok n.

(** [key in service_control] for the specific or the wildcard key of a
    feed record. *)
Definition selected (service_control : gmap string bool) (p : Prefix) : Prop :=
  is_Some (service_control !! (service p ++ "-" ++ region p))
  \/ is_Some (service_control !! service p).

Definition selectedb (service_control : gmap string bool) (p : Prefix) : bool :=
  bool_decide (selected service_control p).

(** The prefixes of the feed records selected for [name], in feed order. *)
Definition attributed (service_control : gmap string bool) (name : string)
    (feed : list Prefix) : list string :=
  map ip_prefix
    (List.filter (fun p => selectedb service_control p && bool_decide (service p = name)) feed).

(** [IPv4List.sort] / [IPv6List.sort] by family. *)
Definition sort_list (v : version) : IPList -> result IPList :=
  match v with V4 => IPv4List_sort | V6 => IPv6List_sort end.

Definition other (v : version) : version := match v with V4 => V6 | V6 => V4 end.

(** The lookup keys the first loop registers for a configuration. *)
Definition lookup_keys (cs : list ConfigService) : list string :=
  concat (map (fun c => match Regions c with
                        | Some [] | None => [Name c]
                        | Some regions => map (fun r => Name c ++ "-" ++ r) regions
                        end) cs).

(** What the lookup of the feed records amounts to in the result [out] of
    the extractor: per service and family, the sorted prefixes of the
    records whose specific or wildcard key is registered; and a record of a
    service configured with an empty region list is among them. *)
Definition lookup_spec (ranges : IpRanges) (cfg : ConfigServices)
    (out : service_ranges_t) : Prop :=
  (exists control,
     (forall k, is_Some (control !! k) <-> In k (lookup_keys (Services cfg)))
     /\ forall name r, Dict.get out name = Some r ->
          sort_list V4 (mkIPList (attributed control name (prefixes ranges)) []) = Ok (ipv4 r)
          /\ sort_list V6 (mkIPList (attributed control name (ipv6_prefixes ranges)) [])
             = Ok (ipv6 r))
  /\ forall c p, In c (Services cfg) -> Regions c = Some [] -> service p = Name c ->
       (In p (prefixes ranges) ->
        exists r, Dict.get out (Name c) = Some r /\ In (ip_prefix p) (ip_list (ipv4 r)))
       /\ (In p (ipv6_prefixes ranges) ->
           exists r, Dict.get out (Name c) = Some r
             /\ (In (ip_prefix p) (ip_list (ipv6 r))
                 \/ exists n, IPv6.IPv6Network (ip_prefix p) = Ok n
                              /\ In (IPv6.exploded n) (ip_list (ipv6 r)))).

(** *** Runs and traces *)

(** The store after the events [evs] happened. *)
Definition add_events (st : Store) (evs : list Event) : Store :=
  mkStore (trace st ++ evs)%list (service_ranges st) (vpc_prefix_lists st)
    (waf_ipsets_by_scope st) (resource_names st).

(** What [get_prefix_list_by_id] makes of the reply to its call. *)
Definition observed (r : Reply) : result PrefixListInfo :=
  match r with
  | Returns (RPrefixLists (prefix_list :: _) _) => Ok prefix_list
  | Returns (RPrefixLists [] _) => Raise IndexError
  | Returns _ => Raise KeyError
  | Throws e => Raise e
  end.

(** The call [get_prefix_list_by_id] makes. *)
Definition describe_by_id (prefix_list_id : string) : Call :=
  describe_managed_prefix_lists (Some [prefix_list_id]) None.

(** One round of polling: the sleep and the read of the prefix list. *)
Definition poll (count : Z) (prefix_list_id : string) (r : Reply) : list Event :=
  [EvSleep (count + (count + 1)); EvCall (describe_by_id prefix_list_id) r].

(** The rounds of a polling loop over [counts] and its outcome: it stops
    with the prefix list at the first round that observes a state of
    [complete], raises what a failed read raises, and raises [Exception msg]
    when [counts] is used up. *)
Inductive waited (prefix_list_id : string) (complete : list string) (msg : string)
  : list Z -> list Event -> result PrefixListInfo -> Prop :=
  | waited_exhausted :
      waited prefix_list_id complete msg [] [] (Raise (Exception msg))
  | waited_done count counts r prefix_list :
      observed r = Ok prefix_list -> State prefix_list ∈ complete ->
      waited prefix_list_id complete msg (count :: counts)
        (poll count prefix_list_id r) (Ok prefix_list)
  | waited_again count counts r prefix_list evs res :
      observed r = Ok prefix_list -> State prefix_list ∉ complete ->
      waited prefix_list_id complete msg counts evs res ->
      waited prefix_list_id complete msg (count :: counts)
        (poll count prefix_list_id r ++ evs)%list res
  | waited_failed count counts r e :
      observed r = Raise e ->
      waited prefix_list_id complete msg (count :: counts)
        (poll count prefix_list_id r) (Raise e).

(** The sleeps of a trace, in order. *)
Definition sleeps (evs : list Event) : list Z :=
  omap (fun e => match e with EvSleep s => Some s | _ => None end) evs.

(** The calls of a trace, in order. *)
Definition calls (evs : list Event) : list Call :=
  omap (fun e => match e with EvCall c _ => Some c | _ => None end) evs.

(** The states the reads of a prefix list observed, in order. *)
Definition observed_states (evs : list Event) : list string :=
  omap (fun e => match e with
                 | EvCall (describe_managed_prefix_lists (Some _) None) r =>
                     match observed r with Ok pl => Some (State pl) | _ => None end
                 | _ => None
                 end) evs.

Definition is_modify (c : Call) : bool :=
  match c with modify_managed_prefix_list _ _ _ _ _ _ => true | _ => false end.

(** A [modify_managed_prefix_list] call that carries entries. *)
Definition is_content (c : Call) : bool :=
  match c with
  | modify_managed_prefix_list _ _ _ _ (Some _) _
  | modify_managed_prefix_list _ _ _ _ _ (Some _) => true
  | _ => false
  end.

(** A [modify_managed_prefix_list] call that sets [MaxEntries]. *)
Definition is_resize (c : Call) : bool :=
  match c with
  | modify_managed_prefix_list _ _ _ (Some _) _ _ => true
  | _ => false
  end.

(** The entries the [modify_managed_prefix_list] calls of a trace add and
    remove, concatenated in call order. *)
Definition added_entries (evs : list Event) : list Entry :=
  concat (omap (fun e => match e with
                         | EvCall (modify_managed_prefix_list _ _ _ _ (Some a) _) _ => Some a
                         | _ => None
                         end) evs).

Definition removed_entries (evs : list Event) : list Entry :=
  concat (omap (fun e => match e with
                         | EvCall (modify_managed_prefix_list _ _ _ _ _ (Some r)) _ => Some r
                         | _ => None
                         end) evs).

(** How a polling loop can end: with the prefix list of the first round
    that observed a state of [complete]; with [Exception msg] after a round
    for every count, none of which observed such a state; or with the error
    of a read that failed. *)
Definition wait_outcome (complete : list string) (msg : string) (n : nat)
    (evs : list Event) (res : result PrefixListInfo) : Prop :=
  (exists pl earlier,
     res = Ok pl /\ State pl ∈ complete
     /\ observed_states evs = (earlier ++ [State pl])%list
     /\ Forall (fun s => s ∉ complete) earlier)
  \/ (res = Raise (Exception msg)
       /\ length (observed_states evs) = n
       /\ Forall (fun s => s ∉ complete) (observed_states evs))
  \/ (exists r e c,
         last evs = Some (EvCall c r) /\ observed r = Raise e /\ res = Raise e
         /\ Forall (fun s => s ∉ complete) (observed_states evs)).


(** What [call c] followed by [response['PrefixList']] yields for a reply. *)
Definition chk_prefix_list (r : Reply) : result PrefixListInfo :=
  match r with
  | Returns (RPrefixList prefix_list) => Ok prefix_list
  | Returns _ => Raise KeyError
  | Throws e => Raise e
  end.

(** What [call c] yields for a reply. *)
Definition reply_result (r : Reply) : result Response :=
  match r with
  | Returns response => Ok response
  | Throws e => Raise e
  end.

(** The shape of the bodies of the two batch loops: read the prefix list of
    the previous response, wait while its state is one of [inprogress], then
    make the call [mk] builds from the prefix list. *)
Definition wait_then_modify (client : Backend) (inprogress complete : list string)
    (msg : string) (mk : PrefixListInfo -> Call) (response : Response)
  : M Response :=
  prefix_list <- as_prefix_list response ;;
  prefix_list <-
    (if bool_decide (State prefix_list ∈ inprogress)
     then wait_prefix_list client (py_range 0 5 1) (PrefixListId prefix_list) complete msg
     else ret prefix_list) ;;
  call client (mk prefix_list).

(** The events of a run of such a body from a response that carries
    [prefix_list], and its result: the rounds of polling, then the call when
    the wait ended well. *)
Definition batch_run (client : Backend) (inprogress complete : list string)
    (msg : string) (mk : PrefixListInfo -> Call) (prefix_list : PrefixListInfo)
    (st : Store) (res : result Response) (st' : Store) : Prop :=
  exists polls wres,
    (if bool_decide (State prefix_list ∈ inprogress)
     then waited (PrefixListId prefix_list) complete msg (py_range 0 5 1) polls wres
     else polls = [] /\ wres = Ok prefix_list)
    /\ match wres with
       | Ok prefix_list' =>
           let reply := client (trace st ++ polls)%list (mk prefix_list') in
           st' = add_events st (polls ++ [EvCall (mk prefix_list') reply])
           /\ res = reply_result reply
       | Raise e => st' = add_events st polls /\ res = Raise e
       | OutOfFuel => False
       end.

(** The content call of a batch of [update_prefix_list] and of
    [create_prefix_list]. *)
Definition update_call (entries_to_add entries_to_remove : list Entry) (index : Z)
    (prefix_list : PrefixListInfo) : Call :=
  modify_managed_prefix_list (PrefixListId prefix_list) (Some (Version prefix_list))
    (PrefixListName prefix_list) None
    (Some (slice entries_to_add index (index + 100)))
    (Some (slice entries_to_remove index (index + 100))).

Definition create_call (prefix_list_entries : list Entry) (index : Z)
    (prefix_list : PrefixListInfo) : Call :=
  modify_managed_prefix_list (PrefixListId prefix_list) (Some (Version prefix_list))
    (PrefixListName prefix_list) None
    (Some (slice prefix_list_entries index (index + 100))) None.

Definition update_wait_msg : string := "Error updating VPC Prefix List. Can't wait anymore.".
Definition create_wait_msg : string :=
  "Error creating/updating VPC Prefix List. Can't wait anymore.".
Definition resize_wait_msg : string :=
  "Error updating VPC Prefix List max entries. Can't wait anymore.".

(** The rounds of polling of one wait: at most five, with sleeps of 1, 3, 5,
    7 and 9 seconds, each followed by a read of the prefix list, and ending
    as [wait_outcome] says. *)
Definition bounded_polling (prefix_list_id : string) (complete : list string)
    (msg : string) (polls : list Event) (wres : result PrefixListInfo) : Prop :=
  exists k, (k <= 5)%nat
    /\ sleeps polls = take k [1; 3; 5; 7; 9]
    /\ calls polls = replicate k (describe_by_id prefix_list_id)
    /\ wait_outcome complete msg 5 polls wres.

(** A batch that found its prefix list in progress: the bounded polling,
    then the call [mk] builds when the polling ended well, and no call at
    all when it raised. *)
Definition batch_polled (client : Backend) (complete : list string) (msg : string)
    (mk : PrefixListInfo -> Call) (prefix_list : PrefixListInfo)
    (st : Store) (res : result Response) (st' : Store) : Prop :=
  exists polls wres,
    bounded_polling (PrefixListId prefix_list) complete msg polls wres
    /\ match wres with
       | Ok prefix_list' =>
           exists reply,
             st' = add_events st (polls ++ [EvCall (mk prefix_list') reply])
             /\ res = reply_result reply
       | Raise e => st' = add_events st polls /\ res = Raise e
       | OutOfFuel => False
       end.

(** The first content call of [update_prefix_list], from [version]. *)
Definition first_update_call (prefix_list_name : string) (prefix_list : PrefixListInfo)
    (version : Z) (entries_to_add entries_to_remove : list Entry) : Call :=
  modify_managed_prefix_list (PrefixListId prefix_list) (Some version) prefix_list_name
    None (Some (slice entries_to_add 0 100)) (Some (slice entries_to_remove 0 100)).

(** The indexes of the later batches of [update_prefix_list]. *)
Definition update_indexes (entries_to_add entries_to_remove : list Entry) : list Z :=
  py_range 100 (Z.max (Z.of_nat (length entries_to_add))
                      (Z.of_nat (length entries_to_remove))) 100.

(** The entries [create_prefix_list] sends, its first call and the indexes
    of its later batches. *)
Definition created_entries (address_list : list string) : list Entry :=
  map (fun addr => mkEntry addr (Some DESCRIPTION)) address_list.

Definition first_create_call (prefix_list_name prefix_list_ip_version : string)
    (address_list : list string) : Call :=
  create_managed_prefix_list prefix_list_name
    (slice (created_entries address_list) 0 100)
    (Z.min (Z.of_nat (length (created_entries address_list)) + 10) 1000)
    (created_tags prefix_list_name) prefix_list_ip_version.

Definition create_indexes (address_list : list string) : list Z :=
  py_range 100 (Z.of_nat (length (created_entries address_list))) 100.

(** A backend whose prefix list never leaves the state [state]. *)
Definition stuck_backend (state : string) : Backend :=
  fun _ c =>
    match c with
    | describe_managed_prefix_lists _ _ =>
        Returns (RPrefixLists
                   [ {| PrefixListId := "pl-1"; PrefixListName := "aws-ip-ranges-s3-ipv4";
                        MaxEntries := 200; Version := 2; State := state;
                        StateMessage := None |} ] None)
    | modify_managed_prefix_list id _ name _ _ _ =>
        Returns (RPrefixList
                   {| PrefixListId := id; PrefixListName := name;
                      MaxEntries := 200; Version := 3; State := "modify-in-progress";
                      StateMessage := None |})
    | _ => Returns RNone
    end.

(** The capacity call of [update_prefix_list]: only [MaxEntries] is set. *)
Definition resize_call (prefix_list_name : string) (prefix_list : PrefixListInfo)
    (address_list : list string) : Call :=
  modify_managed_prefix_list (PrefixListId prefix_list) None prefix_list_name
    (Some (Z.of_nat (length address_list))) None None.

(** The capacity change is complete: the reply to the capacity call says
    [modify-complete] and nothing was polled, or it says
    [modify-in-progress] and the last read of the polling observed
    [modify-complete].  [version] is the version of the reply. *)
Definition resize_completed (reply : Reply) (polls : list Event) (version : Z) : Prop :=
  exists prefix_list,
    reply = Returns (RPrefixList prefix_list)
    /\ version = Version prefix_list
    /\ (State prefix_list = "modify-complete" /\ polls = []
        \/ State prefix_list = "modify-in-progress"
           /\ exists earlier,
                observed_states polls = (earlier ++ ["modify-complete"])%list).

(** Every call a computation makes satisfies [P], whatever the store and
    the outcome. *)
Definition emits {A} (P : Call -> Prop) (m : M A) : Prop :=
  forall st res st', m st = (res, st') ->
    exists evs, trace st' = (trace st ++ evs)%list /\ Forall P (calls evs).

(** A [modify_managed_prefix_list] call never both sets [MaxEntries] and
    carries entries. *)
Definition separate (c : Call) : Prop := is_resize c && is_content c = false.

(** [entries_to_add] and [entries_to_remove] of [update_prefix_list]. *)
Definition entries_to_add (current_entries : list (Network * string))
    (network_list : list Network) : list Entry :=
  map (fun cidr => mkEntry (with_prefixlen cidr) (Some DESCRIPTION))
    (networks_to_add current_entries network_list).

Definition entries_to_remove (current_entries : list (Network * string))
    (network_list : list Network) : list Entry :=
  map (fun cidr => mkEntry (with_prefixlen cidr) None)
    (networks_to_remove current_entries network_list).

(** A run of the update that starts with the capacity call: the rounds of
    polling follow it, with no other call among them; then either the
    capacity change failed, the run raises and nothing else is called, or the
    capacity change is complete and the first content call follows, from the
    version the capacity call returned, with no capacity call after it. *)
Definition resized_first (client : Backend) (prefix_list_name : string)
    (prefix_list : PrefixListInfo) (address_list : list string)
    (adds removes : list Entry) (st : Store) (res : result bool) (st' : Store) : Prop :=
  let reply := client (trace st) (resize_call prefix_list_name prefix_list address_list) in
  exists polls rest,
    trace st' = (trace st ++ EvCall (resize_call prefix_list_name prefix_list address_list)
                               reply :: polls ++ rest)%list
    /\ Forall (fun c => c = describe_by_id (PrefixListId prefix_list)) (calls polls)
    /\ ((rest = [] /\ exists e, res = Raise e)
        \/ exists version reply' rest',
             resize_completed reply polls version
             /\ rest = EvCall (first_update_call prefix_list_name prefix_list version
                                 adds removes) reply' :: rest'
             /\ Forall (fun c => is_resize c = false) (calls rest')).

(** A backend whose prefix lists and IP sets hold [current] and whose
    changes complete at once. *)
Definition settled_backend (current : list Entry) : Backend :=
  fun _ c =>
    match c with
    | get_managed_prefix_list_entries _ _ _ => Returns (REntries current None)
    | get_ip_set _ _ _ => Returns (RIPSet (map Cidr current))
    | modify_managed_prefix_list id _ name _ _ _ =>
        Returns (RPrefixList
                   {| PrefixListId := id; PrefixListName := name; MaxEntries := 10;
                      Version := 8; State := "modify-complete";
                      StateMessage := Some "" |})
    | _ => Returns RNone
    end.

(** Nothing to add and nothing to remove. *)
Definition no_delta (current_entries : list (Network * string))
    (network_list : list Network) : bool :=
  match networks_to_add current_entries network_list,
        networks_to_remove current_entries network_list with
  | [], [] => true
  | _, _ => false
  end.

(** The update call of [update_waf_ipset]: it carries [address_list]. *)
Definition waf_update_call (ipset_name ipset_scope : string) (waf_ipset : IPSetSummary)
    (address_list : list string) : Call :=
  update_ip_set ipset_name ipset_scope (ipset_Id waf_ipset) (ipset_Description waf_ipset)
    address_list (ipset_LockToken waf_ipset).

(** A [modify_managed_prefix_list] call carries no entries, or a slice of a
    hundred of [adds] and the same slice of [removes]. *)
Definition carries_only (adds removes : list Entry) (c : Call) : Prop :=
  match c with
  | modify_managed_prefix_list _ _ _ _ a r =>
      (a = None /\ r = None)
      \/ exists index,
           a = Some (slice adds index (index + 100))
           /\ r = Some (slice removes index (index + 100))
  | _ => True
  end.

(** The capacity has to grow before the content changes: there are entries
    to add and [MaxEntries] is smaller than the length of the desired
    list. *)
Definition needs_resize (prefix_list : PrefixListInfo) (address_list : list string)
    (adds : list Entry) : bool :=
  negb (bool_decide (adds = []))
  && (MaxEntries prefix_list <? Z.of_nat (length address_list)).

(** The first call of an update of a prefix list that has a delta. *)
Definition first_delta_call (prefix_list_name : string) (prefix_list : PrefixListInfo)
    (address_list : list string) (adds removes : list Entry) : Call :=
  if needs_resize prefix_list address_list adds
  then resize_call prefix_list_name prefix_list address_list
  else first_update_call prefix_list_name prefix_list (Version prefix_list) adds removes.

(** An update of a prefix list in one content call: the call carries
    [adds] and [removes] whole; when it returns, the [UpdatedAt] tag is
    written and the update returns [True]; an error of either call is
    raised. *)
Definition single_call_update (client : Backend) (prefix_list_name : string)
    (prefix_list : PrefixListInfo) (adds removes : list Entry) (st : Store)
  : result bool * Store :=
  let c := modify_managed_prefix_list (PrefixListId prefix_list)
             (Some (Version prefix_list)) prefix_list_name None
             (Some adds) (Some removes) in
  let reply := client (trace st) c in
  let st2 := add_events st [EvCall c reply] in
  match reply with
  | Throws e => (Raise e, st2)
  | Returns _ =>
      let t := create_tags [PrefixListId prefix_list] [("UpdatedAt", TagNow)] in
      let reply' := client (trace st2) t in
      (match reply' with
       | Returns _ => Ok true
       | Throws e => Raise e
       end, add_events st2 [EvCall t reply'])
  end.

(** [names] with [name] appended to its updated names when [is_updated]. *)
Definition reported (names : Names) (name : string) (is_updated : bool) : Names :=
  if is_updated then mkNames (created names) (updated names ++ [name])%list else names.

(** The pages of a listing: [page_of] reads the items and the continuation
    token of a response; [mk token] is the call for the page after [token]. *)
Definition ip_sets_page (r : Response) : option (list IPSetSummary * option string) :=
  match r with RIPSets l m => Some (l, m) | _ => None end.

Definition prefix_lists_page (r : Response)
  : option (list PrefixListInfo * option string) :=
  match r with RPrefixLists l t => Some (l, t) | _ => None end.

Definition entries_page (r : Response) : option (list Entry * option string) :=
  match r with REntries l t => Some (l, t) | _ => None end.

(** A complete listing from [token] on: each call is answered by a page,
    each page but the last names the token of the next call, and the last
    page has no token.  [items] are the items of all the pages, in order. *)
Inductive paged {X} (mk : option string -> Call)
    (page_of : Response -> option (list X * option string))
  : option string -> list Event -> list X -> Prop :=
  | paged_last token r items :
      page_of r = Some (items, None) ->
      paged mk page_of token [EvCall (mk token) (Returns r)] items
  | paged_more token r items next evs rest :
      page_of r = Some (items, Some next) ->
      paged mk page_of (Some next) evs rest ->
      paged mk page_of token (EvCall (mk token) (Returns r) :: evs) (items ++ rest)%list.

(** The replies of the calls of [evs] are the ones [client] gives after
    [history]. *)
Fixpoint answered (client : Backend) (history : list Event) (evs : list Event) : Prop :=
  match evs with
  | [] => True
  | EvCall c r :: evs' =>
      r = client history c /\ answered client (history ++ [EvCall c r])%list evs'
  | _ :: _ => False
  end.

(** The snapshots the listings build from the items of all pages. *)
Definition index_ip_sets (ipsets : gmap string IPSetSummary) (items : list IPSetSummary)
  : gmap string IPSetSummary :=
  foldl (fun m ipset => <[ipset_Name ipset := ipset]> m) ipsets items.

Definition index_prefix_lists (prefix_lists : gmap string PrefixListInfo)
    (items : list PrefixListInfo) : gmap string PrefixListInfo :=
  foldl (fun m prefix_list => <[PrefixListName prefix_list := prefix_list]> m)
    prefix_lists items.

(** The snapshot [get_ip_set_entries] builds from the addresses of the
    response. *)
Definition read_addresses (addresses : list string) : result (list (Network * string)) :=
  rfoldl (fun entries entrie =>
            rbind (ip_network entrie) (fun network =>
            Ok (Dict.set entries network entrie)))
    [] addresses.

(** A backend that lists its IP sets, its prefix lists and the entries of a
    prefix list in two pages. *)
Definition first_ip_set : IPSetSummary :=
  {| ipset_Name := "aws-ip-ranges-s3-ipv4"; ipset_Id := "id-1"; ipset_Description := "";
     ipset_LockToken := "token-1"; ipset_ARN := "arn-1" |}.

Definition second_ip_set : IPSetSummary :=
  {| ipset_Name := "aws-ip-ranges-s3-ipv6"; ipset_Id := "id-2"; ipset_Description := "";
     ipset_LockToken := "token-2"; ipset_ARN := "arn-2" |}.

Definition first_prefix_list : PrefixListInfo :=
  {| PrefixListId := "pl-1"; PrefixListName := "aws-ip-ranges-s3-ipv4"; MaxEntries := 10;
     Version := 1; State := "create-complete"; StateMessage := None |}.

Definition second_prefix_list : PrefixListInfo :=
  {| PrefixListId := "pl-2"; PrefixListName := "aws-ip-ranges-s3-ipv6"; MaxEntries := 10;
     Version := 1; State := "create-complete"; StateMessage := None |}.

Definition paging_backend : Backend :=
  fun _ c =>
    match c with
    | list_ip_sets _ None => Returns (RIPSets [first_ip_set] (Some "page-2"))
    | list_ip_sets _ (Some _) => Returns (RIPSets [second_ip_set] None)
    | describe_managed_prefix_lists _ None =>
        Returns (RPrefixLists [first_prefix_list] (Some "page-2"))
    | describe_managed_prefix_lists _ (Some _) =>
        Returns (RPrefixLists [second_prefix_list] None)
    | get_managed_prefix_list_entries _ _ None =>
        Returns (REntries [mkEntry "10.0.0.0/24" None] (Some "page-2"))
    | get_managed_prefix_list_entries _ _ (Some _) =>
        Returns (REntries [mkEntry "10.0.1.0/24" None] None)
    | _ => Returns RNone
    end.

(** [ceil(a / b)] for a positive [b]. *)
Definition ceil_div (a b : Z) : Z := (a + b - 1) / b.

(** What [manage_prefix_list] does with chunk [index] of a list: the update
    of the prefix list of that name when there is one, its creation
    otherwise. *)
Definition chunk_handled (client : Backend) (fuel : nat)
    (vpc_prefix_lists : gmap string PrefixListInfo) (ip_version : version)
    (prefix_list_name : string) (prefix_list_names : Names)
    (address_list_chunk : list string) : M Names :=
  match vpc_prefix_lists !! prefix_list_name with
  | Some prefix_list =>
      bind (update_prefix_list client fuel prefix_list_name prefix_list address_list_chunk)
        (fun is_updated => ret (reported prefix_list_names prefix_list_name is_updated))
  | None =>
      bind (create_prefix_list client prefix_list_name (Str.upper (ip_version_str ip_version))
              address_list_chunk)
        (fun _ => ret (mkNames (created prefix_list_names ++ [prefix_list_name])%list
                         (updated prefix_list_names)))
  end.

(** Chunking, as the specification words it: a list of length [L] is cut
    into [ceil(L / C)] chunks, chunk [i] being the [C] elements from
    position [i * C] on; chunk 0 goes under the base name and chunk [n]
    under the base name followed by [-continued-] and [n]. *)
Definition chunk_of (chunk_size : Z) (address_list : list string) (i : nat) : list string :=
  take (Z.to_nat chunk_size) (drop (i * Z.to_nat chunk_size) address_list).

Definition chunk_label (base_name : string) (i : nat) : string :=
  match i with
  | O => base_name
  | S _ => base_name ++ "-continued-" ++ Str.dec (Z.of_nat i)
  end.

Definition named_chunks (chunk_size : Z) (base_name : string) (address_list : list string)
  : list (string * list string) :=
  map (fun i => (chunk_label base_name i, chunk_of chunk_size address_list i))
    (seq 0 (Z.to_nat (ceil_div (Z.of_nat (length address_list)) chunk_size))).

(** The named chunks handled one after the other, each as [chunk_handled]
    says. *)
Definition chunks_handled (client : Backend) (fuel : nat)
    (vpc_prefix_lists : gmap string PrefixListInfo) (ip_version : version)
    (prefix_list_names : Names) (chunks : list (string * list string)) : M Names :=
  mfoldl (fun names chunk =>
            chunk_handled client fuel vpc_prefix_lists ip_version (fst chunk) names
              (snd chunk))
    prefix_list_names chunks.

(** What the specification has [manage_prefix_list] do for one IP version:
    take the address list of the service, cut it into named chunks and
    handle them in order; nothing when the service has no address of that
    version. *)
Definition version_chunked (client : Backend) (fuel : nat)
    (vpc_prefix_lists : gmap string PrefixListInfo) (service_name : string)
    (should_summarize : bool) (chunk_size : Z) (prefix_list_names : Names)
    (ip_version : version) : M Names :=
  bind (address_list_of service_name ip_version should_summarize) (fun address_list =>
  chunks_handled client fuel vpc_prefix_lists ip_version prefix_list_names
    (named_chunks chunk_size (resource_name service_name ip_version)
       (default [] address_list))).

(** A backend that creates and changes prefix lists at once and has
    nothing to list. *)
Definition empty_backend : Backend :=
  fun _ c =>
    match c with
    | create_managed_prefix_list name _ max_entries _ _ =>
        Returns (RPrefixList
                   {| PrefixListId := "pl-" ++ name; PrefixListName := name;
                      MaxEntries := max_entries; Version := 1;
                      State := "create-complete"; StateMessage := None |})
    | modify_managed_prefix_list id _ name _ _ _ =>
        Returns (RPrefixList
                   {| PrefixListId := id; PrefixListName := name; MaxEntries := 10;
                      Version := 2; State := "modify-complete";
                      StateMessage := Some "" |})
    | describe_managed_prefix_lists _ _ => Returns (RPrefixLists [] None)
    | list_ip_sets _ _ => Returns (RIPSets [] None)
    | _ => Returns RNone
    end.

(** What the handler computes before it touches a resource: the service
    ranges, or the first error of the configuration, the message, the
    download and the extraction. *)
Definition setup_phase (setup : Setup) : result service_ranges_t :=
  rbind (setup_config setup) (fun config_services =>
  rbind (setup_message setup) (fun _ =>
  rbind (setup_ip_ranges setup) (fun ip_ranges =>
  get_ranges_for_service ip_ranges config_services))).

(** A computation changes the store only along [R]. *)
Definition respects (R : Store -> Store -> Prop) {A} (m : M A) : Prop :=
  forall st res st', m st = (res, st') -> R st st'.

(** The services that have ranges and the names to report are the same in
    both stores. *)
Definition quiet (st st' : Store) : Prop :=
  Dict.keys (service_ranges st') = Dict.keys (service_ranges st)
  /\ resource_names st' = resource_names st.

(** An attempt of the handler: the prefix lists of a service, or the IP
    sets of a service in one scope. *)
Inductive Attempt : Type :=
  | PrefixListAttempt (service_name : string) (pl_config : PrefixListConfig)
  | WafIPSetAttempt (service_name : string) (waf_config : WafIPSetConfig)
      (ipset_scope : string).

(** The attempts the configuration asks for: the prefix lists of every
    service that enables them, in the order of the configuration, and the
    IP sets of every service that enables them, scope by scope. *)
Definition prefix_list_attempts_of (config_service : ConfigService) : list Attempt :=
  match PrefixList config_service with
  | Some pl_config =>
      match pl_Enable pl_config with
      | Some true => [PrefixListAttempt (Name config_service) pl_config]
      | _ => []
      end
  | None => []
  end.

Definition waf_ipset_attempts_of (config_service : ConfigService) : list Attempt :=
  match WafIPSet config_service with
  | Some waf_config =>
      match waf_Enable waf_config, waf_Scopes waf_config with
      | Some true, Some scopes =>
          map (WafIPSetAttempt (Name config_service) waf_config) scopes
      | _, _ => []
      end
  | None => []
  end.

Definition prefix_list_attempts (config_services : ConfigServices) : list Attempt :=
  flat_map prefix_list_attempts_of (Services config_services).

Definition waf_ipset_attempts (config_services : ConfigServices) : list Attempt :=
  flat_map waf_ipset_attempts_of (Services config_services).

(** The configuration has the keys the handler reads outside its inner
    [try] blocks: [Enable] under every ['PrefixList'] and ['WafIPSet'], and
    [Scopes] under every ['WafIPSet'] that is enabled. *)
Definition prefix_list_keyed (config_service : ConfigService) : bool :=
  match PrefixList config_service with
  | Some pl_config => bool_decide (is_Some (pl_Enable pl_config))
  | None => true
  end.

Definition waf_ipset_keyed (config_service : ConfigService) : bool :=
  match WafIPSet config_service with
  | Some waf_config =>
      match waf_Enable waf_config with
      | Some true => bool_decide (is_Some (waf_Scopes waf_config))
      | Some false => true
      | None => false
      end
  | None => true
  end.

Definition keyed (config_services : ConfigServices) : bool :=
  forallb prefix_list_keyed (Services config_services)
  && forallb waf_ipset_keyed (Services config_services).

(** The names an attempt yields, when it returns. *)
Definition attempt_names (client : Backend) (fuel : nat) (a : Attempt) : M Names :=
  match a with
  | PrefixListAttempt service_name pl_config =>
      managed_prefix_list_names client fuel service_name pl_config
  | WafIPSetAttempt service_name waf_config ipset_scope =>
      managed_waf_ipset_names client fuel service_name waf_config ipset_scope
  end.

(** [names] appended to the names reported for the resource kind of [a]. *)
Definition add_names (a : Attempt) (names : Names) (rn : ResourceNames) : ResourceNames :=
  match a with
  | PrefixListAttempt _ _ =>
      mkResourceNames
        (mkNames (created (rn_PrefixList rn) ++ created names)%list
                 (updated (rn_PrefixList rn) ++ updated names)%list)
        (rn_WafIPSet rn)
  | WafIPSetAttempt _ _ _ =>
      mkResourceNames (rn_PrefixList rn)
        (mkNames (created (rn_WafIPSet rn) ++ created names)%list
                 (updated (rn_WafIPSet rn) ++ updated names)%list)
  end.

(** The store an attempt hands to the next one: the names it returned are
    reported, or the error it raised is logged. *)
Definition settled (a : Attempt) (outcome : result Names) (st : Store) : Store :=
  match outcome with
  | Ok names =>
      mkStore (trace st) (service_ranges st) (vpc_prefix_lists st)
        (waf_ipsets_by_scope st) (add_names a names (resource_names st))
  | Raise e => add_events st [EvLogException e]
  | OutOfFuel => st
  end.

(** Failure isolation: the attempts are made one after the other, each
    from the store the previous one handed over, whether the previous ones
    returned or raised. *)
Inductive isolated (client : Backend) (fuel : nat)
  : list Attempt -> Store -> list (result Names) -> Store -> Prop :=
  | isolated_nil st : isolated client fuel [] st [] st
  | isolated_cons a attempts st outcome st1 outcomes st' :
      attempt_names client fuel a st = (outcome, st1) ->
      outcome <> OutOfFuel ->
      isolated client fuel attempts (settled a outcome st1) outcomes st' ->
      isolated client fuel (a :: attempts) st (outcome :: outcomes) st'.

(** The three ways a loop of the handler can end: out of fuel; normally,
    with every attempt made; or with the [KeyError] of a missing key. *)
Definition loop_outcome (client : Backend) (fuel : nat) (keyed_all : bool)
    (attempts : list Attempt) (st : Store) (res : result unit) (st' : Store) : Prop :=
  res = OutOfFuel
  \/ (keyed_all = true /\ res = Ok tt
      /\ exists outcomes, isolated client fuel attempts st outcomes st')
  \/ (keyed_all = false /\ res = Raise KeyError).

(** The names reported by those of the attempts that returned, after
    [rn]. *)
Fixpoint collected (attempts : list Attempt) (outcomes : list (result Names))
    (rn : ResourceNames) : ResourceNames :=
  match attempts, outcomes with
  | a :: attempts', Ok names :: outcomes' =>
      collected attempts' outcomes' (add_names a names rn)
  | _ :: attempts', _ :: outcomes' => collected attempts' outcomes' rn
  | _, _ => rn
  end.

(** The names reported for the resource kind of [a]. *)
Definition names_for (a : Attempt) (rn : ResourceNames) : Names :=
  match a with
  | PrefixListAttempt _ _ => rn_PrefixList rn
  | WafIPSetAttempt _ _ _ => rn_WafIPSet rn
  end.

(** The store the first loop of the handler starts from, and the store
    the second loop starts from when the first ended in [st1]. *)
Definition first_loop_store (st : Store) (sr : service_ranges_t) : Store :=
  mkStore (trace st) sr ∅ (waf_ipsets_by_scope st) empty_names.

Definition second_loop_store (st1 : Store) : Store :=
  mkStore (trace st1) (service_ranges st1) (vpc_prefix_lists st1) ∅ (resource_names st1).

(** A backend that creates every prefix list but those of IPv6, for which
    the call fails. *)
Definition half_failing_backend : Backend :=
  fun _ c =>
    match c with
    | create_managed_prefix_list name _ max_entries _ family =>
        if String.eqb family "IPV6" then Throws ClientError
        else Returns (RPrefixList
                        {| PrefixListId := "pl-1"; PrefixListName := name;
                           MaxEntries := max_entries; Version := 1;
                           State := "create-complete"; StateMessage := None |})
    | describe_managed_prefix_lists _ _ => Returns (RPrefixLists [] None)
    | list_ip_sets _ _ => Returns (RIPSets [] None)
    | _ => Returns RNone
    end.

(** A configuration with one service, whose prefix lists are managed, and a
    feed with an IPv4 and an IPv6 prefix for it. *)
Definition one_service_setup : Setup :=
  {| setup_config :=
       Ok {| Services :=
               [ {| Name := "S3"; Regions := Some [];
                    PrefixList := Some {| pl_Enable := Some true; pl_Summarize := Some false;
                                          pl_ChunkSize := None |};
                    WafIPSet := None |} ] |};
     setup_message := Ok ("https://ip-ranges.amazonaws.com/ip-ranges.json", "md5");
     setup_ip_ranges :=
       Ok {| prefixes := [ {| service := "S3"; region := "us-east-1";
                              ip_prefix := "10.0.0.0/24" |} ];
             ipv6_prefixes := [ {| service := "S3"; region := "us-east-1";
                                   ip_prefix := "2600:1f00::/24" |} ] |} |}.

(** A configuration with two services whose prefix lists are managed: the
    feed has an IPv4 and an IPv6 prefix for the first, and an IPv4 prefix
    for the second. *)
Definition two_service_setup : Setup :=
  {| setup_config :=
       Ok {| Services :=
               [ {| Name := "S3"; Regions := Some [];
                    PrefixList := Some {| pl_Enable := Some true;
                                          pl_Summarize := Some false;
                                          pl_ChunkSize := None |};
                    WafIPSet := None |};
                 {| Name := "EC2"; Regions := Some [];
                    PrefixList := Some {| pl_Enable := Some true;
                                          pl_Summarize := Some false;
                                          pl_ChunkSize := None |};
                    WafIPSet := None |} ] |};
     setup_message := Ok ("https://ip-ranges.amazonaws.com/ip-ranges.json", "md5");
     setup_ip_ranges :=
       Ok {| prefixes := [ {| service := "S3"; region := "us-east-1";
                              ip_prefix := "10.0.0.0/24" |};
                           {| service := "EC2"; region := "us-east-1";
                              ip_prefix := "10.1.0.0/24" |} ];
             ipv6_prefixes := [ {| service := "S3"; region := "us-east-1";
                                   ip_prefix := "2600:1f00::/24" |} ] |} |}.

(** The same configuration, but the ['PrefixList'] object of the second
    service has no ['Enable'] key. *)
Definition unkeyed_setup : Setup :=
  {| setup_config :=
       Ok {| Services :=
               [ {| Name := "S3"; Regions := Some [];
                    PrefixList := Some {| pl_Enable := Some true;
                                          pl_Summarize := Some false;
                                          pl_ChunkSize := None |};
                    WafIPSet := None |};
                 {| Name := "EC2"; Regions := Some [];
                    PrefixList := Some {| pl_Enable := None;
                                          pl_Summarize := Some false;
                                          pl_ChunkSize := None |};
                    WafIPSet := None |} ] |};
     setup_message := setup_message two_service_setup;
     setup_ip_ranges := setup_ip_ranges two_service_setup |}.

(** A configuration of three services, one with an empty region list, and
    a feed for it: of the records of the service asked for in one region,
    one is in that region and one is not; the only record of the second
    service is in a region that is not asked for; the third service is
    asked for in all regions. *)
Definition three_services : ConfigServices :=
  {| Services := [ {| Name := "S3"; Regions := Some ["us-east-1"];
                      PrefixList := None; WafIPSet := None |};
                   {| Name := "CLOUDFRONT"; Regions := Some ["us-west-2"];
                      PrefixList := None; WafIPSet := None |};
                   {| Name := "ROUTE53"; Regions := Some [];
                      PrefixList := None; WafIPSet := None |} ] |}.

Definition three_services_feed : IpRanges :=
  {| prefixes := [ {| service := "S3"; region := "us-east-1"; ip_prefix := "10.0.1.0/24" |};
                   {| service := "S3"; region := "eu-west-1"; ip_prefix := "10.0.3.0/24" |};
                   {| service := "CLOUDFRONT"; region := "GLOBAL";
                      ip_prefix := "10.0.4.0/24" |};
                   {| service := "EC2"; region := "eu-west-1"; ip_prefix := "10.0.2.0/24" |};
                   {| service := "ROUTE53"; region := "GLOBAL";
                      ip_prefix := "10.0.6.0/24" |};
                   {| service := "ROUTE53"; region := "us-east-1";
                      ip_prefix := "10.0.5.0/24" |} ];
     ipv6_prefixes := [ {| service := "EC2"; region := "eu-west-1";
                           ip_prefix := "2600:1f00::/24" |} ] |}.

(** A listing reply without a continuation token. *)
Definition last_page (r : Response) : Prop :=
  match r with
  | RIPSets _ (Some _) | RPrefixLists _ (Some _) | REntries _ (Some _) => False
  | _ => True
  end.

(** A backend all of whose listings fit one page. *)
Definition unpaged (client : Backend) : Prop :=
  forall history c r, client history c = Returns r -> last_page r.

(** The computation comes to an end: it returns or raises. *)
Definition finishes {A} (m : M A) : Prop :=
  forall st res st', m st = (res, st') -> res <> OutOfFuel.

(** ** Further vocabulary *)

(** The configuration asks for a feed record: a descriptor of the record's
    service has an empty region list, or lists the record's region. *)
Definition wanted (config_services : ConfigServices) (p : Prefix) : Prop :=
  exists c regions,
    In c (Services config_services)
    /\ Name c = service p
    /\ Regions c = Some regions
    /\ (regions = [] \/ In (region p) regions).

(** The same, as the test it is. *)
Definition wantedb (config_services : ConfigServices) (p : Prefix) : bool :=
  existsb (fun c =>
             String.eqb (Name c) (service p)
             && match Regions c with
                | Some [] => true
                | Some regions => existsb (String.eqb (region p)) regions
                | None => false
                end)
    (Services config_services).

(** The prefixes of the feed records of service [name] the configuration
    asks for, in feed order. *)
Definition requested (config_services : ConfigServices) (name : string)
    (feed : list Prefix) : list string :=
  map ip_prefix
    (List.filter (fun p => wantedb config_services p && String.eqb (service p) name) feed).

(** ** [get_ip_groups_json] *)

Section Download.
(** [urlopen url]: what [request.urlopen(request.Request(url))] and
    [response.read()] give, the document or the error they raise;
    [md5 data]: [hashlib.md5] fed with [data], as [hexdigest()] renders it. *)
Variable urlopen : string -> result string.
Variable md5 : string -> string.

Definition get_ip_groups_json (url expected_hash : string) : result string :=
  if negb (String.prefix "http" (Str.lower url))
  then Raise (Exception ("Expecting an HTTP protocol URL, got " ++ dquote ++ url ++ dquote))
  else
    rbind (urlopen url) (fun ip_json =>
    let current_hash := md5 ip_json in
    if String.eqb expected_hash "test-hash" then Ok ip_json
    else if negb (String.eqb current_hash expected_hash)
    then Raise (Exception ("MD5 Mismatch: got " ++ dquote ++ current_hash ++ dquote
                           ++ " expected " ++ dquote ++ expected_hash ++ dquote))
    else Ok ip_json).
End Download.

(** ** The calls of the two resource kinds *)

(** At most a hundred entries, when there are any. *)
Definition within_limit (entries : option (list Entry)) : bool :=
  match entries with
  | Some l => (length l <=? 100)%nat
  | None => true
  end.

(** The calls of the EC2 client the prefix list functions make: the reads,
    a creation with at most a hundred entries, a change of [MaxEntries]
    alone, a change of at most a hundred entries to add and to remove, and
    the tagging. *)
Definition prefix_list_call (c : Call) : bool :=
  match c with
  | describe_managed_prefix_lists _ _ => true
  | get_managed_prefix_list_entries _ _ _ => true
  | create_tags _ _ => true
  | create_managed_prefix_list _ entries _ _ _ => (length entries <=? 100)%nat
  | modify_managed_prefix_list _ _ _ (Some _) None None => true
  | modify_managed_prefix_list _ _ _ None adds removes =>
      within_limit adds && within_limit removes
  | _ => false
  end.

(** The calls of the WAF client. *)
Definition waf_call (c : Call) : bool :=
  match c with
  | list_ip_sets _ _ => true
  | get_ip_set _ _ _ => true
  | create_ip_set _ _ _ _ _ _ => true
  | update_ip_set _ _ _ _ _ _ => true
  | tag_resource _ _ => true
  | _ => false
  end.

(** The events between two stores split in two: first only calls of the
    EC2 client, then only calls of the WAF client. *)
Definition two_phases (st st' : Store) : Prop :=
  exists evs1 evs2,
    trace st' = (trace st ++ evs1 ++ evs2)%list
    /\ Forall (fun c => prefix_list_call c = true) (calls evs1)
    /\ Forall (fun c => waf_call c = true) (calls evs2).

(** ** What the configuration switches on *)

(** Prefix lists are switched off for a service: the key ['PrefixList'] is
    missing or its ['Enable'] is false.  Likewise for ['WafIPSet']. *)
Definition prefix_list_enabled (config_service : ConfigService) : bool :=
  match PrefixList config_service with
  | Some pl_config => negb (bool_decide (pl_Enable pl_config = Some false))
  | None => false
  end.

Definition waf_ipset_enabled (config_service : ConfigService) : bool :=
  match WafIPSet config_service with
  | Some waf_config => negb (bool_decide (waf_Enable waf_config = Some false))
  | None => false
  end.

(** ** Arithmetic of masks *)

Lemma max_prefixlen_pos v : 0 < max_prefixlen v.
Proof. destruct v; simpl; lia. Qed.

Lemma pow2_pos k : 0 <= k -> 0 < 2 ^ k.
Proof. intros. apply Z.pow_pos_nonneg; lia. Qed.

Lemma pow2_le m n : 0 <= m <= n -> 2 ^ m <= 2 ^ n.
Proof. intros. apply Z.pow_le_mono_r; lia. Qed.

Lemma pow2_split m n : 0 <= m <= n -> 2 ^ n = 2 ^ m * 2 ^ (n - m).
Proof. intros. rewrite <- Z.pow_add_r by lia. f_equal. lia. Qed.

Lemma ldiff_ones_ones m n :
  0 <= m <= n -> Z.ldiff (Z.ones n) (Z.ones m) = 2 ^ n - 2 ^ m.
Proof.
  intros H. rewrite Z.ldiff_ones_r by lia.
  rewrite Z.shiftr_div_pow2, Z.shiftl_mul_pow2 by lia.
  rewrite Z.ones_div_pow2 by lia. rewrite Z.ones_equiv.
  rewrite (pow2_split m n) by lia. lia.
Qed.

Lemma lxor_ones_ones m n :
  0 <= m <= n -> Z.lxor (Z.ones n) (Z.ones m) = 2 ^ n - 2 ^ m.
Proof.
  intros H. rewrite <- ldiff_ones_ones by lia.
  apply Z.bits_inj'. intros i Hi.
  rewrite Z.lxor_spec, Z.ldiff_spec, !Z.testbit_ones_nonneg by lia.
  destruct (Z.ltb_spec i n), (Z.ltb_spec i m); simpl; try reflexivity; lia.
Qed.

Lemma land_mask a m n :
  0 <= m <= n -> 0 <= a < 2 ^ n -> Z.land a (2 ^ n - 2 ^ m) = a - a mod 2 ^ m.
Proof.
  intros H Ha. rewrite <- ldiff_ones_ones by lia.
  transitivity (Z.ldiff a (Z.ones m)).
  - apply Z.bits_inj'. intros i Hi.
    rewrite Z.land_spec, !Z.ldiff_spec, Z.testbit_ones_nonneg by lia.
    destruct (Z.ltb_spec i n); simpl.
    + destruct (Z.testbit a i), (i <? m); reflexivity.
    + destruct (Z.eq_dec a 0) as [->|]; [rewrite Z.bits_0; reflexivity|].
      rewrite (Z.bits_above_log2 a i); [reflexivity|lia|].
      apply Z.log2_lt_pow2; [lia|]. pose proof (pow2_le n i ltac:(lia)). lia.
  - rewrite Z.ldiff_ones_r, Z.shiftr_div_pow2, Z.shiftl_mul_pow2 by lia.
    pose proof (Z.div_mod a (2 ^ m) ltac:(pose proof (pow2_pos m); lia)). lia.
Qed.

Lemma ip_int_from_prefix_eq v p :
  0 <= p <= max_prefixlen v ->
  ip_int_from_prefix v p = 2 ^ max_prefixlen v - 2 ^ (max_prefixlen v - p).
Proof.
  intros H. unfold ip_int_from_prefix, ALL_ONES.
  rewrite Z.shiftr_div_pow2, Z.ones_div_pow2 by lia.
  apply lxor_ones_ones. lia.
Qed.


Lemma netmask_eq n :
  0 <= prefixlen n <= max_prefixlen (net_version n) ->
  netmask n = 2 ^ max_prefixlen (net_version n) - size n.
Proof. intros. unfold netmask, size, host_bits. apply ip_int_from_prefix_eq. lia. Qed.

Lemma hostmask_eq n :
  0 <= prefixlen n <= max_prefixlen (net_version n) ->
  hostmask n = size n - 1.
Proof.
  intros H. unfold hostmask, netmask, ip_int_from_prefix, ALL_ONES, size, host_bits.
  rewrite Z.shiftr_div_pow2, Z.ones_div_pow2 by lia.
  rewrite (Z.lxor_comm (Z.ones _) (Z.ones _)), Z.lxor_assoc, Z.lxor_nilpotent, Z.lxor_0_r.
  apply Z.ones_equiv.
Qed.

Lemma aligned_iff n :
  0 <= prefixlen n <= max_prefixlen (net_version n) ->
  0 <= network_address n < 2 ^ max_prefixlen (net_version n) ->
  Z.land (network_address n) (netmask n) = network_address n
  <-> network_address n mod size n = 0.
Proof.
  intros Hp Ha. rewrite netmask_eq by lia. unfold size, host_bits.
  rewrite land_mask by lia. lia.
Qed.

Lemma size_pos n : 0 <= prefixlen n <= max_prefixlen (net_version n) -> 0 < size n.
Proof. intros. apply pow2_pos. unfold host_bits. lia. Qed.

Lemma wf_aligned_mod n : wf_net n -> network_address n mod size n = 0.
Proof. intros [Hp Ha Hal]. apply aligned_iff; assumption. Qed.

Lemma broadcast_eq n :
  wf_net n -> broadcast_address n = network_address n + size n - 1.
Proof.
  intros Hwf. pose proof (wf_aligned_mod n Hwf) as Hm. destruct Hwf as [Hp Ha Hal].
  unfold broadcast_address. rewrite hostmask_eq by lia.
  pose proof (Z.add_lor_land (network_address n) (size n - 1)) as Hadd.
  assert (Z.land (network_address n) (size n - 1) = 0) as Hz.
  { unfold size in *. replace (2 ^ host_bits n - 1) with (Z.ones (host_bits n))
      by (rewrite Z.ones_equiv; lia).
    rewrite Z.land_ones by (unfold host_bits; lia). exact Hm. }
  lia.
Qed.

Lemma contains_iff n a :
  wf_net n -> contains n a <-> network_address n <= a < network_address n + size n.
Proof. intros Hwf. unfold contains. rewrite broadcast_eq by assumption. lia. Qed.

Lemma wf_intro v a p :
  0 <= p <= max_prefixlen v -> 0 <= a < 2 ^ max_prefixlen v ->
  a mod 2 ^ (max_prefixlen v - p) = 0 -> wf_net (mkNetwork v a p).
Proof.
  intros Hp Ha Hm. split; simpl; try assumption.
  apply (aligned_iff (mkNetwork v a p)); simpl; assumption.
Qed.


(** ** Networks as aligned intervals *)

Lemma wf_multiple n : wf_net n -> exists i, 0 <= i /\ network_address n = size n * i.
Proof.
  intros Hwf. pose proof (wf_aligned_mod n Hwf) as Hm.
  pose proof (size_pos n (wf_prefix n Hwf)) as Hs.
  exists (network_address n / size n). split.
  - apply Z.div_pos; [apply (wf_range n Hwf)|lia].
  - apply Z.div_exact; lia.
Qed.

Lemma host_bits_range n : wf_net n -> 0 <= host_bits n <= max_prefixlen (net_version n).
Proof. intros [Hp _ _]. unfold host_bits. lia. Qed.

Lemma nested_or_disjoint x y :
  wf_net x -> wf_net y -> net_version x = net_version y ->
  host_bits x <= host_bits y ->
  (forall a, contains x a -> contains y a) \/ (forall a, contains x a -> ~ contains y a).
Proof.
  intros Hx Hy Hv Hk.
  destruct (wf_multiple x Hx) as (i & Hi & Hax).
  destruct (wf_multiple y Hy) as (j & Hj & Hay).
  pose proof (host_bits_range x Hx) as Hkx.
  pose proof (size_pos x (wf_prefix x Hx)) as Hsx.
  assert (size y = size x * 2 ^ (host_bits y - host_bits x)) as Hsy.
  { unfold size. apply pow2_split. lia. }
  pose proof (pow2_pos (host_bits y - host_bits x) ltac:(lia)) as Hm.
  set (m := 2 ^ (host_bits y - host_bits x)) in *.
  destruct (Z_le_gt_dec (m * j) i) as [Hlo|Hlo];
    [destruct (Z_lt_ge_dec i (m * (j + 1))) as [Hhi|Hhi]|].
  - left. intros a. rewrite !contains_iff by assumption. rewrite Hax, Hay, Hsy. nia.
  - right. intros a. rewrite !contains_iff by assumption. rewrite Hax, Hay, Hsy. nia.
  - right. intros a. rewrite !contains_iff by assumption. rewrite Hax, Hay, Hsy. nia.
Qed.

Lemma contains_own_address n : wf_net n -> contains n (network_address n).
Proof.
  intros Hwf. apply contains_iff; [assumption|].
  pose proof (size_pos n (wf_prefix n Hwf)). lia.
Qed.

(** ** [supernet] *)

Lemma supernet_version n : net_version (supernet n) = net_version n.
Proof. unfold supernet. destruct (prefixlen n =? 0); reflexivity. Qed.

Lemma supernet_prefix_pos n :
  wf_net n -> 0 < prefixlen n ->
  supernet n = mkNetwork (net_version n)
                 (network_address n - network_address n mod (2 * size n))
                 (prefixlen n - 1).
Proof.
  intros Hwf Hp. unfold supernet.
  destruct (Z.eqb_spec (prefixlen n) 0); [lia|]. f_equal.
  rewrite netmask_eq by apply Hwf. rewrite Z.shiftl_mul_pow2 by lia.
  pose proof (host_bits_range n Hwf) as Hk. pose proof (wf_range n Hwf) as Ha.
  pose proof (wf_prefix n Hwf) as Hpp.
  set (B := max_prefixlen (net_version n)) in *.
  replace ((2 ^ B - size n) * 2 ^ 1) with (2 ^ (B + 1) - 2 ^ (host_bits n + 1)).
  - rewrite land_mask.
    + unfold size. rewrite Z.pow_add_r by lia. f_equal. f_equal. lia.
    + lia.
    + rewrite Z.pow_add_r by lia. lia.
  - unfold size. rewrite !Z.pow_add_r by lia. lia.
Qed.

Lemma mod_double a s :
  0 < s -> a mod s = 0 -> a mod (2 * s) = 0 \/ a mod (2 * s) = s.
Proof.
  intros Hs Hm. rewrite (Z.mul_comm 2 s), Z.rem_mul_r by lia. rewrite Hm.
  pose proof (Z.mod_pos_bound (a / s) 2 ltac:(lia)). 
  assert ((a / s) mod 2 = 0 \/ (a / s) mod 2 = 1) as [->| ->] by lia; lia.
Qed.

Lemma supernet_wf n : wf_net n -> wf_net (supernet n).
Proof.
  intros Hwf. destruct (Z.eq_dec (prefixlen n) 0) as [H0|H0].
  - unfold supernet. rewrite H0. simpl. assumption.
  - pose proof (wf_prefix n Hwf) as Hp. rewrite supernet_prefix_pos by (assumption || lia).
    pose proof (size_pos n Hp) as Hs. pose proof (wf_range n Hwf) as Ha.
    pose proof (host_bits_range n Hwf) as Hk.
    pose proof (Z.mod_pos_bound (network_address n) (2 * size n) ltac:(lia)) as Hb.
    assert (2 ^ (max_prefixlen (net_version n) - (prefixlen n - 1)) = 2 * size n) as Hsz.
    { unfold size, host_bits. replace (max_prefixlen (net_version n) - (prefixlen n - 1))
        with (1 + (max_prefixlen (net_version n) - prefixlen n)) by lia.
      rewrite Z.pow_add_r by lia. lia. }
    apply wf_intro.
    + lia.
    + pose proof (Z.mod_le (network_address n) (2 * size n) ltac:(lia) ltac:(lia)). lia.
    + rewrite Hsz. rewrite Zminus_mod, Z.mod_mod, Z.sub_diag by lia. apply Z.mod_0_l. lia.
Qed.

Lemma size_supernet n :
  wf_net n -> 0 < prefixlen n -> size (supernet n) = 2 * size n.
Proof.
  intros Hwf Hp. rewrite supernet_prefix_pos by assumption.
  unfold size, host_bits. simpl.
  pose proof (wf_prefix n Hwf).
  replace (max_prefixlen (net_version n) - (prefixlen n - 1))
    with (1 + (max_prefixlen (net_version n) - prefixlen n)) by lia.
  rewrite Z.pow_add_r by lia. lia.
Qed.

Lemma supernet_contains n a : wf_net n -> contains n a -> contains (supernet n) a.
Proof.
  intros Hwf Hc. destruct (Z.eq_dec (prefixlen n) 0) as [H0|H0].
  - unfold supernet. rewrite H0. simpl. assumption.
  - pose proof (wf_prefix n Hwf) as Hp.
    apply contains_iff; [apply supernet_wf; assumption|].
    rewrite size_supernet by (assumption || lia).
    rewrite supernet_prefix_pos by (assumption || lia). simpl.
    apply contains_iff in Hc; [|assumption].
    pose proof (size_pos n Hp) as Hs.
    destruct (mod_double (network_address n) (size n) Hs (wf_aligned_mod n Hwf)) as [->| ->]; lia.
Qed.

(** Two different networks with the same supernet are its two halves (or
    the whole address space and one of its halves): together they cover it. *)
Lemma supernet_siblings x y a :
  wf_net x -> wf_net y -> x <> y -> supernet x = supernet y ->
  contains (supernet x) a -> contains x a \/ contains y a.
Proof.
  intros Hx Hy Hne Heq Hc.
  pose proof (wf_prefix x Hx) as Hpx. pose proof (wf_prefix y Hy) as Hpy.
  destruct (Z.eq_dec (prefixlen x) 0) as [Hx0|Hx0].
  { left. unfold supernet in Hc. rewrite Hx0 in Hc. simpl in Hc. exact Hc. }
  destruct (Z.eq_dec (prefixlen y) 0) as [Hy0|Hy0].
  { right. rewrite Heq in Hc. unfold supernet in Hc. rewrite Hy0 in Hc. simpl in Hc. exact Hc. }
  pose proof Hc as Hc'.
  apply contains_iff in Hc; [|apply supernet_wf; assumption].
  rewrite size_supernet in Hc by (assumption || lia).
  rewrite Heq in Hc'. apply contains_iff in Hc'; [|apply supernet_wf; assumption].
  rewrite size_supernet in Hc' by (assumption || lia).
  rewrite supernet_prefix_pos in Heq, Hc by (assumption || lia).
  rewrite supernet_prefix_pos in Heq, Hc' by (assumption || lia).
  simpl in Hc, Hc'. injection Heq as Hv Ha Hp.
  assert (size x = size y) as Hsz. { unfold size, host_bits. rewrite Hv. f_equal. lia. }
  rewrite !contains_iff by assumption.
  pose proof (size_pos x Hpx) as Hs.
  assert (network_address x <> network_address y) as Hna.
  { intros E. apply Hne. destruct x, y; simpl in *. f_equal; [assumption|lia|lia]. }
  rewrite <- Hsz in *.
  destruct (mod_double (network_address x) (size x) Hs (wf_aligned_mod x Hx)) as [Ex|Ex];
  destruct (mod_double (network_address y) (size x) Hs ltac:(rewrite Hsz; apply wf_aligned_mod; assumption)) as [Ey|Ey];
  rewrite Ex, Ey in *; lia.
Qed.

(** Two disjoint networks whose union is a network are the two halves of
    that network. *)
Lemma mergeable_same_supernet x y m :
  wf_net x -> wf_net y -> wf_net m ->
  net_version x = net_version m -> net_version y = net_version m ->
  (forall a, ~ (contains x a /\ contains y a)) ->
  (forall a, contains m a <-> contains x a \/ contains y a) ->
  supernet x = m /\ supernet y = m.
Proof.
  intros Hx Hy Hm Hvx Hvy Hdisj Hunion.
  pose proof (size_pos x (wf_prefix x Hx)) as Hsx.
  pose proof (size_pos y (wf_prefix y Hy)) as Hsy.
  pose proof (size_pos m (wf_prefix m Hm)) as Hsm.
  assert (forall a, network_address m <= a < network_address m + size m <->
                    (network_address x <= a < network_address x + size x) \/
                    (network_address y <= a < network_address y + size y)) as HU.
  { intros a. rewrite <- !contains_iff by assumption. apply Hunion. }
  assert (forall a, ~ ((network_address x <= a < network_address x + size x) /\
                    (network_address y <= a < network_address y + size y))) as HD.
  { intros a. rewrite <- !contains_iff by assumption. apply Hdisj. }
  (* the halves *)
  assert (size m = size x + size y /\
          ((network_address x = network_address m /\
            network_address y = network_address m + size x) \/
           (network_address y = network_address m /\
            network_address x = network_address m + size y))) as [Hsum Hpos].
  { pose proof (proj2 (HU (network_address x)) ltac:(lia)).
    pose proof (proj2 (HU (network_address y)) ltac:(lia)).
    pose proof (proj2 (HU (network_address x + size x - 1)) ltac:(lia)).
    pose proof (proj2 (HU (network_address y + size y - 1)) ltac:(lia)).
    pose proof (proj1 (HU (network_address m)) ltac:(lia)).
    pose proof (proj1 (HU (network_address m + size m - 1)) ltac:(lia)).
    pose proof (HD (network_address x)). pose proof (HD (network_address y)).
    destruct (Z_lt_ge_dec (network_address x) (network_address y)).
    - assert (network_address x + size x <= network_address y).
      { destruct (Z_le_gt_dec (network_address x + size x) (network_address y)); [assumption|].
        exfalso. apply (HD (network_address y)). lia. }
      pose proof (HU (network_address x + size x)).
      pose proof (HD (network_address x + size x)). lia.
    - assert (network_address y + size y <= network_address x).
      { destruct (Z_le_gt_dec (network_address y + size y) (network_address x)); [assumption|].
        exfalso. apply (HD (network_address x)). lia. }
      pose proof (HU (network_address y + size y)).
      pose proof (HD (network_address y + size y)). lia. }
  pose proof (host_bits_range x Hx) as Hkx. pose proof (host_bits_range y Hy) as Hky.
  pose proof (host_bits_range m Hm) as Hkm.
  assert (host_bits x < host_bits m) as Hxm.
  { apply (Z.pow_lt_mono_r_iff 2); [lia|lia|]. fold (size x) (size m). lia. }
  assert (host_bits y < host_bits m) as Hym.
  { apply (Z.pow_lt_mono_r_iff 2); [lia|lia|]. fold (size y) (size m). lia. }
  assert (size m = 2 * 2 ^ (host_bits m - 1)) as Hm2.
  { unfold size. replace (host_bits m) with (1 + (host_bits m - 1)) at 1 by lia.
    rewrite Z.pow_add_r by lia. lia. }
  pose proof (pow2_le (host_bits x) (host_bits m - 1) ltac:(lia)) as Hle1.
  pose proof (pow2_le (host_bits y) (host_bits m - 1) ltac:(lia)) as Hle2.
  fold (size x) in Hle1. fold (size y) in Hle2.
  assert (size x = 2 ^ (host_bits m - 1)) as Ex by lia.
  assert (size y = 2 ^ (host_bits m - 1)) as Ey by lia.
  assert (host_bits x = host_bits m - 1) as Ekx.
  { apply (Z.pow_inj_r 2); [lia|lia|lia|]. exact Ex. }
  assert (host_bits y = host_bits m - 1) as Eky.
  { apply (Z.pow_inj_r 2); [lia|lia|lia|]. exact Ey. }
  assert (0 < prefixlen x) as Hppx by (unfold host_bits in *; rewrite Hvx in *; lia).
  assert (0 < prefixlen y) as Hppy by (unfold host_bits in *; rewrite Hvy in *; lia).
  pose proof (wf_aligned_mod m Hm) as Hmm.
  rewrite !supernet_prefix_pos by assumption.
  assert (forall b, b = network_address m \/ b = network_address m + 2 ^ (host_bits m - 1) ->
          b - b mod size m = network_address m) as Hhalf.
  { intros b Hb.
    assert (b mod size m = b - network_address m); [|lia].
    symmetry. apply (Z.mod_unique_pos _ _ (network_address m / size m)); [lia|].
    pose proof (Z.div_exact (network_address m) (size m) ltac:(lia)) as Hex.
    apply Hex in Hmm. lia. }
  split.
  - destruct m as [vm am pm]; simpl in *. f_equal.
    + assumption.
    + replace (2 * size x) with (size {| net_version := vm; network_address := am; prefixlen := pm |}) by lia.
      apply Hhalf. simpl. lia.
    + unfold host_bits in *; simpl in *. rewrite Hvx in *. lia.
  - destruct m as [vm am pm]; simpl in *. f_equal.
    + assumption.
    + replace (2 * size y) with (size {| net_version := vm; network_address := am; prefixlen := pm |}) by lia.
      apply Hhalf. simpl. lia.
    + unfold host_bits in *; simpl in *. rewrite Hvy in *. lia.
Qed.


(** ** Insertion-ordered dicts *)

Section DictFacts.
Context {K V : Type} `{EqDecision K}.
Implicit Types (d : list (K * V)) (k : K) (v : V).

Lemma dict_get_In d k v : Dict.get d k = Some v -> In (k, v) d.
Proof.
  induction d as [|[k' v'] d IH]; simpl; [discriminate|].
  destruct (decide (k' = k)) as [->|]; [intros [= ->]; left; reflexivity|].
  intros Hg. right. exact (IH Hg).
Qed.

Lemma dict_get_None d k : Dict.get d k = None <-> ~ In k (Dict.keys d).
Proof.
  induction d as [|[k' v'] d IH]; simpl; [tauto|].
  destruct (decide (k' = k)) as [->|Hne].
  - split; [discriminate|]. intros Hn. exfalso. apply Hn. left. reflexivity.
  - rewrite IH. split; [intros Hn [E|Hin]; [congruence|tauto]|tauto].
Qed.

Lemma dict_In_get d k v : NoDup (Dict.keys d) -> In (k, v) d -> Dict.get d k = Some v.
Proof.
  induction d as [|[k' v'] d IH]; simpl; [tauto|].
  intros Hnd [E|Hin].
  - injection E as -> ->. destruct (decide (k = k)); [reflexivity|congruence].
  - apply NoDup_cons in Hnd as [Hk Hnd].
    destruct (decide (k' = k)) as [->|Hne]; [|exact (IH Hnd Hin)].
    exfalso. apply Hk. apply list_elem_of_In. apply (in_map fst) in Hin. exact Hin.
Qed.

Lemma dict_set_fresh d k v : Dict.get d k = None -> Dict.set d k v = (d ++ [(k, v)])%list.
Proof.
  induction d as [|[k' v'] d IH]; simpl; [reflexivity|].
  destruct (decide (k' = k)); [discriminate|].
  intros Hg. f_equal. exact (IH Hg).
Qed.

Lemma dict_del_perm d k v :
  Dict.get d k = Some v -> Permutation d ((k, v) :: Dict.del d k).
Proof.
  induction d as [|[k' v'] d IH]; simpl; [discriminate|].
  destruct (decide (k' = k)) as [->|Hne].
  - intros [= ->]. reflexivity.
  - intros Hg. rewrite (IH Hg) at 1. apply perm_swap.
Qed.

Lemma dict_get_set_eq d k v : Dict.get (Dict.set d k v) k = Some v.
Proof.
  induction d as [|[k' v'] d IH]; simpl.
  - destruct (decide (k = k)); [reflexivity|congruence].
  - destruct (decide (k' = k)) as [->|Hne]; simpl.
    + destruct (decide (k = k)); [reflexivity|congruence].
    + destruct (decide (k' = k)); [congruence|exact IH].
Qed.

Lemma dict_get_set_ne d k k' v : k <> k' -> Dict.get (Dict.set d k v) k' = Dict.get d k'.
Proof.
  intros Hne. induction d as [|[k0 v0] d IH]; simpl.
  - destruct (decide (k = k')); [congruence|reflexivity].
  - destruct (decide (k0 = k)) as [->|Hne0]; simpl.
    + destruct (decide (k = k')); [congruence|reflexivity].
    + destruct (decide (k0 = k')); [reflexivity|exact IH].
Qed.

Lemma dict_keys_set_mem d k v :
  In k (Dict.keys d) -> Dict.keys (Dict.set d k v) = Dict.keys d.
Proof.
  induction d as [|[k0 v0] d IH]; simpl; [tauto|].
  destruct (decide (k0 = k)) as [->|Hne]; simpl; [reflexivity|].
  intros [E|Hin]; [congruence|]. f_equal. exact (IH Hin).
Qed.

Lemma dict_mem_true d k : Dict.mem d k = true <-> In k (Dict.keys d).
Proof.
  unfold Dict.mem. destruct (Dict.get d k) eqn:Hg.
  - split; [intros _|reflexivity]. apply dict_get_In in Hg.
    apply (in_map fst) in Hg. exact Hg.
  - apply dict_get_None in Hg. split; [discriminate|tauto].
Qed.
End DictFacts.

(** ** The merge loop of [_collapse_addresses_internal] *)





Lemma covered_cons n l a : covered (n :: l) a <-> contains n a \/ covered l a.
Proof.
  unfold covered. split.
  - intros (m & [<-|Hin] & Hc); [left; assumption|right; eauto].
  - intros [Hc|(m & Hin & Hc)]; [exists n; split; [left; reflexivity|assumption]|].
    exists m. split; [right; assumption|assumption].
Qed.

Lemma covered_app l1 l2 a : covered (l1 ++ l2)%list a <-> covered l1 a \/ covered l2 a.
Proof.
  unfold covered. split.
  - intros (m & Hin & Hc). apply in_app_or in Hin as [Hin|Hin]; eauto.
  - intros [(m & Hin & Hc)|(m & Hin & Hc)]; exists m; split; auto using in_or_app.
Qed.

Lemma covered_nil a : ~ covered [] a.
Proof. intros (m & [] & _). Qed.

Lemma covered_perm l1 l2 a : Permutation l1 l2 -> covered l1 a <-> covered l2 a.
Proof.
  intros Hp. unfold covered. split; intros (m & Hin & Hc); exists m; split; auto.
  - eapply Permutation_in; eassumption.
  - eapply Permutation_in; [symmetry|]; eassumption.
Qed.

Lemma good_supernet v n : good v n -> good v (supernet n).
Proof. intros [Hwf Hv]. split; [apply supernet_wf; assumption|]. rewrite supernet_version. exact Hv. Qed.

Lemma merge_step_inv v net to_merge subnets :
  merge_inv v (net :: to_merge, subnets) ->
  merge_inv v (merge_step net to_merge subnets)
  /\ forall a, merge_cov (merge_step net to_merge subnets) a
               <-> merge_cov (net :: to_merge, subnets) a.
Proof.
  intros (Htm & Hsn & Hnd). simpl in *.
  apply Forall_cons in Htm as [Hnet Htm].
  unfold merge_step. destruct (Dict.get subnets (supernet net)) as [existing|] eqn:Hg.
  - pose proof (dict_get_In _ _ _ Hg) as Hin.
    pose proof (proj1 (List.Forall_forall _ _) Hsn _ Hin) as [Hex Hkey]. simpl in *.
    destruct (decide (existing = net)) as [->|Hne].
    + split; [repeat split; assumption|].
      intros a. unfold merge_cov. simpl. rewrite covered_cons.
      split; [tauto|]. intros [[Hc|Hc]|Hc]; auto.
      right. exists net. split; [|assumption].
      apply (in_map snd) in Hin. exact Hin.
    + pose proof (dict_del_perm _ _ _ Hg) as Hperm.
      split.
      * repeat split; simpl.
        -- apply Forall_cons. split; [apply good_supernet; assumption|assumption].
        -- rewrite Hperm in Hsn. apply Forall_cons in Hsn as [_ Hsn]. exact Hsn.
        -- apply (Permutation_map fst) in Hperm. unfold Dict.keys in *.
           rewrite Hperm in Hnd. simpl in Hnd. apply NoDup_cons in Hnd as [_ Hnd]. exact Hnd.
      * intros a. unfold merge_cov. simpl. rewrite !covered_cons.
        assert (covered (Dict.values subnets) a
                <-> contains existing a \/ covered (Dict.values (Dict.del subnets (supernet net))) a) as Hv.
        { unfold Dict.values. rewrite (covered_perm _ _ a (Permutation_map snd Hperm)).
          simpl. apply covered_cons. }
        rewrite Hv. split.
        -- intros [[Hc|Hc]|Hc]; [|tauto|tauto].
           destruct (supernet_siblings net existing a) as [H1|H1];
             [apply Hnet|apply Hex|congruence|congruence|assumption|tauto|tauto].
        -- intros [[Hc|Hc]|[Hc|Hc]]; [|tauto| |tauto].
           ++ left. left. apply supernet_contains; [apply Hnet|assumption].
           ++ left. left. rewrite Hkey. apply supernet_contains; [apply Hex|assumption].
  - split.
    + repeat split; simpl; [assumption| |].
      * rewrite dict_set_fresh by assumption. apply Forall_app. split; [assumption|].
        apply Forall_cons. split; [split; [assumption|reflexivity]|apply Forall_nil; exact I].
      * rewrite dict_set_fresh by assumption. unfold Dict.keys. rewrite map_app. simpl.
        apply NoDup_app. split; [assumption|]. split.
        -- intros x Hx Hx'. apply list_elem_of_In in Hx, Hx'. destruct Hx' as [<-|[]].
           apply dict_get_None in Hg. tauto.
        -- apply NoDup_singleton.
    + intros a. unfold merge_cov. simpl. rewrite dict_set_fresh by assumption.
      unfold Dict.values. rewrite map_app. simpl. rewrite covered_app, !covered_cons.
      pose proof (covered_nil a). tauto.
Qed.

Lemma merge_loop_spec v st :
  merge_inv v st ->
  merge_inv v ([], merge_loop st)
  /\ forall a, covered (Dict.values (merge_loop st)) a <-> merge_cov st a.
Proof.
  funelim (merge_loop st); intros Hinv.
  - simp merge_loop. split.
    + destruct Hinv as (H1 & H2 & H3). repeat split; assumption.
    + intros a. unfold merge_cov. simpl. pose proof (covered_nil a). tauto.
  - simp merge_loop. destruct (merge_step_inv v net to_merge subnets Hinv) as [Hinv' Hcov].
    destruct (H v Hinv') as [Hfin Hc]. split; [assumption|].
    intros a. rewrite Hc. apply Hcov.
Qed.


(** ** [sorted] *)

Section SortedFacts.
Context {A : Type} (ltb : A -> A -> bool).

(** [le a b]: [b] is not smaller than [a]. *)

Hypothesis ltb_asym : forall a b, ltb a b = true -> ltb b a = false.
Hypothesis le_trans : forall a b c, leb_of ltb a b -> leb_of ltb b c -> leb_of ltb a c.

Lemma insert_sorted_perm x l : Permutation (insert_sorted ltb x l) (x :: l).
Proof.
  induction l as [|y l IH]; simpl; [reflexivity|].
  destruct (ltb y x); [|reflexivity].
  rewrite IH. apply perm_swap.
Qed.

Lemma sorted_perm l : Permutation (sorted ltb l) l.
Proof.
  induction l as [|x l IH]; simpl; [reflexivity|].
  rewrite insert_sorted_perm. constructor. exact IH.
Qed.

Lemma insert_sorted_sorted x l :
  StronglySorted (leb_of ltb) l -> StronglySorted (leb_of ltb) (insert_sorted ltb x l).
Proof.
  induction 1 as [|y l Hs IH Hall]; simpl.
  - constructor; constructor.
  - destruct (ltb y x) eqn:Hyx.
    + constructor; [assumption|].
      apply List.Forall_forall. intros z Hz.
      apply (Permutation_in _ (insert_sorted_perm x l)) in Hz as [<-|Hz].
      * apply ltb_asym. exact Hyx.
      * exact (proj1 (List.Forall_forall _ _) Hall z Hz).
    + constructor; [constructor; assumption|].
      constructor; [exact Hyx|].
      apply List.Forall_forall. intros z Hz.
      apply (le_trans x y z); [exact Hyx|].
      exact (proj1 (List.Forall_forall _ _) Hall z Hz).
Qed.

Lemma sorted_sorted l : StronglySorted (leb_of ltb) (sorted ltb l).
Proof.
  induction l as [|x l IH]; simpl; [constructor|].
  apply insert_sorted_sorted. exact IH.
Qed.
End SortedFacts.

Lemma net_ltb_true a b :
  net_ltb a b = true <->
  network_address a < network_address b
  \/ (network_address a = network_address b /\ netmask a < netmask b).
Proof.
  unfold net_ltb.
  destruct (Z.eqb_spec (network_address a) (network_address b)); simpl.
  - destruct (Z.eqb_spec (netmask a) (netmask b)); simpl.
    + split; [discriminate|lia].
    + rewrite Z.ltb_lt. lia.
  - rewrite Z.ltb_lt. lia.
Qed.


Lemma net_le_iff a b : leb_of net_ltb a b <-> net_le a b.
Proof.
  unfold leb_of, net_le. pose proof (net_ltb_true b a) as H.
  destruct (net_ltb b a).
  - split; [discriminate|]. intros Hle. assert (true = true) as E by reflexivity.
    apply H in E. lia.
  - split; [intros _|reflexivity].
    assert (~ (network_address b < network_address a
               \/ network_address b = network_address a /\ netmask b < netmask a)) as Hn.
    { intros Hc. apply H in Hc. discriminate. }
    lia.
Qed.

Lemma net_ltb_asym a b : net_ltb a b = true -> net_ltb b a = false.
Proof.
  intros H. apply net_ltb_true in H. destruct (net_ltb b a) eqn:E; [|reflexivity].
  apply net_ltb_true in E. lia.
Qed.

Lemma net_le_trans a b c :
  leb_of net_ltb a b -> leb_of net_ltb b c -> leb_of net_ltb a c.
Proof. rewrite !net_le_iff. unfold net_le. lia. Qed.

Lemma sorted_net_sorted l : StronglySorted net_le (sorted net_ltb l).
Proof.
  pose proof (sorted_sorted net_ltb net_ltb_asym net_le_trans l) as H.
  induction H; constructor; [assumption|].
  eapply List.Forall_impl; [|eassumption]. intros b. apply net_le_iff.
Qed.

(** ** The second loop: skipping subsumed networks *)


Lemma netmask_size_le x y :
  wf_net x -> wf_net y -> net_version x = net_version y ->
  netmask x <= netmask y -> size y <= size x.
Proof.
  intros Hx Hy Hv. rewrite !netmask_eq by (apply wf_prefix; assumption).
  rewrite Hv. lia.
Qed.

Lemma kept_is_before v l net :
  good v l -> good v net -> net_le l net ->
  ~ broadcast_address net <= broadcast_address l -> before l net.
Proof.
  intros [Hl Hvl] [Hn Hvn] Hle Hb. unfold before.
  destruct (Z_lt_ge_dec (broadcast_address l) (network_address net)) as [|Hov]; [assumption|].
  exfalso.
  assert (contains l (network_address net)) as Hc1.
  { unfold contains. unfold net_le in Hle. lia. }
  pose proof (contains_own_address net Hn) as Hc2.
  pose proof (broadcast_eq l Hl) as Ebl. pose proof (broadcast_eq net Hn) as Ebn.
  pose proof (size_pos l (wf_prefix l Hl)) as Hsl.
  pose proof (size_pos net (wf_prefix net Hn)) as Hsn.
  destruct (Z_le_gt_dec (host_bits net) (host_bits l)) as [Hk|Hk].
  - destruct (nested_or_disjoint net l Hn Hl ltac:(congruence) Hk) as [Hsub|Hdis].
    + specialize (Hsub (broadcast_address net)).
      unfold contains in Hsub at 1 2. lia.
    + exact (Hdis _ Hc2 Hc1).
  - destruct (nested_or_disjoint l net Hl Hn ltac:(congruence) ltac:(lia)) as [Hsub|Hdis].
    + pose proof (Hsub _ (contains_own_address l Hl)) as Hc3.
      unfold contains in Hc3. unfold net_le in Hle.
      assert (network_address l = network_address net) as Ea by lia.
      destruct Hle as [Hlt|[_ Hm]]; [lia|].
      pose proof (netmask_size_le l net Hl Hn ltac:(congruence) Hm). lia.
    + exact (Hdis _ Hc1 Hc2).
Qed.

Lemma skip_subsumed_Some v l nets :
  good v l -> Forall (good v) nets -> Forall (net_le l) nets ->
  StronglySorted net_le nets ->
  let out := skip_subsumed (Some l) nets in
  (forall n, In n out -> In n nets)
  /\ Forall (before l) out
  /\ StronglySorted before out
  /\ (forall a, covered nets a -> contains l a \/ covered out a).
Proof.
  intros Hl Hgood Hle Hs. revert l Hl Hle.
  induction Hs as [|net nets Hs IH Hall]; intros l Hl Hle; simpl.
  - repeat split; [tauto|constructor|constructor|].
    intros a Ha. exfalso. exact (covered_nil a Ha).
  - apply Forall_cons in Hgood as [Hnet Hgood]. apply Forall_cons in Hle as [Hlen Hle].
    destruct (Z.leb_spec (broadcast_address net) (broadcast_address l)) as [Hb|Hb].
    + destruct (IH Hgood l Hl Hle) as (H1 & H2 & H3 & H4).
      repeat split; [intros n Hn; right; auto|assumption|assumption|].
      intros a. rewrite covered_cons. intros [Hc|Hc]; [|auto].
      left. unfold contains in *. unfold net_le in Hlen. lia.
    + assert (before l net) as Hbef by (apply (kept_is_before v); [assumption..|lia]).
      destruct (IH Hgood net Hnet Hall) as (H1 & H2 & H3 & H4).
      repeat split.
      * intros n [<-|Hn]; [left; reflexivity|right; auto].
      * constructor; [assumption|].
        eapply List.Forall_impl; [|exact H2]. unfold before. intros r Hr. lia.
      * constructor; assumption.
      * intros a. rewrite !covered_cons. intros [Hc|Hc]; [tauto|].
        destruct (H4 a Hc); tauto.
Qed.

Lemma skip_subsumed_None v nets :
  Forall (good v) nets -> StronglySorted net_le nets ->
  let out := skip_subsumed None nets in
  (forall n, In n out -> In n nets)
  /\ StronglySorted before out
  /\ (forall a, covered nets a <-> covered out a).
Proof.
  intros Hgood Hs. destruct Hs as [|net nets Hs Hall]; simpl.
  - repeat split; tauto || constructor.
  - apply Forall_cons in Hgood as [Hnet Hgood].
    destruct (skip_subsumed_Some v net nets Hnet Hgood Hall Hs) as (H1 & H2 & H3 & H4).
    repeat split.
    + intros n [<-|Hn]; [left; reflexivity|right; auto].
    + constructor; assumption.
    + rewrite !covered_cons. intros [Hc|Hc]; [tauto|]. destruct (H4 a Hc); tauto.
    + rewrite !covered_cons. intros [Hc|(n & Hn & Hc)]; [tauto|].
      right. exists n. split; [apply H1; assumption|assumption].
Qed.

(** ** What [_collapse_addresses_internal] returns *)



Lemma before_disjoint x y : wf_net x -> wf_net y -> before x y -> disjoint x y.
Proof. intros Hx Hy Hb a [H1 H2]. unfold before, contains in *. lia. Qed.

Lemma StronglySorted_In {A} (R : A -> A -> Prop) l x y :
  StronglySorted R l -> In x l -> In y l -> x = y \/ R x y \/ R y x.
Proof.
  induction 1 as [|z l Hs IH Hall]; [intros []|].
  intros [<-|Hx] [<-|Hy]; auto.
  - right. left. exact (proj1 (List.Forall_forall _ _) Hall _ Hy).
  - right. right. exact (proj1 (List.Forall_forall _ _) Hall _ Hx).
Qed.


Lemma collapse_addresses_internal_spec v addresses :
  Forall (good v) addresses ->
  collapsed v addresses (collapse_addresses_internal addresses).
Proof.
  intros Hgood. unfold collapse_addresses_internal.
  assert (merge_inv v (rev addresses, [])) as Hinv.
  { repeat split; simpl; [|constructor|constructor].
    apply List.Forall_forall. intros n Hn. apply in_rev in Hn.
    exact (proj1 (List.Forall_forall _ _) Hgood n Hn). }
  destruct (merge_loop_spec v _ Hinv) as [(_ & Hvals & Hnd) Hcov]. simpl in *.
  set (subnets := merge_loop (rev addresses, [])) in *.
  set (srt := sorted net_ltb (Dict.values subnets)).
  assert (Permutation srt (Dict.values subnets)) as Hperm by apply sorted_perm.
  assert (Forall (good v) (Dict.values subnets)) as Hgv.
  { apply List.Forall_forall. intros n Hn. apply in_map_iff in Hn as ([k n'] & <- & Hin).
    exact (proj1 (proj1 (List.Forall_forall _ _) Hvals _ Hin)). }
  assert (Forall (good v) srt) as Hgs.
  { apply List.Forall_forall. intros n Hn. apply (Permutation_in _ Hperm) in Hn.
    exact (proj1 (List.Forall_forall _ _) Hgv n Hn). }
  destruct (skip_subsumed_None v srt Hgs (sorted_net_sorted _)) as (Hsub & Hsorted & Hc).
  assert (forall n, In n (skip_subsumed None srt) -> In n (Dict.values subnets)) as Hsub'.
  { intros n Hn. apply (Permutation_in _ Hperm). auto. }
  split.
  - apply List.Forall_forall. intros n Hn.
    exact (proj1 (List.Forall_forall _ _) Hgv n (Hsub' n Hn)).
  - exact Hsorted.
  - intros a. rewrite <- Hc. rewrite (covered_perm _ _ a Hperm). rewrite Hcov.
    unfold merge_cov. simpl. split.
    + intros [(n & Hn & Hcn)|Hx]; [|exfalso; exact (covered_nil a Hx)].
      exists n. split; [apply in_rev; assumption|assumption].
    + intros (n & Hn & Hcn). left. exists n. split; [apply in_rev in Hn; assumption|assumption].
  - intros x y Hx Hy Hne (m & Hm & Hvm & Hunion).
    pose proof (proj1 (List.Forall_forall _ _) Hgv x (Hsub' x Hx)) as [Hwx Hvx].
    pose proof (proj1 (List.Forall_forall _ _) Hgv y (Hsub' y Hy)) as [Hwy Hvy].
    assert (disjoint x y) as Hdis.
    { destruct (StronglySorted_In _ _ x y Hsorted Hx Hy) as [E|[Hb|Hb]]; [contradiction| |].
      - apply before_disjoint; assumption.
      - intros a [H1 H2]. apply (before_disjoint y x Hwy Hwx Hb a). tauto. }
    destruct (mergeable_same_supernet x y m Hwx Hwy Hm ltac:(congruence) ltac:(congruence) Hdis Hunion)
      as [Ex Ey].
    apply Hne.
    apply Hsub', in_map_iff in Hx as ([kx x'] & Ex' & Hinx).
    apply Hsub', in_map_iff in Hy as ([ky y'] & Ey' & Hiny). simpl in *. subst x' y'.
    pose proof (proj2 (proj1 (List.Forall_forall _ _) Hvals _ Hinx)) as Hkx.
    pose proof (proj2 (proj1 (List.Forall_forall _ _) Hvals _ Hiny)) as Hky.
    simpl in *. subst kx ky. rewrite Ex in Hinx. rewrite Ey in Hiny.
    pose proof (dict_In_get _ _ _ Hnd Hinx) as G1.
    pose proof (dict_In_get _ _ _ Hnd Hiny) as G2. congruence.
Qed.


(** ** Host addresses: [summarize_address_range] *)

Lemma bit_length_nonneg x : 0 <= IPv4.bit_length x.
Proof.
  unfold IPv4.bit_length. destruct (x =? 0); [lia|].
  pose proof (Z.log2_nonneg x). lia.
Qed.

Lemma mod_pow2_le a s t : 0 <= t <= s -> a mod 2 ^ s = 0 -> a mod 2 ^ t = 0.
Proof.
  intros Ht Hm. apply Z.mod_divide in Hm; [|pose proof (pow2_pos s); lia].
  apply Z.mod_divide; [pose proof (pow2_pos t); lia|].
  destruct Hm as [q Hq]. exists (q * 2 ^ (s - t)).
  rewrite Hq, (pow2_split t s) by lia. lia.
Qed.

Lemma trailing_zero_bits n :
  0 < n ->
  n mod 2 ^ IPv4.bit_length (Z.land (Z.lnot n) (n - 1)) = 0.
Proof.
  intros Hn. unfold IPv4.bit_length.
  set (m := Z.land (Z.lnot n) (n - 1)).
  assert (0 <= m) as Hm0 by (apply Z.land_nonneg; right; lia).
  destruct (Z.eqb_spec m 0) as [|Hne]; [apply Z.mod_1_r|].
  pose proof (Z.log2_nonneg m) as Hl.
  pose proof (Z.bit_log2 m ltac:(lia)) as Hbit.
  unfold m in Hbit at 1. rewrite Z.land_spec, Z.lnot_spec in Hbit by lia.
  apply andb_true_iff in Hbit as [Hb1 Hb2]. apply negb_true_iff in Hb1.
  apply Z.testbit_false in Hb1; [|lia]. apply Z.testbit_true in Hb2; [|lia].
  set (i0 := Z.log2 m) in *. pose proof (pow2_pos i0 Hl) as HP.
  rewrite Z.pow_add_r by lia. change (2 ^ 1) with 2.
  set (P := 2 ^ i0) in *.
  pose proof (Z.div_mod n P ltac:(lia)) as Hdm.
  pose proof (Z.mod_pos_bound n P ltac:(lia)) as Hr.
  destruct (Z.eq_dec (n mod P) 0) as [Hr0|Hr0].
  - rewrite Z.rem_mul_r by lia. rewrite Hr0, Hb1. lia.
  - exfalso. assert ((n - 1) / P = n / P) as E.
    { symmetry. apply (Z.div_unique_pos _ _ _ (n mod P - 1)); lia. }
    rewrite E in Hb2. lia.
Qed.

Lemma count_righthand_zero_bits_spec n bits :
  0 <= n -> 0 <= bits ->
  0 <= IPv4.count_righthand_zero_bits n bits <= bits
  /\ n mod 2 ^ IPv4.count_righthand_zero_bits n bits = 0.
Proof.
  intros Hn Hb. unfold IPv4.count_righthand_zero_bits.
  destruct (Z.eqb_spec n 0) as [->|Hne].
  - split; [lia|]. apply Z.mod_0_l. pose proof (pow2_pos bits Hb). lia.
  - pose proof (bit_length_nonneg (Z.land (Z.lnot n) (n - 1))) as Hbl.
    split; [lia|].
    apply (mod_pow2_le _ (IPv4.bit_length (Z.land (Z.lnot n) (n - 1)))); [lia|].
    apply trailing_zero_bits. lia.
Qed.

Lemma summarize_address_range_spec v first_int last_int :
  0 <= first_int -> last_int < 2 ^ max_prefixlen v ->
  Forall (good v) (summarize_address_range v first_int last_int)
  /\ forall a, covered (summarize_address_range v first_int last_int) a
               <-> first_int <= a <= last_int.
Proof.
  funelim (summarize_address_range v first_int last_int); intros Hf Hl.
  2: { split; [constructor|]. intros a. split; [intros Ha; exfalso; exact (covered_nil a Ha)|lia]. }
  pose proof (max_prefixlen_pos v) as HB.
  destruct (count_righthand_zero_bits_spec first_int (max_prefixlen v) Hf ltac:(lia))
    as [Hcr Hal].
  set (x := last_int - first_int + 1) in *.
  assert (0 < x) as Hx by (unfold x; lia).
  assert (IPv4.bit_length x - 1 = Z.log2 x) as Hbl.
  { unfold IPv4.bit_length. destruct (Z.eqb_spec x 0); lia. }
  rewrite Hbl in *.
  pose proof (Z.log2_nonneg x) as Hlog. pose proof (Z.log2_spec x Hx) as [Hlo _].
  set (nbits := Z.min (IPv4.count_righthand_zero_bits first_int (max_prefixlen v)) (Z.log2 x)) in *.
  assert (0 <= nbits <= max_prefixlen v) as Hnb by (unfold nbits; lia).
  pose proof (pow2_pos nbits ltac:(lia)) as Hpp.
  assert (2 ^ nbits <= x) as Hsz.
  { pose proof (pow2_le nbits (Z.log2 x) ltac:(unfold nbits; lia)). lia. }
  assert (first_int mod 2 ^ nbits = 0) as Hal'.
  { apply (mod_pow2_le _ (IPv4.count_righthand_zero_bits first_int (max_prefixlen v)));
      [unfold nbits; lia|assumption]. }
  set (net := mkNetwork v first_int (max_prefixlen v - nbits)).
  assert (wf_net net) as Hwf.
  { apply wf_intro; [lia|unfold x in *; lia|].
    replace (max_prefixlen v - (max_prefixlen v - nbits)) with nbits by lia. exact Hal'. }
  assert (forall a, contains net a <-> first_int <= a < first_int + 2 ^ nbits) as Hcn.
  { intros a. rewrite contains_iff by assumption. unfold size, host_bits, net. simpl.
    replace (max_prefixlen v - (max_prefixlen v - nbits)) with nbits by lia. reflexivity. }
  rewrite Z.shiftl_1_l in *.
  destruct (decide (first_int + 2 ^ nbits - 1 = ALL_ONES v)) as [Hall|Hall].
  - split; [constructor; [split; [assumption|reflexivity]|constructor]|].
    intros a. rewrite covered_cons, Hcn. pose proof (covered_nil a).
    unfold ALL_ONES in Hall. rewrite Z.ones_equiv in Hall. unfold x in *.
    split; [intros [?|?]; [lia|contradiction]|intros; left; lia].
  - destruct (H Hall ltac:(lia) Hl) as [IH1 IH2].
    split; [constructor; [split; [assumption|reflexivity]|exact IH1]|].
    intros a. rewrite covered_cons, Hcn, IH2. unfold x in *. lia.
Qed.


(** ** [collapse_addresses] *)

Lemma insert_uniq_In x l y : In y (insert_uniq x l) <-> y = x \/ In y l.
Proof.
  induction l as [|z l IH]; simpl; [intuition congruence|].
  destruct (Z.ltb_spec z x); simpl.
  - rewrite IH. tauto.
  - destruct (Z.eqb_spec z x); simpl; [subst|]; intuition congruence.
Qed.

Lemma sorted_set_In l y : In y (sorted_set l) <-> In y l.
Proof.
  induction l as [|x l IH]; simpl; [tauto|].
  rewrite insert_uniq_In, IH. intuition congruence.
Qed.


Lemma find_address_range_from_spec M ips : forall first last,
  0 <= first <= last -> last < M ->
  Forall (fun x => 0 <= x < M) ips ->
  Forall (fun r => 0 <= fst r /\ snd r < M) (find_address_range_from first last ips)
  /\ forall a, in_ranges (find_address_range_from first last ips) a
               <-> first <= a <= last \/ In a ips.
Proof.
  induction ips as [|ip ips IH]; intros first last Hfl HM Hall; simpl.
  - split; [constructor; [simpl; lia|constructor]|].
    intros a. unfold in_ranges. split.
    + intros (r & [<-|[]] & Hr). simpl in Hr. tauto.
    + intros [Hr|[]]. exists (first, last). split; [left; reflexivity|assumption].
  - apply Forall_cons in Hall as [Hip Hall].
    destruct (Z.eqb_spec ip (last + 1)) as [->|Hne]; simpl.
    + destruct (IH first (last + 1) ltac:(lia) ltac:(lia) Hall) as [H1 H2].
      split; [assumption|]. intros a. rewrite H2. intuition lia.
    + destruct (IH ip ip ltac:(lia) ltac:(lia) Hall) as [H1 H2].
      split; [constructor; [simpl; lia|assumption]|].
      intros a. unfold in_ranges in *. split.
      * intros (r & [<-|Hin] & Hr); [simpl in Hr; tauto|].
        destruct (proj1 (H2 a) (ex_intro _ r (conj Hin Hr))) as [?|?]; [right; left; lia|tauto].
      * intros [Hr|[->|Hin]].
        -- exists (first, last). split; [left; reflexivity|assumption].
        -- destruct (proj2 (H2 a) ltac:(left; lia)) as (r & Hin & Hr). exists r.
           split; [right; exact Hin|exact Hr].
        -- destruct (proj2 (H2 a) (or_intror Hin)) as (r & Hin' & Hr). exists r.
           split; [right; exact Hin'|exact Hr].
Qed.

Lemma find_address_range_spec M ips :
  Forall (fun x => 0 <= x < M) ips ->
  Forall (fun r => 0 <= fst r /\ snd r < M) (find_address_range ips)
  /\ forall a, in_ranges (find_address_range ips) a <-> In a ips.
Proof.
  destruct ips as [|ip ips]; simpl; intros Hall.
  - split; [constructor|]. intros a. split; [intros (r & [] & _)|tauto].
  - apply Forall_cons in Hall as [Hip Hall].
    destruct (find_address_range_from_spec M ips ip ip ltac:(lia) ltac:(lia) Hall) as [H1 H2].
    split; [assumption|]. intros a. rewrite H2. intuition lia.
Qed.


Lemma host_contains n a : wf_net n -> is_host n -> contains n a <-> a = network_address n.
Proof.
  intros Hwf Hh. rewrite contains_iff by assumption.
  unfold size, host_bits. rewrite Hh, Z.sub_diag. simpl. lia.
Qed.

Lemma split_addresses_spec v addresses : forall ips nets,
  Forall (good v) addresses -> Forall (good v) ips -> Forall (good v) nets ->
  Forall is_host ips ->
  exists ips' nets',
    split_addresses addresses ips nets = Ok (ips', nets')
    /\ Forall (good v) ips' /\ Forall is_host ips' /\ Forall (good v) nets'
    /\ forall n, In n ips' \/ In n nets' <-> In n ips \/ In n nets \/ In n addresses.
Proof.
  induction addresses as [|ip addresses IH]; intros ips nets Hall Hips Hnets Hhost; simpl.
  - exists (rev ips), (rev nets). split; [reflexivity|].
    repeat split; try (apply Forall_rev; assumption).
    + rewrite <- !in_rev. tauto.
    + rewrite <- !in_rev. tauto.
  - apply Forall_cons in Hall as [Hip Hall].
    destruct (Z.eqb_spec (prefixlen ip) (max_prefixlen (net_version ip))) as [Hh|Hh].
    + assert (exists ips' nets',
                 split_addresses addresses (ip :: ips) nets = Ok (ips', nets')
                 /\ Forall (good v) ips' /\ Forall is_host ips' /\ Forall (good v) nets'
                 /\ forall n, In n ips' \/ In n nets' <-> In n (ip :: ips) \/ In n nets \/ In n addresses)
        as (ips' & nets' & E & H1 & H2 & H3 & H4).
      { apply IH; try assumption; constructor; assumption. }
      exists ips', nets'. split.
      * destruct ips as [|last ips0]; [exact E|].
        apply Forall_cons in Hips as [[_ Hl] _]. destruct Hip as [_ Hv].
        destruct (decide (net_version last = net_version ip)); [exact E|congruence].
      * repeat split; try assumption; intros Hn; apply H4 in Hn || apply H4; simpl in *; tauto.
    + assert (exists ips' nets',
                 split_addresses addresses ips (ip :: nets) = Ok (ips', nets')
                 /\ Forall (good v) ips' /\ Forall is_host ips' /\ Forall (good v) nets'
                 /\ forall n, In n ips' \/ In n nets' <-> In n ips \/ In n (ip :: nets) \/ In n addresses)
        as (ips' & nets' & E & H1 & H2 & H3 & H4).
      { apply IH; try assumption; constructor; assumption. }
      exists ips', nets'. split.
      * destruct nets as [|last nets0]; [exact E|].
        apply Forall_cons in Hnets as [[_ Hl] _]. destruct Hip as [_ Hv].
        destruct (decide (net_version last = net_version ip)); [exact E|congruence].
      * repeat split; try assumption; intros Hn; apply H4 in Hn || apply H4; simpl in *; tauto.
Qed.

Lemma collapse_addresses_spec v addresses :
  Forall (good v) addresses ->
  exists out, collapse_addresses addresses = Ok out /\ collapsed v addresses out.
Proof.
  intros Hall. unfold collapse_addresses.
  destruct (split_addresses_spec v addresses [] [] Hall ltac:(constructor) ltac:(constructor)
              ltac:(constructor)) as (ips & nets & E & Hips & Hhost & Hnets & Hmem).
  rewrite E. simpl.
  assert (forall n, In n ips \/ In n nets <-> In n addresses) as Hmem'.
  { intros n. rewrite Hmem. simpl. tauto. }
  clear Hmem. rename Hmem' into Hmem.
  set (v' := match ips with ip :: _ => net_version ip | [] => V4 end).
  set (ranges := find_address_range (sorted_set (map network_address ips))).
  set (addrs := concat (map (fun '(first, last) => summarize_address_range v' first last) ranges)).
  eexists. split; [reflexivity|].
  assert (Forall (fun x => 0 <= x < 2 ^ max_prefixlen v) (sorted_set (map network_address ips)))
    as Hbound.
  { apply List.Forall_forall. intros x Hx. apply sorted_set_In, in_map_iff in Hx as (n & <- & Hn).
    destruct (proj1 (List.Forall_forall _ _) Hips n Hn) as [Hwf <-]. apply Hwf. }
  destruct (find_address_range_spec _ _ Hbound) as [Hr1 Hr2]. fold ranges in Hr1, Hr2.
  assert (ips <> [] -> v' = v) as Hv'.
  { intros Hne. unfold v'. destruct ips as [|ip ips0]; [contradiction|].
    apply Forall_cons in Hips as [[_ Hv] _]. exact Hv. }
  assert (ranges <> [] -> v' = v) as Hv''.
  { intros Hne. apply Hv'. intros ->. apply Hne. reflexivity. }
  assert (Forall (good v) addrs /\ forall a, covered addrs a <-> in_ranges ranges a) as [Ha1 Ha2].
  { unfold addrs. clear Hr2. induction ranges as [|[f l] rs IH]; simpl.
    - split; [constructor|]. intros a. split; [intros Hc; exfalso; exact (covered_nil a Hc)|].
      intros (r & [] & _).
    - apply Forall_cons in Hr1 as [[Hf Hl] Hr1]. simpl in *.
      rewrite (Hv'' ltac:(discriminate)) in *.
      destruct (IH Hr1) as [IH1 IH2]; [intros _; reflexivity|].
      destruct (summarize_address_range_spec v f l Hf Hl) as [S1 S2].
      split; [apply Forall_app; split; assumption|].
      intros a. rewrite covered_app, S2, IH2. unfold in_ranges. split.
      + intros [Hfl|(r & Hin & Hr)]; [exists (f, l); split; [left; reflexivity|exact Hfl]|].
        exists r. split; [right; assumption|assumption].
      + intros (r & [<-|Hin] & Hr); [left; exact Hr|right; exists r; tauto]. }
  pose proof (collapse_addresses_internal_spec v (addrs ++ nets)%list
                ltac:(apply Forall_app; split; assumption)) as [C1 C2 C3 C4].
  split; try assumption.
  intros a. rewrite C3, covered_app, Ha2, Hr2, sorted_set_In. split.
  - intros [Hin|(n & Hn & Hc)].
    + apply in_map_iff in Hin as (n & <- & Hn). exists n. split.
      * apply (proj1 (Hmem n)). left. exact Hn.
      * apply contains_own_address. exact (proj1 (proj1 (List.Forall_forall _ _) Hips n Hn)).
    + exists n. split; [apply (proj1 (Hmem n)); right; exact Hn|exact Hc].
  - intros (n & Hn & Hc). apply (proj2 (Hmem n)) in Hn.
    destruct Hn as [Hn|Hn]; [left|right; exists n; tauto].
    apply in_map_iff. exists n. split; [|exact Hn]. symmetry.
    apply host_contains; [| |exact Hc].
    + exact (proj1 (proj1 (List.Forall_forall _ _) Hips n Hn)).
    + exact (proj1 (List.Forall_forall _ _) Hhost n Hn).
Qed.


(** ** The parsers build well-formed networks *)

Lemma rbind_Ok {A B} (r : result A) (k : A -> result B) b :
  rbind r k = Ok b -> exists a, r = Ok a /\ k a = Ok b.
Proof. destruct r; simpl; [eauto|discriminate|discriminate]. Qed.

Lemma rmapM_Ok {A B} (f : A -> result B) l bs :
  rmapM f l = Ok bs -> Forall2 (fun a b => f a = Ok b) l bs.
Proof.
  revert bs. induction l as [|x l IH]; simpl; intros bs.
  - intros [= <-]. constructor.
  - intros H. apply rbind_Ok in H as (y & Hy & H).
    apply rbind_Ok in H as (ys & Hys & [= <-]). constructor; auto.
Qed.

Lemma rmapM_all_Ok {A B} (f : A -> result B) l :
  Forall (fun a => exists b, f a = Ok b) l -> exists bs, rmapM f l = Ok bs.
Proof.
  induction 1 as [|x l [y Hy] _ [ys Hys]]; simpl; [eauto|].
  rewrite Hy, Hys. simpl. eauto.
Qed.

Lemma digit_val_range c : Str.is_digit c = true -> 0 <= Str.digit_val c <= 9.
Proof. unfold Str.is_digit, Str.digit_val. lia. Qed.

Lemma hex_val_range c : Str.is_hex c = true -> 0 <= Str.hex_val c <= 15.
Proof.
  unfold Str.is_hex, Str.hex_val.
  destruct (Z.leb_spec (Z.of_N (N_of_ascii c)) 57); [lia|].
  destruct (Z.leb_spec (Z.of_N (N_of_ascii c)) 70); lia.
Qed.

Lemma int_digits_bound base val (ok : ascii -> bool) s :
  1 < base -> (forall c, ok c = true -> 0 <= val c <= base - 1) ->
  Str.forallb ok s = true ->
  forall acc, 0 <= acc ->
  0 <= Str.int_digits base val acc s < (acc + 1) * base ^ Str.len s.
Proof.
  intros Hb Hval. unfold Str.len. induction s as [|c s IH]; simpl; intros Hall acc Hacc.
  - lia.
  - apply andb_true_iff in Hall as [Hc Hall]. specialize (Hval c Hc).
    specialize (IH Hall (acc * base + val c) ltac:(nia)).
    rewrite Nat2Z.inj_succ, Z.pow_succ_r by lia.
    pose proof (Z.pow_pos_nonneg base (Z.of_nat (String.length s)) ltac:(lia) ltac:(lia)). nia.
Qed.

Lemma parse_octet_range s o : IPv4.parse_octet s = Some o -> 0 <= o <= 255.
Proof.
  unfold IPv4.parse_octet. destruct s as [|c0 s']; [discriminate|].
  destruct (Str.forallb Str.is_digit (String c0 s')) eqn:Hd; cbn [negb]; [|discriminate].
  destruct (3 <? Str.len (String c0 s')); [discriminate|].
  destruct (negb (String.eqb (String c0 s') "0") && Ascii.eqb c0 "0"); [discriminate|].
  destruct (Z.ltb_spec 255 (Str.int10 (String c0 s'))); [discriminate|].
  intros [= <-]. split; [|lia].
  apply (int_digits_bound 10 Str.digit_val Str.is_digit); auto using digit_val_range; lia.
Qed.

Lemma parse_octets_range l os :
  IPv4.parse_octets l = Some os ->
  length os = length l /\ Forall (fun o => 0 <= o <= 255) os.
Proof.
  revert os. induction l as [|s l IH]; simpl; intros os.
  - intros [= <-]. split; [reflexivity|constructor].
  - destruct (IPv4.parse_octet s) as [o|] eqn:Ho; [|discriminate].
    destruct (IPv4.parse_octets l) as [os'|]; [|discriminate].
    intros [= <-]. destruct (IH os' eq_refl) as [Hl Hall].
    split; [simpl; congruence|]. constructor; [eapply parse_octet_range; eassumption|assumption].
Qed.

Lemma ip4_int_range s ip : IPv4.ip_int_from_string s = Ok ip -> 0 <= ip < 2 ^ 32.
Proof.
  unfold IPv4.ip_int_from_string. destruct (String.eqb s ""); [discriminate|].
  destruct (Z.eqb_spec (Z.of_nat (length (Str.split "." s))) 4) as [Hlen|]; simpl; [|discriminate].
  destruct (IPv4.parse_octets (Str.split "." s)) as [os|] eqn:Hos; [|discriminate].
  intros [= <-]. apply parse_octets_range in Hos as [Hl Hall].
  destruct os as [|o1 [|o2 [|o3 [|o4 [|? ?]]]]]; simpl in Hl; try lia.
  repeat (apply Forall_cons in Hall as [? Hall]).
  unfold IPv4.from_bytes. simpl. lia.
Qed.

Lemma IPv4Address_range s ip : IPv4.IPv4Address s = Ok ip -> 0 <= ip < 2 ^ 32.
Proof.
  unfold IPv4.IPv4Address. destruct (Str.contains "/" s); [discriminate|]. apply ip4_int_range.
Qed.

Lemma prefix_from_prefix_string_range v s p :
  IPv4.prefix_from_prefix_string v s = Ok p -> 0 <= p <= max_prefixlen v.
Proof.
  unfold IPv4.prefix_from_prefix_string.
  destruct (negb _); [discriminate|].
  destruct (Z.leb_spec 0 (Str.int10 s)); simpl; [|discriminate].
  destruct (Z.leb_spec (Str.int10 s) (max_prefixlen v)); simpl; [|discriminate].
  intros [= <-]. lia.
Qed.

Lemma prefix_from_ip_int_range v x p :
  0 <= x -> IPv4.prefix_from_ip_int v x = Some p -> 0 <= p <= max_prefixlen v.
Proof.
  intros Hx. unfold IPv4.prefix_from_ip_int.
  destruct (negb _); [discriminate|]. intros [= <-].
  pose proof (max_prefixlen_pos v).
  pose proof (count_righthand_zero_bits_spec x (max_prefixlen v) Hx ltac:(lia)). lia.
Qed.

Lemma make_netmask_range s p : IPv4.make_netmask s = Ok p -> 0 <= p <= 32.
Proof.
  unfold IPv4.make_netmask.
  destruct (IPv4.prefix_from_prefix_string V4 s) as [p'|e|] eqn:Hp.
  - intros [= <-]. exact (prefix_from_prefix_string_range V4 s p' Hp).
  - assert (IPv4.prefix_from_ip_string s = Ok p -> 0 <= p <= 32) as Hip.
    { unfold IPv4.prefix_from_ip_string.
      destruct (IPv4.ip_int_from_string s) as [ip| |] eqn:Hi; try discriminate.
      apply ip4_int_range in Hi.
      destruct (IPv4.prefix_from_ip_int V4 ip) as [p1|] eqn:H1.
      - intros [= <-]. apply (prefix_from_ip_int_range V4 ip); [lia|assumption].
      - destruct (IPv4.prefix_from_ip_int V4 (Z.lxor ip (ALL_ONES V4))) as [p2|] eqn:H2;
          [|discriminate].
        intros [= <-]. apply (prefix_from_ip_int_range V4 _ _) in H2; [exact H2|].
        apply Z.lxor_nonneg. change (ALL_ONES V4) with 4294967295. split; lia. }
    destruct e; try discriminate. exact Hip.
  - discriminate.
Qed.

Lemma strict_check_wf v ip p :
  0 <= ip < 2 ^ max_prefixlen v -> 0 <= p <= max_prefixlen v ->
  forall n,
  (if negb (Z.land ip (netmask (mkNetwork v ip p)) =? ip) then Raise ValueError
   else Ok (mkNetwork v ip p)) = Ok n ->
  good v n.
Proof.
  intros Hip Hp n. destruct (Z.eqb_spec (Z.land ip (netmask (mkNetwork v ip p))) ip) as [E|];
    simpl; [|discriminate].
  intros [= <-]. split; [|reflexivity]. split; simpl; assumption.
Qed.

Lemma IPv4Network_good s n : IPv4.IPv4Network s = Ok n -> good V4 n.
Proof.
  unfold IPv4.IPv4Network.
  destruct (Str.split "/" s) as [|addr [|mask [|? ?]]]; try discriminate.
  - intros H. apply rbind_Ok in H as (ip & Hip & H).
    apply IPv4Address_range in Hip. revert H. apply strict_check_wf; simpl; lia.
  - intros H. apply rbind_Ok in H as (ip & Hip & H).
    apply rbind_Ok in H as (p & Hp & H).
    apply IPv4Address_range in Hip. apply make_netmask_range in Hp.
    revert H. apply strict_check_wf; simpl; lia.
Qed.

Lemma parse_hextet_range s h : IPv6.parse_hextet s = Some h -> 0 <= h < 2 ^ 16.
Proof.
  unfold IPv6.parse_hextet.
  destruct (Str.forallb Str.is_hex s) eqn:Hh; cbn [negb]; [|discriminate].
  destruct (Z.ltb_spec 4 (Str.len s)); [discriminate|].
  destruct (String.eqb s ""); [discriminate|]. intros [= <-].
  pose proof (int_digits_bound 16 Str.hex_val Str.is_hex s ltac:(lia) hex_val_range Hh 0 ltac:(lia)) as Hb.
  fold (Str.int16 s) in Hb.
  assert (0 <= Str.len s) by (unfold Str.len; lia).
  pose proof (Z.pow_le_mono_r 16 (Str.len s) 4 ltac:(lia) ltac:(lia)).
  change (2 ^ 16) with (16 ^ 4). lia.
Qed.

Lemma lor_bound a b n : 0 <= n -> 0 <= a < 2 ^ n -> 0 <= b < 2 ^ n -> 0 <= Z.lor a b < 2 ^ n.
Proof.
  intros Hn Ha Hb. split; [apply Z.lor_nonneg; lia|].
  destruct (Z.eq_dec (Z.lor a b) 0) as [->|Hne]; [apply pow2_pos; lia|].
  apply Z.log2_lt_pow2; [pose proof (proj2 (Z.lor_nonneg a b) ltac:(lia)); lia|].
  rewrite Z.log2_lor by lia.
  assert (forall x, 0 <= x < 2 ^ n -> Z.log2 x < n \/ (x = 0 /\ Z.log2 x = 0)) as Hl.
  { intros x Hx. destruct (Z.eq_dec x 0) as [->|]; [auto|]. left. apply Z.log2_lt_pow2; lia. }
  pose proof (Z.log2_nonneg a). pose proof (Z.log2_nonneg b).
  destruct (Hl a Ha) as [?|[-> ?]], (Hl b Hb) as [?|[-> ?]]; try lia.
  exfalso. apply Hne. reflexivity.
Qed.

Lemma shift_in_bound parts : forall acc m r,
  0 <= m -> 0 <= acc < 2 ^ m -> IPv6.shift_in acc parts = Some r ->
  0 <= r < 2 ^ (m + 16 * Z.of_nat (length parts)).
Proof.
  induction parts as [|s parts IH]; simpl; intros acc m r Hm Hacc.
  - intros [= <-]. rewrite Z.add_0_r. exact Hacc.
  - destruct (IPv6.parse_hextet s) as [h|] eqn:Hh; [|discriminate].
    apply parse_hextet_range in Hh. intros Hr.
    apply (IH _ (m + 16)) in Hr; [| lia |].
    + replace (m + 16 * Z.of_nat (S (length parts))) with (m + 16 + 16 * Z.of_nat (length parts)) by lia.
      exact Hr.
    + rewrite Z.shiftl_mul_pow2 by lia. apply lor_bound; [lia| |].
      * rewrite Z.pow_add_r by lia. nia.
      * pose proof (pow2_le 16 (m + 16) ltac:(lia)). lia.
Qed.

Ltac case_if :=
  match goal with
  | |- context [if ?c then _ else _] => destruct c eqn:?
  end.

Lemma ip6_int_range s ip : IPv6.ip_int_from_string s = Ok ip -> 0 <= ip < 2 ^ 128.
Proof.
  unfold IPv6.ip_int_from_string. destruct (String.eqb s ""); [discriminate|].
  destruct (length (Str.split ":" s) <? 3)%nat; [discriminate|].
  intros H. apply rbind_Ok in H as (parts & _ & H). revert H.
  destruct (Nat.ltb_spec 9 (length parts)); [discriminate|].
  destruct (IPv6.find_skip 1 (removelast (tail parts)) None) as [[skip_index|]|]; [| |discriminate].
  - cbv zeta.
    set (parts_hi := if IPv6.is_empty (List.hd "" parts) then (skip_index - 1)%nat else skip_index).
    set (parts_lo := if IPv6.is_empty (List.last parts "")
                     then (length parts - skip_index - 1 - 1)%nat
                     else (length parts - skip_index - 1)%nat).
    case_if; [discriminate|]. case_if; [discriminate|].
    destruct (Nat.ltb_spec 8 (parts_hi + parts_lo + 1)); [discriminate|].
    destruct (IPv6.shift_in 0 (take parts_hi parts)) as [hi|] eqn:Hhi; [|discriminate].
    destruct (IPv6.shift_in _ (drop (length parts - parts_lo) parts)) as [ip'|] eqn:Hlo; [|discriminate].
    intros [= <-].
    apply (shift_in_bound _ 0 0) in Hhi; [|lia|simpl; lia].
    pose proof (length_take parts parts_hi) as Hlt.
    pose proof (length_drop parts (length parts - parts_lo)) as Hld.
    set (sk := Z.of_nat (8 - (parts_hi + parts_lo))) in *.
    set (l1 := Z.of_nat (length (take parts_hi parts))) in *.
    apply (shift_in_bound _ _ (16 * l1 + 16 * sk)) in Hlo; [|lia|].
    + split; [lia|]. eapply Z.lt_le_trans; [apply Hlo|].
      apply pow2_le. unfold l1, sk. lia.
    + rewrite Z.shiftl_mul_pow2 by (unfold sk; lia). rewrite Z.pow_add_r by (unfold sk, l1; lia).
      pose proof (pow2_pos (16 * sk) ltac:(unfold sk; lia)). rewrite Z.add_0_l in Hhi.
      fold l1 in Hhi. nia.
  - destruct (Nat.eqb_spec (length parts) 8) as [E|]; cbn [negb]; [|discriminate].
    case_if; [discriminate|]. case_if; [discriminate|].
    destruct (IPv6.shift_in 0 parts) as [ip'|] eqn:Hs; [|discriminate].
    intros [= <-]. apply (shift_in_bound _ 0 0) in Hs; [|lia|simpl; lia].
    rewrite E in Hs. exact Hs.
Qed.

Lemma IPv6Network_good s n : IPv6.IPv6Network s = Ok n -> good V6 n.
Proof.
  unfold IPv6.IPv6Network.
  assert (forall a ip, IPv6.IPv6Address a = Ok ip -> 0 <= ip < 2 ^ 128) as Haddr.
  { intros a ip. unfold IPv6.IPv6Address. destruct (Str.contains "/" a); [discriminate|].
    apply ip6_int_range. }
  destruct (Str.split "/" s) as [|addr [|mask [|? ?]]]; try discriminate.
  - intros H. apply rbind_Ok in H as (ip & Hip & H).
    apply Haddr in Hip. revert H. apply strict_check_wf; simpl; lia.
  - intros H. apply rbind_Ok in H as (ip & Hip & H).
    apply rbind_Ok in H as (p & Hp & H).
    apply Haddr in Hip. apply prefix_from_prefix_string_range in Hp.
    revert H. apply strict_check_wf; simpl in *; lia.
Qed.

Lemma ip_network_wf s n : ip_network s = Ok n -> wf_net n.
Proof.
  unfold ip_network. destruct (IPv4.IPv4Network s) as [n4|e|] eqn:H4.
  - intros [= <-]. exact (proj1 (IPv4Network_good s n4 H4)).
  - assert (IPv6.IPv6Network s = Ok n -> wf_net n) as H6.
    { intros H. exact (proj1 (IPv6Network_good s n H)). }
    destruct e; try discriminate;
      (destruct (IPv6.IPv6Network s) as [n6|e6|] eqn:E6;
       [intros [= <-]; apply H6; reflexivity|destruct e6; discriminate|discriminate]).
  - discriminate.
Qed.


(** ** [summarized()] *)




Lemma parse_net_good v s n : parse_net v s = Ok n -> good v n.
Proof. destruct v; [apply IPv4Network_good|apply IPv6Network_good]. Qed.

Lemma before_not_ltb x y : wf_net x -> before x y -> net_ltb y x = false.
Proof.
  intros Hx Hb. destruct (net_ltb y x) eqn:E; [|reflexivity].
  apply net_ltb_true in E. unfold before in Hb.
  rewrite broadcast_eq in Hb by assumption.
  pose proof (size_pos x (wf_prefix x Hx)). lia.
Qed.

Lemma sorted_id v l :
  Forall (good v) l -> StronglySorted before l -> sorted net_ltb l = l.
Proof.
  intros Hg Hs. induction Hs as [|x l Hs IH Hall]; [reflexivity|].
  apply Forall_cons in Hg as [[Hx _] Hg]. simpl. rewrite (IH Hg).
  destruct l as [|y l']; [reflexivity|]. simpl.
  apply Forall_cons in Hall as [Hxy _].
  rewrite (before_not_ltb x y Hx Hxy). reflexivity.
Qed.

Lemma summarized_collapses v l nets :
  rmapM (parse_net v) l = Ok nets ->
  (v = V4 -> length l <> 1%nat) ->
  exists out,
    summarized v (mkIPList l []) =
      Ok (map (canonical v) out, mkIPList l (map (canonical v) out))
    /\ collapsed v nets out.
Proof.
  intros Hparse Hlen.
  assert (Forall (good v) nets) as Hgood.
  { apply rmapM_Ok in Hparse. clear Hlen. induction Hparse; constructor; eauto using parse_net_good. }
  destruct (collapse_addresses_spec v nets Hgood) as (out & Hc & Hcol).
  exists out. split; [|exact Hcol].
  assert (sorted net_ltb out = out) as Hs by (eapply sorted_id; apply Hcol).
  destruct v; simpl in *.
  - unfold IPv4List_summarized. simpl.
    destruct (Nat.eqb_spec (length l) 1) as [e|]; [exact (False_ind _ (Hlen eq_refl e))|].
    rewrite Hparse. simpl. rewrite Hc. simpl. rewrite Hs. reflexivity.
  - unfold IPv6List_summarized. simpl.
    rewrite Hparse. simpl. rewrite Hc. simpl. rewrite Hs. reflexivity.
Qed.

(** ** Malformed entries *)

Lemma rmapM_Raise {A B} (f : A -> result B) l x e :
  (forall a, f a <> OutOfFuel) -> In x l -> f x = Raise e ->
  exists x' e', In x' l /\ f x' = Raise e' /\ rmapM f l = Raise e'.
Proof.
  intros Htot. induction l as [|y l IH]; [intros []|].
  intros Hin Hx. simpl. destruct (f y) as [b|e'|] eqn:Hy.
  - destruct Hin as [->|Hin]; [congruence|].
    destruct (IH Hin Hx) as (x' & e'' & Hin' & Hf & Hr).
    exists x', e''. split; [right; assumption|]. split; [assumption|].
    simpl. rewrite Hr. reflexivity.
  - exists y, e'. split; [left; reflexivity|]. split; [assumption|reflexivity].
  - exfalso. exact (Htot y Hy).
Qed.

Ltac never_out_of_fuel :=
  repeat match goal with
         | |- context [if ?c then _ else _] => destruct c
         | |- context [match ?x with _ => _ end] => destruct x eqn:?
         end; simpl; try discriminate.

Lemma ip4_int_total s : IPv4.ip_int_from_string s <> OutOfFuel.
Proof. unfold IPv4.ip_int_from_string. never_out_of_fuel. Qed.

Lemma IPv4Address_total s : IPv4.IPv4Address s <> OutOfFuel.
Proof.
  unfold IPv4.IPv4Address. destruct (Str.contains "/" s); [discriminate|apply ip4_int_total].
Qed.

Lemma prefix_from_prefix_string_total v s : IPv4.prefix_from_prefix_string v s <> OutOfFuel.
Proof. unfold IPv4.prefix_from_prefix_string. never_out_of_fuel. Qed.

Lemma make_netmask_total s : IPv4.make_netmask s <> OutOfFuel.
Proof.
  unfold IPv4.make_netmask. pose proof (prefix_from_prefix_string_total V4 s).
  destruct (IPv4.prefix_from_prefix_string V4 s) as [p|e|]; [discriminate| |congruence].
  assert (IPv4.prefix_from_ip_string s <> OutOfFuel).
  { unfold IPv4.prefix_from_ip_string. never_out_of_fuel. }
  destruct e; try discriminate. assumption.
Qed.

Lemma rbind_total {A B} (r : result A) (k : A -> result B) :
  r <> OutOfFuel -> (forall a, k a <> OutOfFuel) -> rbind r k <> OutOfFuel.
Proof. destruct r; simpl; [auto|discriminate|congruence]. Qed.

Lemma IPv4Network_total s : IPv4.IPv4Network s <> OutOfFuel.
Proof.
  unfold IPv4.IPv4Network.
  destruct (Str.split "/" s) as [|addr [|mask [|? ?]]]; try discriminate.
  - apply rbind_total; [apply IPv4Address_total|]. intros ip. never_out_of_fuel.
  - apply rbind_total; [apply IPv4Address_total|]. intros ip.
    apply rbind_total; [apply make_netmask_total|]. intros p. never_out_of_fuel.
Qed.

Lemma ip6_int_total s : IPv6.ip_int_from_string s <> OutOfFuel.
Proof.
  unfold IPv6.ip_int_from_string.
  destruct (String.eqb s ""); [discriminate|].
  destruct (length (Str.split ":" s) <? 3)%nat; [discriminate|].
  apply rbind_total.
  - destruct (Str.contains "." _); [|discriminate].
    destruct (IPv4.IPv4Address _); discriminate.
  - intros parts. cbv zeta. never_out_of_fuel.
Qed.

Lemma IPv6Network_total s : IPv6.IPv6Network s <> OutOfFuel.
Proof.
  unfold IPv6.IPv6Network.
  assert (forall a, IPv6.IPv6Address a <> OutOfFuel) as Ha.
  { intros a. unfold IPv6.IPv6Address. destruct (Str.contains "/" a); [discriminate|apply ip6_int_total]. }
  destruct (Str.split "/" s) as [|addr [|mask [|? ?]]]; try discriminate.
  - apply rbind_total; [apply Ha|]. intros ip. never_out_of_fuel.
  - apply rbind_total; [apply Ha|]. intros ip.
    apply rbind_total; [apply prefix_from_prefix_string_total|]. intros p. never_out_of_fuel.
Qed.

Lemma parse_net_total v s : parse_net v s <> OutOfFuel.
Proof. destruct v; [apply IPv4Network_total|apply IPv6Network_total]. Qed.

Lemma summarized_malformed v l s e :
  In s l -> parse_net v s = Raise e ->
  (v = V4 -> length l <> 1%nat) ->
  exists s' e', In s' l /\ parse_net v s' = Raise e'
                /\ summarized v (mkIPList l []) = Raise e'.
Proof.
  intros Hin Hs Hlen.
  destruct (rmapM_Raise (parse_net v) l s e (parse_net_total v) Hin Hs) as (s' & e' & Hin' & Hs' & Hr).
  exists s', e'. split; [assumption|]. split; [assumption|].
  destruct v; simpl in *.
  - unfold IPv4List_summarized. simpl.
    destruct (Nat.eqb_spec (length l) 1) as [e0|]; [exact (False_ind _ (Hlen eq_refl e0))|].
    rewrite Hr. reflexivity.
  - unfold IPv6List_summarized. simpl. rewrite Hr. reflexivity.
Qed.

Lemma contains_append c a b : Str.contains c (a ++ String c b) = true.
Proof.
  induction a as [|x a IH]; simpl.
  - rewrite Ascii.eqb_refl. reflexivity.
  - rewrite IH. apply orb_true_r.
Qed.

Lemma with_prefixlen4_has_slash n : Str.contains "/" (IPv4.with_prefixlen n) = true.
Proof. unfold IPv4.with_prefixlen. apply contains_append. Qed.

(** ** The extractor: [get_ranges_for_service] *)

Lemma rfoldl_app {A B} (f : A -> B -> result A) a l1 l2 :
  rfoldl f a (l1 ++ l2)%list = rbind (rfoldl f a l1) (fun a' => rfoldl f a' l2).
Proof.
  revert a. induction l1 as [|x l1 IH]; intros a; simpl; [reflexivity|].
  destruct (f a x); simpl; auto.
Qed.

Lemma range_of_with_range v r l : range_of v (with_range v r l) = l.
Proof. destruct v; reflexivity. Qed.

Lemma range_of_with_range_other v r l : range_of (other v) (with_range v r l) = range_of (other v) r.
Proof. destruct v; reflexivity. Qed.

Lemma append_prefix_Ok fam sr name p sr' :
  append_prefix fam sr name p = Ok sr' ->
  exists r,
    Dict.get sr name = Some r
    /\ sr' = Dict.set sr name
               (with_range fam r (mkIPList (ip_list (range_of fam r) ++ [p])%list
                                    (_summarized_ip_list (range_of fam r)))).
Proof.
  unfold append_prefix. destruct (Dict.get sr name) as [r|]; [|discriminate].
  intros [= <-]. exists r. split; [reflexivity|]. destruct fam; reflexivity.
Qed.

Lemma append_prefix_mem fam sr name p :
  In name (Dict.keys sr) -> exists sr', append_prefix fam sr name p = Ok sr'.
Proof.
  intros Hin. unfold append_prefix.
  destruct (Dict.get sr name) as [r|] eqn:Hg; [eauto|].
  apply dict_get_None in Hg. contradiction.
Qed.

(** What one feed loop does to the range of every service. *)
Lemma feed_loop_Ok fam control feed : forall sr sr',
  rfoldl (match_prefix fam control) sr feed = Ok sr' ->
  Dict.keys sr' = Dict.keys sr
  /\ forall name r, Dict.get sr name = Some r ->
       exists r', Dict.get sr' name = Some r'
         /\ ip_list (range_of fam r') =
              (ip_list (range_of fam r) ++ attributed control name feed)%list
         /\ _summarized_ip_list (range_of fam r') = _summarized_ip_list (range_of fam r)
         /\ range_of (other fam) r' = range_of (other fam) r.
Proof.
  induction feed as [|p feed IH]; intros sr sr'; simpl.
  - intros [= <-]. split; [reflexivity|]. intros name r Hg. exists r.
    unfold attributed. simpl. rewrite app_nil_r. auto.
  - intros H. apply rbind_Ok in H as (sr1 & Hstep & Hrest).
    destruct (IH _ _ Hrest) as [Hk Hl].
    unfold match_prefix in Hstep.
    assert (forall name,
      append_prefix fam sr (service p) (ip_prefix p) = Ok sr1 ->
      Dict.keys sr1 = Dict.keys sr
      /\ forall r, Dict.get sr name = Some r ->
           exists r1, Dict.get sr1 name = Some r1
             /\ ip_list (range_of fam r1) =
                  (ip_list (range_of fam r)
                   ++ (if bool_decide (service p = name) then [ip_prefix p] else []))%list
             /\ _summarized_ip_list (range_of fam r1) = _summarized_ip_list (range_of fam r)
             /\ range_of (other fam) r1 = range_of (other fam) r) as Happ.
    { intros name Ha. apply append_prefix_Ok in Ha as (r0 & Hg0 & ->). split.
      - apply dict_keys_set_mem. apply dict_get_In in Hg0. apply (in_map fst) in Hg0. exact Hg0.
      - intros r Hg. destruct (decide (service p = name)) as [E|E].
        + rewrite bool_decide_eq_true_2 by assumption. subst name.
          rewrite dict_get_set_eq. eexists. split; [reflexivity|].
          rewrite range_of_with_range, range_of_with_range_other. simpl.
          assert (r0 = r) as -> by congruence. auto.
        + rewrite bool_decide_eq_false_2 by assumption.
          rewrite dict_get_set_ne by assumption. exists r. rewrite app_nil_r. auto. }
    assert ((forall name r, Dict.get sr name = Some r ->
      exists r1, Dict.get sr1 name = Some r1
        /\ ip_list (range_of fam r1) =
             (ip_list (range_of fam r)
              ++ map ip_prefix
                   (if selectedb control p && bool_decide (service p = name)
                    then [p] else []))%list
        /\ _summarized_ip_list (range_of fam r1) = _summarized_ip_list (range_of fam r)
        /\ range_of (other fam) r1 = range_of (other fam) r) /\ Dict.keys sr1 = Dict.keys sr)
      as [Hone Hk1].
    { unfold selectedb, selected.
      destruct (decide (is_Some (control !! (service p ++ "-" ++ region p)))) as [H1|H1].
      - rewrite bool_decide_eq_true_2 by (left; exact H1). split.
        + intros name r Hg. destruct (Happ name Hstep) as [_ Hx].
          destruct (Hx r Hg) as (r1 & ? & Hl1 & ? & ?). exists r1.
          rewrite Hl1. simpl. destruct (bool_decide (service p = name)); auto.
        + exact (proj1 (Happ "" Hstep)).
      - destruct (decide (is_Some (control !! service p))) as [H2|H2].
        + rewrite bool_decide_eq_true_2 by (right; exact H2). split.
          * intros name r Hg. destruct (Happ name Hstep) as [_ Hx].
            destruct (Hx r Hg) as (r1 & ? & Hl1 & ? & ?). exists r1.
            rewrite Hl1. simpl. destruct (bool_decide (service p = name)); auto.
          * exact (proj1 (Happ "" Hstep)).
        + rewrite bool_decide_eq_false_2 by tauto. injection Hstep as <-. split; [|reflexivity].
          intros name r Hg. exists r. simpl. rewrite app_nil_r. auto. }
    split; [congruence|].
    intros name r Hg. destruct (Hone name r Hg) as (r1 & Hg1 & Hl1 & Hc1 & Ho1).
    destruct (Hl name r1 Hg1) as (r' & Hg' & Hl' & Hc' & Ho').
    exists r'. split; [assumption|]. split; [|split; congruence].
    rewrite Hl', Hl1. unfold attributed. simpl.
    rewrite <- app_assoc. f_equal.
    destruct (selectedb control p && bool_decide (service p = name)); reflexivity.
Qed.

(** A feed loop raises only on a selected record whose service has no range. *)
Lemma feed_loop_total fam control feed : forall sr,
  (forall p, In p feed -> selected control p -> In (service p) (Dict.keys sr)) ->
  exists sr', rfoldl (match_prefix fam control) sr feed = Ok sr'.
Proof.
  induction feed as [|p feed IH]; intros sr Hsel; simpl; [eauto|].
  assert (exists sr1, match_prefix fam control sr p = Ok sr1 /\ Dict.keys sr1 = Dict.keys sr)
    as (sr1 & Hstep & Hk).
  { unfold match_prefix.
    assert (selected control p ->
            exists sr1, append_prefix fam sr (service p) (ip_prefix p) = Ok sr1
                        /\ Dict.keys sr1 = Dict.keys sr) as Ha.
    { intros Hs. pose proof (Hsel p (or_introl eq_refl) Hs) as Hin.
      destruct (append_prefix_mem fam sr (service p) (ip_prefix p) Hin) as (sr1 & E).
      exists sr1. split; [exact E|].
      apply append_prefix_Ok in E as (r0 & Hg0 & ->).
      apply dict_keys_set_mem. exact Hin. }
    destruct (decide (is_Some (control !! (service p ++ "-" ++ region p)))) as [H1|H1];
      [apply Ha; left; exact H1|].
    destruct (decide (is_Some (control !! service p))) as [H2|H2];
      [apply Ha; right; exact H2|eauto]. }
  rewrite Hstep. simpl. apply IH. intros q Hq Hs. rewrite Hk. apply Hsel; [right; exact Hq|exact Hs].
Qed.

(** *** The registration of the configured services *)

Lemma dict_keys_set_In {K V} `{EqDecision K} (d : list (K * V)) k v k' :
  In k' (Dict.keys (Dict.set d k v)) <-> In k' (Dict.keys d) \/ k' = k.
Proof.
  induction d as [|[k0 v0] d IH]; simpl; [intuition congruence|].
  destruct (decide (k0 = k)) as [->|Hne]; simpl; [intuition congruence|].
  rewrite IH. tauto.
Qed.

Lemma dict_get_set_cases {K V} `{EqDecision K} (d : list (K * V)) k v k' r :
  Dict.get (Dict.set d k v) k' = Some r -> Dict.get d k' = Some r \/ r = v.
Proof.
  destruct (decide (k = k')) as [->|Hne].
  - rewrite dict_get_set_eq. intros [= <-]. right. reflexivity.
  - rewrite dict_get_set_ne by assumption. auto.
Qed.

Lemma register_regions_spec name regs : forall (acc : gmap string bool * service_ranges_t),
  let acc' := foldl (fun '(service_control, service_ranges) region =>
                       (<[name ++ "-" ++ region := true]> service_control,
                        Dict.set service_ranges name ServiceIPRange_new)) acc regs in
  (forall k, is_Some (acc'.1 !! k) <->
             is_Some (acc.1 !! k) \/ In k (map (fun r => name ++ "-" ++ r) regs))
  /\ (forall n, In n (Dict.keys acc'.2) <->
                In n (Dict.keys acc.2) \/ (regs <> [] /\ n = name))
  /\ (forall n r, Dict.get acc'.2 n = Some r ->
        Dict.get acc.2 n = Some r \/ r = ServiceIPRange_new).
Proof.
  induction regs as [|r1 regs IH]; intros [control sr]; simpl.
  - split; [|split]; [intros k; tauto|intros n; intuition congruence|auto].
  - specialize (IH (<[name ++ "-" ++ r1 := true]> control,
                    Dict.set sr name ServiceIPRange_new)).
    simpl in IH. destruct IH as (I1 & I2 & I3). split; [|split].
    + intros k. rewrite I1. simpl. rewrite lookup_insert_is_Some'. intuition congruence.
    + intros n. rewrite I2. simpl. rewrite dict_keys_set_In.
      split; [intros [[?|?]|[? ?]]|intros [?|[? ?]]]; auto; right; split; auto; discriminate.
    + intros n r Hg. apply I3 in Hg as [Hg|Hg]; [|auto].
      simpl in Hg. apply dict_get_set_cases in Hg. exact Hg.
Qed.

(** The first loop registers the lookup keys and an empty range for every
    configured service. *)
Lemma register_service_Ok acc c acc' :
  register_service acc c = Ok acc' ->
  (forall k, is_Some (acc'.1 !! k) <-> is_Some (acc.1 !! k) \/ In k (lookup_keys [c]))
  /\ (forall name, In name (Dict.keys acc'.2) <-> In name (Dict.keys acc.2) \/ name = Name c)
  /\ (forall name r, Dict.get acc'.2 name = Some r ->
        Dict.get acc.2 name = Some r \/ r = ServiceIPRange_new).
Proof.
  unfold register_service, lookup_keys. simpl. rewrite app_nil_r.
  destruct (Regions c) as [regions|]; [|discriminate].
  destruct regions as [|r0 regions].
  - simpl. intros [= <-]. simpl. split; [|split].
    + intros k. rewrite lookup_insert_is_Some'. intuition congruence.
    + intros name. apply dict_keys_set_In.
    + intros name r. apply dict_get_set_cases.
  - change (0 <? length (r0 :: regions))%nat with true. cbv iota. intros [= <-].
    destruct (register_regions_spec (Name c) (r0 :: regions) acc) as (H1 & H2 & H3).
    split; [exact H1|]. split; [|exact H3].
    intros name. rewrite H2. split; [intros [?|[_ ?]]; auto|intros [?|?]; auto].
Qed.

Lemma lookup_keys_app l1 l2 : lookup_keys (l1 ++ l2)%list = (lookup_keys l1 ++ lookup_keys l2)%list.
Proof. unfold lookup_keys. rewrite map_app, concat_app. reflexivity. Qed.

Lemma register_loop_Ok cs : forall acc acc',
  rfoldl register_service acc cs = Ok acc' ->
  (forall k, is_Some (acc'.1 !! k) <-> is_Some (acc.1 !! k) \/ In k (lookup_keys cs))
  /\ (forall name, In name (Dict.keys acc'.2) <->
                   In name (Dict.keys acc.2) \/ In name (map Name cs))
  /\ (forall name r, Dict.get acc'.2 name = Some r ->
        Dict.get acc.2 name = Some r \/ r = ServiceIPRange_new).
Proof.
  induction cs as [|c cs IH]; intros acc acc'; simpl.
  - intros [= <-]. split; [|split]; [intros k; unfold lookup_keys; simpl; tauto|intros n; tauto|auto].
  - intros H. apply rbind_Ok in H as (acc1 & H1 & H2).
    apply register_service_Ok in H1 as (A1 & A2 & A3).
    apply IH in H2 as (B1 & B2 & B3). split; [|split].
    + intros k. rewrite B1, A1. change (c :: cs) with ([c] ++ cs)%list.
      rewrite lookup_keys_app, in_app_iff. tauto.
    + intros name. rewrite B2, A2. intuition congruence.
    + intros name r Hg. apply B3 in Hg as [Hg|Hg]; [|auto]. apply A3 in Hg. exact Hg.
Qed.

Lemma register_loop_total cs : forall acc,
  Forall (fun c => Regions c <> None) cs ->
  exists acc', rfoldl register_service acc cs = Ok acc'.
Proof.
  induction cs as [|c cs IH]; intros acc Hall; simpl; [eauto|].
  apply Forall_cons in Hall as [Hc Hall].
  assert (exists acc1, register_service acc c = Ok acc1) as [acc1 ->].
  { unfold register_service. destruct (Regions c) as [regs|]; [|contradiction].
    destruct (0 <? length regs)%nat; eauto. }
  simpl. apply IH. exact Hall.
Qed.

(** Lookup keys of hyphen-free service names do not collide. *)
Lemma hyphen_key_inj s n r r' :
  hyphen_free s -> hyphen_free n -> s ++ "-" ++ r = n ++ "-" ++ r' -> s = n.
Proof.
  unfold hyphen_free. revert n. induction s as [|c s IH]; intros n Hs Hn; simpl in *.
  - destruct n as [|c' n]; [reflexivity|]. simpl in *. intros [= <- _].
    cbn in Hn. discriminate.
  - destruct n as [|c' n]; simpl in *.
    + intros [= -> _]. cbn in Hs. discriminate.
    + intros [= <- E]. f_equal. apply orb_false_iff in Hs as [_ Hs].
      apply orb_false_iff in Hn as [_ Hn]. exact (IH n Hs Hn E).
Qed.

Lemma hyphen_key_ne s n r : hyphen_free n -> n <> s ++ "-" ++ r.
Proof.
  unfold hyphen_free. intros Hn ->.
  change (s ++ "-" ++ r) with (s ++ String "-" r) in Hn.
  rewrite contains_append in Hn. discriminate.
Qed.

Lemma lookup_keys_In k cs :
  In k (lookup_keys cs) ->
  exists c, In c cs /\ (k = Name c \/ exists r, k = Name c ++ "-" ++ r).
Proof.
  unfold lookup_keys. intros H. apply in_concat in H as (ks & Hks & Hk).
  apply in_map_iff in Hks as (c & <- & Hc). exists c. split; [exact Hc|].
  destruct (Regions c) as [[|r0 regs]|].
  - destruct Hk as [<-|[]]. auto.
  - apply in_map_iff in Hk as (r & <- & _). eauto.
  - destruct Hk as [<-|[]]. auto.
Qed.

Lemma selected_configured cs control p :
  (forall k, is_Some (control !! k) <-> In k (lookup_keys cs)) ->
  Forall (fun c => hyphen_free (Name c)) cs -> hyphen_free (service p) ->
  selected control p -> In (service p) (map Name cs).
Proof.
  intros Hc Hcs Hp [Hs|Hs]; apply Hc, lookup_keys_In in Hs as (c & Hin & Hk);
    pose proof (proj1 (List.Forall_forall _ _) Hcs c Hin) as Hfree;
    apply in_map_iff; exists c; (split; [|exact Hin]).
  - destruct Hk as [E|[r E]].
    + exfalso. exact (hyphen_key_ne _ _ _ Hfree (eq_sym E)).
    + symmetry. exact (hyphen_key_inj _ _ _ _ Hp Hfree E).
  - destruct Hk as [E|[r E]]; [congruence|].
    exfalso. exact (hyphen_key_ne _ _ _ Hp E).
Qed.

(** *** The final sort *)

Lemma sort_list_short v l : (length (ip_list l) <= 1)%nat -> sort_list v l = Ok l.
Proof.
  intros Hl. destruct v; simpl; unfold IPv4List_sort, IPv6List_sort;
    destruct (Nat.ltb_spec 1 (length (ip_list l))); try lia; reflexivity.
Qed.

Lemma keyed_snd l : forall keyed,
  rmapM (fun addr => rbind (IPv4.IPv4Network addr) (fun k => Ok (k, addr))) l = Ok keyed ->
  map snd keyed = l.
Proof.
  induction l as [|x l IH]; simpl; intros keyed.
  - intros [= <-]. reflexivity.
  - intros H. apply rbind_Ok in H as (kx & Hx & H). apply rbind_Ok in H as (ks & Hks & [= <-]).
    apply rbind_Ok in Hx as (k & _ & [= <-]). simpl. f_equal. exact (IH ks Hks).
Qed.

Lemma IPv4List_sort_perm l l' :
  IPv4List_sort l = Ok l' ->
  Permutation (ip_list l') (ip_list l)
  /\ _summarized_ip_list l' = _summarized_ip_list l.
Proof.
  unfold IPv4List_sort. destruct (1 <? length (ip_list l))%nat.
  - intros H. apply rbind_Ok in H as (keyed & Hk & [= <-]). simpl. split; [|reflexivity].
    unfold sorted_by_key. rewrite <- (keyed_snd _ _ Hk).
    apply Permutation_map. apply sorted_perm.
  - intros [= <-]. split; reflexivity.
Qed.

Lemma IPv6List_sort_Ok l l' :
  IPv6List_sort l = Ok l' ->
  _summarized_ip_list l' = _summarized_ip_list l
  /\ ((length (ip_list l) <= 1)%nat /\ l' = l
      \/ exists nets, rmapM IPv6.IPv6Network (ip_list l) = Ok nets
                      /\ ip_list l' = map IPv6.exploded (sorted net_ltb nets)).
Proof.
  unfold IPv6List_sort. destruct (Nat.ltb_spec 1 (length (ip_list l))) as [Hlt|Hge].
  - intros Hs. apply rbind_Ok in Hs as (nets & Hn & [= <-]). simpl. split; [reflexivity|].
    right. exists nets. auto.
  - intros [= <-]. split; [reflexivity|]. left. auto.
Qed.

Lemma Forall2_In_l {A B} (R : A -> B -> Prop) l1 l2 x :
  Forall2 R l1 l2 -> In x l1 -> exists y, In y l2 /\ R x y.
Proof.
  induction 1 as [|a b l1 l2 Hab _ IH]; [intros []|].
  intros [<-|Hin]; [exists b; split; [left; reflexivity|assumption]|].
  destruct (IH Hin) as (y & Hy & Hr). exists y. split; [right; assumption|assumption].
Qed.

Lemma IPv6List_sort_In l l' x :
  IPv6List_sort l = Ok l' -> In x (ip_list l) ->
  In x (ip_list l')
  \/ exists n, IPv6.IPv6Network x = Ok n /\ In (IPv6.exploded n) (ip_list l').
Proof.
  intros H Hin. apply IPv6List_sort_Ok in H as [_ [[_ ->]|(nets & Hn & ->)]]; [auto|].
  right. apply rmapM_Ok in Hn.
  destruct (Forall2_In_l _ _ _ x Hn Hin) as (n & Hn' & Hp).
  exists n. split; [exact Hp|]. apply in_map.
  apply (Permutation_in _ (Permutation_sym (sorted_perm net_ltb nets))). exact Hn'.
Qed.

Lemma sort_list_total v l :
  Forall (valid_cidr v) (ip_list l) -> exists l', sort_list v l = Ok l'.
Proof.
  intros Hall. destruct v; simpl; unfold IPv4List_sort, IPv6List_sort;
    destruct (1 <? length (ip_list l))%nat; eauto.
  - destruct (rmapM_all_Ok (fun addr => rbind (IPv4.IPv4Network addr) (fun k => Ok (k, addr)))
                (ip_list l)) as [keyed ->]; [|simpl; eauto].
    eapply List.Forall_impl; [|exact Hall]. intros a [n Hn]. simpl in Hn. rewrite Hn. simpl. eauto.
  - destruct (rmapM_all_Ok IPv6.IPv6Network (ip_list l)) as [nets ->]; [|simpl; eauto].
    exact Hall.
Qed.

Lemma sort_ranges_Ok sr : forall sr',
  sort_ranges sr = Ok sr' ->
  Dict.keys sr' = Dict.keys sr
  /\ forall name r, Dict.get sr name = Some r ->
       exists r', Dict.get sr' name = Some r'
                  /\ sort_list V4 (ipv4 r) = Ok (ipv4 r')
                  /\ sort_list V6 (ipv6 r) = Ok (ipv6 r').
Proof.
  unfold sort_ranges. induction sr as [|[n0 r0] sr IH]; simpl; intros sr'.
  - intros [= <-]. split; [reflexivity|]. intros name r [=].
  - intros H. apply rbind_Ok in H as ([n1 r1] & H0 & H).
    apply rbind_Ok in H as (rest & Hrest & [= <-]).
    apply rbind_Ok in H0 as (l4 & H4 & H0). apply rbind_Ok in H0 as (l6 & H6 & [= <- <-]).
    destruct (IH rest Hrest) as [Hk Hg]. simpl. split; [f_equal; exact Hk|].
    intros name r. destruct (decide (n0 = name)) as [->|Hne].
    + intros [= <-]. eexists. split; [reflexivity|]. simpl. auto.
    + apply Hg.
Qed.

Lemma sort_ranges_total sr :
  Forall (fun nr => Forall (valid_cidr V4) (ip_list (ipv4 nr.2))
                    /\ Forall (valid_cidr V6) (ip_list (ipv6 nr.2))) sr ->
  exists sr', sort_ranges sr = Ok sr'.
Proof.
  unfold sort_ranges. induction 1 as [|[n0 r0] sr [H4 H6] _ [rest IH]]; simpl; [eauto|].
  destruct (sort_list_total V4 _ H4) as [l4 E4]. destruct (sort_list_total V6 _ H6) as [l6 E6].
  simpl in E4, E6. rewrite E4, E6. simpl. rewrite IH. simpl. eauto.
Qed.

Lemma attributed_In control name feed x :
  In x (attributed control name feed) <->
  exists p, In p feed /\ selected control p /\ service p = name /\ ip_prefix p = x.
Proof.
  unfold attributed, selectedb. rewrite in_map_iff. split.
  - intros (p & <- & Hp). apply filter_In in Hp as [Hin Hb].
    apply andb_true_iff in Hb as [H1 H2].
    apply bool_decide_eq_true in H1. apply bool_decide_eq_true in H2. eauto.
  - intros (p & Hin & Hs & Hn & <-). exists p. split; [reflexivity|].
    apply filter_In. split; [exact Hin|]. apply andb_true_iff.
    split; apply bool_decide_eq_true; assumption.
Qed.

Lemma IPList_eta l ips cache :
  ip_list l = ips -> _summarized_ip_list l = cache -> l = mkIPList ips cache.
Proof. destruct l. simpl. intros -> ->. reflexivity. Qed.

(** What [get_ranges_for_service] returns, when it returns: the configured
    service names as keys and, per service and family, the sorted list of
    the prefixes of the selected feed records. *)
Lemma get_ranges_for_service_Ok ranges cfg out :
  get_ranges_for_service ranges cfg = Ok out ->
  exists control,
    (forall k, is_Some (control !! k) <-> In k (lookup_keys (Services cfg)))
    /\ (forall name, In name (Dict.keys out) <-> In name (map Name (Services cfg)))
    /\ forall name r, Dict.get out name = Some r ->
         sort_list V4 (mkIPList (attributed control name (prefixes ranges)) []) = Ok (ipv4 r)
         /\ sort_list V6 (mkIPList (attributed control name (ipv6_prefixes ranges)) [])
            = Ok (ipv6 r).
Proof.
  unfold get_ranges_for_service. intros H.
  apply rbind_Ok in H as ([control sr0] & Hreg & H).
  apply rbind_Ok in H as (sr1 & H4 & H). apply rbind_Ok in H as (sr2 & H6 & Hsort).
  apply register_loop_Ok in Hreg as (R1 & R2 & R3). simpl in *.
  apply feed_loop_Ok in H4 as [K4 L4]. apply feed_loop_Ok in H6 as [K6 L6].
  apply sort_ranges_Ok in Hsort as [Ks Ls].
  exists control. split; [|split].
  - intros k. rewrite R1, lookup_empty. split; [intros [[? [=]]|?]; assumption|auto].
  - intros name. rewrite Ks, K6, K4, R2. tauto.
  - intros name r Hg.
    assert (In name (Dict.keys sr0)) as Hin.
    { rewrite <- K4, <- K6, <- Ks. apply dict_get_In in Hg. apply (in_map fst) in Hg. exact Hg. }
    destruct (Dict.get sr0 name) as [r0|] eqn:G0; [|apply dict_get_None in G0; contradiction].
    destruct (R3 name r0 G0) as [[=]| ->].
    destruct (L4 name _ G0) as (r1 & G1 & A1 & C1 & O1).
    destruct (L6 name _ G1) as (r2 & G2 & A2 & C2 & O2).
    destruct (Ls name _ G2) as (r' & G' & S4 & S6).
    assert (r' = r) as -> by congruence. simpl in *.
    rewrite <- S4, <- S6. rewrite O1 in A2, C2. simpl in A2, C2.
    split; f_equal; symmetry; apply IPList_eta; congruence.
Qed.

Lemma dict_set_nodup {K V} `{EqDecision K} (d : list (K * V)) k v :
  NoDup (Dict.keys d) -> NoDup (Dict.keys (Dict.set d k v)).
Proof.
  intros Hnd. destruct (Dict.get d k) as [v0|] eqn:Hg.
  - rewrite dict_keys_set_mem; [exact Hnd|].
    apply dict_get_In in Hg. apply (in_map fst) in Hg. exact Hg.
  - rewrite dict_set_fresh by assumption. unfold Dict.keys. rewrite map_app. simpl.
    apply NoDup_app. split; [exact Hnd|]. split; [|apply NoDup_singleton].
    intros x Hx Hx'. apply list_elem_of_In in Hx, Hx'. destruct Hx' as [<-|[]].
    apply dict_get_None in Hg. contradiction.
Qed.

Lemma register_loop_nodup cs : forall acc acc',
  rfoldl register_service acc cs = Ok acc' ->
  NoDup (Dict.keys acc.2) -> NoDup (Dict.keys acc'.2).
Proof.
  induction cs as [|c cs IH]; intros acc acc'; simpl.
  - intros [= <-]. auto.
  - intros H Hnd. apply rbind_Ok in H as (acc1 & H1 & H2). apply (IH _ _ H2).
    unfold register_service in H1. destruct (Regions c) as [regs|]; [|discriminate].
    destruct (0 <? length regs)%nat; injection H1 as <-.
    + clear H2. revert acc Hnd. induction regs as [|r regs IHr]; intros [control sr] Hnd; simpl.
      * exact Hnd.
      * apply IHr. simpl. apply dict_set_nodup. exact Hnd.
    + simpl. apply dict_set_nodup. exact Hnd.
Qed.

Lemma get_ranges_for_service_total ranges cfg :
  Forall (fun c => Regions c <> None) (Services cfg) ->
  Forall (fun c => hyphen_free (Name c)) (Services cfg) ->
  Forall (fun p => hyphen_free (service p)) (prefixes ranges ++ ipv6_prefixes ranges)%list ->
  Forall (fun p => valid_cidr V4 (ip_prefix p)) (prefixes ranges) ->
  Forall (fun p => valid_cidr V6 (ip_prefix p)) (ipv6_prefixes ranges) ->
  exists out, get_ranges_for_service ranges cfg = Ok out.
Proof.
  intros Hreg Hcs Hfeed Hv4 Hv6. unfold get_ranges_for_service.
  destruct (register_loop_total (Services cfg) (∅, []) Hreg) as [[control sr0] E0].
  rewrite E0. simpl. pose proof (register_loop_Ok _ _ _ E0) as (R1 & R2 & R3). simpl in *.
  assert (forall k, is_Some (control !! k) <-> In k (lookup_keys (Services cfg))) as Hc.
  { intros k. rewrite R1, lookup_empty. split; [intros [[? [=]]|?]; assumption|auto]. }
  apply Forall_app in Hfeed as [Hf4 Hf6].
  destruct (feed_loop_total V4 control (prefixes ranges) sr0) as [sr1 E1].
  { intros p Hp Hs. apply R2. right.
    apply (selected_configured _ control p Hc Hcs); [|exact Hs].
    exact (proj1 (List.Forall_forall _ _) Hf4 p Hp). }
  rewrite E1. simpl. pose proof (feed_loop_Ok _ _ _ _ _ E1) as [K1 L1].
  destruct (feed_loop_total V6 control (ipv6_prefixes ranges) sr1) as [sr2 E2].
  { intros p Hp Hs. rewrite K1. apply R2. right.
    apply (selected_configured _ control p Hc Hcs); [|exact Hs].
    exact (proj1 (List.Forall_forall _ _) Hf6 p Hp). }
  rewrite E2. simpl. pose proof (feed_loop_Ok _ _ _ _ _ E2) as [K2 L2].
  apply sort_ranges_total. apply List.Forall_forall. intros [name r2] Hin. simpl.
  assert (exists r2', Dict.get sr2 name = Some r2') as [r2' G2].
  { destruct (Dict.get sr2 name) eqn:G; [eauto|]. apply dict_get_None in G.
    exfalso. apply G. apply (in_map fst) in Hin. exact Hin. }
  assert (forall n rr, Dict.get sr2 n = Some rr ->
            Forall (valid_cidr V4) (ip_list (ipv4 rr))
            /\ Forall (valid_cidr V6) (ip_list (ipv6 rr))) as Hall.
  { intros n rr G.
    assert (In n (Dict.keys sr0)) as Hn.
    { rewrite <- K1, <- K2. apply dict_get_In in G. apply (in_map fst) in G. exact G. }
    destruct (Dict.get sr0 n) as [r0|] eqn:G0; [|apply dict_get_None in G0; contradiction].
    destruct (R3 n r0 G0) as [[=]| ->].
    destruct (L1 n _ G0) as (r1 & G1 & A1 & C1 & O1).
    destruct (L2 n _ G1) as (rx & Gx & A2 & C2 & O2).
    assert (rx = rr) as -> by congruence. simpl in *. rewrite O2, A1, A2. simpl. split.
    - apply List.Forall_forall. intros x Hx. apply attributed_In in Hx as (p & Hp & _ & _ & <-).
      exact (proj1 (List.Forall_forall _ _) Hv4 p Hp).
    - rewrite O1. simpl. apply List.Forall_forall. intros x Hx.
      apply attributed_In in Hx as (p & Hp & _ & _ & <-).
      exact (proj1 (List.Forall_forall _ _) Hv6 p Hp). }
  apply (Hall name). apply dict_In_get; [|exact Hin].
  rewrite K2, K1. exact (register_loop_nodup _ _ _ E0 ltac:(constructor)).
Qed.

(** ** Runs against the backend *)

Lemma add_events_nil st : add_events st [] = st.
Proof. destruct st. unfold add_events. simpl. rewrite app_nil_r. reflexivity. Qed.

Lemma add_events_app st evs1 evs2 :
  add_events (add_events st evs1) evs2 = add_events st (evs1 ++ evs2).
Proof. unfold add_events. simpl. rewrite app_assoc. reflexivity. Qed.

Lemma trace_add_events st evs : trace (add_events st evs) = (trace st ++ evs)%list.
Proof. reflexivity. Qed.

Lemma bind_inv {A B} (m : M A) (k : A -> M B) st r st' :
  bind m k st = (r, st') ->
  (exists a st1, m st = (Ok a, st1) /\ k a st1 = (r, st'))
  \/ (exists e, m st = (Raise e, st') /\ r = Raise e)
  \/ (m st = (OutOfFuel, st') /\ r = OutOfFuel).
Proof.
  unfold bind. destruct (m st) as [[a|e|] st1]; [eauto| |].
  - intros [= <- <-]. right. left. eauto.
  - intros [= <- <-]. right. right. eauto.
Qed.

Lemma bind_Ok {A B} (m : M A) (k : A -> M B) st a st1 :
  m st = (Ok a, st1) -> bind m k st = k a st1.
Proof. unfold bind. intros ->. reflexivity. Qed.

Lemma bind_Raise {A B} (m : M A) (k : A -> M B) st e st1 :
  m st = (Raise e, st1) -> bind m k st = (Raise e, st1).
Proof. unfold bind. intros ->. reflexivity. Qed.

Lemma bind_OutOfFuel {A B} (m : M A) (k : A -> M B) st st1 :
  m st = (OutOfFuel, st1) -> bind m k st = (OutOfFuel, st1).
Proof. unfold bind. intros ->. reflexivity. Qed.

Lemma record_spec e st : record e st = (Ok tt, add_events st [e]).
Proof. reflexivity. Qed.

Section ClientFacts.
Variable client : Backend.

Lemma call_spec c st :
  call client c st =
    (match client (trace st) c with Returns resp => Ok resp | Throws e => Raise e end,
     add_events st [EvCall c (client (trace st) c)]).
Proof. unfold call. rewrite record_spec. destruct (client (trace st) c); reflexivity. Qed.

Lemma get_prefix_list_by_id_spec prefix_list_id st :
  get_prefix_list_by_id client prefix_list_id st =
    (observed (client (trace st) (describe_by_id prefix_list_id)),
     add_events st [EvCall (describe_by_id prefix_list_id)
                      (client (trace st) (describe_by_id prefix_list_id))]).
Proof.
  unfold get_prefix_list_by_id, bind. rewrite call_spec. fold (describe_by_id prefix_list_id).
  destruct (client (trace st) (describe_by_id prefix_list_id)) as [[]|]; try reflexivity.
  simpl. destruct PrefixLists; reflexivity.
Qed.

(** A polling loop adds its rounds to the trace and nothing else. *)
Lemma wait_prefix_list_spec counts prefix_list_id complete msg : forall st res st',
  wait_prefix_list client counts prefix_list_id complete msg st = (res, st') ->
  exists evs, st' = add_events st evs
              /\ waited prefix_list_id complete msg counts evs res.
Proof.
  induction counts as [|count counts IH]; intros st res st'; simpl.
  - intros [= <- <-]. exists []. rewrite add_events_nil. split; [reflexivity|constructor].
  - unfold bind at 1. unfold sleep. rewrite record_spec.
    unfold bind at 1. rewrite get_prefix_list_by_id_spec.
    set (r := client (trace (add_events st [EvSleep (count + (count + 1))]))
                (describe_by_id prefix_list_id)).
    rewrite add_events_app. simpl.
    destruct (observed r) as [pl|e|] eqn:Hobs.
    + destruct (bool_decide (State pl ∈ complete)) eqn:Hc.
      * intros [= <- <-]. eexists. split; [reflexivity|].
        apply (waited_done _ _ _ count counts r pl Hobs). apply bool_decide_eq_true in Hc. exact Hc.
      * intros Hrest. apply IH in Hrest as (evs & -> & Hw).
        exists (poll count prefix_list_id r ++ evs)%list. rewrite add_events_app. split; [reflexivity|].
        apply waited_again with (prefix_list := pl); [exact Hobs| |exact Hw].
        apply bool_decide_eq_false in Hc. exact Hc.
    + intros [= <- <-]. eexists. split; [reflexivity|].
      apply (waited_failed _ _ _ count counts r e Hobs).
    + exfalso. destruct r as [[]|]; simpl in Hobs; try discriminate.
      destruct PrefixLists; discriminate.
Qed.

End ClientFacts.

Lemma sleeps_poll count id r evs :
  sleeps (poll count id r ++ evs) = (count + (count + 1)) :: sleeps evs.
Proof. reflexivity. Qed.

Lemma calls_poll count id r evs :
  calls (poll count id r ++ evs) = describe_by_id id :: calls evs.
Proof. reflexivity. Qed.

Lemma observed_states_poll count id r evs :
  observed_states (poll count id r ++ evs) =
    match observed r with
    | Ok pl => State pl :: observed_states evs
    | _ => observed_states evs
    end.
Proof. unfold observed_states, poll, describe_by_id. simpl. destruct (observed r); reflexivity. Qed.

Lemma waited_rounds prefix_list_id complete msg counts evs res :
  waited prefix_list_id complete msg counts evs res ->
  exists k, (k <= length counts)%nat
    /\ sleeps evs = take k (map (fun c => c + (c + 1)) counts)
    /\ calls evs = replicate k (describe_by_id prefix_list_id)
    /\ wait_outcome complete msg (length counts) evs res.
Proof.
  induction 1 as [|count counts r pl Hobs Hc|count counts r pl evs res Hobs Hc Hw IH
                  |count counts r e Hobs].
  - exists 0%nat. repeat split; [simpl; lia|]. right. left. repeat split. constructor.
  - exists 1%nat. rewrite <- (app_nil_r (poll count prefix_list_id r)).
    rewrite sleeps_poll, calls_poll. repeat split; [simpl; lia|].
    left. exists pl, []. rewrite observed_states_poll, Hobs. repeat split; auto.
  - destruct IH as (k & Hk & Hs & Hcalls & Hout).
    exists (S k). rewrite sleeps_poll, calls_poll.
    split; [simpl; lia|]. split; [simpl; f_equal; exact Hs|].
    split; [simpl; f_equal; exact Hcalls|].
    unfold wait_outcome. rewrite observed_states_poll, Hobs.
    destruct Hout as [(pl' & earlier & -> & Hin & He & Hall)
                     |[(-> & Hlen & Hall)|(r' & e' & c' & Hlast & Hr' & -> & Hall)]].
    + left. exists pl', (State pl :: earlier). rewrite He. repeat split; auto.
    + right. left. simpl. repeat split; auto.
    + right. right. exists r', e', c'. repeat split; auto.
      rewrite last_app, Hlast. reflexivity.
  - exists 1%nat. rewrite <- (app_nil_r (poll count prefix_list_id r)).
    rewrite sleeps_poll, calls_poll. repeat split; [simpl; lia|].
    right. right. exists r, e, (describe_by_id prefix_list_id).
    rewrite observed_states_poll, Hobs. repeat split; auto.
Qed.

(** ** The batch loops *)

Section BatchFacts.
Variable client : Backend.

Lemma call_reply c st :
  call client c st =
    (reply_result (client (trace st) c), add_events st [EvCall c (client (trace st) c)]).
Proof. rewrite call_spec. destruct (client (trace st) c); reflexivity. Qed.

Lemma call_prefix_list_spec c st :
  bind (call client c) (as_prefix_list) st =
    (chk_prefix_list (client (trace st) c),
     add_events st [EvCall c (client (trace st) c)]).
Proof.
  unfold bind. rewrite call_spec. destruct (client (trace st) c) as [[]|]; reflexivity.
Qed.

Lemma waited_not_out_of_fuel prefix_list_id complete msg counts evs res :
  waited prefix_list_id complete msg counts evs res -> res <> OutOfFuel.
Proof. induction 1; congruence. Qed.

Lemma wait_then_modify_spec inprogress complete msg mk prefix_list st res st' :
  wait_then_modify client inprogress complete msg mk (RPrefixList prefix_list) st
    = (res, st') ->
  batch_run client inprogress complete msg mk prefix_list st res st'.
Proof.
  unfold wait_then_modify, batch_run. unfold bind at 1. cbn [as_prefix_list ret].
  intros H.
  destruct (bool_decide (State prefix_list ∈ inprogress)).
  - apply bind_inv in H as [(pl' & st1 & Hw & Hc)|[(e & Hw & ->)|[Hw ->]]].
    + apply wait_prefix_list_spec in Hw as (polls & -> & Hw). exists polls, (Ok pl').
      split; [exact Hw|].
      rewrite call_reply, add_events_app in Hc. injection Hc as <- <-. auto.
    + apply wait_prefix_list_spec in Hw as (polls & -> & Hw). exists polls, (Raise e). auto.
    + apply wait_prefix_list_spec in Hw as (polls & -> & Hw). exfalso.
      apply waited_not_out_of_fuel in Hw. congruence.
  - exists [], (Ok prefix_list). split; [auto|].
    unfold bind at 1 in H. cbn [ret] in H.
    rewrite call_reply in H. injection H as <- <-.
    rewrite app_nil_r. auto.
Qed.

Lemma wait_then_modify_no_prefix_list inprogress complete msg mk response st :
  (forall prefix_list, response <> RPrefixList prefix_list) ->
  wait_then_modify client inprogress complete msg mk response st = (Raise KeyError, st).
Proof.
  intros H. unfold wait_then_modify, bind.
  destruct response; try reflexivity. exfalso. eapply H. reflexivity.
Qed.

Lemma update_batch_spec entries_to_add entries_to_remove prefix_list index st res st' :
  update_batch client entries_to_add entries_to_remove (RPrefixList prefix_list) index st
    = (res, st') ->
  batch_run client ["modify-in-progress"] ["modify-complete"] update_wait_msg
    (update_call entries_to_add entries_to_remove index) prefix_list st res st'.
Proof. apply wait_then_modify_spec. Qed.

Lemma create_batch_spec prefix_list_entries prefix_list index st res st' :
  create_batch client prefix_list_entries (RPrefixList prefix_list) index st = (res, st') ->
  batch_run client ["create-in-progress"; "modify-in-progress"]
    ["create-complete"; "modify-complete"] create_wait_msg
    (create_call prefix_list_entries index) prefix_list st res st'.
Proof. apply wait_then_modify_spec. Qed.

Lemma mfoldl_app {A B} (f : A -> B -> M A) a l1 l2 :
  forall st, mfoldl f a (l1 ++ l2) st = bind (mfoldl f a l1) (fun a' => mfoldl f a' l2) st.
Proof.
  revert a. induction l1 as [|x l1 IH]; intros a st; simpl.
  - reflexivity.
  - unfold bind. destruct (f a x st) as [[a'| |] st1]; try reflexivity.
    rewrite IH. reflexivity.
Qed.

(** A loop raises exactly when one of its rounds does: the rounds before
    it returned, and the store is the one that round left. *)
Lemma mfoldl_Raise {A B} (f : A -> B -> M A) l : forall a st e st',
  mfoldl f a l st = (Raise e, st') <->
  exists l1 x l2 a1 st1,
    l = (l1 ++ x :: l2)%list
    /\ mfoldl f a l1 st = (Ok a1, st1)
    /\ f a1 x st1 = (Raise e, st').
Proof.
  induction l as [|x l IH]; intros a st e st'; simpl.
  - split; [discriminate|]. intros (l1 & y & l2 & ? & ? & H & _).
    destruct l1; discriminate.
  - split.
    + intros H. apply bind_inv in H as [(a1 & st1 & Hf & Hr)|[(e' & Hf & [= ->])|[_ [=]]]].
      * apply IH in Hr as (l1 & y & l2 & a2 & st2 & -> & Hl & Hy).
        exists (x :: l1), y, l2, a2, st2. split; [reflexivity|]. split; [|exact Hy].
        simpl. unfold bind. rewrite Hf. exact Hl.
      * exists [], x, l, a, st. auto.
    + intros (l1 & y & l2 & a1 & st1 & Heq & Hl & Hy).
      destruct l1 as [|z l1]; simpl in Heq; injection Heq as -> ->.
      * simpl in Hl. injection Hl as -> ->. unfold bind. rewrite Hy. reflexivity.
      * simpl in Hl. apply bind_inv in Hl as [(a2 & st2 & Hf & Hr)|[(e' & _ & [=])|[_ [=]]]].
        unfold bind. rewrite Hf. apply IH. exists l1, y, l2, a1, st1. auto.
Qed.

End BatchFacts.
Section Polling.
Variable client : Backend.

Lemma waited_bounded prefix_list_id complete msg polls wres :
  waited prefix_list_id complete msg (py_range 0 5 1) polls wres ->
  bounded_polling prefix_list_id complete msg polls wres.
Proof.
  intros H. apply waited_rounds in H as (k & Hk & Hs & Hc & Ho).
  exists k. auto.
Qed.

Lemma batch_run_polled inprogress complete msg mk prefix_list st res st' :
  State prefix_list ∈ inprogress ->
  batch_run client inprogress complete msg mk prefix_list st res st' ->
  batch_polled client complete msg mk prefix_list st res st'.
Proof.
  intros Hin (polls & wres & Hw & Hres). rewrite bool_decide_eq_true_2 in Hw by exact Hin.
  exists polls, wres. split; [apply waited_bounded; exact Hw|].
  destruct wres; eauto.
Qed.

Lemma apply_prefix_list_delta_loop_raises prefix_list_name prefix_list address_list
    entries_to_add entries_to_remove st version st1 response e st2 :
  ensure_capacity client prefix_list_name prefix_list address_list entries_to_add st
    = (Ok version, st1) ->
  client (trace st1) (first_update_call prefix_list_name prefix_list version
                        entries_to_add entries_to_remove) = Returns response ->
  mfoldl (update_batch client entries_to_add entries_to_remove) response
    (update_indexes entries_to_add entries_to_remove)
    (add_events st1 [EvCall (first_update_call prefix_list_name prefix_list version
                               entries_to_add entries_to_remove) (Returns response)])
    = (Raise e, st2) ->
  apply_prefix_list_delta client prefix_list_name prefix_list address_list
    entries_to_add entries_to_remove st = (Raise e, st2).
Proof.
  intros Hcap Hreply Hloop. unfold apply_prefix_list_delta.
  cbv zeta. rewrite (bind_Ok _ _ _ _ _ Hcap).
  unfold bind at 1. fold (first_update_call prefix_list_name prefix_list version
                            entries_to_add entries_to_remove).
  rewrite call_reply, Hreply. cbn [reply_result].
  fold (update_indexes entries_to_add entries_to_remove).
  unfold bind at 1. rewrite Hloop. reflexivity.
Qed.

Lemma create_prefix_list_loop_raises prefix_list_name prefix_list_ip_version address_list
    st response e st2 :
  client (trace st) (first_create_call prefix_list_name prefix_list_ip_version address_list)
    = Returns response ->
  mfoldl (create_batch client (created_entries address_list)) response
    (create_indexes address_list)
    (add_events st [EvCall (first_create_call prefix_list_name prefix_list_ip_version
                              address_list) (Returns response)])
    = (Raise e, st2) ->
  create_prefix_list client prefix_list_name prefix_list_ip_version address_list st
    = (Raise e, st2).
Proof.
  intros Hreply Hloop. unfold create_prefix_list. cbv zeta.
  fold (created_entries address_list).
  fold (first_create_call prefix_list_name prefix_list_ip_version address_list).
  unfold bind at 1. rewrite call_reply, Hreply. cbn [reply_result].
  fold (create_indexes address_list).
  unfold bind at 1. rewrite Hloop. reflexivity.
Qed.

End Polling.

(** ** The calls of a run *)

Lemma calls_app evs1 evs2 : calls (evs1 ++ evs2) = (calls evs1 ++ calls evs2)%list.
Proof. unfold calls. apply omap_app. Qed.

Lemma observed_states_app evs1 evs2 :
  observed_states (evs1 ++ evs2) = (observed_states evs1 ++ observed_states evs2)%list.
Proof. unfold observed_states. apply omap_app. Qed.

Section Emits.
Variable client : Backend.
Variable P : Call -> Prop.

Lemma emits_nothing {A} (m : M A) :
  (forall st, snd (m st) = st) -> emits P m.
Proof.
  intros H st res st' Hm. exists []. specialize (H st). rewrite Hm in H. simpl in H.
  subst st'. rewrite app_nil_r. auto.
Qed.

Lemma emits_ret {A} (a : A) : emits P (ret a).
Proof. apply emits_nothing. reflexivity. Qed.

Lemma emits_raise {A} e : emits P (@raise A e).
Proof. apply emits_nothing. reflexivity. Qed.

Lemma emits_lift {A} (r : result A) : emits P (lift r).
Proof. apply emits_nothing. intros st. destruct r; reflexivity. Qed.

Lemma emits_bind {A B} (m : M A) (k : A -> M B) :
  emits P m -> (forall a, emits P (k a)) -> emits P (bind m k).
Proof.
  intros Hm Hk st res st' H.
  apply bind_inv in H as [(a & st1 & H1 & H2)|[(e & H1 & _)|[H1 _]]]; eauto.
  apply Hm in H1 as (evs1 & Ht1 & HP1). apply Hk in H2 as (evs2 & Ht2 & HP2).
  exists (evs1 ++ evs2)%list. rewrite Ht2, Ht1, app_assoc, calls_app.
  split; [reflexivity|]. apply List.Forall_app. auto.
Qed.

Lemma emits_call c : P c -> emits P (call client c).
Proof.
  intros Hc st res st'. rewrite call_reply. intros [= _ <-].
  exists [EvCall c (client (trace st) c)]. simpl. auto.
Qed.

Lemma emits_sleep s : emits P (sleep s).
Proof.
  intros st res st'. unfold sleep. rewrite record_spec. intros [= _ <-].
  exists [EvSleep s]. simpl. auto.
Qed.

Lemma emits_mfoldl {A B} (f : A -> B -> M A) l :
  (forall a x, emits P (f a x)) -> forall a, emits P (mfoldl f a l).
Proof.
  intros Hf. induction l as [|x l IH]; intros a; simpl.
  - apply emits_ret.
  - apply emits_bind; auto.
Qed.

Lemma emits_as_prefix_list r : emits P (as_prefix_list r).
Proof. apply emits_nothing. intros st. destruct r; reflexivity. Qed.

Lemma emits_as_prefix_lists r : emits P (as_prefix_lists r).
Proof. apply emits_nothing. intros st. destruct r; reflexivity. Qed.

Lemma emits_as_entries r : emits P (as_entries r).
Proof. apply emits_nothing. intros st. destruct r; reflexivity. Qed.

Lemma emits_get_prefix_list_by_id prefix_list_id :
  P (describe_by_id prefix_list_id) -> emits P (get_prefix_list_by_id client prefix_list_id).
Proof.
  intros HP. unfold get_prefix_list_by_id.
  apply emits_bind; [apply emits_call; exact HP|]. intros r.
  apply emits_bind; [apply emits_as_prefix_lists|]. intros [[|pl l] t]; simpl.
  - apply emits_raise.
  - apply emits_ret.
Qed.

Lemma emits_wait_prefix_list counts prefix_list_id complete msg :
  P (describe_by_id prefix_list_id) ->
  emits P (wait_prefix_list client counts prefix_list_id complete msg).
Proof.
  intros HP. induction counts as [|count counts IH]; simpl.
  - apply emits_raise.
  - apply emits_bind; [apply emits_sleep|]. intros _.
    apply emits_bind; [apply emits_get_prefix_list_by_id; exact HP|]. intros pl.
    destruct (bool_decide _); [apply emits_ret|exact IH].
Qed.

End Emits.

(** ** The capacity change and the content calls *)

Section UpdateFacts.
Variable client : Backend.

Lemma waited_calls prefix_list_id complete msg counts evs res :
  waited prefix_list_id complete msg counts evs res ->
  Forall (fun c => c = describe_by_id prefix_list_id) (calls evs).
Proof.
  intros H. apply waited_rounds in H as (k & _ & _ & -> & _).
  apply Forall_replicate. reflexivity.
Qed.

Lemma waited_Ok prefix_list_id complete msg counts evs prefix_list :
  waited prefix_list_id complete msg counts evs (Ok prefix_list) ->
  exists earlier,
    State prefix_list ∈ complete
    /\ observed_states evs = (earlier ++ [State prefix_list])%list.
Proof.
  intros H. apply waited_rounds in H as (k & _ & _ & _ & Ho).
  destruct Ho as [(pl & earlier & [= <-] & Hin & Hobs & _)|[[[=] _]|(r & e & c & _ & _ & [=] & _)]].
  eauto.
Qed.

Lemma resize_prefix_list_spec prefix_list_name prefix_list_id n st res st' :
  resize_prefix_list client prefix_list_name prefix_list_id n st = (res, st') ->
  let c := modify_managed_prefix_list prefix_list_id None prefix_list_name (Some n)
             None None in
  exists polls,
    st' = add_events st (EvCall c (client (trace st) c) :: polls)
    /\ Forall (fun c' => c' = describe_by_id prefix_list_id) (calls polls)
    /\ match res with
       | Ok version => resize_completed (client (trace st) c) polls version
       | Raise _ => True
       | OutOfFuel => False
       end.
Proof.
  intros H c. unfold resize_prefix_list in H. fold c in H.
  unfold bind at 1 in H. rewrite call_reply in H.
  destruct (client (trace st) c) as [response|e] eqn:Hreply; cbn [reply_result] in H.
  2:{ injection H as <- <-. exists []. repeat split; constructor. }
  unfold bind at 1 in H.
  destruct response as [| | |prefix_list| |]; cbn [as_prefix_list ret raise] in H;
    try (injection H as <- <-; exists []; repeat split; constructor).
  destruct (StateMessage prefix_list) as [message|].
  2:{ injection H as <- <-. exists []. repeat split; constructor. }
  destruct (negb _) eqn:Hvalid.
  { injection H as <- <-. exists []. repeat split; constructor. }
  destruct (String.eqb (State prefix_list) "modify-failed") eqn:Hfailed.
  { injection H as <- <-. exists []. repeat split; constructor. }
  destruct (String.eqb (State prefix_list) "modify-in-progress") eqn:Hprogress.
  - apply String.eqb_eq in Hprogress.
    apply bind_inv in H as [(pl' & st1 & Hw & Hc)|[(e & Hw & ->)|[Hw ->]]];
      apply wait_prefix_list_spec in Hw as (polls & -> & Hw).
    + injection Hc as <- <-. exists polls. rewrite add_events_app.
      split; [reflexivity|]. split; [eapply waited_calls; exact Hw|].
      exists prefix_list. split; [reflexivity|]. split; [reflexivity|]. right.
      split; [exact Hprogress|]. apply waited_Ok in Hw as (earlier & Hin & Hobs).
      exists earlier. rewrite Hobs. apply list_elem_of_singleton in Hin. rewrite Hin.
      reflexivity.
    + exists polls. rewrite add_events_app.
      split; [reflexivity|]. split; [eapply waited_calls; exact Hw|exact I].
    + apply waited_not_out_of_fuel in Hw. congruence.
  - injection H as <- <-. exists []. split; [reflexivity|]. split; [constructor|].
    exists prefix_list. split; [reflexivity|]. split; [reflexivity|]. left.
    split; [|reflexivity].
    apply negb_false_iff, bool_decide_eq_true in Hvalid.
    apply String.eqb_neq in Hfailed, Hprogress.
    apply elem_of_cons in Hvalid as [?|Hvalid]; [congruence|].
    apply elem_of_cons in Hvalid as [?|Hvalid]; [assumption|].
    apply list_elem_of_singleton in Hvalid. congruence.
Qed.

Lemma ensure_capacity_resizes prefix_list_name prefix_list address_list entries_to_add :
  entries_to_add <> [] ->
  MaxEntries prefix_list < Z.of_nat (length address_list) ->
  ensure_capacity client prefix_list_name prefix_list address_list entries_to_add
  = resize_prefix_list client prefix_list_name (PrefixListId prefix_list)
      (Z.of_nat (length address_list)).
Proof.
  intros Hadd Hmax. unfold ensure_capacity. destruct entries_to_add; [congruence|].
  apply Z.ltb_lt in Hmax. rewrite Hmax. reflexivity.
Qed.

Section EmitsUpdate.
Variable P : Call -> Prop.
Hypothesis P_describe : forall ids token, P (describe_managed_prefix_lists ids token).
Hypothesis P_entries : forall id version token,
  P (get_managed_prefix_list_entries id version token).
Hypothesis P_tags : forall ids tags, P (create_tags ids tags).
Hypothesis P_resize : forall id name n,
  P (modify_managed_prefix_list id None name (Some n) None None).

Lemma emits_get_prefix_list_entries_loop fuel prefix_list_id prefix_list_version :
  forall entries next_token,
    emits P (get_prefix_list_entries_loop client fuel prefix_list_id prefix_list_version
               entries next_token).
Proof.
  induction fuel as [|fuel IH]; intros entries [token|]; simpl;
    try apply emits_ret; try (apply emits_nothing; reflexivity).
  apply emits_bind; [apply emits_call; apply P_entries|]. intros r.
  apply emits_bind; [apply emits_as_entries|]. intros page.
  apply emits_bind; [apply emits_lift|]. intros entries'. apply IH.
Qed.

Lemma emits_get_prefix_list_entries fuel prefix_list_name prefix_list_id prefix_list_version :
  emits P (get_prefix_list_entries client fuel prefix_list_name prefix_list_id
             prefix_list_version).
Proof.
  unfold get_prefix_list_entries.
  apply emits_bind; [apply emits_call; apply P_entries|]. intros r.
  apply emits_bind; [apply emits_as_entries|]. intros page.
  apply emits_bind; [apply emits_lift|]. intros entries'.
  apply emits_get_prefix_list_entries_loop.
Qed.

Lemma emits_resize_prefix_list prefix_list_name prefix_list_id n :
  emits P (resize_prefix_list client prefix_list_name prefix_list_id n).
Proof.
  unfold resize_prefix_list.
  apply emits_bind; [apply emits_call; apply P_resize|]. intros r.
  apply emits_bind; [apply emits_as_prefix_list|]. intros pl.
  destruct (StateMessage pl); [|apply emits_raise].
  destruct (negb _); [apply emits_raise|].
  destruct (String.eqb _ _); [apply emits_raise|].
  destruct (String.eqb _ _); [|apply emits_ret].
  apply emits_bind; [|intros; apply emits_ret].
  apply emits_wait_prefix_list. apply P_describe.
Qed.

Lemma emits_ensure_capacity prefix_list_name prefix_list address_list entries_to_add :
  emits P (ensure_capacity client prefix_list_name prefix_list address_list entries_to_add).
Proof.
  unfold ensure_capacity. destruct entries_to_add; [apply emits_ret|].
  destruct (_ <? _); [apply emits_resize_prefix_list|apply emits_ret].
Qed.

Section Delta.
Variables entries_to_add entries_to_remove : list Entry.
Hypothesis P_content : forall id version name index,
  P (modify_managed_prefix_list id version name None
       (Some (slice entries_to_add index (index + 100)))
       (Some (slice entries_to_remove index (index + 100)))).

Lemma emits_update_batch response index :
  emits P (update_batch client entries_to_add entries_to_remove response index).
Proof.
  unfold update_batch.
  apply emits_bind; [apply emits_as_prefix_list|]. intros pl.
  apply emits_bind.
  - destruct (bool_decide _); [|apply emits_ret].
    apply emits_wait_prefix_list. apply P_describe.
  - intros pl'. apply emits_call. apply P_content.
Qed.

Lemma emits_content_phase prefix_list_id response :
  emits P (bind (mfoldl (update_batch client entries_to_add entries_to_remove) response
                   (update_indexes entries_to_add entries_to_remove))
             (fun _ => bind (call client (create_tags [prefix_list_id] [("UpdatedAt", TagNow)]))
                         (fun _ => ret true))).
Proof.
  apply emits_bind; [apply emits_mfoldl; intros; apply emits_update_batch|]. intros _.
  apply emits_bind; [apply emits_call; apply P_tags|]. intros _. apply emits_ret.
Qed.

Lemma emits_apply_prefix_list_delta prefix_list_name prefix_list address_list :
  emits P (apply_prefix_list_delta client prefix_list_name prefix_list address_list
             entries_to_add entries_to_remove).
Proof.
  unfold apply_prefix_list_delta. apply emits_bind; [apply emits_ensure_capacity|].
  intros v. apply emits_bind; [apply emits_call; exact (P_content _ _ _ 0)|]. intros r.
  apply emits_content_phase.
Qed.

End Delta.

Hypothesis P_modify : forall id version name adds removes,
  P (modify_managed_prefix_list id version name None adds removes).

Lemma emits_create_batch prefix_list_entries response index :
  emits P (create_batch client prefix_list_entries response index).
Proof.
  unfold create_batch.
  apply emits_bind; [apply emits_as_prefix_list|]. intros pl.
  apply emits_bind.
  - destruct (bool_decide _); [|apply emits_ret].
    apply emits_wait_prefix_list. apply P_describe.
  - intros pl'. apply emits_call. apply P_modify.
Qed.

Lemma emits_update_prefix_list fuel prefix_list_name prefix_list address_list :
  emits P (update_prefix_list client fuel prefix_list_name prefix_list address_list).
Proof.
  unfold update_prefix_list.
  apply emits_bind; [apply emits_lift|]. intros network_list.
  apply emits_bind; [apply emits_get_prefix_list_entries|]. intros current. cbv zeta.
  destruct (map _ (networks_to_add _ _)) eqn:Ha, (map _ (networks_to_remove _ _)) eqn:Hr;
    try apply emits_ret; rewrite <- ?Ha, <- ?Hr;
    apply emits_apply_prefix_list_delta; intros; apply P_modify.
Qed.

End EmitsUpdate.

Lemma update_prefix_list_delta fuel prefix_list_name prefix_list address_list network_list
    current_entries st st1 :
  rmapM ip_network address_list = Ok network_list ->
  get_prefix_list_entries client fuel prefix_list_name (PrefixListId prefix_list)
    (Version prefix_list) st = (Ok current_entries, st1) ->
  update_prefix_list client fuel prefix_list_name prefix_list address_list st =
    match entries_to_add current_entries network_list,
          entries_to_remove current_entries network_list with
    | [], [] => (Ok false, st1)
    | _, _ => apply_prefix_list_delta client prefix_list_name prefix_list address_list
                (entries_to_add current_entries network_list)
                (entries_to_remove current_entries network_list) st1
    end.
Proof.
  intros Hparse Hget. unfold update_prefix_list. rewrite Hparse.
  unfold bind at 1. cbn [lift]. unfold bind at 1. rewrite Hget.
  fold (entries_to_add current_entries network_list).
  fold (entries_to_remove current_entries network_list).
  destruct (entries_to_add _ _), (entries_to_remove _ _); reflexivity.
Qed.

Lemma apply_prefix_list_delta_resized prefix_list_name prefix_list address_list
    entries_to_add entries_to_remove st res st' :
  entries_to_add <> [] ->
  MaxEntries prefix_list < Z.of_nat (length address_list) ->
  apply_prefix_list_delta client prefix_list_name prefix_list address_list
    entries_to_add entries_to_remove st = (res, st') ->
  resized_first client prefix_list_name prefix_list address_list
    entries_to_add entries_to_remove st res st'.
Proof.
  intros Hadd Hmax H. unfold apply_prefix_list_delta in H.
  rewrite ensure_capacity_resizes in H by assumption.
  unfold resized_first.
  apply bind_inv in H as [(v & st1 & Hcap & Hrest)|[(e & Hcap & ->)|[Hcap ->]]];
    apply resize_prefix_list_spec in Hcap as (polls & Hst1 & Hpolls & Hres);
    fold (resize_call prefix_list_name prefix_list address_list) in Hst1, Hres;
    [| |contradiction].
  - unfold bind at 1 in Hrest. rewrite call_reply in Hrest.
    fold (first_update_call prefix_list_name prefix_list v entries_to_add entries_to_remove)
      in Hrest.
    destruct (client (trace st1) _) as [response|e] eqn:Hreply; cbn [reply_result] in Hrest.
    + fold (update_indexes entries_to_add entries_to_remove) in Hrest.
      apply (emits_content_phase (fun c => is_resize c = false)) in Hrest
        as (evs & Htrace & Hevs); try reflexivity.
      exists polls, (EvCall (first_update_call prefix_list_name prefix_list v
                               entries_to_add entries_to_remove) (Returns response) :: evs).
      split.
      { rewrite Htrace, Hst1. simpl. rewrite <- !app_assoc. reflexivity. }
      split; [exact Hpolls|]. right. exists v, (Returns response), evs. auto.
    + injection Hrest as <- <-.
      exists polls, [EvCall (first_update_call prefix_list_name prefix_list v
                               entries_to_add entries_to_remove) (Throws e)].
      split.
      { rewrite Hst1. simpl. rewrite <- !app_assoc. reflexivity. }
      split; [exact Hpolls|]. right. exists v, (Throws e), []. simpl. auto.
  - exists polls, []. rewrite app_nil_r. rewrite Hst1. simpl.
    split; [reflexivity|]. split; [exact Hpolls|]. left. eauto.
Qed.


End UpdateFacts.

(** ** The entries an update sends *)

Lemma added_entries_app evs1 evs2 :
  added_entries (evs1 ++ evs2) = (added_entries evs1 ++ added_entries evs2)%list.
Proof. unfold added_entries. rewrite omap_app, concat_app. reflexivity. Qed.

Lemma removed_entries_app evs1 evs2 :
  removed_entries (evs1 ++ evs2) = (removed_entries evs1 ++ removed_entries evs2)%list.
Proof. unfold removed_entries. rewrite omap_app, concat_app. reflexivity. Qed.

Lemma no_content_no_entries evs :
  Forall (fun c => is_content c = false) (calls evs) ->
  added_entries evs = [] /\ removed_entries evs = [].
Proof.
  induction evs as [|ev evs IH]; [auto|].
  destruct ev as [c r| |]; simpl; [|exact IH|exact IH].
  intros H. inversion H as [|? ? Hc Hrest]; subst. destruct (IH Hrest) as [IHa IHr].
  unfold added_entries, removed_entries in *. simpl.
  destruct c; simpl; auto.
  destruct AddEntries, RemoveEntries; try discriminate. simpl. auto.
Qed.

Lemma take_slices {A} (l : list A) (m : nat) :
  (slice l 0 100 ++
   concat (map (fun i => slice l i (i + 100))
             (map (fun k => 100 + 100 * Z.of_nat k) (seq 0 m))))%list
  = take (100 * S m) l.
Proof.
  induction m as [|m IH].
  - simpl. rewrite app_nil_r. reflexivity.
  - rewrite seq_S, !map_app, concat_app, app_assoc, IH. simpl map. simpl concat.
    rewrite app_nil_r. unfold slice.
    replace (Z.to_nat (100 + 100 * Z.of_nat m + 100 - (100 + 100 * Z.of_nat m)))
      with 100%nat by lia.
    replace (Z.to_nat (100 + 100 * Z.of_nat m)) with (100 * S m)%nat by lia.
    rewrite take_take_drop. f_equal. lia.
Qed.

Lemma slices_cover {A} (l : list A) (n : Z) :
  Z.of_nat (length l) <= n ->
  (slice l 0 100 ++ concat (map (fun i => slice l i (i + 100)) (py_range 100 n 100)))%list
  = l.
Proof.
  intros Hn. unfold py_range. rewrite take_slices. apply take_ge.
  pose proof (Z.mod_pos_bound (n - 100 + 100 - 1) 100 ltac:(lia)) as Hm.
  pose proof (Z.div_mod (n - 100 + 100 - 1) 100 ltac:(lia)) as Hd.
  revert Hm Hd. generalize ((n - 100 + 100 - 1) mod 100).
  generalize ((n - 100 + 100 - 1) / 100). intros q r Hm Hd. lia.
Qed.

Section DeltaFacts.
Variable client : Backend.
Variables adds removes : list Entry.

Lemma update_batch_Ok response index st response' st' :
  update_batch client adds removes response index st = (Ok response', st') ->
  exists evs,
    trace st' = (trace st ++ evs)%list
    /\ added_entries evs = slice adds index (index + 100)
    /\ removed_entries evs = slice removes index (index + 100).
Proof.
  intros H. destruct response as [| | |prefix_list| |];
    try (unfold update_batch, bind in H; cbn [as_prefix_list raise] in H; discriminate).
  apply update_batch_spec in H as (polls & wres & Hw & Hres).
  assert (Hq : Forall (fun c => is_content c = false) (calls polls)).
  { destruct (bool_decide _).
    - apply waited_calls in Hw. eapply Forall_impl; [exact Hw|]. intros c ->. reflexivity.
    - destruct Hw as [-> _]. constructor. }
  apply no_content_no_entries in Hq as [Ha Hr].
  destruct wres as [pl'|e|]; [|destruct Hres; discriminate|contradiction].
  destruct Hres as [-> _]. eexists. split; [reflexivity|].
  rewrite added_entries_app, removed_entries_app, Ha, Hr. simpl.
  unfold added_entries, removed_entries. simpl. rewrite !app_nil_r. auto.
Qed.

Lemma update_loop_Ok indexes : forall response st response' st',
  mfoldl (update_batch client adds removes) response indexes st = (Ok response', st') ->
  exists evs,
    trace st' = (trace st ++ evs)%list
    /\ added_entries evs = concat (map (fun i => slice adds i (i + 100)) indexes)
    /\ removed_entries evs = concat (map (fun i => slice removes i (i + 100)) indexes).
Proof.
  induction indexes as [|index indexes IH]; intros response st response' st'; simpl.
  - intros [= _ <-]. exists []. rewrite app_nil_r. auto.
  - intros H. apply bind_inv in H as [(r1 & st1 & Hb & Hl)|[(e & _ & [=])|[_ [=]]]].
    apply update_batch_Ok in Hb as (evs1 & Ht1 & Ha1 & Hr1).
    apply IH in Hl as (evs2 & Ht2 & Ha2 & Hr2).
    exists (evs1 ++ evs2)%list. rewrite Ht2, Ht1, <- app_assoc.
    split; [reflexivity|].
    rewrite added_entries_app, removed_entries_app, Ha1, Ha2, Hr1, Hr2. auto.
Qed.

Lemma apply_prefix_list_delta_Ok prefix_list_name prefix_list address_list st b st' :
  apply_prefix_list_delta client prefix_list_name prefix_list address_list adds removes st
    = (Ok b, st') ->
  b = true
  /\ exists evs,
       trace st' = (trace st ++ evs)%list
       /\ added_entries evs = adds
       /\ removed_entries evs = removes.
Proof.
  unfold apply_prefix_list_delta. intros H.
  apply bind_inv in H as [(v & st1 & Hcap & H)|[(e & _ & [=])|[_ [=]]]].
  apply (emits_ensure_capacity client (fun c => is_content c = false)) in Hcap
    as (evs0 & Ht0 & Hq); try reflexivity.
  apply no_content_no_entries in Hq as [Ha0 Hr0].
  unfold bind at 1 in H. rewrite call_reply in H.
  destruct (client (trace st1) _) as [response|e]; cbn [reply_result] in H; [|discriminate].
  apply bind_inv in H as [(r1 & st2 & Hloop & H)|[(e & _ & [=])|[_ [=]]]].
  apply update_loop_Ok in Hloop as (evs2 & Ht2 & Ha2 & Hr2).
  unfold bind at 1 in H. rewrite call_reply in H.
  destruct (client (trace st2) _) as [response2|e]; cbn [reply_result] in H; [|discriminate].
  injection H as <- <-. split; [reflexivity|].
  eexists. split.
  { cbn [add_events trace]. rewrite Ht2. cbn [add_events trace]. rewrite Ht0.
    rewrite <- !app_assoc. reflexivity. }
  rewrite !added_entries_app, !removed_entries_app, Ha0, Hr0, Ha2, Hr2.
  unfold added_entries at 1 2, removed_entries at 1 2. simpl. rewrite !app_nil_r.
  split; apply slices_cover; lia.
Qed.

End DeltaFacts.
Lemma networks_to_add_In current_entries network_list n :
  In n (networks_to_add current_entries network_list)
  <-> In n network_list /\ ~ In n (Dict.keys current_entries).
Proof.
  unfold networks_to_add. rewrite filter_In, negb_true_iff.
  rewrite <- dict_mem_true. destruct (Dict.mem current_entries n); intuition congruence.
Qed.

Lemma networks_to_remove_In current_entries network_list n :
  In n (networks_to_remove current_entries network_list)
  <-> In n (Dict.keys current_entries) /\ ~ In n network_list.
Proof.
  unfold networks_to_remove. rewrite filter_In, negb_true_iff, bool_decide_eq_false.
  rewrite list_elem_of_In. tauto.
Qed.

Section DeltaDecides.
Variable client : Backend.

Lemma update_waf_ipset_delta ipset_name ipset_scope waf_ipset address_list network_list
    current_entries st st1 :
  rmapM ip_network address_list = Ok network_list ->
  get_ip_set_entries client ipset_name ipset_scope (ipset_Id waf_ipset) st
    = (Ok current_entries, st1) ->
  update_waf_ipset client ipset_name ipset_scope waf_ipset address_list st =
    if no_delta current_entries network_list then (Ok false, st1)
    else bind (call client (waf_update_call ipset_name ipset_scope waf_ipset address_list))
           (fun _ => bind (call client (tag_resource (ipset_ARN waf_ipset)
                                          [("UpdatedAt", TagNow)]))
                       (fun _ => ret true)) st1.
Proof.
  intros Hparse Hget. unfold update_waf_ipset. rewrite Hparse.
  unfold bind at 1. cbn [lift]. unfold bind at 1. rewrite Hget. unfold no_delta.
  destruct (networks_to_add _ _), (networks_to_remove _ _); reflexivity.
Qed.

Lemma update_prefix_list_no_delta fuel prefix_list_name prefix_list address_list
    network_list current_entries st st1 :
  rmapM ip_network address_list = Ok network_list ->
  get_prefix_list_entries client fuel prefix_list_name (PrefixListId prefix_list)
    (Version prefix_list) st = (Ok current_entries, st1) ->
  update_prefix_list client fuel prefix_list_name prefix_list address_list st =
    if no_delta current_entries network_list then (Ok false, st1)
    else apply_prefix_list_delta client prefix_list_name prefix_list address_list
           (entries_to_add current_entries network_list)
           (entries_to_remove current_entries network_list) st1.
Proof.
  intros Hparse Hget. rewrite (update_prefix_list_delta _ _ _ _ _ _ _ _ _ Hparse Hget).
  unfold no_delta, entries_to_add, entries_to_remove.
  destruct (networks_to_add _ _), (networks_to_remove _ _); reflexivity.
Qed.

Lemma manage_waf_ipset_version_updates waf_ipsets service_name ipset_scope
    should_summarize ipset_names ip_version address_list waf_ipset st st0 b st1 :
  address_list_of service_name ip_version should_summarize st
    = (Ok (Some address_list), st0) ->
  waf_ipsets !! resource_name service_name ip_version = Some waf_ipset ->
  update_waf_ipset client (resource_name service_name ip_version) ipset_scope waf_ipset
    address_list st0 = (Ok b, st1) ->
  manage_waf_ipset_version client waf_ipsets service_name ipset_scope should_summarize
    ipset_names ip_version st
  = (Ok (reported ipset_names (resource_name service_name ip_version) b), st1).
Proof.
  intros Hal Hfound Hupd. unfold manage_waf_ipset_version.
  unfold bind at 1. rewrite Hal, Hfound. unfold bind at 1. rewrite Hupd.
  destruct b; reflexivity.
Qed.

Lemma manage_prefix_list_chunk_updates fuel vpc_prefix_lists ip_version
    base_prefix_list_name prefix_list_names index address_list_chunk prefix_list st b st1 :
  vpc_prefix_lists !! chunk_name base_prefix_list_name index = Some prefix_list ->
  update_prefix_list client fuel (chunk_name base_prefix_list_name index) prefix_list
    address_list_chunk st = (Ok b, st1) ->
  manage_prefix_list_chunk client fuel vpc_prefix_lists ip_version base_prefix_list_name
    prefix_list_names (index, address_list_chunk) st
  = (Ok (reported prefix_list_names (chunk_name base_prefix_list_name index) b), st1).
Proof.
  intros Hfound Hupd. unfold manage_prefix_list_chunk. rewrite Hfound.
  unfold bind at 1. rewrite Hupd. destruct b; reflexivity.
Qed.

End DeltaDecides.

(** ** Paginated listings *)

Lemma paged_head {X} mk (page_of : Response -> option (list X * option string))
    token evs items :
  paged mk page_of token evs items ->
  exists r tail, evs = EvCall (mk token) (Returns r) :: tail.
Proof. intros H. destruct H; eauto. Qed.

Lemma add_events_cons st e evs :
  add_events st (e :: evs) = add_events (add_events st [e]) evs.
Proof. rewrite add_events_app. reflexivity. Qed.

Section Pagination.
Variable client : Backend.

Lemma list_waf_ipset_loop_complete ipset_scope fuel :
  forall ipsets response st out st' token,
    list_waf_ipset_loop client fuel ipset_scope ipsets response st = (Ok out, st') ->
    exists evs items,
      st' = add_events st evs
      /\ paged (list_ip_sets ipset_scope) ip_sets_page token
           (EvCall (list_ip_sets ipset_scope token) (Returns response) :: evs) items
      /\ out = index_ip_sets ipsets items.
Proof.
  induction fuel as [|fuel IH]; intros ipsets response st out st' token; simpl;
    [discriminate|].
  unfold bind at 1.
  destruct response as [l [next|]| | | | |]; cbn [as_ip_sets ret raise fst snd];
    try discriminate.
  - unfold bind at 1. rewrite call_reply.
    destruct (client (trace st) _) as [response'|e] eqn:Hreply; cbn [reply_result];
      [|discriminate].
    intros H. apply (IH _ _ _ _ _ (Some next)) in H as (evs & items & -> & Hp & ->).
    eexists (_ :: evs), (l ++ items)%list. rewrite add_events_app.
    split; [reflexivity|]. split; [|unfold index_ip_sets; rewrite foldl_app; reflexivity].
    eapply paged_more; [reflexivity|exact Hp].
  - intros [= <- <-]. exists [], l. rewrite add_events_nil.
    split; [reflexivity|]. split; [|reflexivity]. apply paged_last. reflexivity.
Qed.

Lemma list_waf_ipset_complete fuel ipset_scope st out st' :
  list_waf_ipset client fuel ipset_scope st = (Ok out, st') ->
  exists evs items,
    st' = add_events st evs
    /\ paged (list_ip_sets ipset_scope) ip_sets_page None evs items
    /\ out = index_ip_sets ∅ items.
Proof.
  unfold list_waf_ipset. unfold bind at 1. rewrite call_reply.
  destruct (client (trace st) _) as [response|e]; cbn [reply_result]; [|discriminate].
  intros H. apply (list_waf_ipset_loop_complete _ _ _ _ _ _ _ None) in H
    as (evs & items & -> & Hp & ->).
  eexists (_ :: evs), items. rewrite add_events_app. auto.
Qed.

Lemma list_waf_ipset_loop_total ipset_scope fuel :
  forall ipsets response st token evs items,
    paged (list_ip_sets ipset_scope) ip_sets_page token
      (EvCall (list_ip_sets ipset_scope token) (Returns response) :: evs) items ->
    answered client (trace st) evs ->
    (length evs < fuel)%nat ->
    list_waf_ipset_loop client fuel ipset_scope ipsets response st
    = (Ok (index_ip_sets ipsets items), add_events st evs).
Proof.
  induction fuel as [|fuel IH]; intros ipsets response st token evs items Hp Ha Hfuel;
    [lia|].
  simpl. inversion Hp as [? ? ? Hpage|? ? l next evs' rest Hpage Hp']; subst.
  - destruct response; try discriminate. injection Hpage as -> ->.
    unfold bind at 1. cbn [as_ip_sets ret fst snd]. rewrite add_events_nil. reflexivity.
  - destruct response; try discriminate. injection Hpage as -> ->.
    unfold bind at 1. cbn [as_ip_sets ret fst snd].
    unfold bind at 1. rewrite call_reply.
    destruct (paged_head _ _ _ _ _ Hp') as (r' & tail & ->).
    destruct Ha as [Hr Ha]. rewrite <- Hr. cbn [reply_result].
    rewrite (IH _ _ (add_events st [EvCall (list_ip_sets ipset_scope (Some next))
                                      (Returns r')]) (Some next) tail rest Hp' Ha);
      [|simpl in Hfuel; lia].
    unfold index_ip_sets. rewrite foldl_app, add_events_app. reflexivity.
Qed.

Lemma list_waf_ipset_total fuel ipset_scope st evs items :
  paged (list_ip_sets ipset_scope) ip_sets_page None evs items ->
  answered client (trace st) evs ->
  (length evs <= fuel)%nat ->
  list_waf_ipset client fuel ipset_scope st
  = (Ok (index_ip_sets ∅ items), add_events st evs).
Proof.
  intros Hp Ha Hfuel. destruct (paged_head _ _ _ _ _ Hp) as (r & tail & ->).
  destruct Ha as [Hr Ha]. unfold list_waf_ipset. unfold bind at 1.
  rewrite call_reply, <- Hr. cbn [reply_result].
  rewrite (list_waf_ipset_loop_total _ _ _ _
             (add_events st [EvCall (list_ip_sets ipset_scope None) (Returns r)])
             None tail items Hp Ha);
    [|simpl in Hfuel; lia].
  rewrite add_events_app. reflexivity.
Qed.

Lemma list_prefix_lists_loop_complete fuel :
  forall prefix_lists response st out st' token,
    list_prefix_lists_loop client fuel prefix_lists response st = (Ok out, st') ->
    exists evs items,
      st' = add_events st evs
      /\ paged (describe_managed_prefix_lists None) prefix_lists_page token
           (EvCall (describe_managed_prefix_lists None token) (Returns response) :: evs)
           items
      /\ out = index_prefix_lists prefix_lists items.
Proof.
  induction fuel as [|fuel IH]; intros prefix_lists response st out st' token; simpl;
    [discriminate|].
  unfold bind at 1.
  destruct response as [| |l [next|]| | |]; cbn [as_prefix_lists ret raise fst snd];
    try discriminate.
  - unfold bind at 1. rewrite call_reply.
    destruct (client (trace st) _) as [response'|e] eqn:Hreply; cbn [reply_result];
      [|discriminate].
    intros H. apply (IH _ _ _ _ _ (Some next)) in H as (evs & items & -> & Hp & ->).
    eexists (_ :: evs), (l ++ items)%list. rewrite add_events_app.
    split; [reflexivity|].
    split; [|unfold index_prefix_lists; rewrite foldl_app; reflexivity].
    eapply paged_more; [reflexivity|exact Hp].
  - intros [= <- <-]. exists [], l. rewrite add_events_nil.
    split; [reflexivity|]. split; [|reflexivity]. apply paged_last. reflexivity.
Qed.

Lemma list_prefix_lists_complete fuel st out st' :
  list_prefix_lists client fuel st = (Ok out, st') ->
  exists evs items,
    st' = add_events st evs
    /\ paged (describe_managed_prefix_lists None) prefix_lists_page None evs items
    /\ out = index_prefix_lists ∅ items.
Proof.
  unfold list_prefix_lists. unfold bind at 1. rewrite call_reply.
  destruct (client (trace st) _) as [response|e]; cbn [reply_result]; [|discriminate].
  intros H. apply (list_prefix_lists_loop_complete _ _ _ _ _ _ None) in H
    as (evs & items & -> & Hp & ->).
  eexists (_ :: evs), items. rewrite add_events_app. auto.
Qed.

Lemma list_prefix_lists_loop_total fuel :
  forall prefix_lists response st token evs items,
    paged (describe_managed_prefix_lists None) prefix_lists_page token
      (EvCall (describe_managed_prefix_lists None token) (Returns response) :: evs) items ->
    answered client (trace st) evs ->
    (length evs < fuel)%nat ->
    list_prefix_lists_loop client fuel prefix_lists response st
    = (Ok (index_prefix_lists prefix_lists items), add_events st evs).
Proof.
  induction fuel as [|fuel IH]; intros prefix_lists response st token evs items Hp Ha Hfuel;
    [lia|].
  simpl. inversion Hp as [? ? ? Hpage|? ? l next evs' rest Hpage Hp']; subst.
  - destruct response; try discriminate. injection Hpage as -> ->.
    unfold bind at 1. cbn [as_prefix_lists ret fst snd]. rewrite add_events_nil.
    reflexivity.
  - destruct response; try discriminate. injection Hpage as -> ->.
    unfold bind at 1. cbn [as_prefix_lists ret fst snd].
    unfold bind at 1. rewrite call_reply.
    destruct (paged_head _ _ _ _ _ Hp') as (r' & tail & ->).
    destruct Ha as [Hr Ha]. rewrite <- Hr. cbn [reply_result].
    rewrite (IH _ _ (add_events st [EvCall (describe_managed_prefix_lists None (Some next))
                                      (Returns r')]) (Some next) tail rest Hp' Ha);
      [|simpl in Hfuel; lia].
    unfold index_prefix_lists. rewrite foldl_app, add_events_app. reflexivity.
Qed.

Lemma list_prefix_lists_total fuel st evs items :
  paged (describe_managed_prefix_lists None) prefix_lists_page None evs items ->
  answered client (trace st) evs ->
  (length evs <= fuel)%nat ->
  list_prefix_lists client fuel st
  = (Ok (index_prefix_lists ∅ items), add_events st evs).
Proof.
  intros Hp Ha Hfuel. destruct (paged_head _ _ _ _ _ Hp) as (r & tail & ->).
  destruct Ha as [Hr Ha]. unfold list_prefix_lists. unfold bind at 1.
  rewrite call_reply, <- Hr. cbn [reply_result].
  rewrite (list_prefix_lists_loop_total _ _ _
             (add_events st [EvCall (describe_managed_prefix_lists None None) (Returns r)])
             None tail items Hp Ha);
    [|simpl in Hfuel; lia].
  rewrite add_events_app. reflexivity.
Qed.

Lemma get_prefix_list_entries_loop_complete prefix_list_id prefix_list_version fuel :
  forall entries token st out st',
    get_prefix_list_entries_loop client fuel prefix_list_id prefix_list_version entries
      (Some token) st = (Ok out, st') ->
    exists evs items,
      st' = add_events st evs
      /\ paged (get_managed_prefix_list_entries prefix_list_id prefix_list_version)
           entries_page (Some token) evs items
      /\ add_entries entries items = Ok out.
Proof.
  induction fuel as [|fuel IH]; intros entries token st out st'; simpl; [discriminate|].
  unfold bind at 1. rewrite call_reply.
  destruct (client (trace st) _) as [response|e] eqn:Hreply; cbn [reply_result];
    [|discriminate].
  unfold bind at 1.
  destruct response as [| | | |l next|]; cbn [as_entries ret raise fst snd];
    try discriminate.
  unfold bind at 1. cbn [lift].
  destruct (add_entries entries l) as [entries'| |] eqn:Hadd; try discriminate.
  destruct next as [next|].
  - intros H. apply IH in H as (evs & items & -> & Hp & Hout).
    eexists (_ :: evs), (l ++ items)%list. rewrite add_events_app.
    split; [reflexivity|]. split; [eapply paged_more; [reflexivity|exact Hp]|].
    unfold add_entries in *. rewrite rfoldl_app, Hadd. exact Hout.
  - destruct fuel; simpl; intros [= <- <-]; eexists [_], l;
      (split; [reflexivity|]); (split; [apply paged_last; reflexivity|exact Hadd]).
Qed.

Lemma get_prefix_list_entries_complete fuel prefix_list_name prefix_list_id
    prefix_list_version st out st' :
  get_prefix_list_entries client fuel prefix_list_name prefix_list_id prefix_list_version st
    = (Ok out, st') ->
  exists evs items,
    st' = add_events st evs
    /\ paged (get_managed_prefix_list_entries prefix_list_id prefix_list_version)
         entries_page None evs items
    /\ add_entries [] items = Ok out.
Proof.
  unfold get_prefix_list_entries. unfold bind at 1. rewrite call_reply.
  destruct (client (trace st) _) as [response|e] eqn:Hreply; cbn [reply_result];
    [|discriminate].
  unfold bind at 1.
  destruct response as [| | | |l next|]; cbn [as_entries ret raise fst snd];
    try discriminate.
  unfold bind at 1. cbn [lift].
  destruct (add_entries [] l) as [entries'| |] eqn:Hadd; try discriminate.
  destruct next as [next|].
  - intros H. apply get_prefix_list_entries_loop_complete in H
      as (evs & items & -> & Hp & Hout).
    eexists (_ :: evs), (l ++ items)%list. rewrite add_events_app.
    split; [reflexivity|]. split; [eapply paged_more; [reflexivity|exact Hp]|].
    unfold add_entries in *. rewrite rfoldl_app, Hadd. exact Hout.
  - destruct fuel; simpl; intros [= <- <-]; eexists [_], l;
      (split; [reflexivity|]); (split; [apply paged_last; reflexivity|exact Hadd]).
Qed.

Lemma get_prefix_list_entries_loop_total prefix_list_id prefix_list_version fuel :
  forall entries token st evs items out,
    paged (get_managed_prefix_list_entries prefix_list_id prefix_list_version)
      entries_page (Some token) evs items ->
    answered client (trace st) evs ->
    add_entries entries items = Ok out ->
    (length evs <= fuel)%nat ->
    get_prefix_list_entries_loop client fuel prefix_list_id prefix_list_version entries
      (Some token) st = (Ok out, add_events st evs).
Proof.
  induction fuel as [|fuel IH]; intros entries token st evs items out Hp Ha Hadd Hfuel.
  { destruct Hp; simpl in Hfuel; lia. }
  simpl. unfold bind at 1. rewrite call_reply.
  inversion Hp as [? r ? Hpage|? r l next evs' rest Hpage Hp']; subst;
    destruct Ha as [Hr Ha]; rewrite <- Hr; cbn [reply_result];
    destruct r; try discriminate; injection Hpage as -> ->;
    unfold bind at 1; cbn [as_entries ret fst snd]; unfold bind at 1; cbn [lift].
  - rewrite Hadd. destruct fuel; reflexivity.
  - unfold add_entries in Hadd. rewrite rfoldl_app in Hadd.
    fold (add_entries entries l) in Hadd.
    destruct (add_entries entries l) as [entries'| |]; try discriminate.
    simpl in Hadd. rewrite (add_events_cons st _ evs').
    apply IH with (items := rest); [exact Hp'|exact Ha|exact Hadd|simpl in Hfuel; lia].
Qed.

Lemma get_prefix_list_entries_total fuel prefix_list_name prefix_list_id
    prefix_list_version st evs items out :
  paged (get_managed_prefix_list_entries prefix_list_id prefix_list_version)
    entries_page None evs items ->
  answered client (trace st) evs ->
  add_entries [] items = Ok out ->
  (length evs <= S fuel)%nat ->
  get_prefix_list_entries client fuel prefix_list_name prefix_list_id prefix_list_version st
  = (Ok out, add_events st evs).
Proof.
  intros Hp Ha Hadd Hfuel. unfold get_prefix_list_entries.
  unfold bind at 1. rewrite call_reply.
  inversion Hp as [? r ? Hpage|? r l next evs' rest Hpage Hp']; subst;
    destruct Ha as [Hr Ha]; rewrite <- Hr; cbn [reply_result];
    destruct r; try discriminate; injection Hpage as -> ->;
    unfold bind at 1; cbn [as_entries ret fst snd]; unfold bind at 1; cbn [lift].
  - rewrite Hadd. destruct fuel; reflexivity.
  - unfold add_entries in Hadd. rewrite rfoldl_app in Hadd.
    fold (add_entries [] l) in Hadd.
    destruct (add_entries [] l) as [entries'| |]; try discriminate.
    simpl in Hadd. rewrite (add_events_cons st _ evs').
    apply get_prefix_list_entries_loop_total with (items := rest);
      [exact Hp'|exact Ha|exact Hadd|simpl in Hfuel; lia].
Qed.

Lemma get_ip_set_entries_complete ipset_name ipset_scope ipset_id st out st' :
  get_ip_set_entries client ipset_name ipset_scope ipset_id st = (Ok out, st') ->
  exists addresses,
    st' = add_events st [EvCall (get_ip_set ipset_name ipset_scope ipset_id)
                           (Returns (RIPSet addresses))]
    /\ client (trace st) (get_ip_set ipset_name ipset_scope ipset_id)
       = Returns (RIPSet addresses)
    /\ read_addresses addresses = Ok out.
Proof.
  unfold get_ip_set_entries. unfold bind at 1. rewrite call_reply.
  destruct (client (trace st) _) as [response|e] eqn:Hreply; cbn [reply_result];
    [|discriminate].
  unfold bind at 1. destruct response; cbn [as_ip_set ret raise]; try discriminate.
  unfold lift. intros [= Hout <-]. eauto.
Qed.

Lemma get_ip_set_entries_total ipset_name ipset_scope ipset_id st addresses out :
  client (trace st) (get_ip_set ipset_name ipset_scope ipset_id)
    = Returns (RIPSet addresses) ->
  read_addresses addresses = Ok out ->
  get_ip_set_entries client ipset_name ipset_scope ipset_id st
  = (Ok out, add_events st [EvCall (get_ip_set ipset_name ipset_scope ipset_id)
                              (Returns (RIPSet addresses))]).
Proof.
  intros Hreply Hread. unfold get_ip_set_entries. unfold bind at 1.
  rewrite call_reply, Hreply. cbn [reply_result]. unfold bind at 1.
  cbn [as_ip_set ret lift]. fold (read_addresses addresses). rewrite Hread. reflexivity.
Qed.

Lemma update_prefix_list_needs_entries fuel prefix_list_name prefix_list address_list
    st res st' :
  get_prefix_list_entries client fuel prefix_list_name (PrefixListId prefix_list)
    (Version prefix_list) st = (res, st') ->
  (forall current_entries, res <> Ok current_entries) ->
  exists res',
    (forall b, res' <> Ok b)
    /\ (update_prefix_list client fuel prefix_list_name prefix_list address_list st
        = (res', st')
        \/ update_prefix_list client fuel prefix_list_name prefix_list address_list st
           = (res', st)).
Proof.
  intros Hget Hres. unfold update_prefix_list. unfold bind at 1. cbn [lift].
  destruct (rmapM ip_network address_list) as [nl|e|].
  - unfold bind at 1. rewrite Hget. destruct res as [current|e|].
    + exfalso. eapply Hres. reflexivity.
    + exists (Raise e). split; [discriminate|auto].
    + exists OutOfFuel. split; [discriminate|auto].
  - exists (Raise e). split; [discriminate|auto].
  - exists OutOfFuel. split; [discriminate|auto].
Qed.

Lemma update_waf_ipset_needs_entries ipset_name ipset_scope waf_ipset address_list
    st res st' :
  get_ip_set_entries client ipset_name ipset_scope (ipset_Id waf_ipset) st = (res, st') ->
  (forall current_entries, res <> Ok current_entries) ->
  exists res',
    (forall b, res' <> Ok b)
    /\ (update_waf_ipset client ipset_name ipset_scope waf_ipset address_list st
        = (res', st')
        \/ update_waf_ipset client ipset_name ipset_scope waf_ipset address_list st
           = (res', st)).
Proof.
  intros Hget Hres. unfold update_waf_ipset. unfold bind at 1. cbn [lift].
  destruct (rmapM ip_network address_list) as [nl|e|].
  - unfold bind at 1. rewrite Hget. destruct res as [current|e|].
    + exfalso. eapply Hres. reflexivity.
    + exists (Raise e). split; [discriminate|auto].
    + exists OutOfFuel. split; [discriminate|auto].
  - exists (Raise e). split; [discriminate|auto].
  - exists OutOfFuel. split; [discriminate|auto].
Qed.

End Pagination.

(** ** Chunks *)

Lemma ceil_succ (L n : nat) :
  (0 < n)%nat -> (0 < L)%nat -> ((L + n - 1) / n = S ((L - n + n - 1) / n))%nat.
Proof.
  intros Hn HL. destruct (Nat.le_gt_cases n L) as [Hle|Hlt].
  - replace (L + n - 1)%nat with ((L - n + n - 1) + 1 * n)%nat by lia.
    rewrite Nat.div_add by lia. lia.
  - replace (L - n + n - 1)%nat with (n - 1)%nat by lia.
    rewrite (Nat.div_small (n - 1) n) by lia.
    symmetry. apply (Nat.div_unique _ _ _ (L - 1)); lia.
Qed.

Lemma batched_aux_eq {A} (n : nat) :
  (0 < n)%nat ->
  forall fuel (l : list A), (length l <= fuel)%nat ->
    batched_aux fuel n l
    = map (fun i => take n (drop (i * n) l)) (seq 0 ((length l + n - 1) / n)).
Proof.
  intros Hn. induction fuel as [|fuel IH]; intros l Hfuel.
  - destruct l; [|simpl in Hfuel; lia].
    replace ((length (@nil A) + n - 1) / n)%nat with 0%nat
      by (symmetry; apply Nat.div_small; simpl; lia).
    reflexivity.
  - destruct l as [|x l].
    + replace ((length (@nil A) + n - 1) / n)%nat with 0%nat
        by (symmetry; apply Nat.div_small; simpl; lia).
      reflexivity.
    + cbn [batched_aux]. rewrite IH by (rewrite length_drop; simpl in Hfuel |- *; lia).
      rewrite (ceil_succ (length (x :: l)) n) by (simpl; lia).
      rewrite length_drop. cbn [seq map]. f_equal.
      rewrite <- seq_shift, map_map. apply map_ext. intros i.
      rewrite drop_drop. reflexivity.
Qed.

Lemma ceil_div_nat (L n : nat) :
  (0 < n)%nat ->
  Z.of_nat ((L + n - 1) / n) = ceil_div (Z.of_nat L) (Z.of_nat n).
Proof.
  intros Hn. unfold ceil_div. rewrite Nat2Z.inj_div. f_equal. lia.
Qed.

Lemma ceil_div_spec (a b : Z) :
  0 < b -> b * (ceil_div a b - 1) < a <= b * ceil_div a b.
Proof.
  intros Hb. unfold ceil_div.
  pose proof (Z.div_mod (a + b - 1) b ltac:(lia)) as Hd.
  pose proof (Z.mod_pos_bound (a + b - 1) b Hb) as Hm.
  revert Hd Hm. generalize ((a + b - 1) / b), ((a + b - 1) mod b). intros q r Hd Hm. nia.
Qed.

Lemma batched_spec {A} (l : list A) (C : Z) :
  1 <= C ->
  exists chunks,
    batched l C = Ok chunks
    /\ Z.of_nat (length chunks) = ceil_div (Z.of_nat (length l)) C
    /\ concat chunks = l
    /\ forall (i : nat) chunk,
         chunks !! i = Some chunk ->
         chunk = take (Z.to_nat C) (drop (i * Z.to_nat C) l)
         /\ (0 < length chunk <= Z.to_nat C)%nat
         /\ (S i < length chunks -> length chunk = Z.to_nat C)%nat.
Proof.
  intros HC. unfold batched. destruct (Z.ltb_spec C 1); [lia|].
  eexists. split; [reflexivity|].
  set (n := Z.to_nat C). assert (Hn : (0 < n)%nat) by lia.
  rewrite batched_aux_eq by lia.
  set (k := ((length l + n - 1) / n)%nat).
  assert (Hk : Z.of_nat k = ceil_div (Z.of_nat (length l)) C).
  { unfold k. rewrite ceil_div_nat by lia. f_equal. lia. }
  pose proof (ceil_div_spec (Z.of_nat (length l)) C ltac:(lia)) as Hceil.
  rewrite <- Hk in Hceil.
  split; [rewrite length_map, length_seq; exact Hk|].
  split.
  - assert (Hgen : forall m, concat (map (fun i => take n (drop (i * n) l)) (seq 0 m))
                             = take (m * n) l).
    { induction m as [|m IH]; [reflexivity|].
      rewrite seq_S, map_app, concat_app, IH. simpl. rewrite app_nil_r.
      rewrite take_take_drop. f_equal. lia. }
    rewrite Hgen. apply take_ge. nia.
  - intros i chunk Hi. rewrite list_lookup_fmap in Hi.
    destruct (seq 0 k !! i) as [j|] eqn:Hj; [|discriminate].
    apply lookup_seq in Hj as [-> Hik]. injection Hi as <-. simpl.
    split; [reflexivity|]. rewrite length_take, length_drop, length_map, length_seq.
    split; [nia|]. intros HS. nia.
Qed.

Section Chunks.
Variable client : Backend.

Lemma manage_prefix_list_chunk_handled fuel vpc_prefix_lists ip_version
    base_prefix_list_name prefix_list_names index address_list_chunk st :
  manage_prefix_list_chunk client fuel vpc_prefix_lists ip_version base_prefix_list_name
    prefix_list_names (index, address_list_chunk) st
  = chunk_handled client fuel vpc_prefix_lists ip_version
      (chunk_name base_prefix_list_name index) prefix_list_names address_list_chunk st.
Proof.
  unfold manage_prefix_list_chunk, chunk_handled.
  destruct (vpc_prefix_lists !! _); [|reflexivity].
  unfold bind. destruct (update_prefix_list _ _ _ _ _ _) as [[[]| |] st']; reflexivity.
Qed.

End Chunks.

(** ** What a computation leaves as it is *)

Lemma summarized_of_spec service_name v st res st' :
  summarized_of service_name v st = (res, st') ->
  match Dict.get (service_ranges st) service_name with
  | None => res = Raise KeyError /\ st' = st
  | Some r =>
      match summarized v (range_of v r) with
      | Ok (out, self') =>
          res = Ok out
          /\ st' = mkStore (trace st)
                     (Dict.set (service_ranges st) service_name (with_range v r self'))
                     (vpc_prefix_lists st) (waf_ipsets_by_scope st) (resource_names st)
      | Raise e => res = Raise e /\ st' = st
      | OutOfFuel => res = OutOfFuel /\ st' = st
      end
  end.
Proof.
  unfold summarized_of. unfold bind at 1. cbn [get_store].
  destruct (Dict.get (service_ranges st) service_name) as [r|]; [|intros [= <- <-]; auto].
  unfold bind at 1. cbn [lift].
  replace (match v with
           | V4 => IPv4List_summarized (range_of v r)
           | V6 => IPv6List_summarized (range_of v r)
           end) with (summarized v (range_of v r)) by (destruct v; reflexivity).
  destruct (summarized v (range_of v r)) as [[out self']|e|]; intros [= <- <-]; auto.
Qed.

Section Respects.
Variable R : Store -> Store -> Prop.
Hypothesis R_refl : forall st, R st st.
Hypothesis R_trans : forall st1 st2 st3, R st1 st2 -> R st2 st3 -> R st1 st3.
Hypothesis R_record : forall st e, R st (snd (record e st)).

Lemma respects_ret {A} (a : A) : respects R (ret a).
Proof. intros st res st' [= _ <-]. apply R_refl. Qed.

Lemma respects_raise {A} e : respects R (@raise A e).
Proof. intros st res st' [= _ <-]. apply R_refl. Qed.

Lemma respects_out_of_fuel {A} : respects R (@out_of_fuel A).
Proof. intros st res st' [= _ <-]. apply R_refl. Qed.

Lemma respects_lift {A} (r : result A) : respects R (lift r).
Proof. intros st res st' [= _ <-]. apply R_refl. Qed.

Lemma respects_get_store : respects R get_store.
Proof. intros st res st' [= _ <-]. apply R_refl. Qed.

Lemma respects_record e : respects R (record e).
Proof. intros st res st' H. pose proof (R_record st e) as HR. rewrite H in HR. exact HR. Qed.

Lemma respects_bind {A B} (m : M A) (k : A -> M B) :
  respects R m -> (forall a, respects R (k a)) -> respects R (bind m k).
Proof.
  intros Hm Hk st res st' H.
  apply bind_inv in H as [(a & st1 & H1 & H2)|[(e & H1 & _)|[H1 _]]].
  - exact (R_trans _ _ _ (Hm _ _ _ H1) (Hk _ _ _ _ H2)).
  - exact (Hm _ _ _ H1).
  - exact (Hm _ _ _ H1).
Qed.

Lemma respects_mfoldl {A B} (f : A -> B -> M A) l :
  (forall a x, respects R (f a x)) -> forall a, respects R (mfoldl f a l).
Proof.
  intros Hf. induction l as [|x l IH]; intros a; simpl.
  - apply respects_ret.
  - apply respects_bind; auto.
Qed.

Lemma respects_call client c : respects R (call client c).
Proof.
  intros st res st'. rewrite call_reply. intros [= _ <-].
  exact (R_record st (EvCall c (client (trace st) c))).
Qed.

Create HintDb respects discriminated.
Hint Resolve respects_ret respects_raise respects_out_of_fuel respects_lift
  respects_get_store respects_record respects_call : respects.

(** One step of a proof that a computation respects [R]: through a bind or
    a loop, or by cases on what a [match] looks at. *)
Ltac respects_step :=
  lazymatch goal with
  | |- respects _ (bind _ _) => apply respects_bind; [|intros ?]
  | |- respects _ (mfoldl _ _ _) => apply respects_mfoldl; intros ? ?
  | |- respects _ (match ?x with _ => _ end) => destruct x
  | |- respects _ _ => solve [auto with respects]
  end.

Ltac respects_all := repeat respects_step.

Variable client : Backend.

Lemma respects_wait_prefix_list counts prefix_list_id complete msg :
  respects R (wait_prefix_list client counts prefix_list_id complete msg).
Proof.
  induction counts as [|count counts IH]; simpl; [auto with respects|].
  unfold sleep, get_prefix_list_by_id, as_prefix_lists. respects_all.
Qed.
Hint Resolve respects_wait_prefix_list : respects.

Lemma respects_create_prefix_list prefix_list_name prefix_list_ip_version address_list :
  respects R (create_prefix_list client prefix_list_name prefix_list_ip_version
                address_list).
Proof. unfold create_prefix_list, create_batch, as_prefix_list. respects_all. Qed.

Lemma respects_get_prefix_list_entries_loop fuel prefix_list_id prefix_list_version :
  forall entries next_token,
    respects R (get_prefix_list_entries_loop client fuel prefix_list_id
                  prefix_list_version entries next_token).
Proof.
  induction fuel as [|fuel IH]; intros entries [token|]; simpl; auto with respects.
  unfold as_entries. respects_all.
Qed.
Hint Resolve respects_get_prefix_list_entries_loop : respects.

Lemma respects_update_prefix_list fuel prefix_list_name prefix_list address_list :
  respects R (update_prefix_list client fuel prefix_list_name prefix_list address_list).
Proof.
  unfold update_prefix_list, get_prefix_list_entries, apply_prefix_list_delta,
    ensure_capacity, resize_prefix_list, update_batch, as_entries, as_prefix_list.
  cbv zeta. respects_all.
Qed.

Lemma respects_list_prefix_lists_loop fuel : forall prefix_lists response,
  respects R (list_prefix_lists_loop client fuel prefix_lists response).
Proof.
  induction fuel as [|fuel IH]; intros prefix_lists response; simpl; auto with respects.
  unfold as_prefix_lists. respects_all.
Qed.
Hint Resolve respects_list_prefix_lists_loop : respects.

Lemma respects_list_prefix_lists fuel : respects R (list_prefix_lists client fuel).
Proof. unfold list_prefix_lists. respects_all. Qed.

Lemma respects_update_waf_ipset ipset_name ipset_scope waf_ipset address_list :
  respects R (update_waf_ipset client ipset_name ipset_scope waf_ipset address_list).
Proof. unfold update_waf_ipset, get_ip_set_entries, as_ip_set. cbv zeta. respects_all. Qed.

Lemma respects_create_waf_ipset ipset_name ipset_scope ipset_version address_list :
  respects R (create_waf_ipset client ipset_name ipset_scope ipset_version address_list).
Proof. unfold create_waf_ipset. respects_all. Qed.

Lemma respects_list_waf_ipset_loop ipset_scope fuel : forall ipsets response,
  respects R (list_waf_ipset_loop client fuel ipset_scope ipsets response).
Proof.
  induction fuel as [|fuel IH]; intros ipsets response; simpl; auto with respects.
  unfold as_ip_sets. respects_all.
Qed.
Hint Resolve respects_list_waf_ipset_loop : respects.

Lemma respects_list_waf_ipset fuel ipset_scope :
  respects R (list_waf_ipset client fuel ipset_scope).
Proof. unfold list_waf_ipset. respects_all. Qed.

Hint Resolve respects_update_prefix_list respects_create_prefix_list
  respects_list_prefix_lists respects_update_waf_ipset respects_create_waf_ipset
  respects_list_waf_ipset : respects.

Lemma respects_manage_prefix_list_chunk fuel vpc_prefix_lists ip_version
    base_prefix_list_name prefix_list_names chunk :
  respects R (manage_prefix_list_chunk client fuel vpc_prefix_lists ip_version
                base_prefix_list_name prefix_list_names chunk).
Proof. unfold manage_prefix_list_chunk. respects_all. Qed.

(** The summaries are cached in [service_ranges], and the listings in
    their two variables. *)
Hypothesis R_cache : forall st service_name r v self',
  Dict.get (service_ranges st) service_name = Some r ->
  R st (mkStore (trace st)
          (Dict.set (service_ranges st) service_name (with_range v r self'))
          (vpc_prefix_lists st) (waf_ipsets_by_scope st) (resource_names st)).
Hypothesis R_vpc_prefix_lists : forall st m, R st (snd (set_vpc_prefix_lists m st)).
Hypothesis R_waf_ipsets_by_scope : forall st m, R st (snd (set_waf_ipsets_by_scope m st)).

Lemma respects_summarized_of service_name v : respects R (summarized_of service_name v).
Proof.
  intros st res st' H. apply summarized_of_spec in H.
  destruct (Dict.get (service_ranges st) service_name) as [r|] eqn:Hg;
    [|destruct H as [_ ->]; apply R_refl].
  destruct (summarized v (range_of v r)) as [[out self']|e|];
    destruct H as [_ ->]; try apply R_refl.
  apply R_cache. exact Hg.
Qed.
Hint Resolve respects_summarized_of respects_manage_prefix_list_chunk : respects.

Lemma respects_address_list_of service_name v should_summarize :
  respects R (address_list_of service_name v should_summarize).
Proof. unfold address_list_of. respects_all. Qed.
Hint Resolve respects_address_list_of : respects.

Lemma respects_manage_prefix_list fuel vpc_prefix_lists service_name should_summarize
    chunk_size :
  respects R (manage_prefix_list client fuel vpc_prefix_lists service_name
                should_summarize chunk_size).
Proof. unfold manage_prefix_list, manage_prefix_list_version. respects_all. Qed.

Lemma respects_manage_waf_ipset waf_ipsets service_name ipset_scope should_summarize :
  respects R (manage_waf_ipset client waf_ipsets service_name ipset_scope
                should_summarize).
Proof. unfold manage_waf_ipset, manage_waf_ipset_version. respects_all. Qed.

Lemma respects_set_vpc_prefix_lists m : respects R (set_vpc_prefix_lists m).
Proof.
  intros st res st' H. pose proof (R_vpc_prefix_lists st m) as HR. rewrite H in HR. exact HR.
Qed.

Lemma respects_set_waf_ipsets_by_scope m : respects R (set_waf_ipsets_by_scope m).
Proof.
  intros st res st' H. pose proof (R_waf_ipsets_by_scope st m) as HR. rewrite H in HR.
  exact HR.
Qed.

Hint Resolve respects_manage_prefix_list respects_manage_waf_ipset
  respects_set_vpc_prefix_lists respects_set_waf_ipsets_by_scope : respects.

Lemma respects_attempt_names fuel a : respects R (attempt_names client fuel a).
Proof.
  destruct a; unfold attempt_names, managed_prefix_list_names, managed_waf_ipset_names;
    respects_all.
Qed.

End Respects.

(** ** Failure isolation *)

Lemma quiet_refl st : quiet st st.
Proof. split; reflexivity. Qed.

Lemma quiet_trans st1 st2 st3 : quiet st1 st2 -> quiet st2 st3 -> quiet st1 st3.
Proof. intros [K1 N1] [K2 N2]. split; congruence. Qed.

Lemma attempt_names_quiet client fuel a : respects quiet (attempt_names client fuel a).
Proof.
  apply respects_attempt_names.
  - apply quiet_refl.
  - apply quiet_trans.
  - intros st e. split; reflexivity.
  - intros st name r v self' Hg. split; [|reflexivity]. cbn [service_ranges].
    apply dict_keys_set_mem. apply dict_get_In in Hg. apply (in_map fst) in Hg. exact Hg.
  - intros st m. split; reflexivity.
  - intros st m. split; reflexivity.
Qed.

Section Isolation.
Variable client : Backend.
Variable fuel : nat.

Lemma settled_services a outcome st :
  Dict.keys (service_ranges (settled a outcome st)) = Dict.keys (service_ranges st).
Proof. destruct outcome; reflexivity. Qed.

Lemma isolated_services attempts st outcomes st' :
  isolated client fuel attempts st outcomes st' ->
  Dict.keys (service_ranges st') = Dict.keys (service_ranges st).
Proof.
  induction 1 as [|a attempts st outcome st1 outcomes st' Ha _ _ IH]; [reflexivity|].
  rewrite IH, settled_services. exact (proj1 (attempt_names_quiet _ _ _ _ _ _ Ha)).
Qed.

Lemma isolated_length attempts st outcomes st' :
  isolated client fuel attempts st outcomes st' -> length outcomes = length attempts.
Proof. induction 1; simpl; congruence. Qed.

Lemma isolated_app attempts1 attempts2 st outcomes1 st1 outcomes2 st2 :
  isolated client fuel attempts1 st outcomes1 st1 ->
  isolated client fuel attempts2 st1 outcomes2 st2 ->
  isolated client fuel (attempts1 ++ attempts2) st (outcomes1 ++ outcomes2) st2.
Proof.
  induction 1; intros H2; simpl; [exact H2|]. econstructor; eauto.
Qed.

Lemma collected_app attempts1 attempts2 outcomes1 outcomes2 rn :
  length outcomes1 = length attempts1 ->
  collected (attempts1 ++ attempts2) (outcomes1 ++ outcomes2) rn
  = collected attempts2 outcomes2 (collected attempts1 outcomes1 rn).
Proof.
  revert outcomes1 rn.
  induction attempts1 as [|a attempts1 IH]; intros [|outcome outcomes1] rn; simpl;
    try discriminate; [reflexivity|].
  intros [= Hlen]. destruct outcome; apply IH; exact Hlen.
Qed.

Lemma settled_names a outcome st :
  resource_names (settled a outcome st)
  = match outcome with
    | Ok names => add_names a names (resource_names st)
    | _ => resource_names st
    end.
Proof. destruct outcome; reflexivity. Qed.

(** The names in the store after the attempts are those of the attempts
    that returned. *)
Lemma isolated_collected attempts st outcomes st' :
  isolated client fuel attempts st outcomes st' ->
  resource_names st' = collected attempts outcomes (resource_names st).
Proof.
  induction 1 as [|a attempts st outcome st1 outcomes st' Ha _ _ IH]; [reflexivity|].
  rewrite IH, settled_names.
  rewrite (proj2 (attempt_names_quiet _ _ _ _ _ _ Ha)).
  destruct outcome; reflexivity.
Qed.

(** What the [try] around an attempt makes of its outcome. *)
Lemma prefix_list_attempt_isolated service_name pl_config st outcome st1 :
  attempt_names client fuel (PrefixListAttempt service_name pl_config) st = (outcome, st1) ->
  try_except (prefix_list_attempt client fuel service_name pl_config)
    (fun error => log_exception error) st
  = (match outcome with OutOfFuel => OutOfFuel | _ => Ok tt end,
     settled (PrefixListAttempt service_name pl_config) outcome st1).
Proof.
  cbn [attempt_names]. intros Ha. unfold try_except, prefix_list_attempt, bind.
  rewrite Ha. destruct outcome; reflexivity.
Qed.

Lemma waf_ipset_attempt_isolated service_name waf_config ipset_scope st outcome st1 :
  attempt_names client fuel (WafIPSetAttempt service_name waf_config ipset_scope) st
    = (outcome, st1) ->
  handle_waf_ipset_scope client fuel service_name waf_config ipset_scope st
  = (match outcome with OutOfFuel => OutOfFuel | _ => Ok tt end,
     settled (WafIPSetAttempt service_name waf_config ipset_scope) outcome st1).
Proof.
  cbn [attempt_names]. intros Ha.
  unfold handle_waf_ipset_scope, try_except, waf_ipset_attempt, bind.
  rewrite Ha. destruct outcome; reflexivity.
Qed.

Lemma handle_prefix_list_outcome config_service st res st' :
  Dict.mem (service_ranges st) (Name config_service) = true ->
  handle_prefix_list client fuel config_service st = (res, st') ->
  loop_outcome client fuel (prefix_list_keyed config_service) (prefix_list_attempts_of config_service)
    st res st'.
Proof.
  intros Hmem. unfold handle_prefix_list, prefix_list_keyed, prefix_list_attempts_of.
  unfold bind at 1. cbn [get_store]. rewrite Hmem. cbn [negb].
  destruct (PrefixList config_service) as [pl_config|].
  2:{ intros [= <- <-]. right. left. repeat split. exists []. constructor. }
  unfold bind at 1. cbn [lift].
  destruct (pl_Enable pl_config) as [[|]|]; cbn [getitem negb].
  - destruct (attempt_names client fuel (PrefixListAttempt (Name config_service) pl_config)
                st) as [outcome st1] eqn:Ha.
    rewrite (prefix_list_attempt_isolated _ _ _ _ _ Ha). intros [= <- <-].
    destruct outcome as [names|e|]; [right; left|right; left|left; reflexivity];
      (split; [reflexivity|]; split; [reflexivity|]);
      eexists [_]; (econstructor; [exact Ha|discriminate|constructor]).
  - intros [= <- <-]. right. left. repeat split. exists []. constructor.
  - intros [= <- <-]. right. right. split; reflexivity.
Qed.

Lemma scopes_outcome service_name waf_config scopes : forall st res st',
  mfoldl (fun _ ipset_scope =>
            handle_waf_ipset_scope client fuel service_name waf_config ipset_scope)
    tt scopes st = (res, st') ->
  res = OutOfFuel
  \/ (res = Ok tt
      /\ exists outcomes,
           isolated client fuel (map (WafIPSetAttempt service_name waf_config) scopes)
             st outcomes st').
Proof.
  induction scopes as [|ipset_scope scopes IH]; intros st res st'; simpl.
  - intros [= <- <-]. right. split; [reflexivity|]. exists []. constructor.
  - destruct (attempt_names client fuel
                (WafIPSetAttempt service_name waf_config ipset_scope) st)
      as [outcome st1] eqn:Ha.
    unfold bind at 1. rewrite (waf_ipset_attempt_isolated _ _ _ _ _ _ Ha).
    destruct outcome as [names|e|]; [| |intros [= <- <-]; left; reflexivity];
      (intros H; apply IH in H as [->|(-> & outcomes & Hrest)]; [left; reflexivity|];
       right; split; [reflexivity|]; eexists (_ :: outcomes);
       (econstructor; [exact Ha|discriminate|exact Hrest])).
Qed.

Lemma handle_waf_ipset_outcome config_service st res st' :
  Dict.mem (service_ranges st) (Name config_service) = true ->
  handle_waf_ipset client fuel config_service st = (res, st') ->
  loop_outcome client fuel (waf_ipset_keyed config_service) (waf_ipset_attempts_of config_service)
    st res st'.
Proof.
  intros Hmem. unfold handle_waf_ipset, waf_ipset_keyed, waf_ipset_attempts_of.
  unfold bind at 1. cbn [get_store]. rewrite Hmem. cbn [negb].
  destruct (WafIPSet config_service) as [waf_config|].
  2:{ intros [= <- <-]. right. left. repeat split. exists []. constructor. }
  unfold bind at 1. cbn [lift].
  destruct (waf_Enable waf_config) as [[|]|]; cbn [getitem negb].
  - unfold bind at 1. cbn [lift].
    destruct (waf_Scopes waf_config) as [scopes|]; cbn [getitem].
    + intros H. apply scopes_outcome in H as [->|(-> & outcomes & H)]; [left; reflexivity|].
      right. left. repeat split. exists outcomes. exact H.
    + intros [= <- <-]. right. right. split; reflexivity.
  - intros [= <- <-]. right. left. repeat split.
    destruct (waf_Scopes waf_config); exists []; constructor.
  - intros [= <- <-]. right. right. split; reflexivity.
Qed.

(** A loop of the handler over the services, for a body that behaves as
    the two above. *)
Lemma services_loop_outcome (handle : ConfigService -> M unit)
    (keyedb : ConfigService -> bool) (attempts_of : ConfigService -> list Attempt) :
  (forall config_service st res st',
      Dict.mem (service_ranges st) (Name config_service) = true ->
      handle config_service st = (res, st') ->
      loop_outcome client fuel (keyedb config_service) (attempts_of config_service) st res st') ->
  forall services st res st',
    (forall config_service, In config_service services ->
       In (Name config_service) (Dict.keys (service_ranges st))) ->
    mfoldl (fun _ config_service => handle config_service) tt services st = (res, st') ->
    loop_outcome client fuel (forallb keyedb services) (flat_map attempts_of services) st res st'.
Proof.
  intros Hhandle. induction services as [|c services IH]; intros st res st' Hin; simpl.
  - intros [= <- <-]. right. left. repeat split. exists []. constructor.
  - intros H.
    apply bind_inv in H as [([] & st1 & H1 & H)|[(e & H1 & ->)|[H1 ->]]];
      (apply Hhandle in H1; [|apply dict_mem_true, Hin; left; reflexivity]).
    + destruct H1 as [[=]|[(Hk & _ & outcomes1 & Hrun1)|(_ & [=])]].
      apply IH in H.
      2:{ intros c' Hc'. rewrite (isolated_services _ _ _ _ Hrun1). apply Hin. right.
          exact Hc'. }
      rewrite Hk. cbn [andb].
      destruct H as [->|[(Hks & -> & outcomes & Hrun)|(Hks & ->)]].
      * left. reflexivity.
      * right. left. repeat split; [exact Hks|]. exists (outcomes1 ++ outcomes)%list.
        eapply isolated_app; eassumption.
      * right. right. split; [exact Hks|reflexivity].
    + destruct H1 as [[=]|[(_ & [=] & _)|(Hk & [= ->])]].
      right. right. rewrite Hk. split; reflexivity.
    + left. reflexivity.
Qed.

End Isolation.

(** ** [lambda_handler] *)

Lemma add_names_grows a names rn a' :
  (forall n, In n (created (names_for a' rn)) ->
             In n (created (names_for a' (add_names a names rn))))
  /\ (forall n, In n (updated (names_for a' rn)) ->
                In n (updated (names_for a' (add_names a names rn)))).
Proof.
  destruct a, a'; simpl; split; intros n Hn; try exact Hn; apply in_or_app; left; exact Hn.
Qed.

Lemma collected_grows attempts : forall outcomes rn a',
  (forall n, In n (created (names_for a' rn)) ->
             In n (created (names_for a' (collected attempts outcomes rn))))
  /\ (forall n, In n (updated (names_for a' rn)) ->
                In n (updated (names_for a' (collected attempts outcomes rn)))).
Proof.
  induction attempts as [|a attempts IH]; intros [|outcome outcomes] rn a'; simpl;
    try (split; intros n Hn; exact Hn).
  destruct outcome as [names|e|]; try apply IH.
  split; intros n Hn; apply IH; apply add_names_grows; exact Hn.
Qed.

(** The names an attempt returned are among the names collected for its
    resource kind. *)
Lemma collected_reports attempts : forall outcomes rn a names,
  In (a, Ok names) (zip attempts outcomes) ->
  (forall n, In n (created names) ->
             In n (created (names_for a (collected attempts outcomes rn))))
  /\ (forall n, In n (updated names) ->
                In n (updated (names_for a (collected attempts outcomes rn)))).
Proof.
  induction attempts as [|a0 attempts IH]; intros [|outcome outcomes] rn a names; simpl;
    try tauto.
  intros [[= <- ->]|Hin].
  - split; intros n Hn; apply collected_grows; destruct a0; simpl; apply in_or_app; right;
      exact Hn.
  - destruct outcome; apply IH; exact Hin.
Qed.

Section Handler.
Variable client : Backend.
Variable fuel : nat.

Lemma lambda_handler_setup_fails setup st e :
  setup_phase setup = Raise e ->
  lambda_handler client fuel setup st = (Raise e, add_events st [EvLogException e]).
Proof.
  unfold setup_phase, lambda_handler, try_except, bind, lift.
  destruct (setup_config setup) as [config_services| |]; simpl;
    [|intros [= ->]; reflexivity|discriminate].
  destruct (setup_message setup) as [message| |]; simpl;
    [|intros [= ->]; reflexivity|discriminate].
  destruct (setup_ip_ranges setup) as [ip_ranges| |]; simpl;
    [|intros [= ->]; reflexivity|discriminate].
  intros ->. reflexivity.
Qed.

(** After the setup the handler is the two loops, inside the outer [try]
    that logs an error and raises it again. *)
Lemma lambda_handler_after_setup setup st config_services sr :
  setup_config setup = Ok config_services ->
  setup_phase setup = Ok sr ->
  lambda_handler client fuel setup st
  = try_except (manage_resources client fuel config_services sr)
      (fun error => bind (log_exception error) (fun _ => raise error)) st.
Proof.
  unfold setup_phase, lambda_handler, try_except. intros -> H. simpl in H.
  destruct (setup_message setup) as [message| |] eqn:Hm; simpl in H; try discriminate.
  destruct (setup_ip_ranges setup) as [ip_ranges| |] eqn:Hi; simpl in H; try discriminate.
  unfold bind at 1. cbn [lift]. unfold bind at 1. cbn [lift].
  unfold bind at 1. cbn [lift]. unfold bind at 1. rewrite H. cbn [lift]. reflexivity.
Qed.

Lemma setup_phase_services setup config_services sr :
  setup_config setup = Ok config_services ->
  setup_phase setup = Ok sr ->
  forall config_service, In config_service (Services config_services) ->
    In (Name config_service) (Dict.keys sr).
Proof.
  unfold setup_phase. intros -> H. simpl in H.
  destruct (setup_message setup) as [message| |]; simpl in H; try discriminate.
  destruct (setup_ip_ranges setup) as [ip_ranges| |]; simpl in H; try discriminate.
  destruct (get_ranges_for_service_Ok _ _ _ H) as (control & _ & Hkeys & _).
  intros c Hc. apply Hkeys, in_map. exact Hc.
Qed.

(** The run of the two loops. *)
Lemma manage_resources_outcome config_services sr st res st' :
  (forall config_service, In config_service (Services config_services) ->
     In (Name config_service) (Dict.keys sr)) ->
  manage_resources client fuel config_services sr st = (res, st') ->
  res = OutOfFuel
  \/ (keyed config_services = true
      /\ exists outcomes1 st1 outcomes2,
           isolated client fuel (prefix_list_attempts config_services)
             (first_loop_store st sr) outcomes1 st1
           /\ isolated client fuel (waf_ipset_attempts config_services)
                (second_loop_store st1) outcomes2 st'
           /\ res = Ok (collected
                          (prefix_list_attempts config_services
                           ++ waf_ipset_attempts config_services)
                          (outcomes1 ++ outcomes2) empty_names))
  \/ (keyed config_services = false /\ res = Raise KeyError).
Proof.
  intros Hnames. unfold manage_resources, keyed.
  unfold bind at 1. cbn [set_service_ranges].
  unfold bind at 1. cbn [set_resource_names].
  unfold bind at 1. cbn [set_vpc_prefix_lists].
  cbn [trace service_ranges vpc_prefix_lists waf_ipsets_by_scope resource_names].
  fold (first_loop_store st sr).
  intros H.
  apply bind_inv in H as [([] & st1 & H1 & H)|[(e & H1 & ->)|[H1 ->]]];
    (apply (services_loop_outcome client fuel _ prefix_list_keyed prefix_list_attempts_of
              (handle_prefix_list_outcome client fuel)) in H1; [|exact Hnames]).
  2:{ destruct H1 as [[=]|[(_ & [=] & _)|(Hk & [= ->])]]. right. right. rewrite Hk.
      split; reflexivity. }
  2:{ left. reflexivity. }
  destruct H1 as [[=]|[(Hk1 & _ & outcomes1 & Hrun1)|(_ & [=])]].
  rewrite Hk1. cbn [andb].
  unfold bind at 1 in H. cbn [set_waf_ipsets_by_scope] in H.
  fold (second_loop_store st1) in H.
  apply bind_inv in H as [([] & st2 & H2 & H)|[(e & H2 & ->)|[H2 ->]]];
    (apply (services_loop_outcome client fuel _ waf_ipset_keyed waf_ipset_attempts_of
              (handle_waf_ipset_outcome client fuel)) in H2;
     [|intros c Hc; cbn [second_loop_store service_ranges];
       rewrite (isolated_services _ _ _ _ _ _ Hrun1); apply Hnames; exact Hc]).
  2:{ destruct H2 as [[=]|[(_ & [=] & _)|(Hk & [= ->])]]. right. right.
      split; [exact Hk|reflexivity]. }
  2:{ left. reflexivity. }
  destruct H2 as [[=]|[(Hk2 & _ & outcomes2 & Hrun2)|(_ & [=])]].
  unfold bind in H. cbn [get_store ret] in H. injection H as <- <-.
  right. left. split; [exact Hk2|].
  exists outcomes1, st1, outcomes2. split; [exact Hrun1|]. split; [exact Hrun2|].
  f_equal. rewrite (isolated_collected _ _ _ _ _ _ Hrun2).
  cbn [second_loop_store resource_names].
  rewrite (isolated_collected _ _ _ _ _ _ Hrun1).
  cbn [first_loop_store resource_names].
  rewrite collected_app by exact (isolated_length _ _ _ _ _ _ Hrun1). reflexivity.
Qed.

End Handler.

(** ** The first call of an update *)

Lemma slice_all {A} (l : list A) : (length l <= 100)%nat -> slice l 0 100 = l.
Proof.
  intros Hlen. unfold slice. simpl. rewrite drop_0. apply take_ge.
  change (Z.to_nat (100 - 0)) with 100%nat. lia.
Qed.

Lemma py_range_empty start stop step : 0 < step -> stop <= start -> py_range start stop step = [].
Proof.
  intros Hstep Hle. unfold py_range.
  assert ((stop - start + step - 1) / step <= 0) as H
    by (apply Z.lt_succ_r, Z.div_lt_upper_bound; lia).
  replace (Z.to_nat ((stop - start + step - 1) / step)) with 0%nat by lia. reflexivity.
Qed.

Section FirstCall.
Variable client : Backend.

Lemma ensure_capacity_settled prefix_list_name prefix_list address_list adds :
  needs_resize prefix_list address_list adds = false ->
  ensure_capacity client prefix_list_name prefix_list address_list adds
  = ret (Version prefix_list).
Proof.
  unfold needs_resize, ensure_capacity. destruct adds as [|a adds]; [reflexivity|].
  rewrite bool_decide_eq_false_2 by discriminate. simpl. intros ->. reflexivity.
Qed.

Lemma needs_resize_true prefix_list address_list adds :
  needs_resize prefix_list address_list adds = true ->
  adds <> [] /\ MaxEntries prefix_list < Z.of_nat (length address_list).
Proof.
  unfold needs_resize. intros H. apply andb_true_iff in H as [H1 H2].
  apply negb_true_iff, bool_decide_eq_false in H1. apply Z.ltb_lt in H2. auto.
Qed.

(** Whatever comes of it, an update with a delta starts with the capacity
    call when the capacity has to grow, and with the first content call
    otherwise. *)
Lemma apply_prefix_list_delta_first prefix_list_name prefix_list address_list adds removes
    st res st' :
  apply_prefix_list_delta client prefix_list_name prefix_list address_list adds removes st
    = (res, st') ->
  exists rest,
    trace st'
    = (trace st
       ++ EvCall (first_delta_call prefix_list_name prefix_list address_list adds removes)
            (client (trace st)
               (first_delta_call prefix_list_name prefix_list address_list adds removes))
          :: rest)%list.
Proof.
  intros H. unfold first_delta_call.
  destruct (needs_resize prefix_list address_list adds) eqn:Hneed.
  - apply needs_resize_true in Hneed as [Hadd Hmax].
    apply apply_prefix_list_delta_resized in H; [|exact Hadd|exact Hmax].
    destruct H as (polls & rest & Htrace & _). exists (polls ++ rest)%list. exact Htrace.
  - unfold apply_prefix_list_delta in H.
    rewrite (ensure_capacity_settled _ _ _ _ Hneed) in H.
    unfold bind at 1 in H. cbn [ret] in H.
    unfold bind at 1 in H. rewrite call_reply in H.
    fold (first_update_call prefix_list_name prefix_list (Version prefix_list) adds removes)
      in H.
    destruct (client (trace st) _) as [response|e] eqn:Hreply; cbn [reply_result] in H.
    + fold (update_indexes adds removes) in H.
      apply (emits_content_phase client (fun _ => True)) in H as (evs & Htrace & _);
        try (intros; exact I).
      exists evs. rewrite Htrace. cbn [add_events trace]. rewrite <- app_assoc. reflexivity.
    + injection H as <- <-. exists []. reflexivity.
Qed.

(** A delta of at most a hundred entries each way, with room for it, goes
    out in one content call. *)
Lemma apply_prefix_list_delta_single prefix_list_name prefix_list address_list adds removes
    st :
  needs_resize prefix_list address_list adds = false ->
  (length adds <= 100)%nat -> (length removes <= 100)%nat ->
  apply_prefix_list_delta client prefix_list_name prefix_list address_list adds removes st
  = single_call_update client prefix_list_name prefix_list adds removes st.
Proof.
  intros Hneed Ha Hr. unfold apply_prefix_list_delta, single_call_update.
  rewrite (ensure_capacity_settled _ _ _ _ Hneed).
  unfold bind at 1. cbn [ret].
  rewrite !slice_all by assumption.
  unfold bind at 1. rewrite call_reply.
  destruct (client (trace st) _) as [response|e]; cbn [reply_result]; [|reflexivity].
  rewrite py_range_empty by lia. cbn [mfoldl].
  unfold bind at 1. cbn [ret]. unfold bind at 1. rewrite call_reply.
  destruct (client _ _) as [response'|e]; reflexivity.
Qed.

End FirstCall.

(** ** The chunks of [manage_prefix_list] *)

Lemma mfoldl_ext {A B} (f g : A -> B -> M A) l :
  (forall a x st, f a x st = g a x st) ->
  forall a st, mfoldl f a l st = mfoldl g a l st.
Proof.
  intros Hfg. induction l as [|x l IH]; intros a st; simpl; [reflexivity|].
  unfold bind. rewrite Hfg. destruct (g a x st) as [[a'| |] st1]; [apply IH|reflexivity..].
Qed.

Lemma mfoldl_map {A B C} (f : A -> B -> M A) (h : C -> B) l :
  forall a st, mfoldl f a (map h l) st = mfoldl (fun a x => f a (h x)) a l st.
Proof.
  induction l as [|x l IH]; intros a st; simpl; [reflexivity|].
  unfold bind. destruct (f a (h x) st) as [[a'| |] st1]; [apply IH|reflexivity..].
Qed.

Lemma bind_ret_r {A} (m : M A) st : bind m (fun a => ret a) st = m st.
Proof. unfold bind, ret. destruct (m st) as [[a| |] st1]; reflexivity. Qed.

Lemma chunk_name_label base_name (i : nat) :
  chunk_name base_name (Z.of_nat i) = chunk_label base_name i.
Proof.
  destruct i as [|i]; [reflexivity|]. unfold chunk_name, chunk_label.
  destruct (Z.eqb_spec (Z.of_nat (S i)) 0); [lia|reflexivity].
Qed.

Lemma batched_named (chunk_size : Z) base_name (address_list : list string) :
  1 <= chunk_size ->
  batched address_list chunk_size
  = Ok (map snd (named_chunks chunk_size base_name address_list)).
Proof.
  intros HC. unfold batched, named_chunks. destruct (Z.ltb_spec chunk_size 1); [lia|].
  f_equal. rewrite batched_aux_eq by lia. rewrite map_map. cbn [snd].
  replace (ceil_div (Z.of_nat (length address_list)) chunk_size)
    with (ceil_div (Z.of_nat (length address_list)) (Z.of_nat (Z.to_nat chunk_size)))
    by (f_equal; lia).
  rewrite <- ceil_div_nat by lia. rewrite Nat2Z.id. reflexivity.
Qed.

Lemma enumerate_named (chunk_size : Z) base_name (address_list : list string) :
  enumerate (map snd (named_chunks chunk_size base_name address_list))
  = map (fun i => (Z.of_nat i, chunk_of chunk_size address_list i))
      (seq 0 (Z.to_nat (ceil_div (Z.of_nat (length address_list)) chunk_size))).
Proof.
  unfold enumerate, named_chunks. rewrite !map_map, length_map, length_seq. cbn [snd].
  generalize (Z.to_nat (ceil_div (Z.of_nat (length address_list)) chunk_size)). intros k.
  generalize 0%nat. induction k as [|k IH]; intros start; [reflexivity|].
  simpl. f_equal. apply IH.
Qed.

(** The chunks are as many as the specification says, consecutive, in
    order, and of the sizes it says. *)
Lemma named_chunks_spec (chunk_size : Z) base_name (address_list : list string) :
  1 <= chunk_size ->
  Z.of_nat (length (named_chunks chunk_size base_name address_list))
  = ceil_div (Z.of_nat (length address_list)) chunk_size
  /\ concat (map snd (named_chunks chunk_size base_name address_list)) = address_list
  /\ forall (i : nat) name chunk,
       named_chunks chunk_size base_name address_list !! i = Some (name, chunk) ->
       name = chunk_label base_name i
       /\ chunk = chunk_of chunk_size address_list i
       /\ (0 < length chunk <= Z.to_nat chunk_size)%nat
       /\ (S i < length (named_chunks chunk_size base_name address_list) ->
           length chunk = Z.to_nat chunk_size)%nat.
Proof.
  intros HC.
  destruct (batched_spec address_list chunk_size HC) as (chunks & Hb & Hlen & Hcat & Hi).
  rewrite (batched_named chunk_size base_name address_list HC) in Hb.
  injection Hb as <-. rewrite length_map in Hlen, Hi.
  split; [exact Hlen|]. split; [exact Hcat|].
  intros i name chunk Hlook.
  assert (Hsnd : map snd (named_chunks chunk_size base_name address_list) !! i = Some chunk)
    by (rewrite list_lookup_fmap, Hlook; reflexivity).
  destruct (Hi i chunk Hsnd) as (Hchunk & Hsize & Hfull).
  unfold named_chunks in Hlook. rewrite list_lookup_fmap in Hlook.
  destruct (seq 0 _ !! i) as [j|] eqn:Hj; [|discriminate].
  apply lookup_seq in Hj as [-> _]. injection Hlook as <- <-. simpl.
  split; [reflexivity|]. split; [reflexivity|]. split; [exact Hsize|exact Hfull].
Qed.

Lemma named_chunks_nil chunk_size base_name :
  1 <= chunk_size -> named_chunks chunk_size base_name [] = [].
Proof.
  intros HC. unfold named_chunks, ceil_div. simpl.
  rewrite Z.div_small by lia. reflexivity.
Qed.

Section Chunked.
Variable client : Backend.
Variable fuel : nat.
Variable vpc_prefix_lists : gmap string PrefixListInfo.

Lemma manage_prefix_list_version_chunked service_name should_summarize chunk_size
    prefix_list_names ip_version st :
  1 <= chunk_size ->
  manage_prefix_list_version client fuel vpc_prefix_lists service_name should_summarize
    chunk_size prefix_list_names ip_version st
  = version_chunked client fuel vpc_prefix_lists service_name should_summarize chunk_size
      prefix_list_names ip_version st.
Proof.
  intros HC. unfold manage_prefix_list_version, version_chunked. unfold bind at 1 3.
  destruct (address_list_of service_name ip_version should_summarize st)
    as [[[address_list|]| |] st0]; try reflexivity.
  2:{ cbn [default]. rewrite named_chunks_nil by exact HC. reflexivity. }
  cbn [default]. unfold bind at 1. cbn [lift].
  rewrite (batched_named chunk_size (resource_name service_name ip_version) address_list HC).
  rewrite enumerate_named. unfold chunks_handled, named_chunks.
  rewrite !mfoldl_map. apply mfoldl_ext. intros names i st1. cbn [fst snd].
  rewrite manage_prefix_list_chunk_handled, chunk_name_label. reflexivity.
Qed.

Lemma manage_prefix_list_chunked service_name should_summarize chunk_size st :
  1 <= chunk_size ->
  manage_prefix_list client fuel vpc_prefix_lists service_name should_summarize
    chunk_size st
  = bind (version_chunked client fuel vpc_prefix_lists service_name should_summarize
            chunk_size (mkNames [] []) V4)
      (fun prefix_list_names =>
         version_chunked client fuel vpc_prefix_lists service_name should_summarize
           chunk_size prefix_list_names V6) st.
Proof.
  intros HC. unfold manage_prefix_list. cbn [mfoldl]. unfold bind at 1 3.
  rewrite manage_prefix_list_version_chunked by exact HC.
  destruct (version_chunked _ _ _ _ _ _ _ V4 st) as [[names4| |] st4]; try reflexivity.
  rewrite bind_ret_r. apply manage_prefix_list_version_chunked. exact HC.
Qed.

Lemma chunk_handled_ranges ip_version prefix_list_name prefix_list_names chunk :
  respects (fun st st' => service_ranges st' = service_ranges st)
    (chunk_handled client fuel vpc_prefix_lists ip_version prefix_list_name
       prefix_list_names chunk).
Proof.
  unfold chunk_handled. destruct (vpc_prefix_lists !! prefix_list_name) as [prefix_list|].
  - apply respects_bind; [intros; congruence| |intros b; apply respects_ret; reflexivity].
    apply respects_update_prefix_list; [reflexivity|intros; congruence|reflexivity].
  - apply respects_bind; [intros; congruence| |intros b; apply respects_ret; reflexivity].
    apply respects_create_prefix_list; [reflexivity|intros; congruence|reflexivity].
Qed.

(** The names a run of the chunks adds: in order, the name of every chunk
    that had no prefix list to the created names, and names of chunks that
    had one to the updated names. *)
Lemma chunks_handled_names ip_version chunks : forall prefix_list_names st names st',
  chunks_handled client fuel vpc_prefix_lists ip_version prefix_list_names chunks st
    = (Ok names, st') ->
  created names
  = (created prefix_list_names
     ++ List.filter (fun name => bool_decide (vpc_prefix_lists !! name = None))
          (map fst chunks))%list
  /\ (exists more,
        updated names = (updated prefix_list_names ++ more)%list
        /\ sublist more
             (List.filter (fun name => bool_decide (is_Some (vpc_prefix_lists !! name)))
                (map fst chunks)))
  /\ service_ranges st' = service_ranges st.
Proof.
  unfold chunks_handled.
  induction chunks as [|[name chunk] chunks IH]; intros names0 st names st'; simpl.
  - intros [= <- <-]. rewrite app_nil_r. split; [reflexivity|]. split; [|reflexivity].
    exists []. rewrite app_nil_r. split; [reflexivity|constructor].
  - intros H.
    apply bind_inv in H as [(names1 & st1 & H1 & H)|[(e & _ & [=])|[_ [=]]]].
    pose proof (chunk_handled_ranges _ _ _ _ _ _ _ H1) as Hsr1.
    apply IH in H as (Hc & (more & Hu & Hsub) & Hsr).
    unfold chunk_handled in H1.
    destruct (vpc_prefix_lists !! name) as [prefix_list|] eqn:Hlook.
    + rewrite bool_decide_eq_false_2 by discriminate.
      rewrite bool_decide_eq_true_2 by eauto.
      apply bind_inv in H1 as [(b & st2 & _ & H1)|[(e & _ & [=])|[_ [=]]]].
      injection H1 as <- _. split; [|split; [|congruence]].
      * rewrite Hc. destruct b; reflexivity.
      * destruct b; cbn [reported updated] in Hu.
        -- exists (name :: more). rewrite Hu, <- app_assoc. split; [reflexivity|].
           constructor. exact Hsub.
        -- exists more. split; [exact Hu|]. constructor. exact Hsub.
    + rewrite bool_decide_eq_true_2 by reflexivity.
      rewrite bool_decide_eq_false_2 by (intros [? [=]]).
      apply bind_inv in H1 as [(b & st2 & _ & H1)|[(e & _ & [=])|[_ [=]]]].
      injection H1 as <- _. split; [|split; [|congruence]].
      * rewrite Hc. cbn [created]. rewrite <- app_assoc. reflexivity.
      * exists more. split; [exact Hu|exact Hsub].
Qed.

End Chunked.

(** ** What the extractor selects *)

Lemma register_loop_regions cs : forall acc acc',
  rfoldl register_service acc cs = Ok acc' ->
  Forall (fun c => Regions c <> None) cs.
Proof.
  induction cs as [|c cs IH]; intros acc acc'; simpl; [constructor|].
  intros H. apply rbind_Ok in H as (acc1 & H1 & H2). constructor; [|eapply IH; eassumption].
  unfold register_service in H1. destruct (Regions c); [discriminate|discriminate].
Qed.

Lemma string_app_inv_head (s a b : string) : s ++ a = s ++ b -> a = b.
Proof. induction s as [|c s IH]; simpl; [auto|]. intros [= H]. auto. Qed.

Lemma lookup_keys_spec cs k :
  Forall (fun c => Regions c <> None) cs ->
  In k (lookup_keys cs) <->
  exists c regions,
    In c cs /\ Regions c = Some regions
    /\ ((regions = [] /\ k = Name c)
        \/ exists r, In r regions /\ k = Name c ++ "-" ++ r).
Proof.
  intros Hreg. unfold lookup_keys. rewrite in_concat. split.
  - intros (ks & Hks & Hk). apply in_map_iff in Hks as (c & <- & Hc).
    pose proof (proj1 (List.Forall_forall _ _) Hreg c Hc) as Hr.
    destruct (Regions c) as [[|r0 regs]|] eqn:E; [| |congruence].
    + destruct Hk as [<-|[]]. exists c, []. auto.
    + apply in_map_iff in Hk as (r & <- & Hin). exists c, (r0 :: regs). eauto 7.
  - intros (c & regions & Hc & E & H).
    exists (match Regions c with
            | Some [] | None => [Name c]
            | Some regions => map (fun r => Name c ++ "-" ++ r) regions
            end).
    split; [apply in_map_iff; exists c; auto|]. rewrite E.
    destruct H as [[-> ->]|(r & Hr & ->)]; [left; reflexivity|].
    destruct regions as [|r0 regs]; [destruct Hr|].
    apply in_map_iff. eauto.
Qed.

Lemma selected_wanted cfg control p :
  (forall k, is_Some (control !! k) <-> In k (lookup_keys (Services cfg))) ->
  Forall (fun c => Regions c <> None) (Services cfg) ->
  Forall (fun c => hyphen_free (Name c)) (Services cfg) ->
  hyphen_free (service p) ->
  selected control p <-> wanted cfg p.
Proof.
  intros Hc Hreg Hcs Hp. unfold selected, wanted. rewrite !Hc, !lookup_keys_spec by assumption.
  split.
  - intros [(c & regions & Hin & E & H)|(c & regions & Hin & E & H)];
      pose proof (proj1 (List.Forall_forall _ _) Hcs c Hin) as Hfree.
    + destruct H as [[_ Hk]|(r & Hr & Hk)].
      * exfalso. exact (hyphen_key_ne _ _ _ Hfree (eq_sym Hk)).
      * pose proof (hyphen_key_inj _ _ _ _ Hp Hfree Hk) as Hs.
        rewrite Hs in Hk. apply string_app_inv_head, string_app_inv_head in Hk.
        exists c, regions. subst r. auto.
    + destruct H as [[-> Hk]|(r & Hr & Hk)].
      * exists c, []. auto.
      * exfalso. exact (hyphen_key_ne _ _ _ Hp Hk).
  - intros (c & regions & Hin & Hname & E & [->|Hr]).
    + right. exists c, []. rewrite Hname. auto.
    + left. exists c, regions. rewrite Hname. eauto 7.
Qed.

Lemma wantedb_true cfg p : wantedb cfg p = true <-> wanted cfg p.
Proof.
  unfold wantedb, wanted. rewrite existsb_exists. split.
  - intros (c & Hin & H). apply andb_true_iff in H as [Hn Hr].
    apply String.eqb_eq in Hn. destruct (Regions c) as [[|r0 regs]|] eqn:E; [| |discriminate].
    + exists c, []. auto.
    + apply existsb_exists in Hr as (r & Hr & Heq). apply String.eqb_eq in Heq. subst r.
      exists c, (r0 :: regs). auto.
  - intros (c & regions & Hin & Hn & E & H). exists c. split; [exact Hin|].
    apply andb_true_iff. split; [apply String.eqb_eq; exact Hn|]. rewrite E.
    destruct H as [->|Hr]; [reflexivity|]. destruct regions as [|r0 regs]; [reflexivity|].
    apply existsb_exists. exists (region p). split; [exact Hr|apply String.eqb_refl].
Qed.

Lemma attributed_requested cfg control name feed :
  (forall k, is_Some (control !! k) <-> In k (lookup_keys (Services cfg))) ->
  Forall (fun c => Regions c <> None) (Services cfg) ->
  Forall (fun c => hyphen_free (Name c)) (Services cfg) ->
  Forall (fun p => hyphen_free (service p)) feed ->
  attributed control name feed = requested cfg name feed.
Proof.
  intros Hc Hreg Hcs Hfeed. unfold attributed, requested. f_equal.
  apply filter_ext_in. intros p Hp.
  pose proof (proj1 (List.Forall_forall _ _) Hfeed p Hp) as Hfree.
  pose proof (selected_wanted cfg control p Hc Hreg Hcs Hfree) as Hsw.
  f_equal.
  - unfold selectedb. destruct (wantedb cfg p) eqn:Hw.
    + apply bool_decide_eq_true, Hsw, wantedb_true. exact Hw.
    + apply bool_decide_eq_false. intros Hs. apply Hsw, wantedb_true in Hs. congruence.
  - destruct (String.eqb_spec (service p) name).
    + apply bool_decide_eq_true. assumption.
    + apply bool_decide_eq_false. assumption.
Qed.

Lemma get_ranges_for_service_regions ranges cfg out :
  get_ranges_for_service ranges cfg = Ok out ->
  Forall (fun c => Regions c <> None) (Services cfg).
Proof.
  unfold get_ranges_for_service. intros H. apply rbind_Ok in H as (acc & Hreg & _).
  eapply register_loop_regions. exact Hreg.
Qed.

Lemma get_ranges_for_service_nodup ranges cfg out :
  get_ranges_for_service ranges cfg = Ok out -> NoDup (Dict.keys out).
Proof.
  unfold get_ranges_for_service. intros H.
  apply rbind_Ok in H as ([control sr0] & Hreg & H).
  apply rbind_Ok in H as (sr1 & H4 & H). apply rbind_Ok in H as (sr2 & H6 & Hsort).
  apply feed_loop_Ok in H4 as [K4 _]. apply feed_loop_Ok in H6 as [K6 _].
  apply sort_ranges_Ok in Hsort as [Ks _]. rewrite Ks, K6, K4.
  exact (register_loop_nodup _ _ _ Hreg ltac:(constructor)).
Qed.

(** ** What the extractor returns *)

Lemma register_loop_raises cs : forall acc,
  Exists (fun c => Regions c = None) cs ->
  rfoldl register_service acc cs = Raise KeyError.
Proof.
  induction cs as [|c cs IH]; intros acc Hex; [inversion Hex|]. simpl.
  unfold register_service at 1. destruct (Regions c) as [regions|] eqn:E; [|reflexivity].
  apply Exists_cons in Hex as [Hc|Hex]; [congruence|].
  destruct (0 <? length regions)%nat; simpl; apply IH; exact Hex.
Qed.

Lemma get_ranges_for_service_raises ranges cfg :
  Exists (fun c => Regions c = None) (Services cfg) ->
  get_ranges_for_service ranges cfg = Raise KeyError.
Proof.
  intros Hex. unfold get_ranges_for_service.
  rewrite (register_loop_raises _ _ Hex). reflexivity.
Qed.

Lemma sort_list_length v l l' :
  sort_list v l = Ok l' -> length (ip_list l') = length (ip_list l).
Proof.
  destruct v; simpl; intros H.
  - apply IPv4List_sort_perm in H as [Hperm _]. apply Permutation_length. exact Hperm.
  - apply IPv6List_sort_Ok in H as [_ [[_ ->]|(nets & Hn & ->)]]; [reflexivity|].
    rewrite length_map, (Permutation_length (sorted_perm net_ltb nets)).
    apply rmapM_Ok, Forall2_length in Hn. symmetry. exact Hn.
Qed.

Lemma requested_nil cfg name feed :
  (forall p, In p feed -> service p = name -> ~ wanted cfg p) ->
  requested cfg name feed = [].
Proof.
  intros Hno. unfold requested.
  induction feed as [|p feed IH]; [reflexivity|]. simpl.
  destruct (wantedb cfg p) eqn:Hw; simpl.
  - destruct (String.eqb_spec (service p) name) as [Hs|Hs].
    + exfalso. apply (Hno p); [left; reflexivity|exact Hs|]. apply wantedb_true. exact Hw.
    + apply IH. intros q Hq. apply Hno. right. exact Hq.
  - apply IH. intros q Hq. apply Hno. right. exact Hq.
Qed.

Lemma requested_all_regions cfg c feed :
  In c (Services cfg) -> Regions c = Some [] ->
  requested cfg (Name c) feed
  = map ip_prefix (List.filter (fun p => String.eqb (service p) (Name c)) feed).
Proof.
  intros Hc Hreg. unfold requested. f_equal. apply filter_ext. intros p.
  destruct (String.eqb_spec (service p) (Name c)) as [Hs|Hs]; [|apply andb_false_r].
  rewrite andb_true_r. apply wantedb_true. exists c, []. auto.
Qed.

(** The lists of a service in the result hold one entry per feed record
    the configuration asks for. *)
Lemma get_ranges_for_service_lengths ranges cfg out name r :
  get_ranges_for_service ranges cfg = Ok out ->
  Forall (fun c => hyphen_free (Name c)) (Services cfg) ->
  Forall (fun p => hyphen_free (service p)) (prefixes ranges ++ ipv6_prefixes ranges)%list ->
  Dict.get out name = Some r ->
  length (ip_list (ipv4 r)) = length (requested cfg name (prefixes ranges))
  /\ length (ip_list (ipv6 r)) = length (requested cfg name (ipv6_prefixes ranges)).
Proof.
  intros Hout Hcs Hfeed Hget.
  pose proof (get_ranges_for_service_regions _ _ _ Hout) as Hreg.
  destruct (get_ranges_for_service_Ok _ _ _ Hout) as (control & Hc & _ & Hlists).
  destruct (Hlists _ _ Hget) as [S4 S6]. apply List.Forall_app in Hfeed as [Hf4 Hf6].
  rewrite (attributed_requested cfg control name _ Hc Hreg Hcs Hf4) in S4.
  rewrite (attributed_requested cfg control name _ Hc Hreg Hcs Hf6) in S6.
  apply sort_list_length in S4, S6. simpl in S4, S6. auto.
Qed.

(** ** Runs that come to an end *)

Lemma finishes_ret {A} (a : A) : finishes (ret a).
Proof. intros st res st' [= <- _]. discriminate. Qed.

Lemma finishes_raise {A} e : finishes (@raise A e).
Proof. intros st res st' [= <- _]. discriminate. Qed.

Lemma finishes_lift {A} (r : result A) : r <> OutOfFuel -> finishes (lift r).
Proof. intros H st res st' [= <- _]. exact H. Qed.

Lemma finishes_unit (m : M unit) : (forall st, (m st).1 = Ok tt) -> finishes m.
Proof. intros H st res st' Hm. specialize (H st). rewrite Hm in H. simpl in H. subst. discriminate. Qed.

Lemma finishes_get_store : finishes get_store.
Proof. intros st res st' [= <- _]. discriminate. Qed.

Lemma finishes_record e : finishes (record e).
Proof. apply finishes_unit. reflexivity. Qed.

Lemma finishes_sleep s : finishes (sleep s).
Proof. apply finishes_record. Qed.

Lemma finishes_log_exception e : finishes (log_exception e).
Proof. apply finishes_record. Qed.

Lemma finishes_set_service_ranges sr : finishes (set_service_ranges sr).
Proof. apply finishes_unit. reflexivity. Qed.

Lemma finishes_set_vpc_prefix_lists m : finishes (set_vpc_prefix_lists m).
Proof. apply finishes_unit. reflexivity. Qed.

Lemma finishes_set_waf_ipsets_by_scope m : finishes (set_waf_ipsets_by_scope m).
Proof. apply finishes_unit. reflexivity. Qed.

Lemma finishes_set_resource_names rn : finishes (set_resource_names rn).
Proof. apply finishes_unit. reflexivity. Qed.

Lemma finishes_bind {A B} (m : M A) (k : A -> M B) :
  finishes m -> (forall a, finishes (k a)) -> finishes (bind m k).
Proof.
  intros Hm Hk st res st' H. unfold bind in H.
  destruct (m st) as [[a|e|] st1] eqn:E.
  - exact (Hk a _ _ _ H).
  - injection H as <- _. discriminate.
  - exfalso. exact (Hm _ _ _ E eq_refl).
Qed.

Lemma finishes_bind_raise {A B} e (k : A -> M B) : finishes (bind (raise e) k).
Proof. intros st res st' [= <- _]. discriminate. Qed.

Lemma finishes_bind_ret {A B} (a : A) (k : A -> M B) :
  finishes (k a) -> finishes (bind (ret a) k).
Proof. intros H st res st' Hk. exact (H _ _ _ Hk). Qed.

Lemma finishes_try_except {A} (body : M A) (handler : exn -> M A) :
  finishes body -> (forall e, finishes (handler e)) -> finishes (try_except body handler).
Proof.
  intros Hb Hh st res st' H. unfold try_except in H.
  destruct (body st) as [[a|e|] st1] eqn:E.
  - injection H as <- _. discriminate.
  - exact (Hh e _ _ _ H).
  - exfalso. exact (Hb _ _ _ E eq_refl).
Qed.

Lemma finishes_mfoldl {A B} (f : A -> B -> M A) l :
  (forall a x, finishes (f a x)) -> forall a, finishes (mfoldl f a l).
Proof.
  intros Hf. induction l as [|x l IH]; intros a; simpl.
  - apply finishes_ret.
  - apply finishes_bind; auto.
Qed.

Lemma finishes_as_ip_sets r : finishes (as_ip_sets r).
Proof. destruct r; first [apply finishes_ret | apply finishes_raise]. Qed.

Lemma finishes_as_ip_set r : finishes (as_ip_set r).
Proof. destruct r; first [apply finishes_ret | apply finishes_raise]. Qed.

Lemma finishes_as_prefix_lists r : finishes (as_prefix_lists r).
Proof. destruct r; first [apply finishes_ret | apply finishes_raise]. Qed.

Lemma finishes_as_prefix_list r : finishes (as_prefix_list r).
Proof. destruct r; first [apply finishes_ret | apply finishes_raise]. Qed.

Lemma finishes_as_entries r : finishes (as_entries r).
Proof. destruct r; first [apply finishes_ret | apply finishes_raise]. Qed.

(** The pure parts of the handler. *)

Lemma rmapM_total {A B} (f : A -> result B) l :
  (forall x, f x <> OutOfFuel) -> rmapM f l <> OutOfFuel.
Proof.
  intros Hf. induction l as [|x l IH]; simpl; [discriminate|].
  apply rbind_total; [apply Hf|]. intros y.
  apply rbind_total; [exact IH|]. discriminate.
Qed.

Lemma rfoldl_total {A B} (f : A -> B -> result A) l :
  (forall a x, f a x <> OutOfFuel) -> forall a, rfoldl f a l <> OutOfFuel.
Proof.
  intros Hf. induction l as [|x l IH]; intros a; simpl; [discriminate|].
  apply rbind_total; [apply Hf|]. intros a'. apply IH.
Qed.

Lemma ip_network_total address : ip_network address <> OutOfFuel.
Proof.
  unfold ip_network. pose proof (IPv4Network_total address).
  pose proof (IPv6Network_total address).
  destruct (IPv4.IPv4Network address) as [|[]|]; try congruence;
    destruct (IPv6.IPv6Network address) as [|[]|]; congruence.
Qed.

Lemma add_entries_total entries page : add_entries entries page <> OutOfFuel.
Proof.
  unfold add_entries. apply rfoldl_total. intros a x.
  apply rbind_total; [apply ip_network_total|]. intros n. destruct (Description x); discriminate.
Qed.

Lemma split_addresses_total addresses : forall ips nets,
  split_addresses addresses ips nets <> OutOfFuel.
Proof.
  induction addresses as [|ip addresses IH]; intros ips nets; simpl; [discriminate|].
  repeat match goal with
         | |- context [if ?c then _ else _] => destruct c
         | |- context [match ?x with _ => _ end] => destruct x
         end; first [apply IH | discriminate].
Qed.

Lemma collapse_addresses_total addresses : collapse_addresses addresses <> OutOfFuel.
Proof.
  unfold collapse_addresses. apply rbind_total; [apply split_addresses_total|].
  intros [ips nets]. discriminate.
Qed.

Lemma IPv4List_summarized_total self : IPv4List_summarized self <> OutOfFuel.
Proof.
  unfold IPv4List_summarized. destruct (_summarized_ip_list self); [|discriminate].
  destruct (_ =? _)%nat; [discriminate|].
  apply rbind_total; [apply rmapM_total, IPv4Network_total|]. intros nets.
  apply rbind_total; [apply collapse_addresses_total|]. discriminate.
Qed.

Lemma IPv6List_summarized_total self : IPv6List_summarized self <> OutOfFuel.
Proof.
  unfold IPv6List_summarized. destruct (_summarized_ip_list self); [|discriminate].
  apply rbind_total; [apply rmapM_total, IPv6Network_total|]. intros nets.
  apply rbind_total; [apply collapse_addresses_total|]. discriminate.
Qed.

Lemma batched_total {A} (l : list A) n : batched l n <> OutOfFuel.
Proof. unfold batched. destruct (n <? 1); discriminate. Qed.

Lemma getitem_total {A} (value : option A) : getitem value <> OutOfFuel.
Proof. destruct value; discriminate. Qed.

Create HintDb finishes discriminated.

#[export] Hint Resolve finishes_ret finishes_raise finishes_get_store finishes_record
  finishes_sleep finishes_log_exception finishes_set_service_ranges
  finishes_set_vpc_prefix_lists finishes_set_waf_ipsets_by_scope
  finishes_set_resource_names finishes_as_ip_sets finishes_as_ip_set
  finishes_as_prefix_lists finishes_as_prefix_list finishes_as_entries : finishes.

#[export] Hint Resolve rmapM_total rfoldl_total ip_network_total add_entries_total
  collapse_addresses_total IPv4List_summarized_total IPv6List_summarized_total
  batched_total getitem_total rbind_total IPv4Network_total IPv6Network_total : finishes.

Section Finishes.
Variable client : Backend.
Hypothesis client_unpaged : unpaged client.

(** A call ends, and what it returns is a last page. *)
Lemma finishes_call_bind {B} c (k : Response -> M B) :
  (forall r, last_page r -> finishes (k r)) -> finishes (bind (call client c) k).
Proof.
  intros Hk st res st' H. unfold bind, call in H. simpl in H.
  destruct (client (trace st) c) as [r|e] eqn:E.
  - exact (Hk r (client_unpaged _ _ _ E) _ _ _ H).
  - injection H as <- _. discriminate.
Qed.

Lemma finishes_call c : finishes (call client c).
Proof.
  intros st res st' H. unfold call in H. simpl in H.
  destruct (client (trace st) c); injection H as <- _; discriminate.
Qed.

End Finishes.

#[export] Hint Resolve finishes_call : finishes.

(** One step of a proof that a computation ends: through a bind, a loop or a
    [try], or by cases on what a [match] looks at; a lifted result leaves
    its totality to prove. *)
Ltac finishes_step :=
  lazymatch goal with
  | |- finishes (bind _ _) => apply finishes_bind; [|intros ?]
  | |- finishes (mfoldl _ _ _) => apply finishes_mfoldl; intros ? ?
  | |- finishes (try_except _ _) => apply finishes_try_except; [|intros ?]
  | |- finishes (lift _) => apply finishes_lift; auto with finishes
  | |- finishes (match ?x with _ => _ end) => destruct x
  | |- finishes (if ?x then _ else _) => destruct x
  | |- finishes _ => solve [auto with finishes]
  end.

Ltac finishes_all := repeat finishes_step.

Section FinishesHandler.
Variable client : Backend.
Hypothesis client_unpaged : unpaged client.

Lemma finishes_get_prefix_list_by_id prefix_list_id :
  finishes (get_prefix_list_by_id client prefix_list_id).
Proof. unfold get_prefix_list_by_id. finishes_all. Qed.
Hint Resolve finishes_get_prefix_list_by_id : finishes.

Lemma finishes_wait_prefix_list counts prefix_list_id complete msg :
  finishes (wait_prefix_list client counts prefix_list_id complete msg).
Proof.
  induction counts as [|count counts IH]; simpl; [apply finishes_raise|].
  finishes_all.
Qed.
Hint Resolve finishes_wait_prefix_list : finishes.

Lemma finishes_create_prefix_list prefix_list_name prefix_list_ip_version address_list :
  finishes (create_prefix_list client prefix_list_name prefix_list_ip_version address_list).
Proof. unfold create_prefix_list, create_batch. finishes_all. Qed.

Lemma finishes_get_prefix_list_entries fuel prefix_list_name prefix_list_id
    prefix_list_version :
  finishes (get_prefix_list_entries client fuel prefix_list_name prefix_list_id
              prefix_list_version).
Proof.
  unfold get_prefix_list_entries. apply finishes_call_bind; [assumption|].
  intros r Hr. destruct r as [| | | |l [t|]|]; try contradiction;
    try apply finishes_bind_raise.
  apply finishes_bind_ret. cbn [fst snd]. finishes_all.
  destruct fuel; apply finishes_ret.
Qed.
Hint Resolve finishes_get_prefix_list_entries finishes_create_prefix_list : finishes.

Lemma finishes_update_prefix_list fuel prefix_list_name prefix_list address_list :
  finishes (update_prefix_list client fuel prefix_list_name prefix_list address_list).
Proof.
  unfold update_prefix_list, apply_prefix_list_delta, ensure_capacity, resize_prefix_list,
    update_batch.
  cbv zeta. finishes_all.
Qed.
Hint Resolve finishes_update_prefix_list : finishes.

Lemma finishes_summarized_of service_name v : finishes (summarized_of service_name v).
Proof. unfold summarized_of. destruct v; finishes_all. Qed.
Hint Resolve finishes_summarized_of : finishes.

Lemma finishes_address_list_of service_name v should_summarize :
  finishes (address_list_of service_name v should_summarize).
Proof. unfold address_list_of. finishes_all. Qed.
Hint Resolve finishes_address_list_of : finishes.

Lemma finishes_manage_prefix_list fuel vpc_prefix_lists service_name should_summarize
    chunk_size :
  finishes (manage_prefix_list client fuel vpc_prefix_lists service_name should_summarize
              chunk_size).
Proof.
  unfold manage_prefix_list, manage_prefix_list_version, manage_prefix_list_chunk.
  finishes_all.
Qed.

Lemma finishes_manage_waf_ipset waf_ipsets service_name ipset_scope should_summarize :
  finishes (manage_waf_ipset client waf_ipsets service_name ipset_scope should_summarize).
Proof.
  unfold manage_waf_ipset, manage_waf_ipset_version, update_waf_ipset, create_waf_ipset,
    get_ip_set_entries.
  cbv zeta. finishes_all.
Qed.

Lemma finishes_list_prefix_lists fuel :
  (1 <= fuel)%nat -> finishes (list_prefix_lists client fuel).
Proof.
  intros Hfuel. destruct fuel as [|fuel]; [lia|].
  unfold list_prefix_lists. apply finishes_call_bind; [assumption|].
  intros r Hr. simpl.
  destruct r as [| |l [t|]| | |]; try contradiction;
    try apply finishes_bind_raise.
  apply finishes_bind_ret, finishes_ret.
Qed.

Lemma finishes_list_waf_ipset fuel ipset_scope :
  (1 <= fuel)%nat -> finishes (list_waf_ipset client fuel ipset_scope).
Proof.
  intros Hfuel. destruct fuel as [|fuel]; [lia|].
  unfold list_waf_ipset. apply finishes_call_bind; [assumption|].
  intros r Hr. simpl.
  destruct r as [l [t|]| | | | |]; try contradiction;
    try apply finishes_bind_raise.
  apply finishes_bind_ret, finishes_ret.
Qed.

Lemma finishes_handle_prefix_list fuel config_service :
  (1 <= fuel)%nat -> finishes (handle_prefix_list client fuel config_service).
Proof.
  intros Hfuel. pose proof finishes_manage_prefix_list.
  pose proof (finishes_list_prefix_lists fuel Hfuel).
  unfold handle_prefix_list, prefix_list_attempt, managed_prefix_list_names,
    report_prefix_list_names. finishes_all.
Qed.

Lemma finishes_handle_waf_ipset fuel config_service :
  (1 <= fuel)%nat -> finishes (handle_waf_ipset client fuel config_service).
Proof.
  intros Hfuel. pose proof finishes_manage_waf_ipset.
  pose proof (fun s => finishes_list_waf_ipset fuel s Hfuel).
  unfold handle_waf_ipset, handle_waf_ipset_scope, waf_ipset_attempt,
    managed_waf_ipset_names, report_waf_ipset_names. finishes_all.
Qed.

Lemma finishes_manage_resources fuel config_services sr :
  (1 <= fuel)%nat -> finishes (manage_resources client fuel config_services sr).
Proof.
  intros Hfuel. pose proof (finishes_handle_prefix_list fuel).
  pose proof (finishes_handle_waf_ipset fuel).
  unfold manage_resources. finishes_all.
Qed.

Lemma finishes_lambda_handler fuel setup :
  (1 <= fuel)%nat -> setup_phase setup <> OutOfFuel ->
  finishes (lambda_handler client fuel setup).
Proof.
  intros Hfuel Hsetup st res st' H.
  destruct (setup_phase setup) as [sr|e|] eqn:E; [| |congruence].
  - assert (exists cs, setup_config setup = Ok cs) as [cs Hcs].
    { unfold setup_phase in E. destruct (setup_config setup); [eauto|discriminate..]. }
    rewrite (lambda_handler_after_setup client fuel setup st cs sr Hcs E) in H.
    revert H. apply finishes_try_except; [apply finishes_manage_resources; exact Hfuel|].
    intros e. finishes_all.
  - pose proof (lambda_handler_setup_fails client fuel setup st e E) as Hf.
    rewrite H in Hf. injection Hf as -> _. discriminate.
Qed.

End FinishesHandler.

(** * The claims *)

(** ** Network Summarizer *)

(** C5 (as amended): for a fresh list object whose entries all parse in its
    family, [summarized()] returns the canonical renderings
    ([with_prefixlen] for IPv4, [exploded] for IPv6) of networks that are
    well-formed, in ascending order with each ending before the next starts
    (so pairwise disjoint), that cover exactly the addresses of the input and
    of which no two can be merged into one network; the result is also
    stored in the cache.  The one exception is an IPv4 list with a single
    entry, which is returned as it is, neither parsed nor re-rendered. *)
Theorem summarized_spec (v : version) (l : list string) (nets : list Network) :
  rmapM (parse_net v) l = Ok nets ->
  match v, l with
  | V4, [s] => summarized V4 (mkIPList l []) = Ok (l, mkIPList l [])
  | _, _ =>
      exists out,
        summarized v (mkIPList l []) =
          Ok (map (canonical v) out, mkIPList l (map (canonical v) out))
        /\ collapsed v nets out
  end.
Proof.
  intros Hparse.
  destruct v, l as [|s [|s' l']]; try reflexivity;
    apply (summarized_collapses _ _ _ Hparse); intros ?; discriminate.
Qed.

Lemma summarized_spec_witness :
  exists out,
    summarized V4 (mkIPList ["10.0.0.128/25"; "10.0.0.0/25"; "10.0.1.7"] []) =
      Ok (map (canonical V4) out,
          mkIPList ["10.0.0.128/25"; "10.0.0.0/25"; "10.0.1.7"] (map (canonical V4) out))
    /\ collapsed V4 [mkNetwork V4 167772288 25; mkNetwork V4 167772160 25;
                     mkNetwork V4 167772423 32] out.
Proof.
  apply (summarized_spec V4 ["10.0.0.128/25"; "10.0.0.0/25"; "10.0.1.7"]).
  vm_compute. reflexivity.
Defined.

(** C5, the claim as stated fails: the single entry ["1.2.3.4"] is a valid
    IPv4 network, and [summarized()] returns it unchanged, which is not the
    canonical rendering of any network (that would be ["1.2.3.4/32"]). *)
Lemma summarized_single_not_canonical :
  rmapM (parse_net V4) ["1.2.3.4"] = Ok [mkNetwork V4 16909060 32]
  /\ summarized V4 (mkIPList ["1.2.3.4"] []) = Ok (["1.2.3.4"], mkIPList ["1.2.3.4"] [])
  /\ ~ exists out self',
         summarized V4 (mkIPList ["1.2.3.4"] []) = Ok (map (canonical V4) out, self').
Proof.
  split; [vm_compute; reflexivity|]. split; [reflexivity|].
  intros (out & self' & H). injection H as H _.
  destruct out as [|n [|? ?]]; try discriminate. injection H as H.
  pose proof (with_prefixlen4_has_slash n) as Hs. simpl in H. rewrite <- H in Hs.
  vm_compute in Hs. discriminate.
Qed.

(** C10 (as amended): when a list contains an entry its family's parser
    rejects, [summarized()] on the fresh object raises the error of the
    first such entry - except for an IPv4 list of exactly one entry, which
    is never parsed. *)
Theorem summarized_malformed_raises (v : version) (l : list string) (s : string) (e : exn) :
  In s l -> parse_net v s = Raise e ->
  (v = V4 -> length l <> 1%nat) ->
  exists s' e', In s' l /\ parse_net v s' = Raise e'
                /\ summarized v (mkIPList l []) = Raise e'.
Proof. apply summarized_malformed. Qed.

Lemma summarized_malformed_raises_witness :
  exists s' e', In s' ["10.0.0.0/24"; "10.0.0.1/24"]
                /\ parse_net V4 s' = Raise e'
                /\ summarized V4 (mkIPList ["10.0.0.0/24"; "10.0.0.1/24"] []) = Raise e'.
Proof.
  apply (summarized_malformed_raises V4 ["10.0.0.0/24"; "10.0.0.1/24"] "10.0.0.1/24" ValueError).
  - simpl. auto.
  - vm_compute. reflexivity.
  - simpl. discriminate.
Defined.

(** C10, the claim as stated fails: a list whose only entry is malformed is
    returned by [IPv4List.summarized] as it is. *)
Lemma summarized_single_malformed_returned :
  parse_net V4 "10.0.0.300/24" = Raise AddressValueError
  /\ summarized V4 (mkIPList ["10.0.0.300/24"] [])
     = Ok (["10.0.0.300/24"], mkIPList ["10.0.0.300/24"] []).
Proof. split; vm_compute; reflexivity. Qed.

(** ** Service Range Extractor *)

(** C3 (as amended).  A descriptor without a [Regions] key makes
    [get_ranges_for_service] raise [KeyError], whatever the feed.  When
    every service descriptor has a [Regions] list (possibly empty), no
    service name of the configuration or of the feed contains ["-"] and
    every feed prefix parses in its family, it returns a mapping with every
    configured service name as a key; each of its two lists has one entry
    per feed record of that family the configuration asks for, so it is the
    empty list when no record matched, also when records name the service in
    other regions; and for a descriptor with an empty region list every
    record of the service is counted, whatever its region. *)
Theorem get_ranges_for_service_every_service (ranges : IpRanges) (cfg : ConfigServices) :
  (Exists (fun c => Regions c = None) (Services cfg) ->
   get_ranges_for_service ranges cfg = Raise KeyError)
  /\ (Forall (fun c => Regions c <> None) (Services cfg) ->
      Forall (fun c => hyphen_free (Name c)) (Services cfg) ->
      Forall (fun p => hyphen_free (service p))
        (prefixes ranges ++ ipv6_prefixes ranges)%list ->
      Forall (fun p => valid_cidr V4 (ip_prefix p)) (prefixes ranges) ->
      Forall (fun p => valid_cidr V6 (ip_prefix p)) (ipv6_prefixes ranges) ->
      exists out,
        get_ranges_for_service ranges cfg = Ok out
        /\ forall c, In c (Services cfg) ->
             exists r, Dict.get out (Name c) = Some r
               /\ length (ip_list (ipv4 r))
                  = length (requested cfg (Name c) (prefixes ranges))
               /\ length (ip_list (ipv6 r))
                  = length (requested cfg (Name c) (ipv6_prefixes ranges))
               /\ ((forall p, In p (prefixes ranges) -> service p = Name c ->
                               ~ wanted cfg p) ->
                   ip_list (ipv4 r) = [])
               /\ ((forall p, In p (ipv6_prefixes ranges) -> service p = Name c ->
                               ~ wanted cfg p) ->
                   ip_list (ipv6 r) = [])
               /\ (Regions c = Some [] ->
                   length (ip_list (ipv4 r))
                   = length (List.filter (fun p => String.eqb (service p) (Name c))
                               (prefixes ranges))
                   /\ length (ip_list (ipv6 r))
                      = length (List.filter (fun p => String.eqb (service p) (Name c))
                                  (ipv6_prefixes ranges)))).
Proof.
  split; [apply get_ranges_for_service_raises|].
  intros Hreg Hcs Hfeed Hv4 Hv6.
  destruct (get_ranges_for_service_total ranges cfg Hreg Hcs Hfeed Hv4 Hv6) as [out Hout].
  exists out. split; [exact Hout|].
  destruct (get_ranges_for_service_Ok ranges cfg out Hout) as (control & _ & Hkeys & _).
  intros c Hc.
  assert (In (Name c) (Dict.keys out)) as Hin by (apply Hkeys, in_map; exact Hc).
  destruct (Dict.get out (Name c)) as [r|] eqn:Hg; [|apply dict_get_None in Hg; contradiction].
  exists r. split; [reflexivity|].
  destruct (get_ranges_for_service_lengths ranges cfg out (Name c) r Hout Hcs Hfeed Hg)
    as [L4 L6].
  split; [exact L4|]. split; [exact L6|].
  split; [|split].
  - intros Hno. apply length_zero_iff_nil. rewrite L4, requested_nil by exact Hno. reflexivity.
  - intros Hno. apply length_zero_iff_nil. rewrite L6, requested_nil by exact Hno. reflexivity.
  - intros Hall. rewrite L4, L6, !(requested_all_regions cfg c _ Hc Hall), !length_map.
    split; reflexivity.
Qed.

Lemma get_ranges_for_service_every_service_witness :
  get_ranges_for_service three_services_feed
    {| Services := [ {| Name := "S3"; Regions := None;
                        PrefixList := None; WafIPSet := None |} ] |} = Raise KeyError
  /\ exists out,
       get_ranges_for_service three_services_feed three_services = Ok out
       /\ forall c, In c (Services three_services) ->
            exists r, Dict.get out (Name c) = Some r
              /\ length (ip_list (ipv4 r))
                 = length (requested three_services (Name c) (prefixes three_services_feed))
              /\ length (ip_list (ipv6 r))
                 = length (requested three_services (Name c)
                             (ipv6_prefixes three_services_feed))
              /\ ((forall p, In p (prefixes three_services_feed) -> service p = Name c ->
                              ~ wanted three_services p) ->
                  ip_list (ipv4 r) = [])
              /\ ((forall p, In p (ipv6_prefixes three_services_feed) ->
                              service p = Name c -> ~ wanted three_services p) ->
                  ip_list (ipv6 r) = [])
              /\ (Regions c = Some [] ->
                  length (ip_list (ipv4 r))
                  = length (List.filter (fun p => String.eqb (service p) (Name c))
                              (prefixes three_services_feed))
                  /\ length (ip_list (ipv6 r))
                     = length (List.filter (fun p => String.eqb (service p) (Name c))
                                 (ipv6_prefixes three_services_feed))).
Proof.
  split.
  - apply (proj1 (get_ranges_for_service_every_service three_services_feed
                    {| Services := [ {| Name := "S3"; Regions := None;
                                        PrefixList := None; WafIPSet := None |} ] |})).
    left. reflexivity.
  - apply (proj2 (get_ranges_for_service_every_service three_services_feed three_services)).
    + repeat constructor; simpl; discriminate.
    + repeat constructor; vm_compute; reflexivity.
    + repeat constructor; vm_compute; reflexivity.
    + repeat constructor; simpl; eexists; vm_compute; reflexivity.
    + repeat constructor; simpl; eexists; vm_compute; reflexivity.
Defined.

(** C3, the claim as stated fails: a descriptor without a [Regions] key
    makes the extractor raise [KeyError] (the code reads
    [config_service['Regions']] without a default) instead of accepting all
    regions.  It also raises, instead of returning the mapping, when a list
    of two prefixes, which gets sorted, holds a prefix that does not parse;
    when the key of a feed record (its service, a hyphen and its region) is
    the name of a configured service; and when that key is the key of
    another service and region ([S3-us] and [east-1] for [S3] in
    [us-east-1]). *)
Lemma get_ranges_for_service_absent_regions :
  get_ranges_for_service
    {| prefixes := []; ipv6_prefixes := [] |}
    {| Services := [ {| Name := "S3"; Regions := None;
                        PrefixList := None; WafIPSet := None |} ] |} = Raise KeyError
  /\ get_ranges_for_service
       {| prefixes := [ {| service := "S3"; region := "us-east-1"; ip_prefix := "10.0.1.0/24" |};
                        {| service := "S3"; region := "us-east-1"; ip_prefix := "10.0.0.1/24" |} ];
          ipv6_prefixes := [] |}
       {| Services := [ {| Name := "S3"; Regions := Some [];
                           PrefixList := None; WafIPSet := None |} ] |} = Raise ValueError
  /\ get_ranges_for_service
       {| prefixes := [ {| service := "S3"; region := "us-east-1"; ip_prefix := "10.0.1.0/24" |} ];
          ipv6_prefixes := [] |}
       {| Services := [ {| Name := "S3-us-east-1"; Regions := Some [];
                           PrefixList := None; WafIPSet := None |} ] |} = Raise KeyError
  /\ get_ranges_for_service
       {| prefixes := [ {| service := "S3-us"; region := "east-1";
                           ip_prefix := "10.0.1.0/24" |} ];
          ipv6_prefixes := [] |}
       {| Services := [ {| Name := "S3"; Regions := Some ["us-east-1"];
                           PrefixList := None; WafIPSet := None |} ] |} = Raise KeyError.
Proof. repeat split; vm_compute; reflexivity. Qed.

(** C4: the loop body tests the specific key [service-region] first, then
    the wildcard key [service], and appends the prefix to the range of the
    record's service when either is registered; a record that matches
    neither leaves the ranges as they are, without error.  In the result of
    the extractor, the list of a service and family is the sorted list of
    the prefixes of the records so selected, in particular of every record
    of a service configured with an empty region list, whatever its
    region. *)
Theorem get_ranges_for_service_lookup (ranges : IpRanges) (cfg : ConfigServices)
    (out : service_ranges_t) :
  get_ranges_for_service ranges cfg = Ok out ->
  (forall fam control sr p,
     is_Some (control !! (service p ++ "-" ++ region p)) ->
     match_prefix fam control sr p = append_prefix fam sr (service p) (ip_prefix p))
  /\ (forall fam control sr p,
        ~ is_Some (control !! (service p ++ "-" ++ region p)) ->
        is_Some (control !! service p) ->
        match_prefix fam control sr p = append_prefix fam sr (service p) (ip_prefix p))
  /\ (forall fam control sr p,
        ~ is_Some (control !! (service p ++ "-" ++ region p)) ->
        ~ is_Some (control !! service p) ->
        match_prefix fam control sr p = Ok sr)
  /\ lookup_spec ranges cfg out.
Proof.
  intros Hout. split; [|split; [|split]].
  - intros fam control sr p H1. unfold match_prefix.
    destruct (decide (is_Some (control !! (service p ++ "-" ++ region p)))); tauto.
  - intros fam control sr p H1 H2. unfold match_prefix.
    destruct (decide (is_Some (control !! (service p ++ "-" ++ region p)))); [tauto|].
    destruct (decide (is_Some (control !! service p))); tauto.
  - intros fam control sr p H1 H2. unfold match_prefix.
    destruct (decide (is_Some (control !! (service p ++ "-" ++ region p)))); [tauto|].
    destruct (decide (is_Some (control !! service p))); tauto.
  - destruct (get_ranges_for_service_Ok ranges cfg out Hout) as (control & Hc & Hkeys & Hlists).
    split; [exists control; split; assumption|].
    intros c p Hin Hregs Hname.
    assert (selected control p) as Hsel.
    { right. apply Hc. unfold lookup_keys. apply in_concat.
      exists [Name c]. split; [|rewrite Hname; left; reflexivity].
      apply in_map_iff. exists c. rewrite Hregs. auto. }
    assert (In (Name c) (Dict.keys out)) as Hk by (apply Hkeys, in_map; exact Hin).
    destruct (Dict.get out (Name c)) as [r|] eqn:Hg; [|apply dict_get_None in Hg; contradiction].
    destruct (Hlists _ _ Hg) as [S4 S6]. simpl in S4, S6.
    split; intros Hp; exists r; (split; [reflexivity|]).
    + apply IPv4List_sort_perm in S4 as [Hperm _]. simpl in Hperm.
      apply (Permutation_in _ (Permutation_sym Hperm)). apply attributed_In. eauto 6.
    + apply (IPv6List_sort_In _ _ (ip_prefix p) S6). simpl. apply attributed_In. eauto 6.
Qed.

Lemma get_ranges_for_service_lookup_witness :
  lookup_spec
    {| prefixes := [ {| service := "S3"; region := "us-east-1"; ip_prefix := "10.0.1.0/24" |};
                     {| service := "EC2"; region := "eu-west-1"; ip_prefix := "10.0.2.0/24" |};
                     {| service := "S3"; region := "eu-west-1"; ip_prefix := "10.0.0.0/24" |} ];
       ipv6_prefixes := [] |}
    {| Services := [ {| Name := "S3"; Regions := Some [];
                        PrefixList := None; WafIPSet := None |} ] |}
    [("S3", mkServiceIPRange (mkIPList ["10.0.0.0/24"; "10.0.1.0/24"] []) (mkIPList [] []))].
Proof.
  apply get_ranges_for_service_lookup. vm_compute. reflexivity.
Defined.

(** ** Resource Diff Engine *)

(** C1.  For an existing resource both [update_waf_ipset] and
    [update_prefix_list] compare networks, not strings: the networks to add
    are the parsed desired networks that are no key of the current entries,
    the networks to remove are the current keys that are not among the
    desired networks.  When both are empty the update returns [False]
    without any call after the read of the current entries, and the caller
    leaves its created and updated names as they are.  Otherwise
    [update_waf_ipset] calls [update_ip_set] next, with the whole desired
    address list.  And [update_prefix_list] calls
    [modify_managed_prefix_list] next: the capacity call when the capacity
    has to grow, else the content call with the first hundred entries to add
    and to remove; a delta of at most a hundred entries each way with room
    for it goes out whole in that one call, after which the tag is written
    and the update returns [True]; every [modify_managed_prefix_list] call
    carries no entries or a slice of the entries to add and to remove, which,
    when the update returns, have been sent entirely and exactly.  A caller
    appends the name to its updated names exactly when the update returned
    [True]. *)
Theorem delta_decides_update (client : Backend) :
  (forall current_entries network_list n,
      (In n (networks_to_add current_entries network_list)
       <-> In n network_list /\ ~ In n (Dict.keys current_entries))
      /\ (In n (networks_to_remove current_entries network_list)
          <-> In n (Dict.keys current_entries) /\ ~ In n network_list))
  /\ (forall ipset_name ipset_scope waf_ipset address_list network_list current_entries
             st st1,
      rmapM ip_network address_list = Ok network_list ->
      get_ip_set_entries client ipset_name ipset_scope (ipset_Id waf_ipset) st
        = (Ok current_entries, st1) ->
      if no_delta current_entries network_list
      then update_waf_ipset client ipset_name ipset_scope waf_ipset address_list st
           = (Ok false, st1)
      else exists res rest,
             update_waf_ipset client ipset_name ipset_scope waf_ipset address_list st
             = (res, add_events st1
                       (EvCall (waf_update_call ipset_name ipset_scope waf_ipset
                                  address_list)
                          (client (trace st1)
                             (waf_update_call ipset_name ipset_scope waf_ipset
                                address_list)) :: rest))
             /\ res <> Ok false)
  /\ (forall fuel prefix_list_name prefix_list address_list network_list current_entries
             st st1 res st',
      rmapM ip_network address_list = Ok network_list ->
      get_prefix_list_entries client fuel prefix_list_name (PrefixListId prefix_list)
        (Version prefix_list) st = (Ok current_entries, st1) ->
      update_prefix_list client fuel prefix_list_name prefix_list address_list st
        = (res, st') ->
      let adds := entries_to_add current_entries network_list in
      let removes := entries_to_remove current_entries network_list in
      let first_call :=
        first_delta_call prefix_list_name prefix_list address_list adds removes in
      if no_delta current_entries network_list
      then res = Ok false /\ st' = st1
      else res <> Ok false
           /\ (exists rest,
                 trace st'
                 = (trace st1 ++ EvCall first_call (client (trace st1) first_call)
                                 :: rest)%list)
           /\ (needs_resize prefix_list address_list adds = false ->
               (length adds <= 100)%nat -> (length removes <= 100)%nat ->
               (res, st')
               = single_call_update client prefix_list_name prefix_list adds removes st1)
           /\ exists evs,
                trace st' = (trace st1 ++ evs)%list
                /\ Forall (carries_only adds removes) (calls evs)
                /\ (res = Ok true ->
                    added_entries evs = adds /\ removed_entries evs = removes))
  /\ (forall waf_ipsets service_name ipset_scope should_summarize ipset_names ip_version
             address_list waf_ipset st st0 b st1,
      address_list_of service_name ip_version should_summarize st
        = (Ok (Some address_list), st0) ->
      waf_ipsets !! resource_name service_name ip_version = Some waf_ipset ->
      update_waf_ipset client (resource_name service_name ip_version) ipset_scope
        waf_ipset address_list st0 = (Ok b, st1) ->
      manage_waf_ipset_version client waf_ipsets service_name ipset_scope
        should_summarize ipset_names ip_version st
      = (Ok (reported ipset_names (resource_name service_name ip_version) b), st1))
  /\ (forall fuel vpc_prefix_lists ip_version base_prefix_list_name prefix_list_names
             index address_list_chunk prefix_list st b st1,
      vpc_prefix_lists !! chunk_name base_prefix_list_name index = Some prefix_list ->
      update_prefix_list client fuel (chunk_name base_prefix_list_name index) prefix_list
        address_list_chunk st = (Ok b, st1) ->
      manage_prefix_list_chunk client fuel vpc_prefix_lists ip_version
        base_prefix_list_name prefix_list_names (index, address_list_chunk) st
      = (Ok (reported prefix_list_names (chunk_name base_prefix_list_name index) b), st1)).
Proof.
  repeat apply conj.
  - intros. split; [apply networks_to_add_In|apply networks_to_remove_In].
  - intros name scope ipset al nl current st st1 Hparse Hget.
    rewrite (update_waf_ipset_delta _ _ _ _ _ _ _ _ _ Hparse Hget).
    destruct (no_delta current nl); [reflexivity|].
    unfold bind at 1. rewrite call_reply.
    destruct (client (trace st1) _) as [response|e]; cbn [reply_result].
    + unfold bind at 1. rewrite call_reply.
      destruct (client _ _) as [response'|e]; cbn [reply_result].
      * eexists _, [_]. rewrite add_events_app. split; [reflexivity|discriminate].
      * eexists _, [_]. rewrite add_events_app. split; [reflexivity|discriminate].
    + eexists _, []. split; [reflexivity|discriminate].
  - intros fuel name pl al nl current st st1 res st' Hparse Hget. cbv zeta.
    rewrite (update_prefix_list_no_delta _ _ _ _ _ _ _ _ _ Hparse Hget).
    destruct (no_delta current nl); [intros [= <- <-]; auto|].
    intros Hrun. split.
    { intros ->. apply apply_prefix_list_delta_Ok in Hrun as [[=] _]. }
    split; [exact (apply_prefix_list_delta_first _ _ _ _ _ _ _ _ _ Hrun)|].
    split.
    { intros Hneed Ha Hr. rewrite <- Hrun.
      apply apply_prefix_list_delta_single; assumption. }
    assert (Hem : emits (carries_only (entries_to_add current nl)
                           (entries_to_remove current nl))
                    (apply_prefix_list_delta client name pl al
                       (entries_to_add current nl) (entries_to_remove current nl))).
    { apply emits_apply_prefix_list_delta; intros; simpl; eauto. }
    destruct (Hem _ _ _ Hrun) as (evs & Htrace & Hcalls).
    exists evs. split; [exact Htrace|]. split; [exact Hcalls|].
    intros ->. apply apply_prefix_list_delta_Ok in Hrun as (_ & evs' & Htrace' & Ha & Hr).
    rewrite Htrace in Htrace'. apply app_inv_head in Htrace'. subst evs'. auto.
  - intros. eapply manage_waf_ipset_version_updates; eassumption.
  - intros. eapply manage_prefix_list_chunk_updates; eassumption.
Qed.

Lemma delta_decides_update_witness :
  let client := settled_backend [mkEntry "10.0.0.0/24" (Some DESCRIPTION);
                                 mkEntry "10.0.1.0/24" (Some DESCRIPTION)] in
  let waf_ipset :=
    {| ipset_Name := "aws-ip-ranges-s3-ipv4"; ipset_Id := "id-1";
       ipset_Description := DESCRIPTION; ipset_LockToken := "token-1";
       ipset_ARN := "arn-1" |} in
  let prefix_list :=
    {| PrefixListId := "pl-1"; PrefixListName := "aws-ip-ranges-s3-ipv4";
       MaxEntries := 10; Version := 7; State := "modify-complete";
       StateMessage := None |} in
  let read :=
    EvCall (get_managed_prefix_list_entries "pl-1" 7 None)
      (Returns (REntries [mkEntry "10.0.0.0/24" (Some DESCRIPTION);
                          mkEntry "10.0.1.0/24" (Some DESCRIPTION)] None)) in
  update_waf_ipset client "aws-ip-ranges-s3-ipv4" "REGIONAL" waf_ipset
    ["10.0.1.0/24"; "10.0.0.0/255.255.255.0"] initial_store
  = (Ok false,
     add_events initial_store
       [EvCall (get_ip_set "aws-ip-ranges-s3-ipv4" "REGIONAL" "id-1")
          (Returns (RIPSet ["10.0.0.0/24"; "10.0.1.0/24"]))])
  /\ update_prefix_list client 0 "aws-ip-ranges-s3-ipv4" prefix_list
       ["10.0.0.0/24"; "10.0.2.0/24"] initial_store
     = single_call_update client "aws-ip-ranges-s3-ipv4" prefix_list
         [mkEntry "10.0.2.0/24" (Some DESCRIPTION)] [mkEntry "10.0.1.0/24" None]
         (add_events initial_store [read])
  /\ exists res rest,
       let st1 :=
         add_events initial_store
           [EvCall (get_ip_set "aws-ip-ranges-s3-ipv4" "REGIONAL" "id-1")
              (Returns (RIPSet ["10.0.0.0/24"; "10.0.1.0/24"]))] in
       let c := waf_update_call "aws-ip-ranges-s3-ipv4" "REGIONAL" waf_ipset
                  ["10.0.0.0/24"] in
       update_waf_ipset client "aws-ip-ranges-s3-ipv4" "REGIONAL" waf_ipset
         ["10.0.0.0/24"] initial_store
       = (res, add_events st1 (EvCall c (client (trace st1) c) :: rest))
       /\ res <> Ok false.
Proof.
  intros client waf_ipset prefix_list read. split; [|split].
  3:{ refine (proj1 (proj2 (delta_decides_update client))
                "aws-ip-ranges-s3-ipv4" "REGIONAL" waf_ipset ["10.0.0.0/24"]
                [mkNetwork V4 167772160 24]
                [(mkNetwork V4 167772160 24, "10.0.0.0/24");
                 (mkNetwork V4 167772416 24, "10.0.1.0/24")]
                initial_store
                (add_events initial_store
                   [EvCall (get_ip_set "aws-ip-ranges-s3-ipv4" "REGIONAL" "id-1")
                      (Returns (RIPSet ["10.0.0.0/24"; "10.0.1.0/24"]))]) _ _).
      - vm_compute. reflexivity.
      - vm_compute. reflexivity. }
  - refine (proj1 (proj2 (delta_decides_update client))
              "aws-ip-ranges-s3-ipv4" "REGIONAL" waf_ipset
              ["10.0.1.0/24"; "10.0.0.0/255.255.255.0"]
              [mkNetwork V4 167772416 24; mkNetwork V4 167772160 24]
              [(mkNetwork V4 167772160 24, "10.0.0.0/24");
               (mkNetwork V4 167772416 24, "10.0.1.0/24")]
              initial_store
              (add_events initial_store
                 [EvCall (get_ip_set "aws-ip-ranges-s3-ipv4" "REGIONAL" "id-1")
                    (Returns (RIPSet ["10.0.0.0/24"; "10.0.1.0/24"]))]) _ _).
    + vm_compute. reflexivity.
    + vm_compute. reflexivity.
  - pose proof (proj1 (proj2 (proj2 (delta_decides_update client)))
                  0%nat "aws-ip-ranges-s3-ipv4" prefix_list ["10.0.0.0/24"; "10.0.2.0/24"]
                  [mkNetwork V4 167772160 24; mkNetwork V4 167772672 24]
                  [(mkNetwork V4 167772160 24, DESCRIPTION);
                   (mkNetwork V4 167772416 24, DESCRIPTION)]
                  initial_store (add_events initial_store [read])
                  (fst (update_prefix_list client 0 "aws-ip-ranges-s3-ipv4" prefix_list
                          ["10.0.0.0/24"; "10.0.2.0/24"] initial_store))
                  (snd (update_prefix_list client 0 "aws-ip-ranges-s3-ipv4" prefix_list
                          ["10.0.0.0/24"; "10.0.2.0/24"] initial_store))
                  ltac:(vm_compute; reflexivity) ltac:(vm_compute; reflexivity)
                  (surjective_pairing _)) as H.
    cbv zeta in H.
    destruct H as (_ & _ & H & _).
    rewrite (surjective_pairing (update_prefix_list _ _ _ _ _ _)).
    apply H; vm_compute; [reflexivity|lia|lia].
Defined.

(** ** Capacity and Chunking Planner *)

(** C6.  For a chunk size [C >= 1], [manage_prefix_list] does for each IP
    version, IPv4 first, what the specification says: it cuts the address
    list of the service, of length [L], into [ceil(L / C)] chunks, chunk [i]
    being the [C] elements from position [i * C] on (fewer at the end of
    the list), so that the chunks are consecutive and in order, none is
    empty or longer than [C] and every chunk but the last has exactly [C]
    elements; and it handles the chunks in order, chunk 0 under the base
    name and chunk [n] under the base name followed by [-continued-] and
    [n]: the prefix list of that name is updated when there is one and
    created otherwise.  So a run that returns reports as created, in order,
    exactly the names of the chunks that had no prefix list, and as updated
    only names of chunks that had one. *)
Theorem chunking (client : Backend) :
  (forall fuel vpc_prefix_lists service_name should_summarize chunk_size st,
      1 <= chunk_size ->
      manage_prefix_list client fuel vpc_prefix_lists service_name should_summarize
        chunk_size st
      = bind (version_chunked client fuel vpc_prefix_lists service_name should_summarize
                chunk_size (mkNames [] []) V4)
          (fun prefix_list_names =>
             version_chunked client fuel vpc_prefix_lists service_name should_summarize
               chunk_size prefix_list_names V6) st)
  /\ (forall chunk_size base_name (address_list : list string),
      1 <= chunk_size ->
      Z.of_nat (length (named_chunks chunk_size base_name address_list))
      = ceil_div (Z.of_nat (length address_list)) chunk_size
      /\ concat (map snd (named_chunks chunk_size base_name address_list)) = address_list
      /\ forall (i : nat) name chunk,
           named_chunks chunk_size base_name address_list !! i = Some (name, chunk) ->
           name = chunk_label base_name i
           /\ chunk = chunk_of chunk_size address_list i
           /\ (0 < length chunk <= Z.to_nat chunk_size)%nat
           /\ (S i < length (named_chunks chunk_size base_name address_list) ->
               length chunk = Z.to_nat chunk_size)%nat)
  /\ (forall a b, 0 < b -> b * (ceil_div a b - 1) < a <= b * ceil_div a b)
  /\ (forall fuel vpc_prefix_lists service_name should_summarize chunk_size st names st',
      1 <= chunk_size ->
      manage_prefix_list client fuel vpc_prefix_lists service_name should_summarize
        chunk_size st = (Ok names, st') ->
      exists address_list4 st4 st5 address_list6 st6,
        address_list_of service_name V4 should_summarize st = (Ok address_list4, st4)
        /\ service_ranges st5 = service_ranges st4
        /\ address_list_of service_name V6 should_summarize st5 = (Ok address_list6, st6)
        /\ let chunk_names :=
             (map fst (named_chunks chunk_size (resource_name service_name V4)
                         (default [] address_list4))
              ++ map fst (named_chunks chunk_size (resource_name service_name V6)
                            (default [] address_list6)))%list in
           created names
           = List.filter (fun name => bool_decide (vpc_prefix_lists !! name = None))
               chunk_names
           /\ sublist (updated names)
                (List.filter (fun name => bool_decide (is_Some (vpc_prefix_lists !! name)))
                   chunk_names)).
Proof.
  split; [|split; [|split]].
  - intros. apply manage_prefix_list_chunked. assumption.
  - intros. apply named_chunks_spec. assumption.
  - apply ceil_div_spec.
  - intros fuel vpl name summarize C st names st' HC Hrun.
    rewrite manage_prefix_list_chunked in Hrun by exact HC.
    apply bind_inv in Hrun as [(names4 & st5 & H4 & H6)|[(e & _ & [=])|[_ [=]]]].
    unfold version_chunked in H4, H6.
    apply bind_inv in H4 as [(al4 & st4 & Hal4 & H4)|[(e & _ & [=])|[_ [=]]]].
    apply bind_inv in H6 as [(al6 & st6 & Hal6 & H6)|[(e & _ & [=])|[_ [=]]]].
    apply chunks_handled_names in H4 as (Hc4 & (more4 & Hu4 & Hs4) & Hsr4).
    apply chunks_handled_names in H6 as (Hc6 & (more6 & Hu6 & Hs6) & _).
    exists al4, st4, st5, al6, st6. cbv zeta.
    split; [exact Hal4|]. split; [exact Hsr4|]. split; [exact Hal6|].
    rewrite !List.filter_app. split.
    + rewrite Hc6, Hc4. reflexivity.
    + rewrite Hu6, Hu4. simpl. apply sublist_app; assumption.
Qed.

Lemma chunking_witness :
  let st := mkStore [] [("S3", mkServiceIPRange
                                (mkIPList ["10.0.0.0/24"; "10.0.1.0/24"; "10.0.2.0/24";
                                           "10.0.3.0/24"; "10.0.4.0/24"] [])
                                (mkIPList [] []))]
              ∅ ∅ (mkResourceNames (mkNames [] []) (mkNames [] [])) in
  let names := mkNames ["aws-ip-ranges-s3-ipv4"; "aws-ip-ranges-s3-ipv4-continued-1";
                        "aws-ip-ranges-s3-ipv4-continued-2"] [] in
  let vpc_prefix_lists : gmap string PrefixListInfo := ∅ in
  exists address_list4 st4 st5 address_list6 st6,
    address_list_of "S3" V4 false st = (Ok address_list4, st4)
    /\ service_ranges st5 = service_ranges st4
    /\ address_list_of "S3" V6 false st5 = (Ok address_list6, st6)
    /\ let chunk_names :=
         (map fst (named_chunks 2 (resource_name "S3" V4) (default [] address_list4))
          ++ map fst (named_chunks 2 (resource_name "S3" V6) (default [] address_list6)))%list
       in
       created names
       = List.filter (fun name => bool_decide (vpc_prefix_lists !! name = None))
           chunk_names
       /\ sublist (updated names)
            (List.filter
               (fun name => bool_decide (is_Some (vpc_prefix_lists !! name)))
               chunk_names).
Proof.
  intros st names vpc_prefix_lists.
  apply (proj2 (proj2 (proj2 (chunking empty_backend))) 0%nat vpc_prefix_lists "S3" false 2
           st names
           (snd (manage_prefix_list empty_backend 0 vpc_prefix_lists "S3" false 2 st))).
  - lia.
  - vm_compute. reflexivity.
Defined.

(** A run of [manage_prefix_list] on five addresses with chunks of two, when
    no prefix list exists yet: three prefix lists are created, of two, two
    and one address, under the base name and the two derived names. *)
Example chunked_run :
  let st := mkStore [] [("S3", mkServiceIPRange
                                (mkIPList ["10.0.0.0/24"; "10.0.1.0/24"; "10.0.2.0/24";
                                           "10.0.3.0/24"; "10.0.4.0/24"] [])
                                (mkIPList [] []))]
              ∅ ∅ (mkResourceNames (mkNames [] []) (mkNames [] [])) in
  let run := manage_prefix_list empty_backend 0 ∅ "S3" false 2 st in
  fst run = Ok (mkNames ["aws-ip-ranges-s3-ipv4"; "aws-ip-ranges-s3-ipv4-continued-1";
                         "aws-ip-ranges-s3-ipv4-continued-2"] [])
  /\ omap (fun c => match c with
                    | create_managed_prefix_list name entries _ _ _ =>
                        Some (name, map Cidr entries)
                    | _ => None
                    end) (calls (trace (snd run)))
     = [("aws-ip-ranges-s3-ipv4", ["10.0.0.0/24"; "10.0.1.0/24"]);
        ("aws-ip-ranges-s3-ipv4-continued-1", ["10.0.2.0/24"; "10.0.3.0/24"]);
        ("aws-ip-ranges-s3-ipv4-continued-2", ["10.0.4.0/24"])].
Proof. vm_compute. split; reflexivity. Qed.

(** ** Convergence Controller *)

(** C7 (for an update that has at least one entry to add).  When
    [update_prefix_list] has entries to add and [MaxEntries] is smaller than
    the length of the desired list, the first call after the read of the
    current entries is the capacity call, which sets [MaxEntries] and
    carries no entries; only reads of the prefix list follow it while it is
    in progress; the first content call is made only once the capacity
    change is complete, and no capacity call follows it; when the capacity
    change fails the update raises without a content call.  And no call of
    [update_prefix_list], in any run, both sets [MaxEntries] and carries
    entries. *)
Theorem resize_before_content (client : Backend) :
  (forall fuel prefix_list_name prefix_list address_list network_list current_entries
          st st1 res st',
      rmapM ip_network address_list = Ok network_list ->
      get_prefix_list_entries client fuel prefix_list_name (PrefixListId prefix_list)
        (Version prefix_list) st = (Ok current_entries, st1) ->
      entries_to_add current_entries network_list <> [] ->
      MaxEntries prefix_list < Z.of_nat (length address_list) ->
      update_prefix_list client fuel prefix_list_name prefix_list address_list st
        = (res, st') ->
      resized_first client prefix_list_name prefix_list address_list
        (entries_to_add current_entries network_list)
        (entries_to_remove current_entries network_list) st1 res st')
  /\ (forall fuel prefix_list_name prefix_list address_list,
      emits separate
        (update_prefix_list client fuel prefix_list_name prefix_list address_list)).
Proof.
  split.
  - intros fuel name pl al nl current st st1 res st' Hparse Hget Hadd Hmax Hrun.
    rewrite (update_prefix_list_delta _ _ _ _ _ _ _ _ _ Hparse Hget) in Hrun.
    apply apply_prefix_list_delta_resized; [exact Hadd|exact Hmax|].
    destruct (entries_to_add current nl); [congruence|exact Hrun].
  - intros. apply emits_update_prefix_list; intros; reflexivity.
Qed.

Lemma resize_before_content_witness :
  let client := settled_backend [mkEntry "10.0.0.0/24" (Some DESCRIPTION)] in
  let prefix_list :=
    {| PrefixListId := "pl-1"; PrefixListName := "aws-ip-ranges-s3-ipv4";
       MaxEntries := 1; Version := 7; State := "modify-complete";
       StateMessage := None |} in
  let address_list := ["10.0.0.0/24"; "10.0.1.0/24"] in
  let network_list := [mkNetwork V4 167772160 24; mkNetwork V4 167772416 24] in
  let current_entries := [(mkNetwork V4 167772160 24, DESCRIPTION)] in
  let run := update_prefix_list client 0 "aws-ip-ranges-s3-ipv4" prefix_list address_list
               initial_store in
  resized_first client "aws-ip-ranges-s3-ipv4" prefix_list address_list
    (entries_to_add current_entries network_list)
    (entries_to_remove current_entries network_list)
    (add_events initial_store
       [EvCall (get_managed_prefix_list_entries "pl-1" 7 None)
          (Returns (REntries [mkEntry "10.0.0.0/24" (Some DESCRIPTION)] None))])
    (fst run) (snd run).
Proof.
  intros client prefix_list address_list network_list current_entries run.
  apply (proj1 (resize_before_content client) 0%nat "aws-ip-ranges-s3-ipv4" prefix_list
           address_list network_list current_entries initial_store).
  - vm_compute. reflexivity.
  - vm_compute. reflexivity.
  - vm_compute. discriminate.
  - vm_compute. reflexivity.
  - apply surjective_pairing.
Defined.

(** C7, the claim as stated fails: with [MaxEntries] 2 and a desired list
    of three entries (the same network three times), of which none is new
    while one current entry is to be removed, the update makes its content
    call with no capacity call before it. *)
Lemma content_update_without_resize :
  let client := settled_backend [mkEntry "10.0.0.0/24" (Some DESCRIPTION);
                                 mkEntry "10.0.1.0/24" (Some DESCRIPTION)] in
  let prefix_list :=
    {| PrefixListId := "pl-1"; PrefixListName := "aws-ip-ranges-s3-ipv4";
       MaxEntries := 2; Version := 7; State := "modify-complete";
       StateMessage := None |} in
  let address_list := ["10.0.0.0/24"; "10.0.0.0/24"; "10.0.0.0/24"] in
  let run := update_prefix_list client 0 "aws-ip-ranges-s3-ipv4" prefix_list address_list
               initial_store in
  MaxEntries prefix_list < Z.of_nat (length address_list)
  /\ fst run = Ok true
  /\ calls (trace (snd run))
     = [get_managed_prefix_list_entries "pl-1" 7 None;
        modify_managed_prefix_list "pl-1" (Some 7) "aws-ip-ranges-s3-ipv4" None
          (Some []) (Some [mkEntry "10.0.1.0/24" None]);
        create_tags ["pl-1"] [("UpdatedAt", TagNow)]].
Proof. vm_compute. repeat split. Qed.

(** C8 (with "terminal state" read as the state the loop stops at, a
    complete one).  Between two batched calls on a prefix list whose last
    response says it is in progress, [update_batch] and [create_batch] poll
    at most five times, sleeping 1, 3, 5, 7 and 9 seconds, until a read
    observes [modify-complete] (for creation also [create-complete]), and
    then make the next call.  When none of the five reads observes such a
    state the batch raises and makes no call; a batch loop raises exactly
    when one of its batches does, in the store that batch left, with no
    later batch run; and [update_prefix_list]'s content phase and
    [create_prefix_list] raise what their loop raises, without a further
    call. *)
Theorem polling_between_batches (client : Backend) :
  (forall entries_to_add entries_to_remove prefix_list index st res st',
      State prefix_list = "modify-in-progress" ->
      update_batch client entries_to_add entries_to_remove (RPrefixList prefix_list)
        index st = (res, st') ->
      batch_polled client ["modify-complete"] update_wait_msg
        (update_call entries_to_add entries_to_remove index) prefix_list st res st')
  /\ (forall prefix_list_entries prefix_list index st res st',
      State prefix_list ∈ ["create-in-progress"; "modify-in-progress"] ->
      create_batch client prefix_list_entries (RPrefixList prefix_list) index st
        = (res, st') ->
      batch_polled client ["create-complete"; "modify-complete"] create_wait_msg
        (create_call prefix_list_entries index) prefix_list st res st')
  /\ (forall entries_to_add entries_to_remove response indexes st e st',
      mfoldl (update_batch client entries_to_add entries_to_remove) response indexes st
        = (Raise e, st') <->
      exists before index after response1 st1,
        indexes = (before ++ index :: after)%list
        /\ mfoldl (update_batch client entries_to_add entries_to_remove) response before st
             = (Ok response1, st1)
        /\ update_batch client entries_to_add entries_to_remove response1 index st1
             = (Raise e, st'))
  /\ (forall prefix_list_entries response indexes st e st',
      mfoldl (create_batch client prefix_list_entries) response indexes st
        = (Raise e, st') <->
      exists before index after response1 st1,
        indexes = (before ++ index :: after)%list
        /\ mfoldl (create_batch client prefix_list_entries) response before st
             = (Ok response1, st1)
        /\ create_batch client prefix_list_entries response1 index st1 = (Raise e, st'))
  /\ (forall prefix_list_name prefix_list address_list entries_to_add entries_to_remove
             st version st1 response e st2,
      ensure_capacity client prefix_list_name prefix_list address_list entries_to_add st
        = (Ok version, st1) ->
      client (trace st1) (first_update_call prefix_list_name prefix_list version
                            entries_to_add entries_to_remove) = Returns response ->
      mfoldl (update_batch client entries_to_add entries_to_remove) response
        (update_indexes entries_to_add entries_to_remove)
        (add_events st1 [EvCall (first_update_call prefix_list_name prefix_list version
                                   entries_to_add entries_to_remove) (Returns response)])
        = (Raise e, st2) ->
      apply_prefix_list_delta client prefix_list_name prefix_list address_list
        entries_to_add entries_to_remove st = (Raise e, st2))
  /\ (forall prefix_list_name prefix_list_ip_version address_list st response e st2,
      client (trace st) (first_create_call prefix_list_name prefix_list_ip_version
                           address_list) = Returns response ->
      mfoldl (create_batch client (created_entries address_list)) response
        (create_indexes address_list)
        (add_events st [EvCall (first_create_call prefix_list_name prefix_list_ip_version
                                  address_list) (Returns response)])
        = (Raise e, st2) ->
      create_prefix_list client prefix_list_name prefix_list_ip_version address_list st
        = (Raise e, st2)).
Proof.
  repeat apply conj.
  - intros adds rems pl index st res st' Hstate Hrun.
    apply update_batch_spec in Hrun. eapply batch_run_polled; [|exact Hrun].
    rewrite Hstate. set_solver.
  - intros entries pl index st res st' Hstate Hrun.
    apply create_batch_spec in Hrun. eapply batch_run_polled; [exact Hstate|exact Hrun].
  - intros. apply mfoldl_Raise.
  - intros. apply mfoldl_Raise.
  - intros. eapply apply_prefix_list_delta_loop_raises; eassumption.
  - intros. eapply create_prefix_list_loop_raises; eassumption.
Qed.

Lemma polling_between_batches_witness :
  let prefix_list :=
    {| PrefixListId := "pl-1"; PrefixListName := "aws-ip-ranges-s3-ipv4";
       MaxEntries := 200; Version := 1; State := "modify-in-progress";
       StateMessage := None |} in
  let run := update_batch (stuck_backend "modify-complete")
               [mkEntry "10.0.0.0/24" (Some DESCRIPTION)] [] (RPrefixList prefix_list) 100
               initial_store in
  batch_polled (stuck_backend "modify-complete") ["modify-complete"] update_wait_msg
    (update_call [mkEntry "10.0.0.0/24" (Some DESCRIPTION)] [] 100)
    prefix_list initial_store (fst run) (snd run).
Proof.
  intros prefix_list run.
  apply (proj1 (polling_between_batches (stuck_backend "modify-complete"))).
  - reflexivity.
  - apply surjective_pairing.
Defined.

(** C8, the claim as stated fails: [modify-failed] is a terminal state, yet
    a batch that reads it at its first poll keeps polling, sleeping 1, 3, 5,
    7 and 9 seconds and reading [modify-failed] five times, before it
    raises. *)
Lemma polling_continues_after_failed_state :
  let prefix_list :=
    {| PrefixListId := "pl-1"; PrefixListName := "aws-ip-ranges-s3-ipv4";
       MaxEntries := 200; Version := 1; State := "modify-in-progress";
       StateMessage := None |} in
  let run := update_batch (stuck_backend "modify-failed")
               [mkEntry "10.0.0.0/24" (Some DESCRIPTION)] [] (RPrefixList prefix_list) 100
               initial_store in
  fst run = Raise (Exception update_wait_msg)
  /\ sleeps (trace (snd run)) = [1; 3; 5; 7; 9]
  /\ observed_states (trace (snd run))
     = ["modify-failed"; "modify-failed"; "modify-failed"; "modify-failed"; "modify-failed"]
  /\ calls (trace (snd run)) = replicate 5 (describe_by_id "pl-1").
Proof. vm_compute. repeat split. Qed.

(** C9.  Every snapshot a listing returns is complete.  [list_waf_ipset],
    [list_prefix_lists] and [get_prefix_list_entries] return only after a
    chain of calls that starts without a token, follows the token of each
    page and ends at a page without one, and what they return is built from
    the items of all these pages; given such a chain of answers and enough
    fuel for its length they do return it.  [get_ip_set] answers with the
    whole set in one response, which carries no token, and
    [get_ip_set_entries] returns the snapshot of all its addresses.  When
    the read of the current entries does not return a snapshot, neither
    update function returns: no delta is computed from a part of the
    entries. *)
Theorem snapshots_are_complete (client : Backend) :
  (forall fuel ipset_scope st out st',
      list_waf_ipset client fuel ipset_scope st = (Ok out, st') ->
      exists evs items,
        st' = add_events st evs
        /\ paged (list_ip_sets ipset_scope) ip_sets_page None evs items
        /\ out = index_ip_sets ∅ items)
  /\ (forall fuel ipset_scope st evs items,
      paged (list_ip_sets ipset_scope) ip_sets_page None evs items ->
      answered client (trace st) evs ->
      (length evs <= fuel)%nat ->
      list_waf_ipset client fuel ipset_scope st
      = (Ok (index_ip_sets ∅ items), add_events st evs))
  /\ (forall fuel st out st',
      list_prefix_lists client fuel st = (Ok out, st') ->
      exists evs items,
        st' = add_events st evs
        /\ paged (describe_managed_prefix_lists None) prefix_lists_page None evs items
        /\ out = index_prefix_lists ∅ items)
  /\ (forall fuel st evs items,
      paged (describe_managed_prefix_lists None) prefix_lists_page None evs items ->
      answered client (trace st) evs ->
      (length evs <= fuel)%nat ->
      list_prefix_lists client fuel st
      = (Ok (index_prefix_lists ∅ items), add_events st evs))
  /\ (forall fuel prefix_list_name prefix_list_id prefix_list_version st out st',
      get_prefix_list_entries client fuel prefix_list_name prefix_list_id
        prefix_list_version st = (Ok out, st') ->
      exists evs items,
        st' = add_events st evs
        /\ paged (get_managed_prefix_list_entries prefix_list_id prefix_list_version)
             entries_page None evs items
        /\ add_entries [] items = Ok out)
  /\ (forall fuel prefix_list_name prefix_list_id prefix_list_version st evs items out,
      paged (get_managed_prefix_list_entries prefix_list_id prefix_list_version)
        entries_page None evs items ->
      answered client (trace st) evs ->
      add_entries [] items = Ok out ->
      (length evs <= S fuel)%nat ->
      get_prefix_list_entries client fuel prefix_list_name prefix_list_id
        prefix_list_version st = (Ok out, add_events st evs))
  /\ (forall ipset_name ipset_scope ipset_id st out st',
      get_ip_set_entries client ipset_name ipset_scope ipset_id st = (Ok out, st') ->
      exists addresses,
        st' = add_events st [EvCall (get_ip_set ipset_name ipset_scope ipset_id)
                               (Returns (RIPSet addresses))]
        /\ client (trace st) (get_ip_set ipset_name ipset_scope ipset_id)
           = Returns (RIPSet addresses)
        /\ read_addresses addresses = Ok out)
  /\ (forall ipset_name ipset_scope ipset_id st addresses out,
      client (trace st) (get_ip_set ipset_name ipset_scope ipset_id)
        = Returns (RIPSet addresses) ->
      read_addresses addresses = Ok out ->
      get_ip_set_entries client ipset_name ipset_scope ipset_id st
      = (Ok out, add_events st [EvCall (get_ip_set ipset_name ipset_scope ipset_id)
                                  (Returns (RIPSet addresses))]))
  /\ (forall fuel prefix_list_name prefix_list address_list st res st',
      get_prefix_list_entries client fuel prefix_list_name (PrefixListId prefix_list)
        (Version prefix_list) st = (res, st') ->
      (forall current_entries, res <> Ok current_entries) ->
      exists res',
        (forall b, res' <> Ok b)
        /\ (update_prefix_list client fuel prefix_list_name prefix_list address_list st
            = (res', st')
            \/ update_prefix_list client fuel prefix_list_name prefix_list address_list st
               = (res', st)))
  /\ (forall ipset_name ipset_scope waf_ipset address_list st res st',
      get_ip_set_entries client ipset_name ipset_scope (ipset_Id waf_ipset) st
        = (res, st') ->
      (forall current_entries, res <> Ok current_entries) ->
      exists res',
        (forall b, res' <> Ok b)
        /\ (update_waf_ipset client ipset_name ipset_scope waf_ipset address_list st
            = (res', st')
            \/ update_waf_ipset client ipset_name ipset_scope waf_ipset address_list st
               = (res', st))).
Proof.
  repeat apply conj.
  - apply list_waf_ipset_complete.
  - apply list_waf_ipset_total.
  - apply list_prefix_lists_complete.
  - apply list_prefix_lists_total.
  - apply get_prefix_list_entries_complete.
  - apply get_prefix_list_entries_total.
  - apply get_ip_set_entries_complete.
  - apply get_ip_set_entries_total.
  - apply update_prefix_list_needs_entries.
  - apply update_waf_ipset_needs_entries.
Qed.

Lemma snapshots_are_complete_witness :
  list_waf_ipset paging_backend 2 "REGIONAL" initial_store
  = (Ok (index_ip_sets ∅ [first_ip_set; second_ip_set]),
     add_events initial_store
       [EvCall (list_ip_sets "REGIONAL" None)
          (Returns (RIPSets [first_ip_set] (Some "page-2")));
        EvCall (list_ip_sets "REGIONAL" (Some "page-2"))
          (Returns (RIPSets [second_ip_set] None))]).
Proof.
  apply (proj1 (proj2 (snapshots_are_complete paging_backend))).
  - apply (paged_more _ _ None _ [first_ip_set] "page-2" _ [second_ip_set]);
      [reflexivity|]. apply paged_last. reflexivity.
  - simpl. auto.
  - simpl. lia.
Defined.

(** ** Failure isolation *)

(** C2 (as amended).  An error before the resources are touched (the
    configuration, the message, the download or the extraction raises) is
    logged and raised again by [lambda_handler], with no call made and no
    result.  After the setup, when the configuration has the keys the
    handler reads outside its inner [try] blocks, a run of [lambda_handler]
    that does not diverge makes every attempt the configuration asks for,
    the prefix lists of each service and then the IP sets of each service
    and scope, each from the store the previous attempt left: the names an
    attempt returned are added to the names to report, the error an attempt
    raised is logged, and the next attempt follows in both cases.  The
    result is the names returned by the attempts that returned, so each of
    them is reported, and nothing is reported for an attempt that raised.
    When a key read outside the inner [try] blocks is missing, the run ends
    with [KeyError], logged last, and no result.  A run does come to an
    end, whatever the configuration, when no listing of the backend is
    continued on a further page. *)
Theorem failure_isolation (client : Backend) (fuel : nat) :
  (forall setup st e,
      setup_phase setup = Raise e ->
      lambda_handler client fuel setup st = (Raise e, add_events st [EvLogException e]))
  /\ (forall setup st config_services sr res st',
      setup_config setup = Ok config_services ->
      setup_phase setup = Ok sr ->
      keyed config_services = true ->
      lambda_handler client fuel setup st = (res, st') ->
      res = OutOfFuel
      \/ exists outcomes1 st1 outcomes2,
           let attempts := (prefix_list_attempts config_services
                            ++ waf_ipset_attempts config_services)%list in
           let outcomes := (outcomes1 ++ outcomes2)%list in
           isolated client fuel (prefix_list_attempts config_services)
             (first_loop_store st sr) outcomes1 st1
           /\ isolated client fuel (waf_ipset_attempts config_services)
                (second_loop_store st1) outcomes2 st'
           /\ res = Ok (collected attempts outcomes empty_names)
           /\ forall a names,
                In (a, Ok names) (zip attempts outcomes) ->
                (forall n, In n (created names) ->
                   In n (created (names_for a (collected attempts outcomes empty_names))))
                /\ (forall n, In n (updated names) ->
                      In n (updated (names_for a
                                       (collected attempts outcomes empty_names)))))
  /\ (forall setup st config_services sr res st',
      setup_config setup = Ok config_services ->
      setup_phase setup = Ok sr ->
      keyed config_services = false ->
      lambda_handler client fuel setup st = (res, st') ->
      res = OutOfFuel
      \/ (res = Raise KeyError /\ last (trace st') = Some (EvLogException KeyError)))
  /\ (forall setup st res st',
      unpaged client ->
      (1 <= fuel)%nat ->
      setup_phase setup <> OutOfFuel ->
      lambda_handler client fuel setup st = (res, st') ->
      res <> OutOfFuel).
Proof.
  split; [apply lambda_handler_setup_fails|]. split; [|split].
  - intros setup st cs sr res st' Hcs Hsetup Hkeyed.
    rewrite (lambda_handler_after_setup client fuel setup st cs sr Hcs Hsetup).
    unfold try_except.
    destruct (manage_resources client fuel cs sr st) as [res1 st1] eqn:Hrun.
    apply manage_resources_outcome in Hrun;
      [|exact (setup_phase_services setup cs sr Hcs Hsetup)].
    destruct Hrun as [->|[(_ & outcomes1 & st2 & outcomes2 & H1 & H2 & ->)|(Hk & _)]];
      [intros [= <- <-]; left; reflexivity| |congruence].
    intros [= <- <-]. right. exists outcomes1, st2, outcomes2. cbv zeta.
    split; [exact H1|]. split; [exact H2|]. split; [reflexivity|].
    intros a names Hin. apply collected_reports. exact Hin.
  - intros setup st cs sr res st' Hcs Hsetup Hkeyed.
    rewrite (lambda_handler_after_setup client fuel setup st cs sr Hcs Hsetup).
    unfold try_except.
    destruct (manage_resources client fuel cs sr st) as [res1 st1] eqn:Hrun.
    apply manage_resources_outcome in Hrun;
      [|exact (setup_phase_services setup cs sr Hcs Hsetup)].
    destruct Hrun as [->|[(Hk & _)|(_ & ->)]];
      [intros [= <- <-]; left; reflexivity|congruence|].
    unfold bind, log_exception, record, raise. intros [= <- <-]. right.
    split; [reflexivity|]. cbn [trace]. apply last_snoc.
  - intros setup st res st' Hunpaged Hfuel Hsetup.
    exact (finishes_lambda_handler client Hunpaged fuel setup Hfuel Hsetup st res st').
Qed.

Lemma failure_isolation_witness :
  let run := lambda_handler half_failing_backend 1 two_service_setup initial_store in
  let attempts :=
    [PrefixListAttempt "S3" {| pl_Enable := Some true; pl_Summarize := Some false;
                               pl_ChunkSize := None |};
     PrefixListAttempt "EC2" {| pl_Enable := Some true; pl_Summarize := Some false;
                                pl_ChunkSize := None |}] in
  let aborted := lambda_handler empty_backend 1 unkeyed_setup initial_store in
  (fst run = Ok (mkResourceNames (mkNames ["aws-ip-ranges-ec2-ipv4"] []) (mkNames [] []))
   /\ (fst run = OutOfFuel
       \/ exists outcomes1 st1 outcomes2,
            isolated half_failing_backend 1 attempts
              (first_loop_store initial_store
                 [("S3", mkServiceIPRange (mkIPList ["10.0.0.0/24"] [])
                           (mkIPList ["2600:1f00::/24"] []));
                  ("EC2", mkServiceIPRange (mkIPList ["10.1.0.0/24"] []) (mkIPList [] []))])
              outcomes1 st1
            /\ isolated half_failing_backend 1 [] (second_loop_store st1) outcomes2 (snd run)
            /\ fst run = Ok (collected (attempts ++ []) (outcomes1 ++ outcomes2) empty_names)
            /\ forall a names,
                 In (a, Ok names) (zip (attempts ++ []) (outcomes1 ++ outcomes2)) ->
                 (forall n, In n (created names) ->
                    In n (created (names_for a
                                     (collected (attempts ++ []) (outcomes1 ++ outcomes2)
                                        empty_names))))
                 /\ (forall n, In n (updated names) ->
                       In n (updated (names_for a
                                        (collected (attempts ++ []) (outcomes1 ++ outcomes2)
                                           empty_names))))))
  /\ (fst aborted = OutOfFuel
      \/ (fst aborted = Raise KeyError
          /\ last (trace (snd aborted)) = Some (EvLogException KeyError)))
  /\ lambda_handler empty_backend 1
       {| setup_config := setup_config one_service_setup;
          setup_message := Raise KeyError;
          setup_ip_ranges := setup_ip_ranges one_service_setup |} initial_store
     = (Raise KeyError, add_events initial_store [EvLogException KeyError])
  /\ fst run <> OutOfFuel.
Proof.
  intros run attempts aborted.
  split; [split; [vm_compute; reflexivity|]|split; [|split]].
  - apply (proj1 (proj2 (failure_isolation half_failing_backend 1)) two_service_setup
             initial_store
             {| Services :=
                  [ {| Name := "S3"; Regions := Some [];
                       PrefixList := Some {| pl_Enable := Some true;
                                             pl_Summarize := Some false;
                                             pl_ChunkSize := None |};
                       WafIPSet := None |};
                    {| Name := "EC2"; Regions := Some [];
                       PrefixList := Some {| pl_Enable := Some true;
                                             pl_Summarize := Some false;
                                             pl_ChunkSize := None |};
                       WafIPSet := None |} ] |}).
    + reflexivity.
    + vm_compute. reflexivity.
    + reflexivity.
    + apply surjective_pairing.
  - apply (proj1 (proj2 (proj2 (failure_isolation empty_backend 1))) unkeyed_setup
             initial_store
             {| Services :=
                  [ {| Name := "S3"; Regions := Some [];
                       PrefixList := Some {| pl_Enable := Some true;
                                             pl_Summarize := Some false;
                                             pl_ChunkSize := None |};
                       WafIPSet := None |};
                    {| Name := "EC2"; Regions := Some [];
                       PrefixList := Some {| pl_Enable := None;
                                             pl_Summarize := Some false;
                                             pl_ChunkSize := None |};
                       WafIPSet := None |} ] |}
             [("S3", mkServiceIPRange (mkIPList ["10.0.0.0/24"] [])
                       (mkIPList ["2600:1f00::/24"] []));
              ("EC2", mkServiceIPRange (mkIPList ["10.1.0.0/24"] []) (mkIPList [] []))]).
    + reflexivity.
    + vm_compute. reflexivity.
    + reflexivity.
    + apply surjective_pairing.
  - apply (proj1 (failure_isolation empty_backend 1)). reflexivity.
  - apply (proj2 (proj2 (proj2 (failure_isolation half_failing_backend 1)))
             two_service_setup initial_store (fst run) (snd run)).
    + intros history c r. destruct c; simpl; try destruct (String.eqb _ _);
        intros [= <-]; exact I.
    + lia.
    + vm_compute. discriminate.
    + apply surjective_pairing.
Defined.

(** C2, the claim as stated fails.  In the first run the creation of the
    IPv4 prefix list of the service succeeds and the creation of its IPv6
    prefix list fails: the error is logged and the run returns, but its
    result does not report the prefix list that was created.  In the second
    run the prefix list of the first service is created, then the handler
    reads the missing ['Enable'] of the second service outside its inner
    [try]: the [KeyError] is not caught at the service, the run is aborted
    and there is no result at all. *)
Lemma created_before_failure_not_reported :
  (let run := lambda_handler half_failing_backend 1 one_service_setup initial_store in
   fst run = Ok empty_names
   /\ omap (fun ev => match ev with
                      | EvCall (create_managed_prefix_list name _ _ _ _) (Returns _) =>
                          Some name
                      | _ => None
                      end) (trace (snd run))
      = ["aws-ip-ranges-s3-ipv4"]
   /\ omap (fun ev => match ev with
                      | EvCall (create_managed_prefix_list name _ _ _ _) (Throws e) =>
                          Some (name, e)
                      | _ => None
                      end) (trace (snd run))
      = [("aws-ip-ranges-s3-ipv6", ClientError)]
   /\ last (trace (snd run)) = Some (EvLogException ClientError))
  /\ (let run := lambda_handler empty_backend 1 unkeyed_setup initial_store in
      fst run = Raise KeyError
      /\ omap (fun ev => match ev with
                         | EvCall (create_managed_prefix_list name _ _ _ _) (Returns _) =>
                             Some name
                         | _ => None
                         end) (trace (snd run))
         = ["aws-ip-ranges-s3-ipv4"; "aws-ip-ranges-s3-ipv6"]
      /\ last (trace (snd run)) = Some (EvLogException KeyError)).
Proof. vm_compute. repeat split. Qed.

(** * Further properties of the code *)

(** ** The list classes *)

Lemma rmapM_keyed {A B} (f : A -> result B) (l : list (B * A)) :
  Forall (fun ka => f ka.2 = Ok ka.1) l -> rmapM f (map snd l) = Ok (map fst l).
Proof.
  induction 1 as [|[k a] l Hka _ IH]; simpl in *; [reflexivity|].
  rewrite Hka. simpl. rewrite IH. reflexivity.
Qed.

Lemma rmapM_keys l : forall keyed,
  rmapM (fun addr => rbind (IPv4.IPv4Network addr) (fun k => Ok (k, addr))) l = Ok keyed ->
  Forall (fun ka => IPv4.IPv4Network ka.2 = Ok ka.1) keyed.
Proof.
  induction l as [|x l IH]; simpl; intros keyed.
  - intros [= <-]. constructor.
  - intros H. apply rbind_Ok in H as (kx & Hx & H). apply rbind_Ok in H as (ks & Hks & [= <-]).
    apply rbind_Ok in Hx as (k & Hk & [= <-]). constructor; [exact Hk|exact (IH ks Hks)].
Qed.

Lemma sorted_keys_sorted {A} (l : list (Network * A)) :
  StronglySorted net_le (map fst (sorted (fun a b => net_ltb a.1 b.1) l)).
Proof.
  assert (H : StronglySorted (leb_of (fun a b : Network * A => net_ltb a.1 b.1))
                (sorted (fun a b => net_ltb a.1 b.1) l)).
  { apply sorted_sorted.
    - intros a b. apply net_ltb_asym.
    - intros a b c. apply net_le_trans. }
  induction H as [|x s Hs IH Hall]; simpl; constructor; [exact IH|].
  apply List.Forall_forall. intros k Hk. apply in_map_iff in Hk as (y & <- & Hy).
  apply net_le_iff. exact (proj1 (List.Forall_forall _ _) Hall y Hy).
Qed.

Lemma IPv4List_sort_sorted self self' :
  (1 < length (ip_list self))%nat ->
  IPv4List_sort self = Ok self' ->
  exists nets,
    rmapM IPv4.IPv4Network (ip_list self') = Ok nets /\ StronglySorted net_le nets.
Proof.
  intros Hlen. unfold IPv4List_sort. apply Nat.ltb_lt in Hlen. rewrite Hlen.
  intros H. apply rbind_Ok in H as (keyed & Hk & [= <-]). simpl.
  unfold sorted_by_key. eexists. split; [|apply (sorted_keys_sorted keyed)].
  apply rmapM_keyed. apply rmapM_keys in Hk.
  apply List.Forall_forall. intros ka Hin.
  apply (Permutation_in _ (sorted_perm _ keyed)) in Hin.
  exact (proj1 (List.Forall_forall _ _) Hk ka Hin).
Qed.

Lemma IPv4List_sort_raises self s e :
  (1 < length (ip_list self))%nat ->
  In s (ip_list self) -> IPv4.IPv4Network s = Raise e ->
  exists s' e',
    In s' (ip_list self) /\ IPv4.IPv4Network s' = Raise e' /\ IPv4List_sort self = Raise e'.
Proof.
  intros Hlen Hin Hs. unfold IPv4List_sort. apply Nat.ltb_lt in Hlen. rewrite Hlen.
  destruct (rmapM_Raise (fun addr => rbind (IPv4.IPv4Network addr) (fun k => Ok (k, addr)))
              (ip_list self) s e) as (s' & e' & Hin' & Hs' & Hr).
  - intros a. pose proof (IPv4Network_total a). destruct (IPv4.IPv4Network a); simpl; congruence.
  - exact Hin.
  - rewrite Hs. reflexivity.
  - exists s', e'. split; [exact Hin'|]. rewrite Hr. split; [|reflexivity].
    destruct (IPv4.IPv4Network s'); simpl in Hs'; congruence.
Qed.

Lemma IPv6List_sort_raises self s e :
  (1 < length (ip_list self))%nat ->
  In s (ip_list self) -> IPv6.IPv6Network s = Raise e ->
  exists s' e',
    In s' (ip_list self) /\ IPv6.IPv6Network s' = Raise e' /\ IPv6List_sort self = Raise e'.
Proof.
  intros Hlen Hin Hs. unfold IPv6List_sort. apply Nat.ltb_lt in Hlen. rewrite Hlen.
  destruct (rmapM_Raise IPv6.IPv6Network (ip_list self) s e IPv6Network_total Hin Hs)
    as (s' & e' & Hin' & Hs' & Hr).
  exists s', e'. rewrite Hr. auto.
Qed.

(** X1.  [IPv4List.sort] keeps the entries, text for text and as many times
    as they occur, and leaves the cache alone.  With two entries or more it
    parses every entry: the result is in ascending network order, and an
    entry that does not parse makes it raise.  With at most one entry
    nothing is parsed and the list is left as it is. *)
Theorem IPv4List_sort_spec (self : IPList) :
  ((length (ip_list self) <= 1)%nat -> IPv4List_sort self = Ok self)
  /\ (forall self',
      IPv4List_sort self = Ok self' ->
      Permutation (ip_list self') (ip_list self)
      /\ _summarized_ip_list self' = _summarized_ip_list self
      /\ ((1 < length (ip_list self))%nat ->
          exists nets,
            rmapM IPv4.IPv4Network (ip_list self') = Ok nets
            /\ StronglySorted net_le nets))
  /\ (forall s e,
      (1 < length (ip_list self))%nat ->
      In s (ip_list self) -> IPv4.IPv4Network s = Raise e ->
      exists s' e',
        In s' (ip_list self) /\ IPv4.IPv4Network s' = Raise e'
        /\ IPv4List_sort self = Raise e').
Proof.
  split; [|split].
  - apply (sort_list_short V4).
  - intros self' H. destruct (IPv4List_sort_perm _ _ H) as [Hp Hc].
    split; [exact Hp|]. split; [exact Hc|]. intros Hlen.
    exact (IPv4List_sort_sorted _ _ Hlen H).
  - apply IPv4List_sort_raises.
Qed.

Lemma IPv4List_sort_spec_witness :
  Permutation ["10.0.0.0/24"; "10.0.1.0/24"; "10.0.2.0/23"]
    ["10.0.1.0/24"; "10.0.2.0/23"; "10.0.0.0/24"]
  /\ [] = @nil string
  /\ ((1 < 3)%nat ->
      exists nets,
        rmapM IPv4.IPv4Network ["10.0.0.0/24"; "10.0.1.0/24"; "10.0.2.0/23"] = Ok nets
        /\ StronglySorted net_le nets).
Proof.
  apply (proj1 (proj2 (IPv4List_sort_spec
                         (mkIPList ["10.0.1.0/24"; "10.0.2.0/23"; "10.0.0.0/24"] [])))
           (mkIPList ["10.0.0.0/24"; "10.0.1.0/24"; "10.0.2.0/23"] [])).
  vm_compute. reflexivity.
Defined.

(** X2.  [IPv6List.sort] with two entries or more parses every entry and
    stores the networks in ascending order in their exploded form, so the
    texts change; an entry that does not parse makes it raise.  With at most
    one entry nothing is parsed and the entry keeps its text. *)
Theorem IPv6List_sort_spec (self : IPList) :
  ((length (ip_list self) <= 1)%nat -> IPv6List_sort self = Ok self)
  /\ (forall self',
      (1 < length (ip_list self))%nat ->
      IPv6List_sort self = Ok self' ->
      _summarized_ip_list self' = _summarized_ip_list self
      /\ exists nets sorted_list,
           rmapM IPv6.IPv6Network (ip_list self) = Ok nets
           /\ Permutation sorted_list nets
           /\ StronglySorted net_le sorted_list
           /\ ip_list self' = map IPv6.exploded sorted_list)
  /\ (forall s e,
      (1 < length (ip_list self))%nat ->
      In s (ip_list self) -> IPv6.IPv6Network s = Raise e ->
      exists s' e',
        In s' (ip_list self) /\ IPv6.IPv6Network s' = Raise e'
        /\ IPv6List_sort self = Raise e').
Proof.
  split; [|split].
  - apply (sort_list_short V6).
  - intros self' Hlen H. apply IPv6List_sort_Ok in H as [Hc [[Hle _]|(nets & Hn & Hl)]]; [lia|].
    split; [exact Hc|]. exists nets, (sorted net_ltb nets).
    split; [exact Hn|]. split; [apply sorted_perm|]. split; [apply sorted_net_sorted|exact Hl].
  - apply IPv6List_sort_raises.
Qed.

Lemma IPv6List_sort_spec_witness :
  [] = @nil string
  /\ exists nets sorted_list,
       rmapM IPv6.IPv6Network ["2600:1f01::/32"; "2600:1f00::/32"] = Ok nets
       /\ Permutation sorted_list nets
       /\ StronglySorted net_le sorted_list
       /\ ["2600:1f00:0000:0000:0000:0000:0000:0000/32";
           "2600:1f01:0000:0000:0000:0000:0000:0000/32"]
          = map IPv6.exploded sorted_list.
Proof.
  apply (proj1 (proj2 (IPv6List_sort_spec
                         (mkIPList ["2600:1f01::/32"; "2600:1f00::/32"] [])))
           (mkIPList ["2600:1f00:0000:0000:0000:0000:0000:0000/32";
                      "2600:1f01:0000:0000:0000:0000:0000:0000/32"] [])).
  - simpl. lia.
  - vm_compute. reflexivity.
Defined.

Lemma summarized_again v self out self' :
  summarized v self = Ok (out, self') ->
  ip_list self' = ip_list self /\ summarized v self' = Ok (out, self').
Proof.
  intros H.
  assert (Hcases : self' = self \/ (_summarized_ip_list self = []
                                    /\ self' = mkIPList (ip_list self) out)).
  { destruct v; simpl in H; unfold IPv4List_summarized, IPv6List_summarized in H;
      destruct (_summarized_ip_list self) eqn:Hc; try (injection H as <- <-; auto; fail).
    - destruct (length (ip_list self) =? 1)%nat; [injection H as <- <-; auto|].
      apply rbind_Ok in H as (nets & _ & H). apply rbind_Ok in H as (c & _ & [= <- <-]).
      auto.
    - apply rbind_Ok in H as (nets & _ & H). apply rbind_Ok in H as (c & _ & [= <- <-]).
      auto. }
  destruct Hcases as [->|[Hc ->]]; [auto|]. split; [reflexivity|].
  destruct out as [|x out]; [|destruct v; reflexivity].
  destruct self as [l c]. simpl in Hc. subst c. exact H.
Qed.

(** X3.  [summarized()] caches what it computes: a second call on the same
    object returns the same list and changes nothing, and the entries are
    left as they were.  A cache that is not empty is returned as it is,
    whatever the entries are by then: nothing is parsed, nothing raises. *)
Theorem summarized_cached (v : version) :
  (forall self out self',
      summarized v self = Ok (out, self') ->
      ip_list self' = ip_list self /\ summarized v self' = Ok (out, self'))
  /\ (forall l cached,
      cached <> [] ->
      summarized v (mkIPList l cached) = Ok (cached, mkIPList l cached)).
Proof.
  split.
  - apply summarized_again.
  - intros l cached Hc. destruct cached; [congruence|]. destruct v; reflexivity.
Qed.

Lemma summarized_cached_witness :
  ip_list (mkIPList ["10.0.0.0/25"; "10.0.0.128/25"] ["10.0.0.0/24"])
  = ip_list (mkIPList ["10.0.0.0/25"; "10.0.0.128/25"] [])
  /\ summarized V4 (mkIPList ["10.0.0.0/25"; "10.0.0.128/25"] ["10.0.0.0/24"])
     = Ok (["10.0.0.0/24"], mkIPList ["10.0.0.0/25"; "10.0.0.128/25"] ["10.0.0.0/24"]).
Proof.
  apply (proj1 (summarized_cached V4) (mkIPList ["10.0.0.0/25"; "10.0.0.128/25"] [])).
  vm_compute. reflexivity.
Defined.

(** ** The extractor *)

(** X4.  The keys of the mapping [get_ranges_for_service] returns are the
    configured service names and nothing else, each of them once, however
    often the configuration names a service. *)
Theorem get_ranges_for_service_keys (ranges : IpRanges) (cfg : ConfigServices)
    (out : service_ranges_t) :
  get_ranges_for_service ranges cfg = Ok out ->
  NoDup (Dict.keys out)
  /\ forall name, In name (Dict.keys out) <-> In name (map Name (Services cfg)).
Proof.
  intros H. split; [eapply get_ranges_for_service_nodup; exact H|].
  destruct (get_ranges_for_service_Ok _ _ _ H) as (control & _ & Hkeys & _). exact Hkeys.
Qed.

Lemma get_ranges_for_service_keys_witness :
  NoDup (Dict.keys [("S3", mkServiceIPRange (mkIPList ["10.0.1.0/24"] []) (mkIPList [] []))])
  /\ forall name,
       In name (Dict.keys [("S3", mkServiceIPRange (mkIPList ["10.0.1.0/24"] [])
                                    (mkIPList [] []))])
       <-> In name (map Name [ {| Name := "S3"; Regions := Some ["us-east-1"; "eu-west-1"];
                                  PrefixList := None; WafIPSet := None |};
                               {| Name := "S3"; Regions := Some [];
                                  PrefixList := None; WafIPSet := None |} ]).
Proof.
  apply (get_ranges_for_service_keys
           {| prefixes := [ {| service := "S3"; region := "us-east-1";
                               ip_prefix := "10.0.1.0/24" |} ];
              ipv6_prefixes := [] |}
           {| Services := [ {| Name := "S3"; Regions := Some ["us-east-1"; "eu-west-1"];
                               PrefixList := None; WafIPSet := None |};
                            {| Name := "S3"; Regions := Some [];
                               PrefixList := None; WafIPSet := None |} ] |}).
  vm_compute. reflexivity.
Defined.

(** X5.  When no service name holds a hyphen, the lists of a service in the
    result of [get_ranges_for_service] hold the prefixes of exactly the feed
    records of that service whose region the configuration asks for (any
    region when a descriptor of the service has an empty region list), one
    entry per record: the IPv4 list is a permutation of these prefixes, in
    ascending network order when there are two or more; the IPv6 list is
    their exploded forms in ascending order when there are two or more, and
    the prefix as the feed has it otherwise. *)
Theorem get_ranges_for_service_exact (ranges : IpRanges) (cfg : ConfigServices)
    (out : service_ranges_t) (name : string) (r : ServiceIPRange) :
  get_ranges_for_service ranges cfg = Ok out ->
  Forall (fun c => hyphen_free (Name c)) (Services cfg) ->
  Forall (fun p => hyphen_free (service p)) (prefixes ranges ++ ipv6_prefixes ranges)%list ->
  Dict.get out name = Some r ->
  Permutation (ip_list (ipv4 r)) (requested cfg name (prefixes ranges))
  /\ ((1 < length (requested cfg name (prefixes ranges)))%nat ->
      exists nets,
        rmapM IPv4.IPv4Network (ip_list (ipv4 r)) = Ok nets /\ StronglySorted net_le nets)
  /\ ((length (requested cfg name (ipv6_prefixes ranges)) <= 1)%nat ->
      ip_list (ipv6 r) = requested cfg name (ipv6_prefixes ranges))
  /\ ((1 < length (requested cfg name (ipv6_prefixes ranges)))%nat ->
      exists nets sorted_list,
        rmapM IPv6.IPv6Network (requested cfg name (ipv6_prefixes ranges)) = Ok nets
        /\ Permutation sorted_list nets
        /\ StronglySorted net_le sorted_list
        /\ ip_list (ipv6 r) = map IPv6.exploded sorted_list).
Proof.
  intros Hout Hcs Hfeed Hget.
  pose proof (get_ranges_for_service_regions _ _ _ Hout) as Hreg.
  destruct (get_ranges_for_service_Ok _ _ _ Hout) as (control & Hc & _ & Hlists).
  destruct (Hlists _ _ Hget) as [S4 S6]. apply Forall_app in Hfeed as [Hf4 Hf6].
  rewrite (attributed_requested cfg control name _ Hc Hreg Hcs Hf4) in S4.
  rewrite (attributed_requested cfg control name _ Hc Hreg Hcs Hf6) in S6.
  simpl in S4, S6. split; [|split; [|split]].
  - apply IPv4List_sort_perm in S4 as [Hp _]. exact Hp.
  - intros Hlen. exact (IPv4List_sort_sorted (mkIPList _ []) _ Hlen S4).
  - intros Hlen. rewrite (sort_list_short V6) in S6 by exact Hlen. injection S6 as <-.
    reflexivity.
  - intros Hlen. apply IPv6List_sort_Ok in S6 as [_ [[Hle _]|(nets & Hn & Hl)]];
      [simpl in Hle; lia|].
    exists nets, (sorted net_ltb nets). simpl in Hn.
    split; [exact Hn|]. split; [apply sorted_perm|]. split; [apply sorted_net_sorted|exact Hl].
Qed.

Lemma get_ranges_for_service_exact_witness :
  let cfg := {| Services := [ {| Name := "S3"; Regions := Some ["us-east-1"];
                                 PrefixList := None; WafIPSet := None |} ] |} in
  let feed := [ {| service := "S3"; region := "us-east-1"; ip_prefix := "10.0.1.0/24" |};
                {| service := "S3"; region := "eu-west-1"; ip_prefix := "10.0.2.0/24" |};
                {| service := "EC2"; region := "us-east-1"; ip_prefix := "10.0.3.0/24" |};
                {| service := "S3"; region := "us-east-1"; ip_prefix := "10.0.0.0/24" |} ] in
  let r := mkServiceIPRange (mkIPList ["10.0.0.0/24"; "10.0.1.0/24"] []) (mkIPList [] []) in
  Permutation (ip_list (ipv4 r)) (requested cfg "S3" feed)
  /\ ((1 < length (requested cfg "S3" feed))%nat ->
      exists nets,
        rmapM IPv4.IPv4Network (ip_list (ipv4 r)) = Ok nets /\ StronglySorted net_le nets)
  /\ ((length (requested cfg "S3" []) <= 1)%nat -> ip_list (ipv6 r) = requested cfg "S3" [])
  /\ ((1 < length (requested cfg "S3" []))%nat ->
      exists nets sorted_list,
        rmapM IPv6.IPv6Network (requested cfg "S3" []) = Ok nets
        /\ Permutation sorted_list nets
        /\ StronglySorted net_le sorted_list
        /\ ip_list (ipv6 r) = map IPv6.exploded sorted_list).
Proof.
  intros cfg feed r.
  apply (get_ranges_for_service_exact {| prefixes := feed; ipv6_prefixes := [] |} cfg
           [("S3", r)] "S3" r).
  - vm_compute. reflexivity.
  - repeat constructor.
  - repeat constructor.
  - reflexivity.
Defined.

(** ** The download *)

(** X6.  [get_ip_groups_json] returns a document exactly when the URL
    starts with [http] in any letter case, the download returns that
    document, and the expected hash is the MD5 of the document or the text
    [test-hash].  A URL that does not start with [http] is refused whatever
    the download would give; an error of the download is raised as it is;
    and a document whose MD5 differs raises instead of being returned. *)
Theorem get_ip_groups_json_spec (urlopen : string -> result string)
    (md5 : string -> string) (url expected_hash : string) :
  (forall ip_json,
      get_ip_groups_json urlopen md5 url expected_hash = Ok ip_json <->
      String.prefix "http" (Str.lower url) = true
      /\ urlopen url = Ok ip_json
      /\ (expected_hash = "test-hash" \/ md5 ip_json = expected_hash))
  /\ (String.prefix "http" (Str.lower url) = false ->
      get_ip_groups_json urlopen md5 url expected_hash
      = Raise (Exception ("Expecting an HTTP protocol URL, got " ++ dquote ++ url
                          ++ dquote)))
  /\ (forall e,
      String.prefix "http" (Str.lower url) = true -> urlopen url = Raise e ->
      get_ip_groups_json urlopen md5 url expected_hash = Raise e)
  /\ (forall ip_json,
      String.prefix "http" (Str.lower url) = true -> urlopen url = Ok ip_json ->
      expected_hash <> "test-hash" -> md5 ip_json <> expected_hash ->
      exists msg, get_ip_groups_json urlopen md5 url expected_hash = Raise (Exception msg)).
Proof.
  unfold get_ip_groups_json. split; [|split; [|split]].
  - intros ip_json. destruct (String.prefix "http" (Str.lower url)); simpl.
    2:{ split; [discriminate|intros [[=] _]]. }
    destruct (urlopen url) as [doc|e|]; simpl.
    2:{ split; [discriminate|intros (_ & [=] & _)]. }
    2:{ split; [discriminate|intros (_ & [=] & _)]. }
    destruct (String.eqb_spec expected_hash "test-hash") as [Ht|Ht].
    + split; [intros [= ->]; auto|intros (_ & [= ->] & _); reflexivity].
    + destruct (String.eqb_spec (md5 doc) expected_hash) as [Hm|Hm]; simpl.
      * split; [intros [= ->]; auto|intros (_ & [= ->] & _); reflexivity].
      * split; [discriminate|]. intros (_ & [= ->] & [?|?]); contradiction.
  - intros ->. reflexivity.
  - intros e -> ->. reflexivity.
  - intros ip_json -> -> Ht Hm. simpl.
    destruct (String.eqb_spec expected_hash "test-hash"); [contradiction|].
    destruct (String.eqb_spec (md5 ip_json) expected_hash); [contradiction|].
    simpl. eauto.
Qed.

Lemma get_ip_groups_json_spec_witness :
  get_ip_groups_json (fun _ => Ok "{}") (fun _ => "99914b932bd37a50b983c5e7c90ae93b")
    "ftp://ip-ranges.amazonaws.com/ip-ranges.json" "99914b932bd37a50b983c5e7c90ae93b"
  = Raise (Exception ("Expecting an HTTP protocol URL, got " ++ dquote
                      ++ "ftp://ip-ranges.amazonaws.com/ip-ranges.json" ++ dquote)).
Proof.
  apply (proj1 (proj2 (get_ip_groups_json_spec (fun _ => Ok "{}")
                         (fun _ => "99914b932bd37a50b983c5e7c90ae93b")
                         "ftp://ip-ranges.amazonaws.com/ip-ranges.json"
                         "99914b932bd37a50b983c5e7c90ae93b"))).
  reflexivity.
Defined.

(** ** The calls a run makes *)

Lemma emits_quiet P {A} (m : M A) :
  (forall st, trace (m st).2 = trace st) -> emits P m.
Proof.
  intros H st res st' Hm. exists []. specialize (H st). rewrite Hm in H. simpl in H.
  rewrite H, app_nil_r. auto.
Qed.

Lemma emits_get_store P : emits P get_store.
Proof. apply emits_nothing. reflexivity. Qed.

Lemma emits_out_of_fuel P {A} : emits P (@out_of_fuel A).
Proof. apply emits_nothing. reflexivity. Qed.

Lemma emits_set_service_ranges P sr : emits P (set_service_ranges sr).
Proof. apply emits_quiet. reflexivity. Qed.

Lemma emits_set_vpc_prefix_lists P m : emits P (set_vpc_prefix_lists m).
Proof. apply emits_quiet. reflexivity. Qed.

Lemma emits_set_waf_ipsets_by_scope P m : emits P (set_waf_ipsets_by_scope m).
Proof. apply emits_quiet. reflexivity. Qed.

Lemma emits_set_resource_names P rn : emits P (set_resource_names rn).
Proof. apply emits_quiet. reflexivity. Qed.

Lemma emits_log_exception P e : emits P (log_exception e).
Proof.
  intros st res st'. unfold log_exception. rewrite record_spec. intros [= _ <-].
  exists [EvLogException e]. simpl. auto.
Qed.

Lemma emits_try_except P {A} (body : M A) (handler : exn -> M A) :
  emits P body -> (forall e, emits P (handler e)) -> emits P (try_except body handler).
Proof.
  intros Hb Hh st res st' H. unfold try_except in H.
  destruct (body st) as [[a|e|] st1] eqn:Hbody;
    try (injection H as <- <-; exact (Hb _ _ _ Hbody)).
  destruct (Hb _ _ _ Hbody) as (evs1 & Ht1 & HP1).
  destruct (Hh e _ _ _ H) as (evs2 & Ht2 & HP2).
  exists (evs1 ++ evs2)%list. rewrite Ht2, Ht1, app_assoc, calls_app.
  split; [reflexivity|]. apply List.Forall_app. auto.
Qed.

Create HintDb emits discriminated.

#[export] Hint Resolve emits_ret emits_raise emits_lift emits_sleep emits_get_store
  emits_out_of_fuel emits_set_service_ranges emits_set_vpc_prefix_lists
  emits_set_waf_ipsets_by_scope emits_set_resource_names emits_log_exception
  emits_as_prefix_list emits_as_prefix_lists emits_as_entries : emits.

(** One step of a proof about the calls of a computation: through a bind, a
    loop or a [try], or by cases on what a [match] looks at; a call leaves
    the property of that call to prove. *)
Ltac emits_step :=
  lazymatch goal with
  | |- emits _ (bind _ _) => apply emits_bind; [|intros ?]
  | |- emits _ (mfoldl _ _ _) => apply emits_mfoldl; intros ? ?
  | |- emits _ (try_except _ _) => apply emits_try_except; [|intros ?]
  | |- emits _ (call _ _) => apply emits_call
  | |- emits _ (match ?x with _ => _ end) => destruct x
  | |- emits _ _ => solve [auto with emits]
  end.

Ltac emits_all := repeat emits_step.

Lemma slice_within_limit (l : list Entry) index :
  within_limit (Some (slice l index (index + 100))) = true.
Proof. simpl. apply Nat.leb_le. unfold slice. rewrite length_take. lia. Qed.

Lemma slice_first_within_limit (l : list Entry) :
  (length (slice l 0 100) <=? 100)%nat = true.
Proof. apply Nat.leb_le. unfold slice. rewrite length_take. lia. Qed.

Section PrefixListCalls.
Variable client : Backend.
Let P := fun c => prefix_list_call c = true.

Lemma prefix_list_calls_wait counts prefix_list_id complete msg :
  emits P (wait_prefix_list client counts prefix_list_id complete msg).
Proof. apply emits_wait_prefix_list. reflexivity. Qed.
Hint Resolve prefix_list_calls_wait : emits.

Lemma prefix_list_calls_create prefix_list_name prefix_list_ip_version address_list :
  emits P (create_prefix_list client prefix_list_name prefix_list_ip_version address_list).
Proof.
  unfold create_prefix_list, create_batch. emits_all; subst P; cbv beta.
  - apply slice_first_within_limit.
  - cbn [prefix_list_call within_limit andb]. rewrite andb_true_r.
    apply (slice_within_limit _ _).
Qed.

Lemma prefix_list_calls_entries_loop fuel prefix_list_id prefix_list_version :
  forall entries next_token,
    emits P (get_prefix_list_entries_loop client fuel prefix_list_id prefix_list_version
               entries next_token).
Proof.
  induction fuel as [|fuel IH]; intros entries [token|]; simpl; auto with emits.
  emits_all; try reflexivity; try apply IH.
Qed.
Hint Resolve prefix_list_calls_entries_loop : emits.

Lemma prefix_list_calls_update fuel prefix_list_name prefix_list address_list :
  emits P (update_prefix_list client fuel prefix_list_name prefix_list address_list).
Proof.
  unfold update_prefix_list, get_prefix_list_entries, apply_prefix_list_delta,
    ensure_capacity, resize_prefix_list, update_batch.
  cbv zeta. emits_all; subst P; cbv beta; try reflexivity;
    cbn [prefix_list_call]; apply andb_true_iff;
    split; first [apply (slice_within_limit _ _) | apply (slice_within_limit _ 0)].
Qed.

Lemma prefix_list_calls_summarized_of service_name v : emits P (summarized_of service_name v).
Proof. unfold summarized_of. emits_all. Qed.
Hint Resolve prefix_list_calls_summarized_of : emits.

Lemma prefix_list_calls_address_list_of service_name v should_summarize :
  emits P (address_list_of service_name v should_summarize).
Proof. unfold address_list_of. emits_all. Qed.
Hint Resolve prefix_list_calls_address_list_of prefix_list_calls_update
  prefix_list_calls_create : emits.

Lemma prefix_list_calls_manage fuel vpc_prefix_lists service_name should_summarize
    chunk_size :
  emits P (manage_prefix_list client fuel vpc_prefix_lists service_name should_summarize
             chunk_size).
Proof.
  unfold manage_prefix_list, manage_prefix_list_version, manage_prefix_list_chunk.
  emits_all.
Qed.

Lemma prefix_list_calls_list_loop fuel : forall prefix_lists response,
  emits P (list_prefix_lists_loop client fuel prefix_lists response).
Proof.
  induction fuel as [|fuel IH]; intros prefix_lists response; simpl; auto with emits.
  emits_all; try reflexivity; try apply IH.
Qed.
Hint Resolve prefix_list_calls_list_loop : emits.

Lemma prefix_list_calls_list fuel : emits P (list_prefix_lists client fuel).
Proof. unfold list_prefix_lists. emits_all. reflexivity. Qed.

End PrefixListCalls.

Section WafCalls.
Variable client : Backend.
Let P := fun c => waf_call c = true.

Lemma waf_calls_summarized_of service_name v : emits P (summarized_of service_name v).
Proof. unfold summarized_of. emits_all. Qed.
Hint Resolve waf_calls_summarized_of : emits.

Lemma waf_calls_address_list_of service_name v should_summarize :
  emits P (address_list_of service_name v should_summarize).
Proof. unfold address_list_of. emits_all. Qed.
Hint Resolve waf_calls_address_list_of : emits.

Lemma waf_calls_manage waf_ipsets service_name ipset_scope should_summarize :
  emits P (manage_waf_ipset client waf_ipsets service_name ipset_scope should_summarize).
Proof.
  unfold manage_waf_ipset, manage_waf_ipset_version, update_waf_ipset, create_waf_ipset,
    get_ip_set_entries, as_ip_set.
  cbv zeta. emits_all; reflexivity.
Qed.

Lemma waf_calls_list_loop ipset_scope fuel : forall ipsets response,
  emits P (list_waf_ipset_loop client fuel ipset_scope ipsets response).
Proof.
  induction fuel as [|fuel IH]; intros ipsets response; simpl; auto with emits.
  unfold as_ip_sets. emits_all; try reflexivity; try apply IH.
Qed.
Hint Resolve waf_calls_list_loop : emits.

Lemma waf_calls_list fuel ipset_scope : emits P (list_waf_ipset client fuel ipset_scope).
Proof. unfold list_waf_ipset. emits_all. reflexivity. Qed.

Lemma waf_calls_handle fuel config_service :
  emits P (handle_waf_ipset client fuel config_service).
Proof.
  pose proof waf_calls_manage. pose proof waf_calls_list.
  unfold handle_waf_ipset, handle_waf_ipset_scope, waf_ipset_attempt,
    managed_waf_ipset_names, report_waf_ipset_names. emits_all.
Qed.

End WafCalls.

Section HandlerCalls.
Variable client : Backend.

Lemma prefix_list_calls_handle fuel config_service :
  emits (fun c => prefix_list_call c = true) (handle_prefix_list client fuel config_service).
Proof.
  pose proof (prefix_list_calls_manage client). pose proof (prefix_list_calls_list client).
  unfold handle_prefix_list, prefix_list_attempt, managed_prefix_list_names,
    report_prefix_list_names. emits_all.
Qed.

Lemma manage_resources_phases fuel config_services sr st res st' :
  manage_resources client fuel config_services sr st = (res, st') ->
  two_phases st st'.
Proof.
  unfold manage_resources. intros H.
  assert (Hloop1 : emits (fun c => prefix_list_call c = true)
            (bind (set_service_ranges sr) (fun _ =>
             bind (set_resource_names empty_names) (fun _ =>
             bind (set_vpc_prefix_lists ∅) (fun _ =>
             mfoldl (fun _ config_service => handle_prefix_list client fuel config_service)
               tt (Services config_services)))))).
  { pose proof prefix_list_calls_handle. emits_all. }
  assert (Hloop2 : emits (fun c => waf_call c = true)
            (bind (set_waf_ipsets_by_scope ∅) (fun _ =>
             bind (mfoldl (fun _ config_service =>
                             handle_waf_ipset client fuel config_service)
                     tt (Services config_services)) (fun _ =>
             bind get_store (fun st => ret (resource_names st)))))).
  { pose proof (waf_calls_handle client). emits_all. }
  unfold two_phases.
  destruct (bind (set_service_ranges sr) (fun _ =>
             bind (set_resource_names empty_names) (fun _ =>
             bind (set_vpc_prefix_lists ∅) (fun _ =>
             mfoldl (fun _ config_service => handle_prefix_list client fuel config_service)
               tt (Services config_services)))) st) as [r1 st1] eqn:H1.
  destruct (Hloop1 _ _ _ H1) as (evs1 & Ht1 & HP1).
  unfold bind in H, H1. cbn [set_service_ranges set_resource_names set_vpc_prefix_lists] in H, H1.
  rewrite H1 in H. destruct r1 as [[]|e|].
  - fold (@bind unit ResourceNames) in H.
    assert (H2 : bind (set_waf_ipsets_by_scope ∅) (fun _ =>
             bind (mfoldl (fun _ config_service =>
                             handle_waf_ipset client fuel config_service)
                     tt (Services config_services)) (fun _ =>
             bind get_store (fun st => ret (resource_names st)))) st1 = (res, st')).
    { unfold bind. cbn [set_waf_ipsets_by_scope]. exact H. }
    destruct (Hloop2 _ _ _ H2) as (evs2 & Ht2 & HP2).
    exists evs1, evs2. rewrite Ht2, Ht1, <- app_assoc. auto.
  - injection H as <- <-. exists evs1, []. rewrite app_nil_r. simpl. auto.
  - injection H as <- <-. exists evs1, []. rewrite app_nil_r. simpl. auto.
Qed.

End HandlerCalls.

(** X7.  Every call [manage_prefix_list] makes, in any run, is a call of
    the EC2 client; a creation carries at most a hundred entries, a change
    carries at most a hundred entries to add and at most a hundred to
    remove, and a change of [MaxEntries] carries no entries. *)
Theorem manage_prefix_list_calls (client : Backend) (fuel : nat)
    (vpc_prefix_lists : gmap string PrefixListInfo) (service_name : string)
    (should_summarize : bool) (chunk_size : Z) :
  emits (fun c => prefix_list_call c = true)
    (manage_prefix_list client fuel vpc_prefix_lists service_name should_summarize
       chunk_size).
Proof. apply prefix_list_calls_manage. Qed.

Lemma manage_prefix_list_calls_witness :
  let st := mkStore [] [("S3", mkServiceIPRange
                                (mkIPList ["10.0.0.0/24"; "10.0.1.0/24"; "10.0.2.0/24"] [])
                                (mkIPList [] []))]
              ∅ ∅ (mkResourceNames (mkNames [] []) (mkNames [] [])) in
  let run := manage_prefix_list empty_backend 0 ∅ "S3" false 2 st in
  exists evs,
    trace (snd run) = (trace st ++ evs)%list
    /\ Forall (fun c => prefix_list_call c = true) (calls evs).
Proof.
  intros st run.
  apply (manage_prefix_list_calls empty_backend 0 ∅ "S3" false 2 st (fst run)).
  apply surjective_pairing.
Defined.

(** X8.  In every run of [lambda_handler] the calls come in two phases:
    first only calls of the EC2 client, for the prefix lists of all
    services, then only calls of the WAF client, for their IP sets; a run
    that fails in its setup makes no call at all. *)
Theorem lambda_handler_phases (client : Backend) (fuel : nat) (setup : Setup)
    (st : Store) (res : result ResourceNames) (st' : Store) :
  lambda_handler client fuel setup st = (res, st') ->
  two_phases st st'
  /\ ((forall sr, setup_phase setup <> Ok sr) -> calls (trace st') = calls (trace st)).
Proof.
  intros H.
  destruct (setup_phase setup) as [sr|e|] eqn:Hsetup.
  - assert (exists config_services, setup_config setup = Ok config_services) as [cs Hcs].
    { unfold setup_phase in Hsetup. destruct (setup_config setup); [eauto|discriminate..]. }
    rewrite (lambda_handler_after_setup client fuel setup st cs sr Hcs Hsetup) in H.
    split; [|intros Hno; exfalso; exact (Hno sr eq_refl)].
    unfold try_except in H.
    destruct (manage_resources client fuel cs sr st) as [[names|e|] st1] eqn:Hrun;
      pose proof (manage_resources_phases _ _ _ _ _ _ _ Hrun) as Hphases.
    + injection H as <- <-. exact Hphases.
    + unfold bind, log_exception, record, raise in H. injection H as <- <-.
      destruct Hphases as (evs1 & evs2 & Ht & H1 & H2).
      exists evs1, (evs2 ++ [EvLogException e])%list. cbn [trace]. rewrite Ht.
      split; [rewrite <- !app_assoc; reflexivity|]. split; [exact H1|].
      rewrite calls_app. simpl. rewrite app_nil_r. exact H2.
    + injection H as <- <-. exact Hphases.
  - rewrite (lambda_handler_setup_fails client fuel setup st e Hsetup) in H.
    injection H as <- <-. split.
    + exists [EvLogException e], []. simpl. auto.
    + intros _. simpl. rewrite calls_app. simpl. apply app_nil_r.
  - assert (lambda_handler client fuel setup st = (OutOfFuel, st)) as E.
    { unfold lambda_handler, try_except, setup_phase in *. unfold bind at 1. cbn [lift].
      destruct (setup_config setup) as [cs| |]; simpl in Hsetup; try discriminate;
        [|reflexivity].
      unfold bind at 1. cbn [lift].
      destruct (setup_message setup) as [m| |]; simpl in Hsetup; try discriminate;
        [|reflexivity].
      unfold bind at 1. cbn [lift].
      destruct (setup_ip_ranges setup) as [r| |]; simpl in Hsetup; try discriminate;
        [|reflexivity].
      unfold bind at 1. cbn [lift]. rewrite Hsetup. reflexivity. }
    rewrite E in H. injection H as <- <-. split.
    + exists [], []. simpl. rewrite app_nil_r. auto.
    + intros _. reflexivity.
Qed.

Lemma lambda_handler_phases_witness :
  let run := lambda_handler half_failing_backend 1 one_service_setup initial_store in
  two_phases initial_store (snd run)
  /\ ((forall sr, setup_phase one_service_setup <> Ok sr) ->
      calls (trace (snd run)) = calls (trace initial_store)).
Proof.
  intros run.
  apply (lambda_handler_phases half_failing_backend 1 one_service_setup initial_store
           (fst run)).
  apply surjective_pairing.
Defined.

(** ** Creation of a prefix list *)

Section CreateFacts.
Variable client : Backend.
Variable prefix_list_entries : list Entry.

Lemma create_batch_Ok response index st response' st' :
  create_batch client prefix_list_entries response index st = (Ok response', st') ->
  exists evs,
    trace st' = (trace st ++ evs)%list
    /\ added_entries evs = slice prefix_list_entries index (index + 100)
    /\ removed_entries evs = [].
Proof.
  intros H. destruct response as [| | |prefix_list| |];
    try (unfold create_batch, bind in H; cbn [as_prefix_list raise] in H; discriminate).
  apply create_batch_spec in H as (polls & wres & Hw & Hres).
  assert (Hq : Forall (fun c => is_content c = false) (calls polls)).
  { destruct (bool_decide _).
    - apply waited_calls in Hw. eapply Forall_impl; [exact Hw|]. intros c ->. reflexivity.
    - destruct Hw as [-> _]. constructor. }
  apply no_content_no_entries in Hq as [Ha Hr].
  destruct wres as [pl'|e|]; [|destruct Hres; discriminate|contradiction].
  destruct Hres as [-> _]. eexists. split; [reflexivity|].
  rewrite added_entries_app, removed_entries_app, Ha, Hr. simpl.
  unfold added_entries, removed_entries. simpl. rewrite !app_nil_r. auto.
Qed.

Lemma create_loop_Ok indexes : forall response st response' st',
  mfoldl (create_batch client prefix_list_entries) response indexes st = (Ok response', st') ->
  exists evs,
    trace st' = (trace st ++ evs)%list
    /\ added_entries evs
       = concat (map (fun i => slice prefix_list_entries i (i + 100)) indexes)
    /\ removed_entries evs = [].
Proof.
  induction indexes as [|index indexes IH]; intros response st response' st'; simpl.
  - intros [= _ <-]. exists []. rewrite app_nil_r. auto.
  - intros H. apply bind_inv in H as [(r1 & st1 & Hb & Hl)|[(e & _ & [=])|[_ [=]]]].
    apply create_batch_Ok in Hb as (evs1 & Ht1 & Ha1 & Hr1).
    apply IH in Hl as (evs2 & Ht2 & Ha2 & Hr2).
    exists (evs1 ++ evs2)%list. rewrite Ht2, Ht1, <- app_assoc.
    split; [reflexivity|].
    rewrite added_entries_app, removed_entries_app, Ha1, Ha2, Hr1, Hr2. auto.
Qed.

End CreateFacts.

Lemma length_created_entries address_list :
  length (created_entries address_list) = length address_list.
Proof. unfold created_entries. apply length_map. Qed.

Lemma create_prefix_list_unfold client prefix_list_name prefix_list_ip_version
    address_list st :
  create_prefix_list client prefix_list_name prefix_list_ip_version address_list st =
    match client (trace st)
            (first_create_call prefix_list_name prefix_list_ip_version address_list) with
    | Returns response =>
        bind (mfoldl (create_batch client (created_entries address_list)) response
                (create_indexes address_list))
          (fun _ => ret tt)
          (add_events st [EvCall (first_create_call prefix_list_name prefix_list_ip_version
                                    address_list) (Returns response)])
    | Throws e =>
        (Raise e,
         add_events st [EvCall (first_create_call prefix_list_name prefix_list_ip_version
                                  address_list) (Throws e)])
    end.
Proof.
  unfold create_prefix_list. cbv zeta. fold (created_entries address_list).
  fold (first_create_call prefix_list_name prefix_list_ip_version address_list).
  unfold bind at 1. rewrite call_reply.
  destruct (client (trace st) _); reflexivity.
Qed.

Lemma first_create_call_eq prefix_list_name prefix_list_ip_version address_list :
  first_create_call prefix_list_name prefix_list_ip_version address_list
  = create_managed_prefix_list prefix_list_name
      (take 100 (created_entries address_list))
      (Z.min (Z.of_nat (length address_list) + 10) 1000)
      (created_tags prefix_list_name) prefix_list_ip_version.
Proof. unfold first_create_call. rewrite length_created_entries. reflexivity. Qed.


(** X9.  [create_prefix_list] first calls [create_managed_prefix_list]
    with the first hundred addresses and with [MaxEntries] ten above the
    number of addresses, capped at 1000.  When it returns, the first call
    and the changes that followed have carried every address, each once and
    in order, with the description, and nothing was removed. *)
Theorem create_prefix_list_sends (client : Backend)
    (prefix_list_name prefix_list_ip_version : string) (address_list : list string)
    (st : Store) (res : result unit) (st' : Store) :
  create_prefix_list client prefix_list_name prefix_list_ip_version address_list st
    = (res, st') ->
  exists reply rest,
    trace st'
    = (trace st
       ++ EvCall (create_managed_prefix_list prefix_list_name
                    (take 100 (created_entries address_list))
                    (Z.min (Z.of_nat (length address_list) + 10) 1000)
                    (created_tags prefix_list_name) prefix_list_ip_version) reply
          :: rest)%list
    /\ (res = Ok tt ->
        (take 100 (created_entries address_list) ++ added_entries rest)%list
        = created_entries address_list
        /\ removed_entries rest = []).
Proof.
  rewrite create_prefix_list_unfold, first_create_call_eq.
  set (c := create_managed_prefix_list _ _ _ _ _).
  destruct (client (trace st) c) as [response|e].
  2:{ intros [= <- <-]. exists (Throws e), []. split; [reflexivity|discriminate]. }
  intros H. exists (Returns response).
  assert (Hem : emits (fun _ => True)
                  (mfoldl (create_batch client (created_entries address_list)) response
                     (create_indexes address_list))).
  { apply emits_mfoldl. intros. apply emits_create_batch; intros; exact I. }
  apply bind_inv in H as [(r1 & st1 & Hloop & H)|[(e & Hloop & ->)|[Hloop ->]]].
  - injection H as <- <-. apply create_loop_Ok in Hloop as (evs & Ht & Ha & Hr).
    exists evs. split; [rewrite Ht; simpl; rewrite <- app_assoc; reflexivity|].
    intros _. split; [|exact Hr]. rewrite Ha.
    change (take 100 (created_entries address_list))
      with (slice (created_entries address_list) 0 100).
    apply slices_cover. lia.
  - destruct (Hem _ _ _ Hloop) as (evs & Ht & _). exists evs.
    split; [rewrite Ht; simpl; rewrite <- app_assoc; reflexivity|discriminate].
  - destruct (Hem _ _ _ Hloop) as (evs & Ht & _). exists evs.
    split; [rewrite Ht; simpl; rewrite <- app_assoc; reflexivity|discriminate].
Qed.

Lemma create_prefix_list_sends_witness :
  let address_list := ["10.0.0.0/24"; "10.0.1.0/24"] in
  let run := create_prefix_list empty_backend "aws-ip-ranges-s3-ipv4" "IPV4" address_list
               initial_store in
  exists reply rest,
    trace (snd run)
    = (trace initial_store
       ++ EvCall (create_managed_prefix_list "aws-ip-ranges-s3-ipv4"
                    (take 100 (created_entries address_list))
                    (Z.min (Z.of_nat (length address_list) + 10) 1000)
                    (created_tags "aws-ip-ranges-s3-ipv4") "IPV4") reply
          :: rest)%list
    /\ (fst run = Ok tt ->
        (take 100 (created_entries address_list) ++ added_entries rest)%list
        = created_entries address_list
        /\ removed_entries rest = []).
Proof.
  intros address_list run.
  apply (create_prefix_list_sends empty_backend "aws-ip-ranges-s3-ipv4" "IPV4" address_list
           initial_store (fst run)).
  apply surjective_pairing.
Defined.

(** ** The delta *)

Lemma no_delta_true current_entries network_list :
  no_delta current_entries network_list = true <->
  forall n, In n network_list <-> In n (Dict.keys current_entries).
Proof.
  unfold no_delta.
  assert (Hadd : networks_to_add current_entries network_list = [] <->
                 forall n, In n network_list -> In n (Dict.keys current_entries)).
  { split.
    - intros E n Hn. destruct (Dict.mem current_entries n) eqn:Hm.
      + apply dict_mem_true. exact Hm.
      + exfalso. assert (In n (networks_to_add current_entries network_list)) as Hin.
        { apply networks_to_add_In. split; [exact Hn|]. rewrite <- dict_mem_true. congruence. }
        rewrite E in Hin. destruct Hin.
    - intros H. destruct (networks_to_add current_entries network_list) as [|n l] eqn:E;
        [reflexivity|].
      assert (In n (networks_to_add current_entries network_list)) as Hin
        by (rewrite E; left; reflexivity).
      apply networks_to_add_In in Hin as [Hn Hno]. exfalso. exact (Hno (H n Hn)). }
  assert (Hrem : networks_to_remove current_entries network_list = [] <->
                 forall n, In n (Dict.keys current_entries) -> In n network_list).
  { split.
    - intros E n Hn. destruct (decide (n ∈ network_list)) as [Hd|Hd];
        rewrite list_elem_of_In in Hd; [exact Hd|].
      exfalso. assert (In n (networks_to_remove current_entries network_list)) as Hin.
      { apply networks_to_remove_In. auto. }
      rewrite E in Hin. destruct Hin.
    - intros H. destruct (networks_to_remove current_entries network_list) as [|n l] eqn:E;
        [reflexivity|].
      assert (In n (networks_to_remove current_entries network_list)) as Hin
        by (rewrite E; left; reflexivity).
      apply networks_to_remove_In in Hin as [Hn Hno]. exfalso. exact (Hno (H n Hn)). }
  split.
  - intros H. destruct (networks_to_add _ _) eqn:Ea; [|discriminate].
    destruct (networks_to_remove _ _) eqn:Er; [|discriminate].
    intros n. split; [apply Hadd; reflexivity|apply Hrem; reflexivity].
  - intros H.
    rewrite (proj2 Hadd (fun n => proj1 (H n))), (proj2 Hrem (fun n => proj2 (H n))).
    reflexivity.
Qed.

Section Skips.
Variable client : Backend.

Lemma waf_update_returns_true c1 c2 st st' :
  bind (call client c1) (fun _ => bind (call client c2) (fun _ => ret true)) st
  <> (Ok false, st').
Proof.
  unfold bind. rewrite call_reply. destruct (client (trace st) c1); cbn [reply_result];
    [|discriminate].
  rewrite call_reply. destruct (client _ c2); cbn [reply_result]; discriminate.
Qed.

Lemma update_waf_ipset_skips ipset_name ipset_scope waf_ipset address_list network_list
    current_entries st st1 :
  rmapM ip_network address_list = Ok network_list ->
  get_ip_set_entries client ipset_name ipset_scope (ipset_Id waf_ipset) st
    = (Ok current_entries, st1) ->
  update_waf_ipset client ipset_name ipset_scope waf_ipset address_list st = (Ok false, st1)
  <-> forall n, In n network_list <-> In n (Dict.keys current_entries).
Proof.
  intros Hparse Hget. rewrite (update_waf_ipset_delta _ _ _ _ _ _ _ _ _ Hparse Hget).
  rewrite <- no_delta_true. destruct (no_delta current_entries network_list).
  - split; reflexivity.
  - split; [|discriminate]. intros H. exfalso. exact (waf_update_returns_true _ _ _ _ H).
Qed.

Lemma update_prefix_list_skips fuel prefix_list_name prefix_list address_list network_list
    current_entries st st1 :
  rmapM ip_network address_list = Ok network_list ->
  get_prefix_list_entries client fuel prefix_list_name (PrefixListId prefix_list)
    (Version prefix_list) st = (Ok current_entries, st1) ->
  update_prefix_list client fuel prefix_list_name prefix_list address_list st
    = (Ok false, st1)
  <-> forall n, In n network_list <-> In n (Dict.keys current_entries).
Proof.
  intros Hparse Hget. rewrite (update_prefix_list_no_delta _ _ _ _ _ _ _ _ _ Hparse Hget).
  rewrite <- no_delta_true. destruct (no_delta current_entries network_list).
  - split; reflexivity.
  - split; [|discriminate]. intros H. apply apply_prefix_list_delta_Ok in H as [[=] _].
Qed.

End Skips.

(** X10.  An update is skipped exactly when the desired list and the
    current entries name the same set of networks: [update_waf_ipset] and
    [update_prefix_list] return [False] after the read of the current
    entries if and only if every desired network is a current one and every
    current network is desired - whatever the order, the repetitions and the
    spelling of the texts. *)
Theorem update_skipped_iff_same_networks (client : Backend) :
  (forall ipset_name ipset_scope waf_ipset address_list network_list current_entries st st1,
      rmapM ip_network address_list = Ok network_list ->
      get_ip_set_entries client ipset_name ipset_scope (ipset_Id waf_ipset) st
        = (Ok current_entries, st1) ->
      update_waf_ipset client ipset_name ipset_scope waf_ipset address_list st
        = (Ok false, st1)
      <-> forall n, In n network_list <-> In n (Dict.keys current_entries))
  /\ (forall fuel prefix_list_name prefix_list address_list network_list current_entries
             st st1,
      rmapM ip_network address_list = Ok network_list ->
      get_prefix_list_entries client fuel prefix_list_name (PrefixListId prefix_list)
        (Version prefix_list) st = (Ok current_entries, st1) ->
      update_prefix_list client fuel prefix_list_name prefix_list address_list st
        = (Ok false, st1)
      <-> forall n, In n network_list <-> In n (Dict.keys current_entries)).
Proof.
  split.
  - apply update_waf_ipset_skips.
  - apply update_prefix_list_skips.
Qed.

Lemma update_skipped_iff_same_networks_witness :
  let client := settled_backend [mkEntry "10.0.1.0/24" None; mkEntry "10.0.0.0/24" None] in
  let waf_ipset :=
    {| ipset_Name := "aws-ip-ranges-s3-ipv4"; ipset_Id := "id-1";
       ipset_Description := DESCRIPTION; ipset_LockToken := "token-1";
       ipset_ARN := "arn-1" |} in
  let st1 := add_events initial_store
               [EvCall (get_ip_set "aws-ip-ranges-s3-ipv4" "REGIONAL" "id-1")
                  (Returns (RIPSet ["10.0.1.0/24"; "10.0.0.0/24"]))] in
  update_waf_ipset client "aws-ip-ranges-s3-ipv4" "REGIONAL" waf_ipset
    ["10.0.0.0/24"; "10.0.1.0/255.255.255.0"; "10.0.0.0/24"] initial_store = (Ok false, st1)
  <-> forall n,
        In n [mkNetwork V4 167772160 24; mkNetwork V4 167772416 24;
              mkNetwork V4 167772160 24]
        <-> In n (Dict.keys [(mkNetwork V4 167772416 24, "10.0.1.0/24");
                             (mkNetwork V4 167772160 24, "10.0.0.0/24")]).
Proof.
  intros client waf_ipset st1.
  apply (proj1 (update_skipped_iff_same_networks client)).
  - vm_compute. reflexivity.
  - vm_compute. reflexivity.
Defined.

(** ** Snapshots *)

Lemma keyed_fold_spec {B} (key : B -> string) (val : B -> string) l :
  forall init out,
    rfoldl (fun entries x =>
              rbind (ip_network (key x)) (fun network =>
              Ok (Dict.set entries network (val x)))) init l = Ok out ->
    NoDup (Dict.keys init) ->
    NoDup (Dict.keys out)
    /\ forall n, In n (Dict.keys out) <->
                 In n (Dict.keys init) \/ exists x, In x l /\ ip_network (key x) = Ok n.
Proof.
  induction l as [|x l IH]; intros init out; simpl.
  - intros [= <-] Hnd. split; [exact Hnd|]. intros n.
    split; [auto|intros [H|(x & [] & _)]; exact H].
  - intros H Hnd. apply rbind_Ok in H as (d1 & Hstep & Hrest).
    apply rbind_Ok in Hstep as (n1 & Hn1 & [= <-]).
    destruct (IH _ _ Hrest (dict_set_nodup _ _ _ Hnd)) as [Hnd' Hin].
    split; [exact Hnd'|]. intros n. rewrite Hin, dict_keys_set_In. split.
    + intros [[H| ->]|(y & Hy & Hp)]; eauto.
    + intros [H|(y & [<-|Hy] & Hp)]; eauto.
      left. right. congruence.
Qed.

Lemma add_entries_keyed entries page :
  add_entries entries page
  = rfoldl (fun entries x =>
              rbind (ip_network (Cidr x)) (fun network =>
              Ok (Dict.set entries network
                    (match Description x with Some d => d | None => "" end))))
      entries page.
Proof.
  unfold add_entries. revert entries. induction page as [|e page IH]; intros entries;
    simpl; [reflexivity|].
  destruct (ip_network (Cidr e)) as [n| |]; simpl; try reflexivity.
  destruct (Description e); simpl; apply IH.
Qed.

Lemma networks_to_remove_nodup current_entries network_list :
  NoDup (Dict.keys current_entries) ->
  NoDup (networks_to_remove current_entries network_list).
Proof.
  intros H. unfold networks_to_remove. apply NoDup_ListNoDup.
  apply List.NoDup_filter. apply NoDup_ListNoDup. exact H.
Qed.

(** X11.  The current entries both reads return are keyed by network: no
    network is a key twice, and the keys are exactly the networks the
    texts of the response parse to, so texts that spell one network give
    one entry.  Hence no update asks to remove a network twice. *)
Theorem current_entries_keyed (client : Backend) :
  (forall ipset_name ipset_scope ipset_id st current_entries st',
      get_ip_set_entries client ipset_name ipset_scope ipset_id st
        = (Ok current_entries, st') ->
      NoDup (Dict.keys current_entries)
      /\ (exists addresses,
            client (trace st) (get_ip_set ipset_name ipset_scope ipset_id)
              = Returns (RIPSet addresses)
            /\ forall n, In n (Dict.keys current_entries) <->
                         exists a, In a addresses /\ ip_network a = Ok n)
      /\ forall network_list, NoDup (networks_to_remove current_entries network_list))
  /\ (forall fuel prefix_list_name prefix_list_id prefix_list_version st current_entries st',
      get_prefix_list_entries client fuel prefix_list_name prefix_list_id
        prefix_list_version st = (Ok current_entries, st') ->
      NoDup (Dict.keys current_entries)
      /\ (exists evs items,
            st' = add_events st evs
            /\ paged (get_managed_prefix_list_entries prefix_list_id prefix_list_version)
                 entries_page None evs items
            /\ forall n, In n (Dict.keys current_entries) <->
                         exists e, In e items /\ ip_network (Cidr e) = Ok n)
      /\ forall network_list, NoDup (networks_to_remove current_entries network_list)).
Proof.
  split.
  - intros name scope id st current st' H.
    apply get_ip_set_entries_complete in H as (addresses & _ & Hreply & Hread).
    unfold read_addresses in Hread.
    destruct (keyed_fold_spec (fun a => a) (fun a => a) addresses [] current Hread)
      as [Hnd Hin]; [constructor|].
    split; [exact Hnd|]. split; [|intros; apply networks_to_remove_nodup; exact Hnd].
    exists addresses. split; [exact Hreply|]. intros n. rewrite Hin. simpl. tauto.
  - intros fuel name id version st current st' H.
    apply get_prefix_list_entries_complete in H as (evs & items & Hst & Hp & Hadd).
    rewrite add_entries_keyed in Hadd.
    destruct (keyed_fold_spec Cidr _ items [] current Hadd) as [Hnd Hin]; [constructor|].
    split; [exact Hnd|]. split; [|intros; apply networks_to_remove_nodup; exact Hnd].
    exists evs, items. split; [exact Hst|]. split; [exact Hp|].
    intros n. rewrite Hin. simpl. tauto.
Qed.

Lemma current_entries_keyed_witness :
  let client := settled_backend [mkEntry "10.0.0.0/24" None;
                                 mkEntry "10.0.0.0/255.255.255.0" None] in
  let current_entries := [(mkNetwork V4 167772160 24, "10.0.0.0/255.255.255.0")] in
  NoDup (Dict.keys current_entries)
  /\ (exists addresses,
        client (trace initial_store) (get_ip_set "aws-ip-ranges-s3-ipv4" "REGIONAL" "id-1")
          = Returns (RIPSet addresses)
        /\ forall n, In n (Dict.keys current_entries) <->
                     exists a, In a addresses /\ ip_network a = Ok n)
  /\ forall network_list, NoDup (networks_to_remove current_entries network_list).
Proof.
  intros client current_entries.
  apply (proj1 (current_entries_keyed client) "aws-ip-ranges-s3-ipv4" "REGIONAL" "id-1"
           initial_store current_entries
           (add_events initial_store
              [EvCall (get_ip_set "aws-ip-ranges-s3-ipv4" "REGIONAL" "id-1")
                 (Returns (RIPSet ["10.0.0.0/24"; "10.0.0.0/255.255.255.0"]))])).
  vm_compute. reflexivity.
Defined.

Lemma last_cons_filter {A} (f : A -> bool) x l :
  last (List.filter f (x :: l))
  = match last (List.filter f l) with
    | Some y => Some y
    | None => if f x then Some x else None
    end.
Proof.
  simpl. destruct (f x); [|destruct (last (List.filter f l)); reflexivity].
  destruct (List.filter f l) as [|y l'] eqn:E; [reflexivity|].
  rewrite last_cons. destruct (last (y :: l')) eqn:El; [reflexivity|].
  apply last_None in El. discriminate.
Qed.

Lemma index_by_name {A} (name_of : A -> string) (items : list A) :
  forall (acc : gmap string A) name,
    foldl (fun m x => <[name_of x := x]> m) acc items !! name
    = match last (List.filter (fun x => String.eqb (name_of x) name) items) with
      | Some x => Some x
      | None => acc !! name
      end.
Proof.
  induction items as [|x items IH]; intros acc name; [reflexivity|].
  cbn [foldl]. rewrite IH, last_cons_filter.
  destruct (last (List.filter _ items)); [reflexivity|].
  destruct (String.eqb_spec (name_of x) name) as [->|Hne].
  - apply lookup_insert_eq.
  - apply lookup_insert_ne. exact Hne.
Qed.

(** X12.  The listings index what they list by name: under a name the
    snapshot holds the last listed item of that name, over all pages, and
    nothing under a name no item has.  So of two prefix lists, or two IP
    sets of a scope, with the same name only the one listed last is seen. *)
Theorem listings_indexed_by_name (client : Backend) (fuel : nat) :
  (forall st out st',
      list_prefix_lists client fuel st = (Ok out, st') ->
      exists evs items,
        st' = add_events st evs
        /\ paged (describe_managed_prefix_lists None) prefix_lists_page None evs items
        /\ forall name,
             out !! name
             = last (List.filter (fun prefix_list =>
                                    String.eqb (PrefixListName prefix_list) name) items))
  /\ (forall ipset_scope st out st',
      list_waf_ipset client fuel ipset_scope st = (Ok out, st') ->
      exists evs items,
        st' = add_events st evs
        /\ paged (list_ip_sets ipset_scope) ip_sets_page None evs items
        /\ forall name,
             out !! name
             = last (List.filter (fun ipset => String.eqb (ipset_Name ipset) name) items)).
Proof.
  split.
  - intros st out st' H. apply list_prefix_lists_complete in H as (evs & items & Hst & Hp & ->).
    exists evs, items. split; [exact Hst|]. split; [exact Hp|]. intros name.
    unfold index_prefix_lists. rewrite index_by_name.
    destruct (last _); [reflexivity|apply lookup_empty].
  - intros scope st out st' H.
    apply list_waf_ipset_complete in H as (evs & items & Hst & Hp & ->).
    exists evs, items. split; [exact Hst|]. split; [exact Hp|]. intros name.
    unfold index_ip_sets. rewrite index_by_name.
    destruct (last _); [reflexivity|apply lookup_empty].
Qed.

Lemma listings_indexed_by_name_witness :
  exists evs items,
    snd (list_prefix_lists paging_backend 2 initial_store) = add_events initial_store evs
    /\ paged (describe_managed_prefix_lists None) prefix_lists_page None evs items
    /\ forall name,
         index_prefix_lists ∅ [first_prefix_list; second_prefix_list] !! name
         = last (List.filter (fun prefix_list =>
                                String.eqb (PrefixListName prefix_list) name) items).
Proof.
  apply (proj1 (listings_indexed_by_name paging_backend 2) initial_store
           (index_prefix_lists ∅ [first_prefix_list; second_prefix_list])
           (snd (list_prefix_lists paging_backend 2 initial_store))).
  vm_compute. reflexivity.
Defined.

(** ** The address list of a service *)

Lemma dict_set_same {K V} `{EqDecision K} (d : list (K * V)) k v :
  Dict.get d k = Some v -> Dict.set d k v = d.
Proof.
  induction d as [|[k' v'] d IH]; simpl; [discriminate|].
  destruct (decide (k' = k)) as [->|Hne]; [intros [= ->]; reflexivity|].
  intros H. rewrite (IH H). reflexivity.
Qed.

Lemma with_range_idem v r l : with_range v (with_range v r l) l = with_range v r l.
Proof. destruct v; reflexivity. Qed.

Lemma store_eta st :
  mkStore (trace st) (service_ranges st) (vpc_prefix_lists st) (waf_ipsets_by_scope st)
    (resource_names st) = st.
Proof. destruct st; reflexivity. Qed.

Lemma summarized_of_stable service_name v st out st1 :
  summarized_of service_name v st = (Ok out, st1) ->
  summarized_of service_name v st1 = (Ok out, st1)
  /\ trace st1 = trace st
  /\ exists r r1,
       Dict.get (service_ranges st) service_name = Some r
       /\ Dict.get (service_ranges st1) service_name = Some r1
       /\ ip_list (range_of v r1) = ip_list (range_of v r).
Proof.
  intros H. apply summarized_of_spec in H.
  destruct (Dict.get (service_ranges st) service_name) as [r|] eqn:Hg; [|destruct H; discriminate].
  destruct (summarized v (range_of v r)) as [[out' self']|e|] eqn:Hs;
    [|destruct H; discriminate..].
  destruct H as [[= <-] ->]. apply summarized_again in Hs as [Hl Hs].
  assert (Hg1 : Dict.get (Dict.set (service_ranges st) service_name (with_range v r self'))
                  service_name = Some (with_range v r self')) by apply dict_get_set_eq.
  split; [|split; [reflexivity|]].
  - unfold summarized_of. unfold bind at 1. cbn [get_store service_ranges]. rewrite Hg1.
    unfold bind at 1. cbn [lift].
    replace (match v with
             | V4 => IPv4List_summarized (range_of v (with_range v r self'))
             | V6 => IPv6List_summarized (range_of v (with_range v r self'))
             end) with (summarized v (range_of v (with_range v r self')))
      by (destruct v; reflexivity).
    rewrite range_of_with_range, Hs. unfold bind, set_service_ranges, ret.
    cbn [trace service_ranges vpc_prefix_lists waf_ipsets_by_scope resource_names fst snd].
    rewrite with_range_idem, (dict_set_same _ _ _ Hg1). reflexivity.
  - exists r, (with_range v r self'). cbn [service_ranges].
    rewrite range_of_with_range. auto.
Qed.

(** X13.  The address list [manage_prefix_list] and [manage_waf_ipset]
    work on is stable within a run: asking again with the same [Summarize]
    setting, for the other resource kind or the next scope, gives the same
    list, makes no call and changes nothing more.  A list of one entry is
    handed on as it is, never parsed or summarized, whatever [Summarize]
    says. *)
Theorem address_list_stable (service_name : string) (v : version)
    (should_summarize : bool) (st : Store) :
  (forall address_list st1,
      address_list_of service_name v should_summarize st = (Ok (Some address_list), st1) ->
      address_list_of service_name v should_summarize st1 = (Ok (Some address_list), st1)
      /\ trace st1 = trace st)
  /\ (forall r entry,
      Dict.get (service_ranges st) service_name = Some r ->
      ip_list (range_of v r) = [entry] ->
      address_list_of service_name v should_summarize st = (Ok (Some [entry]), st)).
Proof.
  split.
  - intros address_list st1. unfold address_list_of. unfold bind at 1. cbn [get_store].
    destruct (Dict.get (service_ranges st) service_name) as [r|] eqn:Hg; [|discriminate].
    destruct (ip_list (range_of v r)) as [|a l] eqn:Hl; [discriminate|].
    destruct (should_summarize && (1 <? length (a :: l))%nat) eqn:Hsum.
    + intros H. apply bind_inv in H as [(out & st2 & Hs & [= <- <-])|[(e & _ & [=])|[_ [=]]]].
      destruct (summarized_of_stable _ _ _ _ _ Hs) as (Hagain & Htrace & r0 & r1 & G0 & G1 & Hl1).
      split; [|exact Htrace]. unfold bind at 1. cbn [get_store]. rewrite G1.
      assert (r0 = r) as -> by congruence. rewrite Hl1, Hl, Hsum.
      unfold bind. rewrite Hagain. reflexivity.
    + intros [= <- <-]. split; [|reflexivity]. unfold bind at 1. cbn [get_store].
      rewrite Hg, Hl, Hsum. reflexivity.
  - intros r entry Hg Hl. unfold address_list_of. unfold bind at 1. cbn [get_store].
    rewrite Hg, Hl. rewrite andb_false_r. reflexivity.
Qed.

Lemma address_list_stable_witness :
  let st := mkStore [] [("S3", mkServiceIPRange
                                (mkIPList ["10.0.0.0/25"; "10.0.0.128/25"] [])
                                (mkIPList [] []))]
              ∅ ∅ (mkResourceNames (mkNames [] []) (mkNames [] [])) in
  let st1 := mkStore [] [("S3", mkServiceIPRange
                                 (mkIPList ["10.0.0.0/25"; "10.0.0.128/25"] ["10.0.0.0/24"])
                                 (mkIPList [] []))]
               ∅ ∅ (mkResourceNames (mkNames [] []) (mkNames [] [])) in
  address_list_of "S3" V4 true st1 = (Ok (Some ["10.0.0.0/24"]), st1)
  /\ trace st1 = trace st.
Proof.
  intros st st1. apply (proj1 (address_list_stable "S3" V4 true st)).
  vm_compute. reflexivity.
Defined.

(** ** Runs that touch no resource *)

Lemma address_list_of_trace service_name v should_summarize st res st' :
  address_list_of service_name v should_summarize st = (res, st') ->
  trace st' = trace st.
Proof.
  unfold address_list_of. unfold bind at 1. cbn [get_store].
  destruct (Dict.get (service_ranges st) service_name) as [r|]; [|intros [= <- <-]; reflexivity].
  destruct (ip_list (range_of v r)) as [|a l]; [intros [= <- <-]; reflexivity|].
  destruct (should_summarize && (1 <? length (a :: l))%nat); [|intros [= <- <-]; reflexivity].
  intros H.
  assert (Hs : forall res1 st1, summarized_of service_name v st = (res1, st1) ->
                                trace st1 = trace st).
  { intros res1 st1 Hs. apply summarized_of_spec in Hs.
    destruct (Dict.get (service_ranges st) service_name) as [r'|]; [|destruct Hs as [_ ->]; reflexivity].
    destruct (summarized v (range_of v r')) as [[out self']|e|]; destruct Hs as [_ ->]; reflexivity. }
  unfold bind in H. destruct (summarized_of service_name v st) as [[out|e|] st1] eqn:E;
    injection H as <- <-; exact (Hs _ _ eq_refl).
Qed.

Lemma address_list_of_empty service_name v should_summarize st r :
  Dict.get (service_ranges st) service_name = Some r ->
  ip_list (range_of v r) = [] ->
  address_list_of service_name v should_summarize st = (Ok None, st).
Proof.
  intros Hg Hl. unfold address_list_of. unfold bind at 1. cbn [get_store].
  rewrite Hg, Hl. reflexivity.
Qed.

Lemma address_list_of_missing service_name v should_summarize st :
  Dict.get (service_ranges st) service_name = None ->
  address_list_of service_name v should_summarize st = (Raise KeyError, st).
Proof.
  intros Hg. unfold address_list_of. unfold bind at 1. cbn [get_store].
  rewrite Hg. reflexivity.
Qed.

Lemma address_list_of_plain service_name v st r :
  Dict.get (service_ranges st) service_name = Some r ->
  ip_list (range_of v r) <> [] ->
  address_list_of service_name v false st = (Ok (Some (ip_list (range_of v r))), st).
Proof.
  intros Hg Hl. unfold address_list_of. unfold bind at 1. cbn [get_store].
  rewrite Hg. destruct (ip_list (range_of v r)); [contradiction|reflexivity].
Qed.

(** X14.  A service whose two address lists are empty costs nothing: both
    [manage_prefix_list] and [manage_waf_ipset] return no name, make no
    call and leave every variable as it was, whatever resources exist and
    whatever the chunk size is.  A service that has no entry in
    [service_ranges] makes both raise [KeyError], again before any call. *)
Theorem manage_nothing_to_do (client : Backend) (fuel : nat)
    (vpc_prefix_lists : gmap string PrefixListInfo)
    (waf_ipsets : gmap string IPSetSummary)
    (service_name ipset_scope : string) (should_summarize : bool)
    (chunk_size : Z) (st : Store) :
  (forall r,
      Dict.get (service_ranges st) service_name = Some r ->
      ip_list (ipv4 r) = [] -> ip_list (ipv6 r) = [] ->
      manage_prefix_list client fuel vpc_prefix_lists service_name should_summarize
        chunk_size st = (Ok (mkNames [] []), st)
      /\ manage_waf_ipset client waf_ipsets service_name ipset_scope should_summarize st
         = (Ok (mkNames [] []), st))
  /\ (Dict.get (service_ranges st) service_name = None ->
      manage_prefix_list client fuel vpc_prefix_lists service_name should_summarize
        chunk_size st = (Raise KeyError, st)
      /\ manage_waf_ipset client waf_ipsets service_name ipset_scope should_summarize st
         = (Raise KeyError, st)).
Proof.
  split.
  - intros r Hg H4 H6.
    pose proof (address_list_of_empty service_name V4 should_summarize st r Hg H4) as E4.
    pose proof (address_list_of_empty service_name V6 should_summarize st r Hg H6) as E6.
    split.
    + unfold manage_prefix_list. cbn [mfoldl]. unfold manage_prefix_list_version.
      unfold bind. rewrite E4. cbn beta iota delta [ret]. rewrite E6. reflexivity.
    + unfold manage_waf_ipset. cbn [mfoldl]. unfold manage_waf_ipset_version.
      unfold bind. rewrite E4. cbn beta iota delta [ret]. rewrite E6. reflexivity.
  - intros Hg.
    pose proof (address_list_of_missing service_name V4 should_summarize st Hg) as E4.
    split.
    + unfold manage_prefix_list. cbn [mfoldl]. unfold manage_prefix_list_version.
      unfold bind. rewrite E4. reflexivity.
    + unfold manage_waf_ipset. cbn [mfoldl]. unfold manage_waf_ipset_version.
      unfold bind. rewrite E4. reflexivity.
Qed.

Lemma manage_nothing_to_do_witness :
  let st := mkStore [] [("S3", mkServiceIPRange (mkIPList [] []) (mkIPList [] []))]
              ∅ ∅ (mkResourceNames (mkNames [] []) (mkNames [] [])) in
  manage_prefix_list (fun _ _ => Throws KeyError) 5 ∅ "S3" true 998 st
    = (Ok (mkNames [] []), st)
  /\ manage_waf_ipset (fun _ _ => Throws KeyError) ∅ "S3" "REGIONAL" true st
     = (Ok (mkNames [] []), st).
Proof.
  intros st.
  apply (proj1 (manage_nothing_to_do (fun _ _ => Throws KeyError) 5 ∅ ∅
                  "S3" "REGIONAL" true 998 st)
           (mkServiceIPRange (mkIPList [] []) (mkIPList [] [])));
    reflexivity.
Defined.

(** X15.  [manage_prefix_list] with a chunk size below one never reaches
    EC2: no call is made, nothing is slept or logged, and as soon as a
    non-empty list is reached unsummarized the [ValueError] of [batched]
    is what it raises. *)
Theorem manage_prefix_list_chunk_size (client : Backend) (fuel : nat)
    (vpc_prefix_lists : gmap string PrefixListInfo) (service_name : string)
    (should_summarize : bool) (chunk_size : Z) (st : Store)
    (Hsize : chunk_size < 1) :
  (forall res st',
      manage_prefix_list client fuel vpc_prefix_lists service_name should_summarize
        chunk_size st = (res, st') ->
      trace st' = trace st)
  /\ (forall r,
      Dict.get (service_ranges st) service_name = Some r ->
      ip_list (ipv4 r) <> [] \/ ip_list (ipv6 r) <> [] ->
      manage_prefix_list client fuel vpc_prefix_lists service_name false chunk_size st
        = (Raise ValueError, st)).
Proof.
  assert (Hb : forall l : list string, batched l chunk_size = Raise ValueError).
  { intros l. unfold batched. destruct (chunk_size <? 1) eqn:E; [reflexivity|].
    apply Z.ltb_ge in E. lia. }
  assert (Hv : forall names v s res s',
             manage_prefix_list_version client fuel vpc_prefix_lists service_name
               should_summarize chunk_size names v s = (res, s') ->
             trace s' = trace s).
  { intros names v s res s'. unfold manage_prefix_list_version. unfold bind at 1.
    destruct (address_list_of service_name v should_summarize s) as [[[al|]|e|] s1] eqn:E;
      pose proof (address_list_of_trace _ _ _ _ _ _ E) as Ht.
    - unfold bind, lift. rewrite Hb. intros [= <- <-]. exact Ht.
    - intros [= <- <-]. exact Ht.
    - intros [= <- <-]. exact Ht.
    - intros [= <- <-]. exact Ht. }
  split.
  - intros res st'. unfold manage_prefix_list. cbn [mfoldl]. unfold bind at 1.
    destruct (manage_prefix_list_version client fuel vpc_prefix_lists service_name
                should_summarize chunk_size (mkNames [] []) V4 st) as [[n4|e|] s4] eqn:E4;
      pose proof (Hv _ _ _ _ _ E4) as H4; [|intros [= <- <-]; exact H4..].
    unfold bind at 1.
    destruct (manage_prefix_list_version client fuel vpc_prefix_lists service_name
                should_summarize chunk_size n4 V6 s4) as [[n6|e|] s6] eqn:E6;
      pose proof (Hv _ _ _ _ _ E6) as H6; intros [= <- <-]; congruence.
  - intros r Hg Hne. unfold manage_prefix_list. cbn [mfoldl].
    unfold manage_prefix_list_version. unfold bind.
    destruct (ip_list (ipv4 r)) as [|a l] eqn:H4.
    + rewrite (address_list_of_empty service_name V4 false st r Hg H4).
      cbn beta iota delta [ret].
      rewrite (address_list_of_plain service_name V6 st r Hg)
        by (destruct Hne as [Hne|Hne]; [contradiction|exact Hne]).
      unfold lift. rewrite Hb. reflexivity.
    + rewrite (address_list_of_plain service_name V4 st r Hg)
        by (cbn [range_of]; rewrite H4; discriminate).
      unfold lift. rewrite Hb. reflexivity.
Qed.

Lemma manage_prefix_list_chunk_size_witness :
  let st := mkStore [] [("S3", mkServiceIPRange (mkIPList ["10.0.0.0/8"] [])
                                 (mkIPList [] []))]
              ∅ ∅ (mkResourceNames (mkNames [] []) (mkNames [] [])) in
  manage_prefix_list (fun _ _ => Throws KeyError) 5 ∅ "S3" false 0 st
    = (Raise ValueError, st).
Proof.
  intros st.
  apply (proj2 (manage_prefix_list_chunk_size (fun _ _ => Throws KeyError) 5 ∅
                  "S3" false 0 st ltac:(lia))
           (mkServiceIPRange (mkIPList ["10.0.0.0/8"] []) (mkIPList [] []))).
  - reflexivity.
  - left. discriminate.
Defined.

Lemma handlers_off (client : Backend) (fuel : nat) (config_service : ConfigService)
    (st : Store) :
  (prefix_list_enabled config_service = false ->
   handle_prefix_list client fuel config_service st = (Ok tt, st))
  /\ (waf_ipset_enabled config_service = false ->
      handle_waf_ipset client fuel config_service st = (Ok tt, st)).
Proof.
  split; intros Hoff.
  - unfold handle_prefix_list. unfold bind at 1. cbn [get_store].
    destruct (negb (Dict.mem (service_ranges st) (Name config_service))); [reflexivity|].
    unfold prefix_list_enabled in Hoff.
    destruct (PrefixList config_service) as [pl|]; [|reflexivity].
    apply negb_false_iff, bool_decide_eq_true in Hoff. rewrite Hoff. reflexivity.
  - unfold handle_waf_ipset. unfold bind at 1. cbn [get_store].
    destruct (negb (Dict.mem (service_ranges st) (Name config_service))); [reflexivity|].
    unfold waf_ipset_enabled in Hoff.
    destruct (WafIPSet config_service) as [w|]; [|reflexivity].
    apply negb_false_iff, bool_decide_eq_true in Hoff. rewrite Hoff. reflexivity.
Qed.

Lemma handlers_off_loop {A} (handle : A -> M unit) (P : A -> Prop) (l : list A) (st : Store) :
  (forall x s, P x -> handle x s = (Ok tt, s)) ->
  Forall P l ->
  mfoldl (fun _ x => handle x) tt l st = (Ok tt, st).
Proof.
  intros Hh Hl. induction Hl as [|x l Hx _ IH]; [reflexivity|].
  cbn [mfoldl]. unfold bind. rewrite (Hh x st Hx). exact IH.
Qed.

Lemma manage_resources_off (client : Backend) (fuel : nat)
    (config_services : ConfigServices) (sr : service_ranges_t) (st : Store) :
  Forall (fun c => prefix_list_enabled c = false /\ waf_ipset_enabled c = false)
    (Services config_services) ->
  manage_resources client fuel config_services sr st
  = (Ok empty_names, mkStore (trace st) sr ∅ ∅ empty_names).
Proof.
  intros Hoff. unfold manage_resources.
  unfold bind at 1. cbn [set_service_ranges].
  unfold bind at 1. cbn [set_resource_names].
  unfold bind at 1. cbn [set_vpc_prefix_lists].
  cbn [trace service_ranges vpc_prefix_lists waf_ipsets_by_scope resource_names].
  unfold bind at 1.
  rewrite (handlers_off_loop (handle_prefix_list client fuel)
             (fun c => prefix_list_enabled c = false /\ waf_ipset_enabled c = false));
    [|intros x s [H _]; exact (proj1 (handlers_off client fuel x s) H)|exact Hoff].
  unfold bind at 1. cbn [set_waf_ipsets_by_scope].
  cbn [trace service_ranges vpc_prefix_lists waf_ipsets_by_scope resource_names].
  unfold bind at 1.
  rewrite (handlers_off_loop (handle_waf_ipset client fuel)
             (fun c => prefix_list_enabled c = false /\ waf_ipset_enabled c = false));
    [|intros x s [_ H]; exact (proj2 (handlers_off client fuel x s) H)|exact Hoff].
  reflexivity.
Qed.

(** X16.  When [services.json] enables neither prefix lists nor WAF IP
    sets for any service (the key is missing or [Enable] is false), a run
    of [lambda_handler] whose setup succeeds makes no call, sleeps and logs
    nothing, and returns the four empty name lists, whatever address ranges
    were extracted. *)
Theorem nothing_enabled_no_call (client : Backend) (fuel : nat) (setup : Setup)
    (config_services : ConfigServices) (sr : service_ranges_t) (st : Store) :
  setup_config setup = Ok config_services ->
  setup_phase setup = Ok sr ->
  Forall (fun c => prefix_list_enabled c = false /\ waf_ipset_enabled c = false)
    (Services config_services) ->
  exists st',
    lambda_handler client fuel setup st = (Ok empty_names, st')
    /\ trace st' = trace st.
Proof.
  intros Hc Hs Hoff. exists (mkStore (trace st) sr ∅ ∅ empty_names).
  rewrite (lambda_handler_after_setup client fuel setup st config_services sr Hc Hs).
  unfold try_except. rewrite (manage_resources_off client fuel config_services sr st Hoff).
  split; reflexivity.
Qed.

Lemma nothing_enabled_no_call_witness :
  exists st',
    lambda_handler (fun _ _ => Throws KeyError) 5
      (Build_Setup
         (Ok (Build_ConfigServices
                [Build_ConfigService "S3" (Some []) None
                   (Some (Build_WafIPSetConfig (Some false) (Some true) (Some ["REGIONAL"])))]))
         (Ok ("https://ip-ranges.amazonaws.com/ip-ranges.json", "test-hash"))
         (Ok (Build_IpRanges
                [Build_Prefix "S3" "eu-west-1" "52.92.0.0/17"] [])))
      initial_store = (Ok empty_names, st')
    /\ trace st' = trace initial_store.
Proof.
  eapply nothing_enabled_no_call.
  - reflexivity.
  - vm_compute. reflexivity.
  - repeat constructor.
Defined.

